(** * extratorDeAudio: a shallow embedding of the job engine

    The development follows the Go sources:

    - [internal/extractor/extractor.go]: the ffmpeg and whisper adapters,
      [codecAndQualityArgs], [compactLogLine], [OutputName];
    - [internal/handlers/handlers.go]: the registry of jobs, the two stage
      triggers, the workers, the reaper and the sanitizers;
    - [internal/models]: [ExtractionJob], [ProgressEvent], [JobStatus].

    Go strings are byte strings ([string], one [ascii] per byte).  The
    functions of Go's standard library that the program calls ([strings],
    [unicode], [unicode/utf8], [path/filepath]) are modelled first, on
    bytes, with UTF-8 decoding where Go decodes.  Go's [float64] is IEEE
    binary64, taken from [SpecFloat] at precision 53.  Go's [int] is
    modelled by [Z]; every [int] of the program stays far below 2^63. *)

From Stdlib Require Import ZArith Lia Bool Ascii String List.
From Stdlib Require Import Floats.SpecFloat.
From Stdlib Require Import Decimal DecimalString DecimalPos DecimalZ.
From stdpp Require Import base gmap strings list fin_maps relations.

Open Scope Z_scope.

(** ** Unicode case tables

    [unicode.ToLower] is table driven for runes above ASCII.  The tables are
    data of the Go distribution, not of this repository: they are a
    parameter of the model. *)
Class CaseTable := { lowerTable : Z -> Z }.

(** The table that maps no rune above ASCII (used to run the model). *)
Definition asciiCase : CaseTable := {| lowerTable := fun r => r |}.

(** ** unicode/utf8 *)
Module utf8.

Definition RuneError : Z := 0xFFFD.
Definition RuneSelf : Z := 0x80.

Definition byteVal (c : ascii) : Z := Z.of_N (N_of_ascii c).
Definition byteOf (z : Z) : ascii := ascii_of_N (Z.to_N z).

Definition between (lo hi : Z) (c : ascii) : bool :=
  (lo <=? byteVal c) && (byteVal c <=? hi).

(** [acceptRanges]: the range of the second byte, by the first. *)
Definition acceptLo (x0 : Z) : Z :=
  if x0 =? 0xE0 then 0xA0 else if x0 =? 0xF0 then 0x90 else 0x80.
Definition acceptHi (x0 : Z) : Z :=
  if x0 =? 0xED then 0x9F else if x0 =? 0xF4 then 0x8F else 0xBF.

(** [utf8.DecodeRuneInString]: the first rune of [s] and its width in
    bytes; [(RuneError, 1)] for a byte that starts no well-formed
    sequence, [(RuneError, 0)] for the empty string. *)
Definition DecodeRuneInString (s : string) : Z * nat :=
  match s with
  | EmptyString => (RuneError, 0%nat)
  | String c0 s1 =>
    let x0 := byteVal c0 in
    if x0 <? RuneSelf then (x0, 1%nat)
    else if (x0 <? 0xC2) || (0xF4 <? x0) then (RuneError, 1%nat)
    else
      match s1 with
      | EmptyString => (RuneError, 1%nat)
      | String c1 s2 =>
        if negb (between (acceptLo x0) (acceptHi x0) c1) then (RuneError, 1%nat)
        else if x0 <? 0xE0 then
          ((x0 mod 32) * 64 + byteVal c1 mod 64, 2%nat)
        else
          match s2 with
          | EmptyString => (RuneError, 1%nat)
          | String c2 s3 =>
            if negb (between 0x80 0xBF c2) then (RuneError, 1%nat)
            else if x0 <? 0xF0 then
              ((x0 mod 16) * 4096 + (byteVal c1 mod 64) * 64
               + byteVal c2 mod 64, 3%nat)
            else
              match s3 with
              | EmptyString => (RuneError, 1%nat)
              | String c3 _ =>
                if negb (between 0x80 0xBF c3) then (RuneError, 1%nat)
                else
                  ((x0 mod 8) * 262144 + (byteVal c1 mod 64) * 4096
                   + (byteVal c2 mod 64) * 64 + byteVal c3 mod 64, 4%nat)
              end
          end
      end
  end.

Fixpoint takeBytes (n : nat) (s : string) : string :=
  match n, s with
  | S n', String c s' => String c (takeBytes n' s')
  | _, _ => EmptyString
  end.

Fixpoint dropBytes (n : nat) (s : string) : string :=
  match n, s with
  | S n', String _ s' => dropBytes n' s'
  | _, _ => s
  end.

(** The loop [for _, r := range s]: [skip] bytes of the rune decoded last
    are still to be passed over. *)
Fixpoint chunksFrom (skip : nat) (s : string) : list (Z * string) :=
  match s with
  | EmptyString => []
  | String _ s' =>
    match skip with
    | S k => chunksFrom k s'
    | O =>
      let d := DecodeRuneInString s in
      (fst d, takeBytes (snd d) s) :: chunksFrom (Nat.pred (snd d)) s'
    end
  end.

(** [chunks s] is what ranging over [s] walks through: each rune with
    the bytes it was decoded from. *)
Definition chunks (s : string) : list (Z * string) := chunksFrom 0 s.

(** The bytes of a sequence of chunks. *)
Definition bytes (l : list (Z * string)) : string :=
  fold_right (fun c acc => snd c +:+ acc) EmptyString l.

(** [utf8.AppendRune]: an invalid rune is written as [RuneError]. *)
Definition EncodeRune (r : Z) : string :=
  let three (r : Z) :=
    String (byteOf (0xE0 + r / 4096))
      (String (byteOf (0x80 + (r / 64) mod 64))
         (String (byteOf (0x80 + r mod 64)) EmptyString)) in
  if (r <? 0) || (0x10FFFF <? r) || ((0xD800 <=? r) && (r <=? 0xDFFF))
  then three RuneError
  else if r <? 0x80 then String (byteOf r) EmptyString
  else if r <? 0x800 then
    String (byteOf (0xC0 + r / 64)) (String (byteOf (0x80 + r mod 64)) EmptyString)
  else if r <? 0x10000 then three r
  else
    String (byteOf (0xF0 + r / 262144))
      (String (byteOf (0x80 + (r / 4096) mod 64))
         (String (byteOf (0x80 + (r / 64) mod 64))
            (String (byteOf (0x80 + r mod 64)) EmptyString))).

End utf8.

(** ** unicode *)
Module unicode.

(** [unicode.IsSpace]: the Latin-1 spaces, then the [White_Space] table. *)
Definition IsSpace (r : Z) : bool :=
  if (0 <=? r) && (r <=? 0xFF) then
    (r =? 9) || (r =? 10) || (r =? 11) || (r =? 12) || (r =? 13) || (r =? 32)
    || (r =? 0x85) || (r =? 0xA0)
  else
    (r =? 0x1680) || ((0x2000 <=? r) && (r <=? 0x200A)) || (r =? 0x2028)
    || (r =? 0x2029) || (r =? 0x202F) || (r =? 0x205F) || (r =? 0x3000).

(** [unicode.ToLower]: arithmetic on ASCII, the case tables above it. *)
Definition ToLower `{CaseTable} (r : Z) : Z :=
  if r <=? 0x7F then (if (65 <=? r) && (r <=? 90) then r + 32 else r)
  else lowerTable r.

End unicode.

(** ** strings *)
Module strings.

(** [strings.Map]: a negative result drops the rune. *)
Definition Map (mapping : Z -> Z) (s : string) : string :=
  fold_right
    (fun c acc =>
       let r := mapping (fst c) in
       if r <? 0 then acc else utf8.EncodeRune r +:+ acc)
    EmptyString (utf8.chunks s).

Fixpoint isASCII (s : string) : bool :=
  match s with
  | EmptyString => true
  | String c s' => (utf8.byteVal c <? utf8.RuneSelf) && isASCII s'
  end.

Definition lowerByte (c : ascii) : ascii :=
  if utf8.between 65 90 c then utf8.byteOf (utf8.byteVal c + 32) else c.

Fixpoint mapBytes (f : ascii -> ascii) (s : string) : string :=
  match s with
  | EmptyString => EmptyString
  | String c s' => String (f c) (mapBytes f s')
  end.

(** [strings.ToLower]: bytewise on an all-ASCII string, else
    [Map(unicode.ToLower, s)]. *)
Definition ToLower `{CaseTable} (s : string) : string :=
  if isASCII s then mapBytes lowerByte s else Map unicode.ToLower s.

Fixpoint dropSpaces (l : list (Z * string)) : list (Z * string) :=
  match l with
  | c :: l' => if unicode.IsSpace (fst c) then dropSpaces l' else l
  | [] => []
  end.

(** [strings.TrimSpace]: leading and trailing white-space runes go. *)
Definition TrimSpace (s : string) : string :=
  utf8.bytes (rev (dropSpaces (rev (dropSpaces (utf8.chunks s))))).

Fixpoint HasPrefix (s prefix : string) : bool :=
  match prefix, s with
  | EmptyString, _ => true
  | String p prefix', String c s' => Ascii.eqb p c && HasPrefix s' prefix'
  | String _ _, EmptyString => false
  end.

Definition TrimPrefix (s prefix : string) : string :=
  if HasPrefix s prefix then utf8.dropBytes (String.length prefix) s else s.

(** [strings.Split(s, sep)] for a one-byte separator. *)
Fixpoint Split (s : string) (sep : ascii) : list string :=
  match s with
  | EmptyString => [EmptyString]
  | String c s' =>
    if Ascii.eqb c sep then EmptyString :: Split s' sep
    else match Split s' sep with
         | w :: ws => String c w :: ws
         | [] => [String c EmptyString]
         end
  end.

(** [strings.ReplaceAll(s, old, new)] for one-byte [old] and [new]. *)
Definition ReplaceAll (s : string) (old new : ascii) : string :=
  mapBytes (fun c => if Ascii.eqb c old then new else c) s.

End strings.

(** ** path/filepath (Unix: the separator is the slash) *)
Module filepath.

Definition Separator : ascii := "/"%char.

Fixpoint stripTrailing (s : string) : string :=
  match s with
  | EmptyString => EmptyString
  | String c s' =>
    match stripTrailing s' with
    | EmptyString => if Ascii.eqb c Separator then EmptyString else String c EmptyString
    | t => String c t
    end
  end.

(** The part after the last separator. *)
Fixpoint lastElement (s : string) : string :=
  match s with
  | EmptyString => EmptyString
  | String c s' =>
    if existsb (Ascii.eqb Separator) (list_ascii_of_string s') then lastElement s'
    else if Ascii.eqb c Separator then s' else s
  end.

(** [filepath.Base]. *)
Definition Base (path : string) : string :=
  if String.eqb path EmptyString then "."
  else
    let path := lastElement (stripTrailing path) in
    if String.eqb path EmptyString then String Separator EmptyString else path.

(** One element of the path met by the loop of [Clean].  The state is the
    number of [..] elements the result starts with and the elements written
    after them, the last one first: an empty element and [.] are passed
    over; [..] takes back the last element written, or, when there is none,
    is dropped in a rooted path and written in another; any other element
    is written. *)
Definition cleanStep (rooted : bool) (st : nat * list string) (e : string)
  : nat * list string :=
  if String.eqb e "" || String.eqb e "." then st
  else if String.eqb e ".." then
    match snd st with
    | _ :: stack => (fst st, stack)
    | [] => if rooted then st else (S (fst st), [])
    end
  else (fst st, e :: snd st).

(** [filepath.Clean]: the elements between the separators, cleaned and
    joined by single separators after the root of a rooted path; the empty
    result is [.]. *)
Definition Clean (path : string) : string :=
  if String.eqb path "" then "."
  else
    let rooted := strings.HasPrefix path (String Separator "") in
    let st := fold_left (cleanStep rooted) (strings.Split path Separator)
                (0%nat, []) in
    let out := (if rooted then String Separator "" else "")
               +:+ String.concat (String Separator "")
                     (repeat ".." (fst st) ++ rev (snd st)) in
    if String.eqb out "" then "." else out.

(** [filepath.Join] of two elements: from the first element that is not
    empty on, they are joined by the separator and cleaned. *)
Definition Join (dir name : string) : string :=
  if negb (String.eqb dir "") then Clean (dir +:+ String Separator name)
  else if negb (String.eqb name "") then Clean name
  else "".

End filepath.

(** ** float64

    IEEE binary64 as [SpecFloat] gives it.  [toInt] is Go's conversion
    [int(f)]: it truncates toward zero; for a NaN and for a value that no
    [int] holds the Go specification leaves the result to the
    implementation, and the model takes the amd64 one (the image is built
    with GOARCH=amd64), where CVTTSD2SQ answers the smallest [int]. *)
Module float64.

Definition prec : Z := 53.
Definition emax : Z := 1024.

Definition ofZ (z : Z) : spec_float := binary_normalize prec emax z 0 false.
Definition zero : spec_float := S754_zero false.
Definition div : spec_float -> spec_float -> spec_float := SFdiv prec emax.
Definition mul : spec_float -> spec_float -> spec_float := SFmul prec emax.
Definition ltb : spec_float -> spec_float -> bool := SFltb.

Definition minInt : Z := - 2 ^ 63.

Definition trunc (s : bool) (m : positive) (e : Z) : Z :=
  let a := if 0 <=? e then Zpos m * 2 ^ e else Zpos m / 2 ^ (- e) in
  if s then - a else a.

Definition toInt (f : spec_float) : Z :=
  match f with
  | S754_zero _ => 0
  | S754_finite s m e =>
    let v := trunc s m e in
    if (minInt <=? v) && (v <? 2 ^ 63) then v else minInt
  | _ => minInt
  end.

End float64.

(** ** strconv: [ParseFloat(s, 64)] is a parameter of the model, [None]
    standing for a conversion error. *)
Class Strconv := { ParseFloat : string -> option spec_float }.

(** A [ParseFloat] that reads unsigned decimal integers and nothing else
    (used to run the model). *)
Fixpoint decimalValue (s : string) (acc : Z) : option Z :=
  match s with
  | EmptyString => Some acc
  | String c s' =>
    let x := utf8.byteVal c in
    if (48 <=? x) && (x <=? 57) then decimalValue s' (10 * acc + (x - 48))
    else None
  end.

Definition decimalStrconv : Strconv :=
  {| ParseFloat := fun s =>
       if String.eqb s "" then None
       else option_map float64.ofZ (decimalValue s 0) |}.

(** ** Go errors

    [wrapError] is what [fmt.Errorf] builds with the verb [%w];
    [foreign] is an error made outside the repository (os/exec, bufio). *)
Inductive error :=
| errorString (msg : string)
| wrapError (msg : string) (inner : error)
| Canceled
| DeadlineExceeded
| foreign (msg : string).

Module errors.

(** [err.Error()]. *)
Fixpoint Error (e : error) : string :=
  match e with
  | errorString msg => msg
  | wrapError msg inner => msg +:+ Error inner
  | Canceled => "context canceled"
  | DeadlineExceeded => "context deadline exceeded"
  | foreign msg => msg
  end.

Definition same (a b : error) : bool :=
  match a, b with
  | Canceled, Canceled => true
  | DeadlineExceeded, DeadlineExceeded => true
  | _, _ => false
  end.

(** [errors.Is] against one of the two sentinels of [context]. *)
Fixpoint Is (e target : error) : bool :=
  same e target ||
  match e with
  | wrapError _ inner => Is inner target
  | _ => false
  end.

End errors.

(** An error of the cancellation kind: the context's own. *)
Definition isCancellation (e : error) : bool :=
  errors.Is e Canceled || errors.Is e DeadlineExceeded.

(** ** internal/extractor *)
Module extractor.

(** One call of a [ProgressCallback]. *)
Record Call := { percent : Z; status : string; message : string }.

Section Adapters.
Context `{CaseTable} `{Strconv}.

Definition codecAndQualityArgs (format quality : string) : list string :=
  let format := strings.ToLower (strings.TrimSpace format) in
  let quality := strings.ToLower (strings.TrimSpace quality) in
  let format := if String.eqb format "" then "mp3" else format in
  let args := ["-f"; format] in
  if String.eqb format "mp3" then
    let args := args ++ ["-codec:a"; "libmp3lame"] in
    if String.eqb quality "low" then args ++ ["-b:a"; "96k"]
    else if String.eqb quality "high" then args ++ ["-b:a"; "320k"]
    else if String.eqb quality "original" then args ++ ["-q:a"; "0"]
    else args ++ ["-b:a"; "192k"]
  else if String.eqb format "wav" then
    args ++ ["-codec:a"; "pcm_s16le"]
  else if String.eqb format "aac" then
    let args := args ++ ["-codec:a"; "aac"] in
    if String.eqb quality "low" then args ++ ["-b:a"; "96k"]
    else if String.eqb quality "high" then args ++ ["-b:a"; "320k"]
    else if String.eqb quality "original" then args ++ ["-b:a"; "384k"]
    else args ++ ["-b:a"; "192k"]
  else if String.eqb format "flac" then
    let args := args ++ ["-codec:a"; "flac"] in
    if String.eqb quality "high" || String.eqb quality "original"
    then args ++ ["-compression_level"; "12"]
    else args ++ ["-compression_level"; "8"]
  else if String.eqb format "ogg" then
    let args := args ++ ["-codec:a"; "libvorbis"] in
    if String.eqb quality "low" then args ++ ["-qscale:a"; "2"]
    else if String.eqb quality "high" || String.eqb quality "original"
    then args ++ ["-qscale:a"; "8"]
    else args ++ ["-qscale:a"; "5"]
  else ["-codec:a"; "copy"].

Definition OutputName (jobID format : string) : string :=
  let format := strings.TrimPrefix (strings.ToLower format) "." in
  let format := if String.eqb format "" then "mp3" else format in
  filepath.Base jobID +:+ "." +:+ format.

(** The loop of [compactLogLine], from the last line down. *)
Fixpoint lastLine (rlines : list string) : string :=
  match rlines with
  | [] => "unknown whisper error"
  | l :: rest =>
    let line := strings.TrimSpace l in
    if negb (String.eqb line "") then
      if (220 <? Z.of_nat (String.length line))
      then utf8.takeBytes 220 line +:+ "..."
      else line
    else lastLine rest
  end.

Definition compactLogLine (v : string) : string :=
  lastLine (rev (strings.Split v "010"%char)).

(** [ctx.Err()]: [None] while the context is live. *)
Inductive ctxCause := causeCanceled | causeDeadline.

Definition causeErr (c : ctxCause) : error :=
  match c with causeCanceled => Canceled | causeDeadline => DeadlineExceeded end.

Record Service :=
  { whisperBin : string; whisperModel : string; whisperLanguage : string }.

Definition NewService (bin model language : string) : Service :=
  {| whisperBin := if String.eqb bin "" then "whisper-cli" else bin;
     whisperModel := model;
     whisperLanguage := if String.eqb language "" then "auto" else language |}.

(** What the outside world does during one [ExtractAudio]: the answer of
    ffprobe, the failures of the pipes and of the start, the lines the
    scanner reads on ffmpeg's standard output, the lines the goroutine of
    the standard error has stored by the time [lastErrLine] is read, the
    result of [cmd.Wait] and [ctx.Err()] at that time. *)
Record FfmpegRun :=
  { probeErr : option error;
    probeOut : string;
    stdoutPipeErr : option error;
    stderrPipeErr : option error;
    startErr : option error;
    stdoutLines : list string;
    scanErr : option error;
    stderrLines : list string;
    waitErr : option error;
    ctxAtWait : option ctxCause }.

Definition probeDuration (run : FfmpegRun) : spec_float * option error :=
  match probeErr run with
  | Some err => (float64.zero, Some (wrapError "ffprobe error: " err))
  | None =>
    let val := strings.TrimSpace (probeOut run) in
    if String.eqb val "" then
      (float64.zero, Some (errorString "empty duration response"))
    else
      match ParseFloat val with
      | None => (float64.zero,
                 Some (wrapError "invalid duration from ffprobe: "
                                 (foreign "strconv.ParseFloat")))
      | Some dur => (dur, None)
      end
  end.

Definition ffmpegArgs (inputPath outputPath format quality : string)
  : list string :=
  (["-y"; "-i"; inputPath; "-vn"] ++ codecAndQualityArgs format quality)
  ++ ["-progress"; "pipe:1"; "-nostats"; outputPath].

(** The goroutine of the standard error: the last non-empty line. *)
Definition lastErrLine (lines : list string) : string :=
  fold_left
    (fun last text =>
       let line := strings.TrimSpace text in
       if negb (String.eqb line "") then line else last)
    lines "".

(** [int(ratio * 100)] of a progress marker. *)
Definition ratioPercent (outMs duration : spec_float) : Z :=
  let currentSeconds := float64.div outMs (float64.ofZ 1000000) in
  let ratio := float64.div currentSeconds duration in
  let ratio := if float64.ltb ratio float64.zero then float64.zero else ratio in
  let ratio := if float64.ltb (float64.ofZ 1) ratio then float64.ofZ 1 else ratio in
  float64.toInt (float64.mul ratio (float64.ofZ 100)).

(** One turn of the loop over ffmpeg's standard output: the state is
    [progress] and the calls of the callback made so far. *)
Definition scanLine (duration : spec_float) (st : Z * list Call) (text : string)
  : Z * list Call :=
  let line := strings.TrimSpace text in
  if String.eqb line "" then st
  else
    let st :=
      if strings.HasPrefix line "out_time_ms=" then
        let msStr := strings.TrimPrefix line "out_time_ms=" in
        if float64.ltb float64.zero duration then
          match ParseFloat msStr with
          | Some outMs =>
            let progress := ratioPercent outMs duration in
            (progress,
             snd st ++ [{| percent := progress; status := "processing";
                           message := "extraindo áudio" |}])
          | None => st
          end
        else st
      else st in
    if strings.HasPrefix line "progress=end" then
      (100, snd st ++ [{| percent := 100; status := "processing";
                          message := "finalizando arquivo" |}])
    else st.

(** [ExtractAudio]: the calls of the callback, in order, and the error
    returned ([None] for nil). *)
Definition ExtractAudio (run : FfmpegRun) : list Call * option error :=
  let duration := fst (probeDuration run) in
  match stdoutPipeErr run with
  | Some err => ([], Some (wrapError "failed to create ffmpeg stdout pipe: " err))
  | None =>
  match stderrPipeErr run with
  | Some err => ([], Some (wrapError "failed to create ffmpeg stderr pipe: " err))
  | None =>
  let calls := [{| percent := 0; status := "processing";
                   message := "iniciando extração" |}] in
  match startErr run with
  | Some err => (calls, Some (wrapError "failed to start ffmpeg: " err))
  | None =>
  let calls := snd (fold_left (scanLine duration) (stdoutLines run) (0, calls)) in
  match scanErr run with
  | Some err => (calls, Some (wrapError "failed while reading ffmpeg output: " err))
  | None =>
  match waitErr run with
  | Some err =>
    match ctxAtWait run with
    | Some causeCanceled => (calls, Some Canceled)
    | _ =>
      let last := lastErrLine (stderrLines run) in
      if negb (String.eqb last "") then
        (calls, Some (errorString ("ffmpeg failed: " +:+ last)))
      else (calls, Some (wrapError "ffmpeg failed: " err))
    end
  | None =>
    (calls ++ [{| percent := 100; status := "completed";
                  message := "extração concluída" |}], None)
  end end end end end.

(** How one [TranscribeAudio] ends: the context is done, or the process
    has exited with the given result and the given captured output. *)
Inductive WhisperEnd :=
| ctxDone (cause : ctxCause)
| exited (err : option error) (output : string).

(** The ticker fires [ticks] times before the end is selected. *)
Record WhisperRun :=
  { whisperStartErr : option error; ticks : nat; whisperEnd : WhisperEnd }.

Fixpoint ticker (n : nat) (progress : Z) : list Call :=
  match n with
  | O => []
  | S n' =>
    let progress := if progress <? 90 then progress + 7 else progress in
    {| percent := progress; status := "processing";
       message := "transcrevendo áudio" |} :: ticker n' progress
  end.

Definition whisperArgs (s : Service) (inputAudioPath outputBasePath : string)
  : list string :=
  ["-m"; whisperModel s; "-f"; inputAudioPath; "-of"; outputBasePath;
   "-otxt"; "-osrt"; "-l"; whisperLanguage s].

Definition TranscribeAudio (s : Service) (run : WhisperRun)
  : list Call * option error :=
  if String.eqb (whisperModel s) "" then
    ([], Some (errorString "whisper model is not configured"))
  else
    let calls := [{| percent := 1; status := "processing";
                     message := "iniciando transcrição" |}] in
    match whisperStartErr run with
    | Some err => (calls, Some (wrapError "failed to start whisper-cli: " err))
    | None =>
      let calls := calls ++ ticker (ticks run) 5 in
      match whisperEnd run with
      | ctxDone cause => (calls, Some (causeErr cause))
      | exited (Some err) output =>
        let logOut := strings.TrimSpace output in
        if negb (String.eqb logOut "") then
          (calls, Some (errorString ("whisper-cli failed: " +:+ compactLogLine logOut)))
        else (calls, Some (wrapError "whisper-cli failed: " err))
      | exited None _ =>
        (calls ++ [{| percent := 100; status := "completed";
                      message := "transcrição concluída" |}], None)
      end
    end.

End Adapters.
End extractor.

(** ** internal/models

    A [time.Time] is an instant in nanoseconds, a [time.Duration] a number
    of nanoseconds.  The fields of [ProgressEvent] carry the prefix [Ev]
    (Rocq has one name space for the fields of all records). *)
Module models.

Inductive JobStatus :=
| StatusNotStarted
| StatusUploaded
| StatusQueued
| StatusProcessing
| StatusCompleted
| StatusFailed.

Definition JobStatus_eqb (a b : JobStatus) : bool :=
  match a, b with
  | StatusNotStarted, StatusNotStarted | StatusUploaded, StatusUploaded
  | StatusQueued, StatusQueued | StatusProcessing, StatusProcessing
  | StatusCompleted, StatusCompleted | StatusFailed, StatusFailed => true
  | _, _ => false
  end.

Record ExtractionJob :=
  { ID : string;
    InputFileName : string;
    InputPath : string;
    OutputPath : string;
    OutputName : string;
    Format : string;
    Quality : string;
    Status : JobStatus;
    Progress : Z;
    Error : string;
    TranscriptStatus : JobStatus;
    TranscriptProgress : Z;
    TranscriptError : string;
    TranscriptTXTPath : string;
    TranscriptTXTName : string;
    TranscriptSRTPath : string;
    TranscriptSRTName : string;
    CreatedAt : Z;
    UpdatedAt : Z }.

Record ProgressEvent :=
  { EvID : string;
    EvStage : string;
    EvStatus : JobStatus;
    EvProgress : Z;
    EvMessage : string;
    EvDownloadURL : string;
    EvTranscriptTXTURL : string;
    EvTranscriptSRTURL : string;
    EvError : string }.

End models.

(** ** internal/handlers *)
Module handlers.
Import models.

Definition defaultMaxUploadBytes : Z := 500 * 1024 * 1024.

(** The part of [App] the handlers compute with: the directories, the
    upload limit and the registry [jobs] (guarded by [mu] in the source;
    every function below is one critical section or a sequence of them). *)
Record App :=
  { uploadsDir : string;
    outputsDir : string;
    maxUploadBytes : Z;
    jobs : gmap string ExtractionJob }.

Definition withJobs (a : App) (m : gmap string ExtractionJob) : App :=
  {| uploadsDir := uploadsDir a; outputsDir := outputsDir a;
     maxUploadBytes := maxUploadBytes a; jobs := m |}.

Definition NewApp (uploads outputs : string) (maxUpload : Z) : App :=
  {| uploadsDir := uploads; outputsDir := outputs;
     maxUploadBytes := if maxUpload <=? 0 then defaultMaxUploadBytes else maxUpload;
     jobs := ∅ |}.

(** What a handler answers. *)
Inductive Response :=
| httpError (msg : string) (code : Z)
| respondJSON (code : Z) (payload : list (string * string))
| redirect (url : string) (code : Z).

Definition StatusOK : Z := 200.
Definition StatusAccepted : Z := 202.
Definition StatusSeeOther : Z := 303.
Definition StatusBadRequest : Z := 400.
Definition StatusNotFound : Z := 404.
Definition StatusConflict : Z := 409.
Definition StatusInternalServerError : Z := 500.

(** The goroutine a trigger starts. *)
Inductive Task :=
| goRunExtraction (jobID : string)
| goRunTranscription (jobID : string).

(** The result of a handler: the registry after it, the answer, the events
    it passed to [broadcast], and the goroutine it started. *)
Record Outcome :=
  { app : App;
    response : Response;
    broadcasts : list ProgressEvent;
    started : option Task }.

Definition event (id stage : string) (st : JobStatus) (progress : Z)
  (msg : string) : ProgressEvent :=
  {| EvID := id; EvStage := stage; EvStatus := st; EvProgress := progress;
     EvMessage := msg; EvDownloadURL := ""; EvTranscriptTXTURL := "";
     EvTranscriptSRTURL := ""; EvError := "" |}.

Section Handlers.
Context `{CaseTable} `{Strconv}.

Definition sanitizeFormat (v : string) : string :=
  let n := strings.ToLower (strings.TrimSpace v) in
  if String.eqb n "mp3" || String.eqb n "wav" || String.eqb n "aac"
     || String.eqb n "flac" || String.eqb n "ogg"
  then strings.ToLower v
  else "mp3".

Definition sanitizeQuality (v : string) : string :=
  let n := strings.ToLower (strings.TrimSpace v) in
  if String.eqb n "low" || String.eqb n "medium" || String.eqb n "high"
     || String.eqb n "original"
  then strings.ToLower v
  else "medium".

(** The mapping of [sanitizeFileName], on runes. *)
Definition keepRune (r : Z) : Z :=
  if ((97 <=? r) && (r <=? 122)) || ((65 <=? r) && (r <=? 90))
     || ((48 <=? r) && (r <=? 57)) || (r =? 46) || (r =? 95) || (r =? 45)
  then r else 95.

Definition sanitizeFileName (name : string) : string :=
  let name := filepath.Base (strings.TrimSpace name) in
  let name := strings.ReplaceAll name " "%char "_"%char in
  let name := strings.Map keepRune name in
  if String.eqb name "" then "video.bin" else name.

(** What the request of an upload carries, and which of the steps of the
    handler that touch the file system fail. *)
Record UploadRequest :=
  { parseFails : bool;
    fileMissing : bool;
    headerSize : Z;
    headerFilename : string;
    formFormat : string;
    formQuality : string;
    mkdirFails : bool;
    createFails : bool;
    readFails : bool }.

(** [upload], with the identifier [newID()] drew and the time read. *)
Definition upload (a : App) (req : UploadRequest) (jobID : string) (now : Z)
  : Outcome :=
  let fail msg code :=
    {| app := a; response := httpError msg code; broadcasts := [];
       started := None |} in
  if parseFails req then fail "upload inválido ou maior que 500MB" StatusBadRequest
  else if fileMissing req then fail "arquivo de vídeo é obrigatório" StatusBadRequest
  else if maxUploadBytes a <? headerSize req
  then fail "arquivo excede o limite de 500MB" StatusBadRequest
  else
    let format := sanitizeFormat (formFormat req) in
    let quality := sanitizeQuality (formQuality req) in
    if mkdirFails req
    then fail "erro interno ao preparar upload" StatusInternalServerError
    else
      let safeName := sanitizeFileName (headerFilename req) in
      let inputPath := filepath.Join (uploadsDir a) (jobID +:+ "_" +:+ safeName) in
      if createFails req then fail "erro ao salvar upload" StatusInternalServerError
      else if readFails req
      then fail "erro ao gravar arquivo" StatusInternalServerError
      else
        let job :=
          {| ID := jobID; InputFileName := safeName; InputPath := inputPath;
             OutputPath := ""; OutputName := "";
             Format := format; Quality := quality;
             Status := StatusUploaded; Progress := 0; Error := "";
             TranscriptStatus := StatusNotStarted; TranscriptProgress := 0;
             TranscriptError := ""; TranscriptTXTPath := "";
             TranscriptTXTName := ""; TranscriptSRTPath := "";
             TranscriptSRTName := ""; CreatedAt := now; UpdatedAt := now |} in
        {| app := withJobs a (<[jobID := job]> (jobs a));
           response := redirect ("/job/" +:+ jobID) StatusSeeOther;
           broadcasts := []; started := None |}.

Definition startExtraction (a : App) (jobID : string) (now : Z) : Outcome :=
  let done r :=
    {| app := a; response := r; broadcasts := []; started := None |} in
  match jobs a !! jobID with
  | None => done (httpError "job não encontrado" StatusNotFound)
  | Some job =>
    match Status job with
    | StatusProcessing | StatusQueued =>
      done (respondJSON StatusAccepted [("status", "already_processing")])
    | StatusCompleted =>
      done (respondJSON StatusOK
              [("status", "already_completed");
               ("download_url", "/download/" +:+ ID job)])
    | _ =>
      let job' :=
        {| ID := ID job; InputFileName := InputFileName job;
           InputPath := InputPath job; OutputPath := OutputPath job;
           OutputName := OutputName job; Format := Format job;
           Quality := Quality job;
           Status := StatusQueued; Progress := 1; Error := "";
           TranscriptStatus := StatusNotStarted; TranscriptProgress := 0;
           TranscriptError := ""; TranscriptTXTPath := "";
           TranscriptTXTName := ""; TranscriptSRTPath := "";
           TranscriptSRTName := "";
           CreatedAt := CreatedAt job; UpdatedAt := now |} in
      {| app := withJobs a (<[jobID := job']> (jobs a));
         response := respondJSON StatusAccepted
                       [("status", "started"); ("job_id", jobID)];
         broadcasts := [event jobID "extraction" StatusQueued 1 "job em fila"];
         started := Some (goRunExtraction jobID) |}
    end
  end.

Definition startTranscription (a : App) (jobID : string) (now : Z) : Outcome :=
  let done r :=
    {| app := a; response := r; broadcasts := []; started := None |} in
  match jobs a !! jobID with
  | None => done (httpError "job não encontrado" StatusNotFound)
  | Some job =>
    if negb (JobStatus_eqb (Status job) StatusCompleted) then
      done (httpError "extração ainda não foi concluída" StatusConflict)
    else
      match TranscriptStatus job with
      | StatusQueued | StatusProcessing =>
        done (respondJSON StatusAccepted
                [("status", "transcription_already_processing")])
      | StatusCompleted =>
        done (respondJSON StatusOK
                [("status", "transcription_already_completed");
                 ("transcript_txt_url", "/transcript/" +:+ jobID +:+ "?format=txt");
                 ("transcript_srt_url", "/transcript/" +:+ jobID +:+ "?format=srt")])
      | _ =>
        let job' :=
          {| ID := ID job; InputFileName := InputFileName job;
             InputPath := InputPath job; OutputPath := OutputPath job;
             OutputName := OutputName job; Format := Format job;
             Quality := Quality job;
             Status := Status job; Progress := Progress job; Error := Error job;
             TranscriptStatus := StatusQueued; TranscriptProgress := 1;
             TranscriptError := "";
             TranscriptTXTPath := TranscriptTXTPath job;
             TranscriptTXTName := TranscriptTXTName job;
             TranscriptSRTPath := TranscriptSRTPath job;
             TranscriptSRTName := TranscriptSRTName job;
             CreatedAt := CreatedAt job; UpdatedAt := now |} in
        {| app := withJobs a (<[jobID := job']> (jobs a));
           response := respondJSON StatusAccepted
                         [("status", "transcription_started"); ("job_id", jobID)];
           broadcasts := [event jobID "transcription" StatusQueued 1
                            "transcrição em fila"];
           started := Some (goRunTranscription jobID) |}
      end
  end.

Definition getJob (a : App) (id : string) : option ExtractionJob :=
  jobs a !! id.

(** [updateJob]: [fn] runs on the live job under the lock; the transforms
    of the source read [time.Now()] inside, so [fn] takes the time. *)
Definition updateJob (a : App) (id : string)
  (fn : Z -> ExtractionJob -> ExtractionJob) (now : Z) : App :=
  match jobs a !! id with
  | Some job => withJobs a (<[id := fn now job]> (jobs a))
  | None => a
  end.

(** One step of a worker on the shared state: a call of [updateJob] or a
    call of [broadcast]. *)
Inductive Action :=
| Update (id : string) (fn : Z -> ExtractionJob -> ExtractionJob)
| Broadcast (evt : ProgressEvent).

Definition setFailed (msg : string) (now : Z) (j : ExtractionJob)
  : ExtractionJob :=
  {| ID := ID j; InputFileName := InputFileName j; InputPath := InputPath j;
     OutputPath := OutputPath j; OutputName := OutputName j;
     Format := Format j; Quality := Quality j;
     Status := StatusFailed; Progress := Progress j; Error := msg;
     TranscriptStatus := TranscriptStatus j;
     TranscriptProgress := TranscriptProgress j;
     TranscriptError := TranscriptError j;
     TranscriptTXTPath := TranscriptTXTPath j;
     TranscriptTXTName := TranscriptTXTName j;
     TranscriptSRTPath := TranscriptSRTPath j;
     TranscriptSRTName := TranscriptSRTName j;
     CreatedAt := CreatedAt j; UpdatedAt := now |}.

Definition failJob (jobID : string) (err : error) : list Action :=
  [Update jobID (setFailed (errors.Error err));
   Broadcast
     {| EvID := jobID; EvStage := "extraction"; EvStatus := StatusFailed;
        EvProgress := 0; EvMessage := "falha na extração"; EvDownloadURL := "";
        EvTranscriptTXTURL := ""; EvTranscriptSRTURL := "";
        EvError := errors.Error err |}].

Definition setTranscriptFailed (msg : string) (now : Z) (j : ExtractionJob)
  : ExtractionJob :=
  {| ID := ID j; InputFileName := InputFileName j; InputPath := InputPath j;
     OutputPath := OutputPath j; OutputName := OutputName j;
     Format := Format j; Quality := Quality j;
     Status := Status j; Progress := Progress j; Error := Error j;
     TranscriptStatus := StatusFailed; TranscriptProgress := 0;
     TranscriptError := msg;
     TranscriptTXTPath := TranscriptTXTPath j;
     TranscriptTXTName := TranscriptTXTName j;
     TranscriptSRTPath := TranscriptSRTPath j;
     TranscriptSRTName := TranscriptSRTName j;
     CreatedAt := CreatedAt j; UpdatedAt := now |}.

Definition failTranscription (jobID : string) (err : error) : list Action :=
  [Update jobID (setTranscriptFailed (errors.Error err));
   Broadcast
     {| EvID := jobID; EvStage := "transcription"; EvStatus := StatusFailed;
        EvProgress := 0; EvMessage := "falha na transcrição";
        EvDownloadURL := ""; EvTranscriptTXTURL := "";
        EvTranscriptSRTURL := ""; EvError := errors.Error err |}].

(** The transforms of [runExtraction]. *)
Definition setProcessing (outputName outputPath : string) (now : Z)
  (j : ExtractionJob) : ExtractionJob :=
  {| ID := ID j; InputFileName := InputFileName j; InputPath := InputPath j;
     OutputPath := outputPath; OutputName := outputName;
     Format := Format j; Quality := Quality j;
     Status := StatusProcessing; Progress := Progress j; Error := Error j;
     TranscriptStatus := TranscriptStatus j;
     TranscriptProgress := TranscriptProgress j;
     TranscriptError := TranscriptError j;
     TranscriptTXTPath := TranscriptTXTPath j;
     TranscriptTXTName := TranscriptTXTName j;
     TranscriptSRTPath := TranscriptSRTPath j;
     TranscriptSRTName := TranscriptSRTName j;
     CreatedAt := CreatedAt j; UpdatedAt := now |}.

Definition setProgress (pct : Z) (now : Z) (j : ExtractionJob)
  : ExtractionJob :=
  {| ID := ID j; InputFileName := InputFileName j; InputPath := InputPath j;
     OutputPath := OutputPath j; OutputName := OutputName j;
     Format := Format j; Quality := Quality j;
     Status := StatusProcessing; Progress := pct; Error := Error j;
     TranscriptStatus := TranscriptStatus j;
     TranscriptProgress := TranscriptProgress j;
     TranscriptError := TranscriptError j;
     TranscriptTXTPath := TranscriptTXTPath j;
     TranscriptTXTName := TranscriptTXTName j;
     TranscriptSRTPath := TranscriptSRTPath j;
     TranscriptSRTName := TranscriptSRTName j;
     CreatedAt := CreatedAt j; UpdatedAt := now |}.

Definition setCompleted (now : Z) (j : ExtractionJob) : ExtractionJob :=
  {| ID := ID j; InputFileName := InputFileName j; InputPath := InputPath j;
     OutputPath := OutputPath j; OutputName := OutputName j;
     Format := Format j; Quality := Quality j;
     Status := StatusCompleted; Progress := 100; Error := "";
     TranscriptStatus := TranscriptStatus j;
     TranscriptProgress := TranscriptProgress j;
     TranscriptError := TranscriptError j;
     TranscriptTXTPath := TranscriptTXTPath j;
     TranscriptTXTName := TranscriptTXTName j;
     TranscriptSRTPath := TranscriptSRTPath j;
     TranscriptSRTName := TranscriptSRTName j;
     CreatedAt := CreatedAt j; UpdatedAt := now |}.

(** The callback [runExtraction] hands to [ExtractAudio]. *)
Definition extractionCallback (jobID : string) (c : extractor.Call)
  : list Action :=
  let percent :=
    if extractor.percent c <? 1 then 1 else extractor.percent c in
  [Update jobID (setProgress percent);
   Broadcast (event jobID "extraction" StatusProcessing percent
                (extractor.message c))].

(** What happens around one [runExtraction]. *)
Record ExtractionRun :=
  { mkdirOutputsErr : option error; ffmpeg : extractor.FfmpegRun }.

(** [runExtraction] after its [getJob]: the steps it takes on the shared
    state, in order, given the snapshot [job]. *)
Definition runExtraction (a : App) (jobID : string) (run : ExtractionRun)
  (job : ExtractionJob) : list Action :=
  let outputName := extractor.OutputName (ID job) (Format job) in
  let outputPath := filepath.Join (outputsDir a) outputName in
  match mkdirOutputsErr run with
  | Some err => failJob jobID (wrapError "failed to create outputs dir: " err)
  | None =>
    let res := extractor.ExtractAudio (ffmpeg run) in
    Update jobID (setProcessing outputName outputPath)
    :: flat_map (extractionCallback jobID) (fst res)
    ++ match snd res with
       | Some err => failJob jobID err
       | None =>
         [Update jobID setCompleted;
          Broadcast
            {| EvID := jobID; EvStage := "extraction";
               EvStatus := StatusCompleted; EvProgress := 100;
               EvMessage := "extração concluída";
               EvDownloadURL := "/download/" +:+ jobID;
               EvTranscriptTXTURL := ""; EvTranscriptSRTURL := "";
               EvError := "" |}]
       end
  end.

(** The transforms of [runTranscription]. *)
Definition setTranscribing (txtPath srtPath : string) (now : Z)
  (j : ExtractionJob) : ExtractionJob :=
  {| ID := ID j; InputFileName := InputFileName j; InputPath := InputPath j;
     OutputPath := OutputPath j; OutputName := OutputName j;
     Format := Format j; Quality := Quality j;
     Status := Status j; Progress := Progress j; Error := Error j;
     TranscriptStatus := StatusProcessing; TranscriptProgress := 1;
     TranscriptError := "";
     TranscriptTXTPath := txtPath; TranscriptTXTName := filepath.Base txtPath;
     TranscriptSRTPath := srtPath; TranscriptSRTName := filepath.Base srtPath;
     CreatedAt := CreatedAt j; UpdatedAt := now |}.

Definition setTranscriptProgress (pct : Z) (now : Z) (j : ExtractionJob)
  : ExtractionJob :=
  {| ID := ID j; InputFileName := InputFileName j; InputPath := InputPath j;
     OutputPath := OutputPath j; OutputName := OutputName j;
     Format := Format j; Quality := Quality j;
     Status := Status j; Progress := Progress j; Error := Error j;
     TranscriptStatus := StatusProcessing; TranscriptProgress := pct;
     TranscriptError := TranscriptError j;
     TranscriptTXTPath := TranscriptTXTPath j;
     TranscriptTXTName := TranscriptTXTName j;
     TranscriptSRTPath := TranscriptSRTPath j;
     TranscriptSRTName := TranscriptSRTName j;
     CreatedAt := CreatedAt j; UpdatedAt := now |}.

Definition setTranscriptCompleted (now : Z) (j : ExtractionJob)
  : ExtractionJob :=
  {| ID := ID j; InputFileName := InputFileName j; InputPath := InputPath j;
     OutputPath := OutputPath j; OutputName := OutputName j;
     Format := Format j; Quality := Quality j;
     Status := Status j; Progress := Progress j; Error := Error j;
     TranscriptStatus := StatusCompleted; TranscriptProgress := 100;
     TranscriptError := "";
     TranscriptTXTPath := TranscriptTXTPath j;
     TranscriptTXTName := TranscriptTXTName j;
     TranscriptSRTPath := TranscriptSRTPath j;
     TranscriptSRTName := TranscriptSRTName j;
     CreatedAt := CreatedAt j; UpdatedAt := now |}.

Definition transcriptionCallback (jobID : string) (c : extractor.Call)
  : list Action :=
  let percent :=
    if extractor.percent c <? 1 then 1 else extractor.percent c in
  [Update jobID (setTranscriptProgress percent);
   Broadcast (event jobID "transcription" StatusProcessing percent
                (extractor.message c))].

(** What happens around one [runTranscription]: the run of whisper and
    whether [os.Stat] misses each artifact afterwards. *)
Record TranscriptionRun :=
  { whisper : extractor.WhisperRun; txtMissing : bool; srtMissing : bool }.

(** [runTranscription] after its [getJob]. *)
Definition runTranscription (a : App) (svc : extractor.Service)
  (jobID : string) (run : TranscriptionRun) (job : ExtractionJob)
  : list Action :=
  if String.eqb (OutputPath job) "" then
    failTranscription jobID
      (errorString "arquivo de áudio não encontrado para transcrição")
  else
    let base := filepath.Join (outputsDir a) (ID job +:+ "_transcript") in
    let txtPath := base +:+ ".txt" in
    let srtPath := base +:+ ".srt" in
    let res := extractor.TranscribeAudio svc (whisper run) in
    Update jobID (setTranscribing txtPath srtPath)
    :: flat_map (transcriptionCallback jobID) (fst res)
    ++ match snd res with
       | Some err => failTranscription jobID err
       | None =>
         if txtMissing run then
           failTranscription jobID (errorString "transcrição TXT não foi gerada")
         else if srtMissing run then
           failTranscription jobID (errorString "transcrição SRT não foi gerada")
         else
           [Update jobID setTranscriptCompleted;
            Broadcast
              {| EvID := jobID; EvStage := "transcription";
                 EvStatus := StatusCompleted; EvProgress := 100;
                 EvMessage := "transcrição concluída"; EvDownloadURL := "";
                 EvTranscriptTXTURL := "/transcript/" +:+ jobID +:+ "?format=txt";
                 EvTranscriptSRTURL := "/transcript/" +:+ jobID +:+ "?format=srt";
                 EvError := "" |}]
       end.

Definition downloadURLForJob (job : ExtractionJob) : string :=
  if JobStatus_eqb (Status job) StatusCompleted
  then "/download/" +:+ ID job else "".

Definition transcriptTXTURLForJob (job : ExtractionJob) : string :=
  if JobStatus_eqb (TranscriptStatus job) StatusCompleted
  then "/transcript/" +:+ ID job +:+ "?format=txt" else "".

Definition transcriptSRTURLForJob (job : ExtractionJob) : string :=
  if JobStatus_eqb (TranscriptStatus job) StatusCompleted
  then "/transcript/" +:+ ID job +:+ "?format=srt" else "".

(** The snapshot event [jobWS] writes to a new connection. *)
Definition currentProgressEvent (job : ExtractionJob) : ProgressEvent :=
  if JobStatus_eqb (TranscriptStatus job) StatusQueued
     || JobStatus_eqb (TranscriptStatus job) StatusProcessing
     || JobStatus_eqb (TranscriptStatus job) StatusCompleted
     || JobStatus_eqb (TranscriptStatus job) StatusFailed
  then
    {| EvID := ID job; EvStage := "transcription";
       EvStatus := TranscriptStatus job; EvProgress := TranscriptProgress job;
       EvMessage := ""; EvDownloadURL := downloadURLForJob job;
       EvTranscriptTXTURL := transcriptTXTURLForJob job;
       EvTranscriptSRTURL := transcriptSRTURLForJob job;
       EvError := TranscriptError job |}
  else
    {| EvID := ID job; EvStage := "extraction"; EvStatus := Status job;
       EvProgress := Progress job; EvMessage := "";
       EvDownloadURL := downloadURLForJob job; EvTranscriptTXTURL := "";
       EvTranscriptSRTURL := ""; EvError := Error job |}.

(** The files [cleanup] removes for one old job, in the order of the
    source; an empty path is skipped. *)
Definition jobFiles (job : ExtractionJob) : list string :=
  (if negb (String.eqb (InputPath job) "") then [InputPath job] else [])
  ++ (if negb (String.eqb (OutputPath job) "") then [OutputPath job] else [])
  ++ (if negb (String.eqb (TranscriptTXTPath job) "")
      then [TranscriptTXTPath job] else [])
  ++ (if negb (String.eqb (TranscriptSRTPath job) "")
      then [TranscriptSRTPath job] else []).

(** [job.UpdatedAt.Before(cutoff)]. *)
Definition isOld (cutoff : Z) (entry : string * ExtractionJob) : Prop :=
  UpdatedAt entry.2 < cutoff.

Global Instance isOld_dec cutoff entry : Decision (isOld cutoff entry) :=
  Z_lt_dec _ _.

Record Sweep :=
  { swept : App; oldJobs : list ExtractionJob; removedFiles : list string }.

(** [cleanup] at time [now].  Go ranges over the map in no fixed order;
    [map_to_list] fixes one. *)
Definition cleanup (a : App) (ttl : Z) (now : Z) : Sweep :=
  let cutoff := now + - ttl in
  let old := (map_to_list (filter (isOld cutoff) (jobs a))).*2 in
  {| swept := withJobs a (filter (fun e => ¬ isOld cutoff e) (jobs a));
     oldJobs := old;
     removedFiles := flat_map jobFiles old |}.

End Handlers.
End handlers.

(** ** The running system

    The handlers and the workers run as goroutines over the one registry.
    Each critical section of the source (a handler's locked part, one
    [updateJob], one [getJob]) is one atomic step, and so is each call of
    [broadcast]; steps of different goroutines interleave freely.  A
    trigger that is accepted leaves, after its locked part, a thread that
    still has to broadcast and to start the worker. *)
Module engine.
Import models handlers.

(** What a thread has left to do. *)
Inductive Todo :=
| doUpdate (id : string) (fn : Z -> ExtractionJob -> ExtractionJob)
| doBroadcast (evt : ProgressEvent)
| doGo (t : Task).

Definition ofAction (a : Action) : Todo :=
  match a with
  | Update id fn => doUpdate id fn
  | Broadcast evt => doBroadcast evt
  end.

(** A goroutine: a worker that has not yet read its job, or a thread with
    the steps it has left. *)
Inductive Thread :=
| fresh (t : Task)
| running (todo : list Todo).

(** The thread a handler leaves behind. *)
Definition afterHandler (o : Outcome) : list Thread :=
  match broadcasts o, started o with
  | [], None => []
  | evts, t =>
    [running (map doBroadcast evts
              ++ match t with Some t => [doGo t] | None => [] end)]
  end.

Record State :=
  { reg : App;
    threads : list Thread;
    sent : list ProgressEvent;
    used : gset string }.

Definition initial (uploads outputs : string) (maxUpload : Z) : State :=
  {| reg := NewApp uploads outputs maxUpload; threads := [];
     sent := []; used := ∅ |}.

Section Steps.
Context `{CaseTable} `{Strconv}.
Variable svc : extractor.Service.

(** The state after a handler has run its locked part. *)
Definition handled (st : State) (o : Outcome) : State :=
  {| reg := app o; threads := threads st ++ afterHandler o;
     sent := sent st; used := used st |}.

Inductive step : State -> State -> Prop :=
| step_upload st req id now :
    id ∉ used st ->
    step st {| reg := app (upload (reg st) req id now);
               threads := threads st; sent := sent st;
               used := {[id]} ∪ used st |}
| step_startExtraction st id now :
    step st (handled st (startExtraction (reg st) id now))
| step_startTranscription st id now :
    step st (handled st (startTranscription (reg st) id now))
| step_runExtraction st i id run :
    threads st !! i = Some (fresh (goRunExtraction id)) ->
    step st {| reg := reg st;
               threads :=
                 <[i := running
                          (match getJob (reg st) id with
                           | Some job =>
                             map ofAction (runExtraction (reg st) id run job)
                           | None => []
                           end)]> (threads st);
               sent := sent st; used := used st |}
| step_runTranscription st i id run :
    threads st !! i = Some (fresh (goRunTranscription id)) ->
    step st {| reg := reg st;
               threads :=
                 <[i := running
                          (match getJob (reg st) id with
                           | Some job =>
                             map ofAction
                               (runTranscription (reg st) svc id run job)
                           | None => []
                           end)]> (threads st);
               sent := sent st; used := used st |}
| step_update st i id fn todo now :
    threads st !! i = Some (running (doUpdate id fn :: todo)) ->
    step st {| reg := updateJob (reg st) id fn now;
               threads := <[i := running todo]> (threads st);
               sent := sent st; used := used st |}
| step_broadcast st i evt todo :
    threads st !! i = Some (running (doBroadcast evt :: todo)) ->
    step st {| reg := reg st;
               threads := <[i := running todo]> (threads st);
               sent := sent st ++ [evt]; used := used st |}
| step_go st i t todo :
    threads st !! i = Some (running (doGo t :: todo)) ->
    step st {| reg := reg st;
               threads := <[i := running todo]> (threads st) ++ [fresh t];
               sent := sent st; used := used st |}
| step_jobWS st id job :
    getJob (reg st) id = Some job ->
    step st {| reg := reg st; threads := threads st;
               sent := sent st ++ [currentProgressEvent job];
               used := used st |}
| step_cleanup st ttl now :
    0 < ttl ->
    step st {| reg := swept (cleanup (reg st) ttl now);
               threads := threads st; sent := sent st; used := used st |}.

(** The states the system can be in. *)
Inductive reachable : State -> Prop :=
| reachable_initial uploads outputs maxUpload :
    reachable (initial uploads outputs maxUpload)
| reachable_step st st' :
    reachable st -> step st st' -> reachable st'.

End Steps.
End engine.

(** ** Runs of the system, move by move *)
Module schedule.
Import models handlers engine.

(** The choices a run makes: which request arrives, which thread moves. *)
Inductive Move :=
| mvUpload (req : UploadRequest) (id : string) (now : Z)
| mvStartExtraction (id : string) (now : Z)
| mvStartTranscription (id : string) (now : Z)
| mvRunExtraction (i : nat) (run : ExtractionRun)
| mvRunTranscription (i : nat) (run : TranscriptionRun)
| mvAdvance (i : nat) (now : Z)
| mvJobWS (id : string)
| mvCleanup (ttl now : Z).

Section Play.
Context `{CaseTable} `{Strconv}.
Variable svc : extractor.Service.

(** One step of [engine.step], computed; [None] when the move is not
    enabled. *)
Definition move (st : State) (m : Move) : option State :=
  match m with
  | mvUpload req id now =>
    if decide (id ∈ used st) then None
    else Some {| reg := app (upload (reg st) req id now);
                 threads := threads st; sent := sent st;
                 used := {[id]} ∪ used st |}
  | mvStartExtraction id now =>
    Some (handled st (startExtraction (reg st) id now))
  | mvStartTranscription id now =>
    Some (handled st (startTranscription (reg st) id now))
  | mvRunExtraction i run =>
    match threads st !! i with
    | Some (fresh (goRunExtraction id)) =>
      Some {| reg := reg st;
              threads :=
                <[i := running
                         (match getJob (reg st) id with
                          | Some job =>
                            map ofAction (runExtraction (reg st) id run job)
                          | None => []
                          end)]> (threads st);
              sent := sent st; used := used st |}
    | _ => None
    end
  | mvRunTranscription i run =>
    match threads st !! i with
    | Some (fresh (goRunTranscription id)) =>
      Some {| reg := reg st;
              threads :=
                <[i := running
                         (match getJob (reg st) id with
                          | Some job =>
                            map ofAction
                              (runTranscription (reg st) svc id run job)
                          | None => []
                          end)]> (threads st);
              sent := sent st; used := used st |}
    | _ => None
    end
  | mvAdvance i now =>
    match threads st !! i with
    | Some (running (doUpdate id fn :: todo)) =>
      Some {| reg := updateJob (reg st) id fn now;
              threads := <[i := running todo]> (threads st);
              sent := sent st; used := used st |}
    | Some (running (doBroadcast evt :: todo)) =>
      Some {| reg := reg st;
              threads := <[i := running todo]> (threads st);
              sent := sent st ++ [evt]; used := used st |}
    | Some (running (doGo t :: todo)) =>
      Some {| reg := reg st;
              threads := <[i := running todo]> (threads st) ++ [fresh t];
              sent := sent st; used := used st |}
    | _ => None
    end
  | mvJobWS id =>
    match getJob (reg st) id with
    | Some job =>
      Some {| reg := reg st; threads := threads st;
              sent := sent st ++ [currentProgressEvent job];
              used := used st |}
    | None => None
    end
  | mvCleanup ttl now =>
    if decide (0 < ttl)
    then Some {| reg := swept (cleanup (reg st) ttl now);
                 threads := threads st; sent := sent st; used := used st |}
    else None
  end.

(** A run: the moves in order; a move that is not enabled is skipped. *)
Fixpoint play (st : State) (ms : list Move) : State :=
  match ms with
  | [] => st
  | m :: ms => play (default st (move st m)) ms
  end.

End Play.
End schedule.

(** ** Serving the artifacts *)
Module serving.
Import models handlers.

(** What [download] and [downloadTranscript] answer: an error, or the file
    at [path] with the header [Content-Disposition]. *)
Inductive FileResponse :=
| fileError (msg : string) (code : Z)
| serveFile (path disposition : string).

(** The header value: the name between double quotes (byte 34). *)
Definition attachment (name : string) : string :=
  "attachment; filename=" +:+ String "034" (name +:+ String "034" EmptyString).

(** [download]; [statFails] is whether [os.Stat] misses the output. *)
Definition download (a : App) (jobID : string) (statFails : bool)
  : FileResponse :=
  match getJob a jobID with
  | None => fileError "404 page not found" StatusNotFound
  | Some job =>
    if negb (JobStatus_eqb (Status job) StatusCompleted)
       || String.eqb (OutputPath job) ""
    then fileError "arquivo ainda não está pronto" StatusConflict
    else if statFails then fileError "arquivo não encontrado" StatusNotFound
    else serveFile (OutputPath job) (attachment (OutputName job))
  end.

(** [downloadTranscript]; [query] is [r.URL.Query().Get("format")], empty
    when the parameter is absent. *)
Definition downloadTranscript `{CaseTable} (a : App) (jobID query : string)
  (statFails : bool) : FileResponse :=
  match getJob a jobID with
  | None => fileError "404 page not found" StatusNotFound
  | Some job =>
    if negb (JobStatus_eqb (TranscriptStatus job) StatusCompleted)
    then fileError "transcrição ainda não está pronta" StatusConflict
    else
      let format := strings.ToLower (strings.TrimSpace query) in
      let srt := String.eqb format "srt" in
      let path := if srt then TranscriptSRTPath job else TranscriptTXTPath job in
      let name := if srt then TranscriptSRTName job else TranscriptTXTName job in
      if String.eqb path "" then
        fileError "arquivo de transcrição não encontrado" StatusNotFound
      else if statFails then
        fileError "arquivo de transcrição não encontrado" StatusNotFound
      else serveFile path (attachment name)
  end.

End serving.

(** ** A worker on its own *)
Module worker.
Import models handlers.

(** The steps of a worker taken in order with no other goroutine in
    between, all at the time [now]: the registry at the end and the events
    passed to [broadcast]. *)
Fixpoint perform (a : App) (acts : list Action) (now : Z)
  : App * list ProgressEvent :=
  match acts with
  | [] => (a, [])
  | Update id fn :: rest => perform (updateJob a id fn now) rest now
  | Broadcast evt :: rest =>
    let r := perform a rest now in (fst r, evt :: snd r)
  end.

End worker.

(** ** The list of recent jobs *)
Module listing.
Import models handlers.

(** The order handed to [sort.Slice]:
    [jobs[i].UpdatedAt.After(jobs[j].UpdatedAt)]. *)
Definition newer (x y : ExtractionJob) : bool := UpdatedAt y <? UpdatedAt x.

(** What [sort.Slice] answers for [l]: the same elements, none of them
    before one that is [less] than it.  (The sort is not stable and the
    map is ranged over in no fixed order: jobs updated at the same instant
    come in any order.) *)
Definition sortedBy (less : ExtractionJob -> ExtractionJob -> bool)
  (l l' : list ExtractionJob) : Prop :=
  l' ≡ₚ l
  /\ forall i k x y, l' !! i = Some x -> l' !! k = Some y -> (i < k)%nat ->
                     less y x = false.

(** The cut at [limit]. *)
Definition cut (limit : Z) (l : list ExtractionJob) : list ExtractionJob :=
  if (0 <? limit) && (limit <? Z.of_nat (length l))
  then take (Z.to_nat limit) l else l.

(** [recentJobs(limit)]: the clones of the jobs, sorted, cut. *)
Inductive recentJobs (a : App) (limit : Z) : list ExtractionJob -> Prop :=
| recentJobs_sorted sorted :
    sortedBy newer ((map_to_list (jobs a)).*2) sorted ->
    recentJobs a limit (cut limit sorted).

(** An insertion sort, to run the model. *)
Fixpoint insertJob (x : ExtractionJob) (l : list ExtractionJob)
  : list ExtractionJob :=
  match l with
  | [] => [x]
  | y :: l' => if newer y x then y :: insertJob x l' else x :: l
  end.

Definition sortJobs (l : list ExtractionJob) : list ExtractionJob :=
  fold_right insertJob [] l.

End listing.

(** ** The web-socket subscriptions *)
Module hub.

(** A connection is known by its address. *)
Definition Conn : Type := positive.

(** [a.subs]: per job, the set of the connections that follow it. *)
Definition Subs : Type := gmap string (gset Conn).

(** [a.subs[jobID]] read as a set; a missing entry is the nil map. *)
Definition subscribers (subs : Subs) (jobID : string) : gset Conn :=
  default ∅ (subs !! jobID).

(** [jobWS] after the upgrade: the entry is made if need be, and the
    connection added. *)
Definition subscribe (subs : Subs) (jobID : string) (c : Conn) : Subs :=
  match subs !! jobID with
  | None => <[jobID := {[c]}]> subs
  | Some s => <[jobID := {[c]} ∪ s]> subs
  end.

(** [delete(a.subs[jobID], c)]: nothing happens on the nil map, and the
    entry itself is never removed. *)
Definition unsubscribe (subs : Subs) (jobID : string) (c : Conn) : Subs :=
  match subs !! jobID with
  | None => subs
  | Some s => <[jobID := s ∖ {[c]}]> subs
  end.

(** The second loop of [broadcast]: one write per connection of the
    snapshot; a connection whose write fails is deleted and closed. *)
Definition deliver (subs : Subs) (jobID : string) (writeFails : Conn -> bool)
  (conns : list Conn) : Subs :=
  foldl (fun s c => if writeFails c then unsubscribe s jobID c else s)
        subs conns.

(** [broadcast]: the snapshot ranges over the map in an order of Go's
    choosing. *)
Inductive broadcast (subs : Subs) (jobID : string) (writeFails : Conn -> bool)
  : list Conn -> Subs -> Prop :=
| broadcast_range conns :
    conns ≡ₚ elements (subscribers subs jobID) ->
    broadcast subs jobID writeFails conns (deliver subs jobID writeFails conns).

End hub.

(** ** strconv and fmt on integers *)
Module strconv.

(** The digits loop of [ParseUint] at base 10.  The value is not bounded
    here: [ParseInt] compares it with its cutoff, which is below the
    point where [ParseUint] gives up. *)
Definition parseDigits (s : string) : option Z :=
  if String.eqb s "" then None else decimalValue s 0.

(** The sign [ParseInt] picks off, and the magnitude. *)
Definition signed (s : string) : option (bool * Z) :=
  match s with
  | EmptyString => None
  | String c rest =>
    if Ascii.eqb c "+" then option_map (pair false) (parseDigits rest)
    else if Ascii.eqb c "-" then option_map (pair true) (parseDigits rest)
    else option_map (pair false) (parseDigits s)
  end.

(** [ParseInt(s, 10, 64)]; [None] is a syntax or a range error. *)
Definition ParseInt (s : string) : option Z :=
  match signed s with
  | None => None
  | Some (neg, un) =>
    let cutoff := 2 ^ 63 in
    if negb neg && (cutoff <=? un) then None
    else if neg && (cutoff <? un) then None
    else Some (if neg then - un else un)
  end.

(** [FormatInt(n, 10)], which the verb [%d] of [fmt] prints. *)
Definition FormatInt (n : Z) : string := NilZero.string_of_int (Z.to_int n).

End strconv.

(** ** encoding/hex *)
Module hex.

Definition hextable : string := "0123456789abcdef".

(** [s[i]], for an index within the string. *)
Definition index (s : string) (i : Z) : ascii :=
  match String.get (Z.to_nat i) s with
  | Some c => c
  | None => "000"%char
  end.

Fixpoint EncodeToString (src : string) : string :=
  match src with
  | EmptyString => EmptyString
  | String v src' =>
    let x := utf8.byteVal v in
    String (index hextable (Z.shiftr x 4))
      (String (index hextable (Z.land x 15)) (EncodeToString src'))
  end.

End hex.

(** ** The identifiers of the jobs *)
Module ident.

(** [newID()]: [rnd] is what [rand.Read] put in the eight bytes, [None]
    when it failed; [nanos] is [time.Now().UnixNano()]. *)
Definition newID (rnd : option string) (nanos : Z) : string :=
  match rnd with
  | None => "job-" +:+ strconv.FormatInt nanos
  | Some b => hex.EncodeToString b
  end.

End ident.

(** ** cmd/server: the configuration read from the environment *)
Module cmd.
Import handlers.

Definition Environ : Type := gmap string string.

(** [os.Getenv]: the empty string for a variable that is not set. *)
Definition Getenv (env : Environ) (key : string) : string :=
  match env !! key with
  | Some v => v
  | None => ""
  end.

Definition envOrDefault (env : Environ) (key fallback : string) : string :=
  let val := Getenv env key in
  if negb (String.eqb val "") then val else fallback.

Definition envInt64OrDefault (env : Environ) (key : string) (fallback : Z) : Z :=
  let val := Getenv env key in
  if String.eqb val "" then fallback
  else match strconv.ParseInt val with
       | None => fallback
       | Some parsed => parsed
       end.

(** The [app] that [main] builds. *)
Definition app (env : Environ) : App :=
  let uploadsDir := envOrDefault env "UPLOADS_DIR" "uploads" in
  let outputsDir := envOrDefault env "OUTPUTS_DIR" "outputs" in
  let maxUploadBytes := envInt64OrDefault env "MAX_UPLOAD_BYTES" (500 * 1024 * 1024) in
  NewApp uploadsDir outputsDir maxUploadBytes.

End cmd.

(** ** The cleanup loop *)
Module sweeper.
Import models handlers.

(** The goroutine of [StartCleanupLoop]: one [cleanup] per tick, until the
    context is done.  [ticks] holds the instants [cleanup] read from the
    clock, in turn. *)
Fixpoint loop (a : App) (ttl : Z) (ticks : list Z) : App * list Sweep :=
  match ticks with
  | [] => (a, [])
  | now :: rest =>
    let s := cleanup a ttl now in
    let r := loop (swept s) ttl rest in
    (r.1, s :: r.2)
  end.

Definition StartCleanupLoop (a : App) (interval ttl : Z) (ticks : list Z)
  : App * list Sweep :=
  if (interval <=? 0) || (ttl <=? 0) then (a, []) else loop a ttl ticks.

End sweeper.

(** * Properties *)

(** ** The argument table of ffmpeg *)
Module args_props.
Import extractor.

(** The formats and the qualities the program offers: the cases of
    [sanitizeFormat] and of [sanitizeQuality]. *)
Definition supportedFormats : list string := ["mp3"; "wav"; "aac"; "flac"; "ogg"].
Definition supportedQualities : list string := ["low"; "medium"; "high"; "original"].

Lemma eqb_false_of_ne (a b : string) : a ≠ b -> String.eqb a b = false.
Proof. intros Hne. destruct (String.eqb_spec a b); [contradiction | reflexivity]. Qed.

(** On a supported pair the table is consulted on ASCII only: the result
    is the same whatever the Unicode case tables are. *)
Lemma codecAndQualityArgs_supported_table (T1 T2 : CaseTable) (f q : string) :
  f ∈ supportedFormats -> q ∈ supportedQualities ->
  @codecAndQualityArgs T1 f q = @codecAndQualityArgs T2 f q.
Proof.
  unfold supportedFormats, supportedQualities.
  rewrite !elem_of_cons, !elem_of_nil. intros Hf Hq.
  destruct Hf as [->|[->|[->|[->|[->|[]]]]]];
    destruct Hq as [->|[->|[->|[->|[]]]]]; reflexivity.
Qed.

(** C6. [codecAndQualityArgs] is a function of its two arguments: on the
    supported pairs equal inputs give equal, non-empty argument lists, and
    a format that, trimmed and lowercased, is neither empty nor one of the
    five supported ones gets the stream copy. *)
Theorem codecAndQualityArgs_table `{CaseTable} :
  (forall f1 q1 f2 q2,
      f1 ∈ supportedFormats -> q1 ∈ supportedQualities ->
      f1 = f2 -> q1 = q2 ->
      codecAndQualityArgs f1 q1 = codecAndQualityArgs f2 q2
      /\ codecAndQualityArgs f1 q1 <> [])
  /\ (forall f q,
         strings.ToLower (strings.TrimSpace f) ∉ "" :: supportedFormats ->
         codecAndQualityArgs f q = ["-codec:a"; "copy"]).
Proof.
  split.
  - intros f1 q1 f2 q2 Hf Hq <- <-. split; [reflexivity|].
    revert Hf Hq. unfold supportedFormats, supportedQualities.
    rewrite !elem_of_cons, !elem_of_nil. intros Hf Hq.
    destruct Hf as [->|[->|[->|[->|[->|[]]]]]];
      destruct Hq as [->|[->|[->|[->|[]]]]]; discriminate.
  - intros f q Hn. unfold codecAndQualityArgs.
    set (n := strings.ToLower (strings.TrimSpace f)) in *.
    unfold supportedFormats in Hn.
    rewrite !not_elem_of_cons in Hn.
    destruct Hn as (H0 & H1 & H2 & H3 & H4 & H5 & _).
    rewrite (eqb_false_of_ne n "") by assumption.
    rewrite (eqb_false_of_ne n "mp3"), (eqb_false_of_ne n "wav"),
      (eqb_false_of_ne n "aac"), (eqb_false_of_ne n "flac"),
      (eqb_false_of_ne n "ogg") by assumption.
    reflexivity.
Qed.

(** The table at work: an unsupported format, and a supported pair. *)
Lemma codecAndQualityArgs_table_witness :
  @codecAndQualityArgs asciiCase " Opus " "high" = ["-codec:a"; "copy"]
  /\ @codecAndQualityArgs asciiCase "flac" "original"
     = ["-f"; "flac"; "-codec:a"; "flac"; "-compression_level"; "12"].
Proof.
  split.
  - apply (@codecAndQualityArgs_table asciiCase).
    unfold supportedFormats. rewrite !not_elem_of_cons.
    repeat split; try (vm_compute; discriminate). apply not_elem_of_nil.
  - reflexivity.
Defined.

End args_props.

(** ** The triggers and the reaper, one call at a time *)
Module handlers_props.
Import models handlers.

Section Triggers.
Context `{CaseTable} `{Strconv}.

(** The outcome of a handler that changes nothing and starts nothing. *)
Definition untouched (a : App) (r : Response) : Outcome :=
  {| app := a; response := r; broadcasts := []; started := None |}.

Lemma startExtraction_active (a : App) (id : string) (now : Z) (job : ExtractionJob) :
  jobs a !! id = Some job ->
  Status job = StatusQueued \/ Status job = StatusProcessing ->
  startExtraction a id now
  = untouched a (respondJSON StatusAccepted [("status", "already_processing")]).
Proof.
  intros Hjob Hst. unfold startExtraction. rewrite Hjob.
  destruct Hst as [-> | ->]; reflexivity.
Qed.

Lemma startExtraction_completed (a : App) (id : string) (now : Z) (job : ExtractionJob) :
  jobs a !! id = Some job ->
  Status job = StatusCompleted ->
  startExtraction a id now
  = untouched a (respondJSON StatusOK
                   [("status", "already_completed");
                    ("download_url", "/download/" +:+ ID job)]).
Proof.
  intros Hjob Hst. unfold startExtraction. rewrite Hjob, Hst. reflexivity.
Qed.

Lemma startTranscription_conflict (a : App) (id : string) (now : Z) (job : ExtractionJob) :
  jobs a !! id = Some job ->
  Status job <> StatusCompleted ->
  startTranscription a id now
  = untouched a (httpError "extração ainda não foi concluída" StatusConflict).
Proof.
  intros Hjob Hst. unfold startTranscription. rewrite Hjob.
  destruct (Status job); try reflexivity. contradiction.
Qed.

Lemma startTranscription_active (a : App) (id : string) (now : Z) (job : ExtractionJob) :
  jobs a !! id = Some job ->
  Status job = StatusCompleted ->
  TranscriptStatus job = StatusQueued \/ TranscriptStatus job = StatusProcessing ->
  startTranscription a id now
  = untouched a (respondJSON StatusAccepted
                   [("status", "transcription_already_processing")]).
Proof.
  intros Hjob Hst Ht. unfold startTranscription. rewrite Hjob, Hst. simpl.
  destruct Ht as [-> | ->]; reflexivity.
Qed.

Lemma startTranscription_completed (a : App) (id : string) (now : Z) (job : ExtractionJob) :
  jobs a !! id = Some job ->
  Status job = StatusCompleted ->
  TranscriptStatus job = StatusCompleted ->
  startTranscription a id now
  = untouched a (respondJSON StatusOK
                   [("status", "transcription_already_completed");
                    ("transcript_txt_url", "/transcript/" +:+ id +:+ "?format=txt");
                    ("transcript_srt_url", "/transcript/" +:+ id +:+ "?format=srt")]).
Proof.
  intros Hjob Hst Ht. unfold startTranscription. rewrite Hjob, Hst, Ht. reflexivity.
Qed.

(** Whatever the state of the extraction, a transcription trigger on a
    stage that is queued, processing or completed leaves the registry as it
    was, broadcasts nothing and starts nothing. *)
Lemma startTranscription_busy_frame (a : App) (id : string) (now : Z) (job : ExtractionJob) :
  jobs a !! id = Some job ->
  TranscriptStatus job = StatusQueued \/ TranscriptStatus job = StatusProcessing
  \/ TranscriptStatus job = StatusCompleted ->
  exists r, startTranscription a id now = untouched a r.
Proof.
  intros Hjob Ht. unfold startTranscription. rewrite Hjob.
  destruct (negb _); [eauto|].
  destruct Ht as [-> | [-> | ->]]; eauto.
Qed.

(** C2. A transcription trigger on a job whose extraction is not
    completed is answered with the conflict, and nothing else happens: the
    registry (so the whole job record) is the one before, no event is
    broadcast and no worker is started. *)
Theorem startTranscription_requires_extraction
  (a : App) (id : string) (now : Z) (job : ExtractionJob) :
  jobs a !! id = Some job ->
  Status job <> StatusCompleted ->
  let o := startTranscription a id now in
  response o = httpError "extração ainda não foi concluída" StatusConflict
  /\ app o = a
  /\ jobs (app o) !! id = Some job
  /\ broadcasts o = []
  /\ started o = None.
Proof.
  intros Hjob Hst o. subst o.
  rewrite (startTranscription_conflict a id now job Hjob Hst). simpl.
  repeat split; try reflexivity. exact Hjob.
Qed.

(** C8. An accepted extraction trigger (the stage is neither queued, nor
    processing, nor completed) queues the extraction and resets the whole
    transcription record; the identity, the input, the output names, the
    format, the quality and the creation time of the job stay, and so does
    every other job. *)
Theorem startExtraction_resets_transcription
  (a : App) (id : string) (now : Z) (job : ExtractionJob) :
  jobs a !! id = Some job ->
  Status job <> StatusQueued -> Status job <> StatusProcessing ->
  Status job <> StatusCompleted ->
  let o := startExtraction a id now in
  exists job',
    jobs (app o) !! id = Some job'
    /\ started o = Some (goRunExtraction id)
    /\ (Status job' = StatusQueued /\ Progress job' = 1 /\ Error job' = ""
        /\ UpdatedAt job' = now)
    /\ (TranscriptStatus job' = StatusNotStarted /\ TranscriptProgress job' = 0
        /\ TranscriptError job' = ""
        /\ TranscriptTXTPath job' = "" /\ TranscriptTXTName job' = ""
        /\ TranscriptSRTPath job' = "" /\ TranscriptSRTName job' = "")
    /\ (ID job' = ID job /\ InputPath job' = InputPath job
        /\ InputFileName job' = InputFileName job
        /\ OutputPath job' = OutputPath job /\ OutputName job' = OutputName job
        /\ Format job' = Format job /\ Quality job' = Quality job
        /\ CreatedAt job' = CreatedAt job)
    /\ (forall id', id' <> id -> jobs (app o) !! id' = jobs a !! id').
Proof.
  intros Hjob Hq Hp Hc o. subst o. unfold startExtraction. rewrite Hjob.
  destruct (Status job) eqn:Hst; try contradiction;
    (eexists; split; [apply lookup_insert_eq|]; simpl;
     repeat split; try reflexivity;
     intros id' Hne; apply lookup_insert_ne; congruence).
Qed.

End Triggers.

(** An upload followed by a trigger: the transcription is refused, the
    extraction is accepted. *)
Definition demoRequest : UploadRequest :=
  {| parseFails := false; fileMissing := false; headerSize := 10;
     headerFilename := "clip one.mp4"; formFormat := "FLAC";
     formQuality := ""; mkdirFails := false; createFails := false;
     readFails := false |}.

Definition demoApp : App :=
  app (@upload asciiCase (NewApp "uploads" "outputs" 0) demoRequest "ab12" 7).

Definition demoJob : ExtractionJob :=
  {| ID := "ab12"; InputFileName := "clip_one.mp4";
     InputPath := "uploads/ab12_clip_one.mp4";
     OutputPath := ""; OutputName := ""; Format := "flac"; Quality := "medium";
     Status := StatusUploaded; Progress := 0; Error := "";
     TranscriptStatus := StatusNotStarted; TranscriptProgress := 0;
     TranscriptError := ""; TranscriptTXTPath := ""; TranscriptTXTName := "";
     TranscriptSRTPath := ""; TranscriptSRTName := "";
     CreatedAt := 7; UpdatedAt := 7 |}.

Lemma demoApp_job : jobs demoApp !! "ab12" = Some demoJob.
Proof. vm_compute. reflexivity. Qed.

Lemma startTranscription_requires_extraction_witness :
  response (startTranscription demoApp "ab12" 9)
  = httpError "extração ainda não foi concluída" StatusConflict
  /\ app (startTranscription demoApp "ab12" 9) = demoApp
  /\ jobs (app (startTranscription demoApp "ab12" 9)) !! "ab12" = Some demoJob
  /\ broadcasts (startTranscription demoApp "ab12" 9) = []
  /\ started (startTranscription demoApp "ab12" 9) = None.
Proof.
  apply (startTranscription_requires_extraction demoApp "ab12" 9 demoJob).
  - exact demoApp_job.
  - discriminate.
Defined.

(** A record whose extraction is marked failed while the transcription
    fields are all set: the trigger is accepted and has every one of them
    to reset. *)
Definition staleJob : ExtractionJob :=
  {| ID := "ab12"; InputFileName := "clip_one.mp4";
     InputPath := "uploads/ab12_clip_one.mp4";
     OutputPath := "outputs/ab12.flac"; OutputName := "ab12.flac";
     Format := "flac"; Quality := "medium";
     Status := StatusFailed; Progress := 40; Error := "ffmpeg failed: exit status 1";
     TranscriptStatus := StatusCompleted; TranscriptProgress := 100;
     TranscriptError := "whisper-cli failed: earlier run";
     TranscriptTXTPath := "outputs/ab12_transcript.txt";
     TranscriptTXTName := "ab12_transcript.txt";
     TranscriptSRTPath := "outputs/ab12_transcript.srt";
     TranscriptSRTName := "ab12_transcript.srt";
     CreatedAt := 7; UpdatedAt := 8 |}.

(** The registry holds it beside a second, freshly uploaded job. *)
Definition staleApp : App :=
  let a := app (@upload asciiCase demoApp demoRequest "cd34" 8) in
  withJobs a (<["ab12" := staleJob]> (jobs a)).

Lemma startExtraction_resets_transcription_witness :
  exists job',
    jobs (app (startExtraction staleApp "ab12" 9)) !! "ab12" = Some job'
    /\ started (startExtraction staleApp "ab12" 9) = Some (goRunExtraction "ab12")
    /\ (Status job' = StatusQueued /\ Progress job' = 1 /\ Error job' = ""
        /\ UpdatedAt job' = 9)
    /\ (TranscriptStatus job' = StatusNotStarted /\ TranscriptProgress job' = 0
        /\ TranscriptError job' = ""
        /\ TranscriptTXTPath job' = "" /\ TranscriptTXTName job' = ""
        /\ TranscriptSRTPath job' = "" /\ TranscriptSRTName job' = "")
    /\ (ID job' = ID staleJob /\ InputPath job' = InputPath staleJob
        /\ InputFileName job' = InputFileName staleJob
        /\ OutputPath job' = OutputPath staleJob
        /\ OutputName job' = OutputName staleJob
        /\ Format job' = Format staleJob /\ Quality job' = Quality staleJob
        /\ CreatedAt job' = CreatedAt staleJob)
    /\ (forall id', id' <> "ab12" ->
          jobs (app (startExtraction staleApp "ab12" 9)) !! id'
          = jobs staleApp !! id').
Proof.
  apply (startExtraction_resets_transcription staleApp "ab12" 9 staleJob).
  - apply lookup_insert_eq.
  - discriminate.
  - discriminate.
  - discriminate.
Defined.

End handlers_props.

(** ** The reaper *)
Module reaper_props.
Import models handlers.

(** The four paths a job refers to. *)
Definition referenced (job : ExtractionJob) : list string :=
  [InputPath job; OutputPath job; TranscriptTXTPath job; TranscriptSRTPath job].

Lemma elem_of_nonempty (x p : string) :
  p ∈ (if negb (String.eqb x "") then [x] else []) <-> p <> "" /\ p = x.
Proof.
  destruct (String.eqb_spec x "") as [E|E]; simpl.
  - rewrite elem_of_nil. split; [tauto|]. intros [Hp ->]. contradiction.
  - rewrite list_elem_of_singleton. split.
    + intros ->. split; [exact E | reflexivity].
    + intros [_ Hp]. exact Hp.
Qed.

Lemma elem_of_jobFiles (job : ExtractionJob) (p : string) :
  p ∈ jobFiles job <-> p <> "" /\ p ∈ referenced job.
Proof.
  unfold jobFiles, referenced.
  rewrite !elem_of_app, !elem_of_nonempty, !elem_of_cons, elem_of_nil. tauto.
Qed.

Lemma elem_of_oldJobs (a : App) (ttl now : Z) (job : ExtractionJob) :
  job ∈ oldJobs (cleanup a ttl now)
  <-> exists id, jobs a !! id = Some job /\ ttl < now - UpdatedAt job.
Proof.
  unfold cleanup. simpl. rewrite list_elem_of_fmap. split.
  - intros [[id j] [-> Hin]]. apply elem_of_map_to_list in Hin.
    apply map_lookup_filter_Some in Hin as [Hj Hold].
    exists id. split; [exact Hj|]. unfold isOld in Hold. simpl in *. lia.
  - intros [id [Hj Hold]]. exists (id, job). split; [reflexivity|].
    apply elem_of_map_to_list. apply map_lookup_filter_Some.
    split; [exact Hj|]. unfold isOld. simpl. lia.
Qed.

(** The claim as it stands asks for a job idle for exactly TTL to go;
    [cleanup] compares with [Before], which is strict, and keeps it. *)
Lemma cleanup_keeps_job_at_ttl :
  let job := handlers_props.demoJob in
  let a := handlers_props.demoApp in
  jobs a !! "ab12" = Some job
  /\ 107 - UpdatedAt job >= 100
  /\ jobs (swept (cleanup a 100 107)) !! "ab12" = Some job
  /\ removedFiles (cleanup a 100 107) = [].
Proof. vm_compute. repeat split; congruence. Qed.

(** One sweep at [now], on any registry: the jobs idle for more than the
    TTL go and every other job stays as it is; the files removed are
    exactly the non-empty paths (input, output, transcript TXT, transcript
    SRT) of the jobs that went. *)
Lemma cleanup_sweep (a : App) (ttl now : Z) :
  let s := cleanup a ttl now in
  (forall id,
      jobs (swept s) !! id
      = match jobs a !! id with
        | Some job => if decide (ttl < now - UpdatedAt job) then None else Some job
        | None => None
        end)
  /\ (forall job,
         job ∈ oldJobs s
         <-> exists id, jobs a !! id = Some job /\ ttl < now - UpdatedAt job)
  /\ (forall p,
         p ∈ removedFiles s
         <-> exists job, job ∈ oldJobs s /\ p <> "" /\ p ∈ referenced job).
Proof.
  intros s. subst s. split; [|split].
  - intros id. unfold cleanup. simpl.
    destruct (jobs a !! id) as [job|] eqn:Hj.
    + destruct (decide (ttl < now - UpdatedAt job)) as [Hold|Hyoung].
      * apply map_lookup_filter_None. right. intros j Hj'.
        rewrite Hj in Hj'. injection Hj' as <-.
        unfold isOld. simpl. intros Hn. apply Hn. lia.
      * apply map_lookup_filter_Some. split; [exact Hj|].
        unfold isOld. simpl. lia.
    + apply map_lookup_filter_None. left. exact Hj.
  - intros job. apply elem_of_oldJobs.
  - intros p. unfold cleanup at 1. simpl.
    rewrite list_elem_of_In, in_flat_map. split.
    + intros [job [Hin Hp]]. exists job.
      apply list_elem_of_In in Hin. apply list_elem_of_In in Hp.
      apply elem_of_jobFiles in Hp. split; [exact Hin | exact Hp].
    + intros [job [Hin Hp]]. exists job.
      split; apply list_elem_of_In; [exact Hin|].
      apply elem_of_jobFiles. exact Hp.
Qed.

End reaper_props.

(** ** The stored file name *)
Module filename_props.
Import handlers.

(** The bytes [sanitizeFileName] lets through. *)
Definition safeByte (c : ascii) : bool :=
  let x := utf8.byteVal c in
  ((97 <=? x) && (x <=? 122)) || ((65 <=? x) && (x <=? 90))
  || ((48 <=? x) && (x <=? 57)) || (x =? 46) || (x =? 95) || (x =? 45).

Fixpoint allBytes (p : ascii -> bool) (s : string) : bool :=
  match s with
  | EmptyString => true
  | String c s' => p c && allBytes p s'
  end.

(** The name before the test against the empty string. *)
Definition cleaned (name : string) : string :=
  strings.Map keepRune
    (strings.ReplaceAll (filepath.Base (strings.TrimSpace name)) " "%char "_"%char).

Lemma byteVal_byteOf (z : Z) : 0 <= z < 256 -> utf8.byteVal (utf8.byteOf z) = z.
Proof.
  intros Hz. unfold utf8.byteVal, utf8.byteOf.
  rewrite N_ascii_embedding by lia. lia.
Qed.

Lemma byteVal_range (c : ascii) : 0 <= utf8.byteVal c < 256.
Proof.
  unfold utf8.byteVal. pose proof (N_ascii_bounded c). lia.
Qed.

Lemma allBytes_app (p : ascii -> bool) (s t : string) :
  allBytes p (s +:+ t) = allBytes p s && allBytes p t.
Proof.
  induction s as [|c s IH]; simpl; [reflexivity|].
  change (String.append s t) with (s +:+ t). rewrite IH. apply andb_assoc.
Qed.

Lemma keepRune_safe (r : Z) :
  0 <= keepRune r < 128 /\ safeByte (utf8.byteOf (keepRune r)) = true.
Proof.
  unfold keepRune.
  destruct (_ || _) eqn:Hk.
  - assert (Hr : 0 <= r < 128) by lia.
    split; [exact Hr|]. unfold safeByte. rewrite byteVal_byteOf by lia. exact Hk.
  - split; [lia|]. reflexivity.
Qed.

Lemma EncodeRune_ascii (r : Z) :
  0 <= r < 128 -> utf8.EncodeRune r = String (utf8.byteOf r) EmptyString.
Proof.
  intros Hr. unfold utf8.EncodeRune.
  replace (r <? 0) with false by lia.
  replace (1114111 <? r) with false by lia.
  replace (55296 <=? r) with false by lia.
  replace (r <? 128) with true by lia. reflexivity.
Qed.

Lemma Map_keepRune_safe (s : string) :
  allBytes safeByte (strings.Map keepRune s) = true.
Proof.
  unfold strings.Map. induction (utf8.chunks s) as [|c l IH]; [reflexivity|].
  simpl. destruct (keepRune_safe (fst c)) as [Hr Hs].
  replace (keepRune (fst c) <? 0) with false by lia.
  rewrite EncodeRune_ascii by exact Hr. simpl. rewrite Hs. exact IH.
Qed.

Lemma chunks_nonempty (c : ascii) (s : string) : utf8.chunks (String c s) <> [].
Proof. unfold utf8.chunks. cbn [utf8.chunksFrom]. discriminate. Qed.

Lemma Map_keepRune_nonempty (s : string) :
  s <> EmptyString -> strings.Map keepRune s <> EmptyString.
Proof.
  destruct s as [|c s]; [congruence|]. intros _.
  unfold strings.Map. pose proof (chunks_nonempty c s) as Hne.
  destruct (utf8.chunks (String c s)) as [|k l]; [congruence|].
  simpl. destruct (keepRune_safe (fst k)) as [Hr _].
  replace (keepRune (fst k) <? 0) with false by lia.
  rewrite EncodeRune_ascii by exact Hr. discriminate.
Qed.

Lemma Base_nonempty (path : string) : filepath.Base path <> EmptyString.
Proof.
  unfold filepath.Base.
  destruct (String.eqb_spec path EmptyString); [discriminate|].
  destruct (String.eqb_spec (filepath.lastElement (filepath.stripTrailing path))
              EmptyString); [discriminate | assumption].
Qed.

Lemma ReplaceAll_nonempty (s : string) (old new : ascii) :
  s <> EmptyString -> strings.ReplaceAll s old new <> EmptyString.
Proof. destruct s; [congruence | discriminate]. Qed.

(** The name is never empty before the test: [filepath.Base] answers "."
    for the empty path and "/" for a path of slashes only. *)
Lemma cleaned_nonempty (name : string) : cleaned name <> EmptyString.
Proof.
  unfold cleaned. apply Map_keepRune_nonempty, ReplaceAll_nonempty, Base_nonempty.
Qed.

(** C9. Whatever the name sent, the stored name is not empty and is made
    of ASCII letters, digits, dots, underscores and hyphens only (so it
    holds no path separator); it is "video.bin" when the cleaned name is
    empty and the cleaned name otherwise. *)
Theorem sanitizeFileName_safe (name : string) :
  sanitizeFileName name <> EmptyString
  /\ allBytes safeByte (sanitizeFileName name) = true
  /\ allBytes (fun c => negb (Ascii.eqb c filepath.Separator))
       (sanitizeFileName name) = true
  /\ sanitizeFileName name
     = (if String.eqb (cleaned name) EmptyString then "video.bin" else cleaned name).
Proof.
  assert (Hsafe : allBytes safeByte (sanitizeFileName name) = true).
  { unfold sanitizeFileName. fold (cleaned name).
    destruct (String.eqb (cleaned name) ""); [reflexivity|].
    apply Map_keepRune_safe. }
  split; [|split; [exact Hsafe|split]].
  - unfold sanitizeFileName. fold (cleaned name).
    destruct (String.eqb (cleaned name) ""); [discriminate|].
    apply cleaned_nonempty.
  - revert Hsafe. generalize (sanitizeFileName name) as s.
    induction s as [|c s IH]; [reflexivity|]. simpl.
    intros [Hc Hs]%andb_true_iff. rewrite (IH Hs), andb_true_r.
    destruct (Ascii.eqb_spec c filepath.Separator) as [->|]; [|reflexivity].
    discriminate Hc.
  - reflexivity.
Qed.

End filename_props.

(** ** The results of the adapters *)
Module adapters_props.
Import extractor.

(** A line of 300 bytes. *)
Definition longLine : string :=
  fold_right (fun _ acc => String "x"%char acc) EmptyString (seq 0 300).

Definition svcDemo : Service := NewService "" "models/ggml-base.bin" "pt".

(** ffmpeg exits with status 1 after a long diagnostic line. *)
Definition ffmpegFailure (last : string) (cause : option ctxCause) : FfmpegRun :=
  {| probeErr := None; probeOut := "100"; stdoutPipeErr := None;
     stderrPipeErr := None; startErr := None;
     stdoutLines := ["out_time_ms=50000000"];
     scanErr := None;
     stderrLines := ["Conversion failed!"; last; ""];
     waitErr := Some (foreign "exit status 1");
     ctxAtWait := cause |}.

Definition whisperFailure (output : string) : WhisperRun :=
  {| whisperStartErr := None; ticks := 2;
     whisperEnd := exited (Some (foreign "exit status 1")) output |}.

Section Results.
Context `{CaseTable} `{Strconv}.

(** The abnormal exit of ffmpeg, the context not cancelled: the last
    stored line as it is, or the exit error wrapped. *)
Lemma ExtractAudio_abnormal_exit (run : FfmpegRun) (err : error) :
  stdoutPipeErr run = None -> stderrPipeErr run = None -> startErr run = None ->
  scanErr run = None -> waitErr run = Some err ->
  ctxAtWait run <> Some causeCanceled ->
  snd (ExtractAudio run)
  = Some (if String.eqb (lastErrLine (stderrLines run)) ""
          then wrapError "ffmpeg failed: " err
          else errorString ("ffmpeg failed: " +:+ lastErrLine (stderrLines run))).
Proof.
  intros H1 H2 H3 H4 H5 H6. unfold ExtractAudio.
  rewrite H1, H2, H3, H4, H5.
  destruct (ctxAtWait run) as [[|]|]; try congruence;
    destruct (String.eqb (lastErrLine (stderrLines run)) ""); reflexivity.
Qed.

(** The abnormal exit of whisper: the last line cut by [compactLogLine],
    or the exit error wrapped. *)
Lemma TranscribeAudio_abnormal_exit (s : Service) (run : WhisperRun)
  (err : error) (output : string) :
  whisperModel s <> "" -> whisperStartErr run = None ->
  whisperEnd run = exited (Some err) output ->
  snd (TranscribeAudio s run)
  = Some (if String.eqb (strings.TrimSpace output) ""
          then wrapError "whisper-cli failed: " err
          else errorString ("whisper-cli failed: "
                            +:+ compactLogLine (strings.TrimSpace output))).
Proof.
  intros Hm Hs He. unfold TranscribeAudio.
  rewrite (args_props.eqb_false_of_ne _ _ Hm), Hs, He.
  destruct (String.eqb (strings.TrimSpace output) ""); reflexivity.
Qed.

Lemma takeBytes_length (n : nat) (s : string) :
  (String.length (utf8.takeBytes n s) <= n)%nat.
Proof.
  revert s. induction n as [|n IH]; intros [|c s]; simpl; try lia.
  specialize (IH s). lia.
Qed.

Lemma append_length (s t : string) :
  String.length (s +:+ t) = (String.length s + String.length t)%nat.
Proof. induction s as [|c s IH]; simpl; [reflexivity|]. f_equal. exact IH. Qed.

Lemma lastLine_cons (l : string) (ls : list string) :
  lastLine (l :: ls)
  = (if negb (String.eqb (strings.TrimSpace l) "") then
       if 220 <? Z.of_nat (String.length (strings.TrimSpace l))
       then utf8.takeBytes 220 (strings.TrimSpace l) +:+ "..."
       else strings.TrimSpace l
     else lastLine ls).
Proof. reflexivity. Qed.

(** What [compactLogLine] answers is at most 223 bytes long. *)
Lemma compactLogLine_bounded (v : string) :
  (String.length (compactLogLine v) <= 223)%nat.
Proof.
  unfold compactLogLine. induction (rev (strings.Split v "010"%char)) as [|l ls IH].
  - simpl. lia.
  - rewrite lastLine_cons.
    destruct (String.eqb (strings.TrimSpace l) ""); [exact IH|].
    cbn [negb].
    destruct (Z.ltb_spec 220 (Z.of_nat (String.length (strings.TrimSpace l))))
      as [Hlen|Hlen].
    + rewrite append_length. pose proof (takeBytes_length 220 (strings.TrimSpace l)).
      change (String.length "...") with 3%nat. lia.
    + lia.
Qed.

End Results.

(** C7. The whisper adapter cuts the diagnostic line at 220 bytes; the
    ffmpeg adapter, on the same exit with the same last line of 300 bytes,
    returns the whole line: its message is 315 bytes long. *)
Theorem ExtractAudio_error_line_not_truncated :
  snd (@ExtractAudio decimalStrconv (ffmpegFailure longLine None))
  = Some (errorString ("ffmpeg failed: " +:+ longLine))
  /\ String.length ("ffmpeg failed: " +:+ longLine) = 315%nat
  /\ snd (TranscribeAudio svcDemo (whisperFailure longLine))
     = Some (errorString ("whisper-cli failed: "
                          +:+ utf8.takeBytes 220 longLine +:+ "...")).
Proof. vm_compute. repeat split; reflexivity. Qed.

(** C5. ffmpeg is killed because the deadline of the context has passed:
    [ExtractAudio] tests the context against [context.Canceled] only, and
    answers with the message of a failed execution, which is not an
    error of the cancellation kind; the whisper adapter, at the same
    deadline, returns the error of the context. *)
Theorem ExtractAudio_deadline_reported_as_failure :
  let run :=
    {| probeErr := None; probeOut := "100"; stdoutPipeErr := None;
       stderrPipeErr := None; startErr := None;
       stdoutLines := ["out_time_ms=50000000"]; scanErr := None;
       stderrLines := ["size=  1024kB time=00:00:50.00 bitrate= 167.8kbits/s"];
       waitErr := Some (foreign "signal: killed");
       ctxAtWait := Some causeDeadline |} in
  snd (@ExtractAudio decimalStrconv run)
  = Some (errorString
            "ffmpeg failed: size=  1024kB time=00:00:50.00 bitrate= 167.8kbits/s")
  /\ (forall e, snd (@ExtractAudio decimalStrconv run) = Some e ->
                isCancellation e = false)
  /\ snd (TranscribeAudio svcDemo
            {| whisperStartErr := None; ticks := 3;
               whisperEnd := ctxDone causeDeadline |})
     = Some DeadlineExceeded.
Proof.
  vm_compute. repeat split; try reflexivity.
  intros e He. injection He as <-. reflexivity.
Qed.

End adapters_props.

(** ** The percent of a progress marker

    [SpecFloat] computes on mantissas and exponents; the lemmas below
    follow [binary_round_aux] through its two shifts to bound what it
    returns. *)
Module float_props.

Lemma digits2_pos_upper (p : positive) : Zpos p < 2 ^ Zpos (digits2_pos p).
Proof.
  induction p as [p IH|p IH|]; simpl digits2_pos.
  - rewrite Pos2Z.inj_succ, Z.pow_succ_r by lia. lia.
  - rewrite Pos2Z.inj_succ, Z.pow_succ_r by lia. lia.
  - reflexivity.
Qed.

Lemma digits2_pos_lower (p : positive) : 2 ^ (Zpos (digits2_pos p) - 1) <= Zpos p.
Proof.
  induction p as [p IH|p IH|]; simpl digits2_pos.
  - rewrite Pos2Z.inj_succ. replace (Z.succ (Zpos (digits2_pos p)) - 1)
      with (Z.succ (Zpos (digits2_pos p) - 1)) by lia.
    rewrite Z.pow_succ_r by lia. lia.
  - rewrite Pos2Z.inj_succ. replace (Z.succ (Zpos (digits2_pos p)) - 1)
      with (Z.succ (Zpos (digits2_pos p) - 1)) by lia.
    rewrite Z.pow_succ_r by lia. lia.
  - simpl. lia.
Qed.

Lemma Zdigits2_upper (m : Z) : 0 <= m -> m < 2 ^ Zdigits2 m.
Proof.
  destruct m as [|p|p]; intros Hm; simpl; [lia | apply digits2_pos_upper | lia].
Qed.

Lemma Zdigits2_nonneg (m : Z) : 0 <= Zdigits2 m.
Proof. destruct m; simpl; lia. Qed.

(** If [0 < m < 2^k] then [m] has at most [k] digits. *)
Lemma Zdigits2_le (m k : Z) : 0 <= k -> 0 <= m < 2 ^ k -> Zdigits2 m <= k.
Proof.
  intros Hk [Hm Hlt]. destruct m as [|p|p]; simpl; [lia | | lia].
  pose proof (digits2_pos_lower p) as Hlow.
  destruct (Z_le_gt_dec (Zpos (digits2_pos p)) k) as [|Hgt]; [assumption|].
  exfalso.
  assert (2 ^ k <= 2 ^ (Zpos (digits2_pos p) - 1)) by (apply Z.pow_le_mono_r; lia).
  lia.
Qed.

Lemma shr_1_m (mrs : shr_record) :
  0 <= shr_m mrs -> shr_m (shr_1 mrs) = shr_m mrs / 2.
Proof.
  destruct mrs as [m r s]. cbn [shr_m]. intros Hm.
  destruct m as [|[p|p|]|p]; cbn [shr_1 shr_m]; try lia; try reflexivity.
  - rewrite Pos2Z.inj_xI. apply Z.div_unique with (r := 1); lia.
  - rewrite Pos2Z.inj_xO. apply Z.div_unique with (r := 0); lia.
Qed.

Lemma shr_1_nonneg (mrs : shr_record) : 0 <= shr_m mrs -> 0 <= shr_m (shr_1 mrs).
Proof.
  intros Hm. rewrite shr_1_m by assumption. apply Z.div_pos; lia.
Qed.

Lemma pow2_xO (n : positive) : 2 ^ Zpos n~0 = 2 ^ Zpos n * 2 ^ Zpos n.
Proof. rewrite Pos2Z.inj_xO, <- Z.pow_add_r by lia. f_equal. lia. Qed.

Lemma pow2_xI (n : positive) : 2 ^ Zpos n~1 = 2 * (2 ^ Zpos n * 2 ^ Zpos n).
Proof.
  rewrite Pos2Z.inj_xI, <- Z.pow_add_r by lia.
  replace (2 * Zpos n + 1) with (Z.succ (Zpos n + Zpos n)) by lia.
  apply Z.pow_succ_r. lia.
Qed.

Lemma iter_shr_1_m (n : positive) (mrs : shr_record) :
  0 <= shr_m mrs ->
  shr_m (SpecFloat.iter_pos shr_1 n mrs) = shr_m mrs / 2 ^ Zpos n.
Proof.
  revert mrs. induction n as [n IH|n IH|]; intros mrs Hm; simpl SpecFloat.iter_pos.
  - assert (Hp : 0 < 2 ^ Zpos n) by (apply Z.pow_pos_nonneg; lia).
    assert (H1 : 0 <= shr_m (shr_1 mrs)) by (apply shr_1_nonneg; assumption).
    assert (H2 : 0 <= shr_m (SpecFloat.iter_pos shr_1 n (shr_1 mrs))).
    { rewrite IH by assumption. apply Z.div_pos; assumption. }
    rewrite IH, IH, shr_1_m by assumption.
    rewrite !Z.div_div by lia. rewrite pow2_xI. reflexivity.
  - assert (Hp : 0 < 2 ^ Zpos n) by (apply Z.pow_pos_nonneg; lia).
    assert (H2 : 0 <= shr_m (SpecFloat.iter_pos shr_1 n mrs)).
    { rewrite IH by assumption. apply Z.div_pos; assumption. }
    rewrite IH, IH by assumption.
    rewrite !Z.div_div by lia. rewrite pow2_xO. reflexivity.
  - rewrite shr_1_m by assumption. reflexivity.
Qed.

(** What [shr] leaves: the mantissa divided by [2^n], the exponent raised
    by [n], for a shift [n] that is positive; nothing changes otherwise. *)
Lemma shr_spec (mrs : shr_record) (e n : Z) :
  0 <= shr_m mrs ->
  shr_m (fst (shr mrs e n)) = shr_m mrs / 2 ^ Z.max n 0
  /\ snd (shr mrs e n) = e + Z.max n 0.
Proof.
  intros Hm. destruct n as [|p|p]; simpl.
  - rewrite Z.div_1_r. split; [reflexivity | lia].
  - rewrite iter_shr_1_m by assumption. split; reflexivity.
  - rewrite Z.div_1_r. split; [reflexivity | lia].
Qed.

Lemma shr_record_of_loc_m (m : Z) (l : location) : shr_m (shr_record_of_loc m l) = m.
Proof. destruct l as [|[| |]]; reflexivity. Qed.

Lemma round_nearest_even_bounds (m : Z) (l : location) :
  m <= round_nearest_even m l <= m + 1.
Proof.
  unfold round_nearest_even. destruct l as [|[| |]]; try lia.
  destruct (Z.even m); lia.
Qed.


Lemma fexp64 (x : Z) : fexp 53 1024 x = Z.max (x - 53) (-1074).
Proof. reflexivity. Qed.

(** The shape of a finite result of [binary_round_aux]: a first shift by
    [n], a rounding that adds at most one, a second shift by [n2]. *)
Lemma binary_round_aux_finite (s s' : bool) (mx ex : Z) (lx : location)
  (m : positive) (e : Z) :
  0 <= mx ->
  binary_round_aux 53 1024 s mx ex lx = S754_finite s' m e ->
  exists m1 : Z,
    let n := Z.max (fexp 53 1024 (Zdigits2 mx + ex) - ex) 0 in
    let n2 := Z.max (fexp 53 1024 (Zdigits2 m1 + (ex + n)) - (ex + n)) 0 in
    mx / 2 ^ n <= m1 <= mx / 2 ^ n + 1
    /\ (lx = loc_Exact -> n = 0 -> m1 = mx)
    /\ Zpos m = m1 / 2 ^ n2
    /\ e = ex + n + n2
    /\ s' = s.
Proof.
  intros Hmx. unfold binary_round_aux, shr_fexp.
  pose proof (shr_spec (shr_record_of_loc mx lx) ex
                (fexp 53 1024 (Zdigits2 mx + ex) - ex)) as H1.
  rewrite shr_record_of_loc_m in H1. specialize (H1 Hmx).
  destruct (shr (shr_record_of_loc mx lx) ex
              (fexp 53 1024 (Zdigits2 mx + ex) - ex)) as [mrs1 e1] eqn:Hshr1.
  simpl in H1. destruct H1 as [Hm1 He1].
  set (m1 := round_nearest_even (shr_m mrs1) (loc_of_shr_record mrs1)).
  assert (Hm1pos : 0 <= shr_m mrs1).
  { rewrite Hm1. apply Z.div_pos; [assumption|]. apply Z.pow_pos_nonneg; lia. }
  pose proof (round_nearest_even_bounds (shr_m mrs1) (loc_of_shr_record mrs1)) as Hr.
  fold m1 in Hr.
  pose proof (shr_spec (shr_record_of_loc m1 loc_Exact) e1
                (fexp 53 1024 (Zdigits2 m1 + e1) - e1)) as H2.
  rewrite shr_record_of_loc_m in H2. specialize (H2 ltac:(lia)).
  destruct (shr (shr_record_of_loc m1 loc_Exact) e1
              (fexp 53 1024 (Zdigits2 m1 + e1) - e1)) as [mrs2 e2] eqn:Hshr2.
  simpl in H2. destruct H2 as [Hm2 He2].
  destruct (shr_m mrs2) as [|p|p] eqn:Hp; try discriminate.
  destruct (e2 <=? 1024 - 53); try discriminate.
  intros Heq. injection Heq as Hs Hpm He. subst s' p e.
  exists m1. cbv zeta. rewrite <- He1, <- Hm1.
  split; [exact Hr|]. split; [|split; [|split]].
  - intros -> Hn. unfold shr in Hshr1.
    destruct (fexp 53 1024 (Zdigits2 mx + ex) - ex) as [|q|q] eqn:Hq; try lia;
      injection Hshr1 as <- <-; reflexivity.
  - exact Hm2.
  - lia.
  - reflexivity.
Qed.

(** A finite result of [binary_round_aux] has a mantissa below [2^53]. *)
Lemma binary_round_aux_mantissa (s s' : bool) (mx ex : Z) (lx : location)
  (m : positive) (e : Z) :
  0 <= mx ->
  binary_round_aux 53 1024 s mx ex lx = S754_finite s' m e ->
  Zpos m < 2 ^ 53.
Proof.
  intros Hmx Heq.
  destruct (binary_round_aux_finite _ _ _ _ _ _ _ Hmx Heq)
    as (m1 & Hm1 & _ & Hm & _ & _). cbv zeta in *.
  set (n := Z.max (fexp 53 1024 (Zdigits2 mx + ex) - ex) 0) in *.
  set (n2 := Z.max (fexp 53 1024 (Zdigits2 m1 + (ex + n)) - (ex + n)) 0) in *.
  assert (Hn : 0 <= n) by (unfold n; lia).
  assert (Hn2 : 0 <= n2) by (unfold n2; lia).
  assert (Hpn : 0 < 2 ^ n) by (apply Z.pow_pos_nonneg; lia).
  assert (Hpn2 : 0 < 2 ^ n2) by (apply Z.pow_pos_nonneg; lia).
  (* the first shift leaves at most 53 digits *)
  assert (Hq : mx / 2 ^ n < 2 ^ 53).
  { pose proof (Zdigits2_upper mx Hmx) as Hup.
    pose proof (Zdigits2_nonneg mx) as Hd.
    apply Z.div_lt_upper_bound; [assumption|].
    rewrite <- Z.pow_add_r by lia.
    apply Z.lt_le_trans with (1 := Hup).
    apply Z.pow_le_mono_r; [lia|].
    unfold n. rewrite fexp64. lia. }
  rewrite Hm.
  destruct (Z.eq_dec m1 (2 ^ 53)) as [E|NE].
  - (* the rounding carried: the second shift halves *)
    assert (Hd : Zdigits2 m1 = 54) by (rewrite E; reflexivity).
    assert (Hn2' : 1 <= n2) by (unfold n2; rewrite Hd, fexp64; lia).
    assert (Hp2 : 2 ^ 1 <= 2 ^ n2) by (apply Z.pow_le_mono_r; lia).
    change (2 ^ 1) with 2 in Hp2.
    apply Z.div_lt_upper_bound; [assumption|].
    rewrite E. change (2 ^ 53) with 9007199254740992. lia.
  - apply Z.le_lt_trans with m1; [|lia].
    apply Z.div_le_upper_bound; [assumption|]. 
    assert (0 <= m1) by (pose proof (Z.div_pos mx (2 ^ n) Hmx Hpn); lia).
    nia.
Qed.


Lemma ofZ_100 : float64.ofZ 100 = S754_finite false 7036874417766400 (-46).
Proof. reflexivity. Qed.

Lemma ofZ_1 : float64.ofZ 1 = S754_finite false 4503599627370496 (-52).
Proof. reflexivity. Qed.

(** A float that is at most one: finite, positive, [m * 2^e <= 1]. *)
Definition atMostOne (m : positive) (e : Z) : Prop :=
  e < 0 /\ Zpos m <= 2 ^ (- e).

Lemma trunc_nonneg (m : positive) (e : Z) : 0 <= float64.trunc false m e.
Proof.
  unfold float64.trunc. cbv zeta. destruct (Z.leb_spec 0 e) as [He|He].
  - apply Z.mul_nonneg_nonneg; [apply Pos2Z.is_nonneg|]. apply Z.pow_nonneg. lia.
  - apply Z.div_pos; [apply Pos2Z.is_nonneg|]. apply Z.pow_pos_nonneg; lia.
Qed.

(** The product of a float at most one with 100, truncated, is at most 100. *)
Lemma mul_100_trunc (m : positive) (e : Z) (s' : bool) (m' : positive) (e' : Z) :
  atMostOne m e ->
  float64.mul (S754_finite false m e) (float64.ofZ 100) = S754_finite s' m' e' ->
  s' = false /\ 0 <= float64.trunc s' m' e' <= 100.
Proof.
  intros [He Hm] Hmul. rewrite ofZ_100 in Hmul.
  unfold float64.mul, SFmul in Hmul.
  change (xorb false false) with false in Hmul.
  set (P := Zpos (m * 7036874417766400)) in *.
  set (ex := e + -46) in *.
  assert (HP0 : 0 <= P) by (unfold P; lia).
  destruct (binary_round_aux_finite _ _ _ _ _ _ _ HP0 Hmul)
    as (m1 & Hm1 & Hexact & Hm' & He' & ->). cbv zeta in *.
  set (n := Z.max (fexp 53 1024 (Zdigits2 P + ex) - ex) 0) in *.
  set (n2 := Z.max (fexp 53 1024 (Zdigits2 m1 + (ex + n)) - (ex + n)) 0) in *.
  split; [reflexivity|]. split; [apply trunc_nonneg|].
  assert (Hn : 0 <= n) by (unfold n; lia).
  assert (Hn2 : 0 <= n2) by (unfold n2; lia).
  assert (Hpn : 0 < 2 ^ n) by (apply Z.pow_pos_nonneg; lia).
  assert (Hpn2 : 0 < 2 ^ n2) by (apply Z.pow_pos_nonneg; lia).
  (* the exact product is at most 100 *)
  assert (HP : P <= 100 * 2 ^ (- ex)).
  { unfold P, ex. rewrite Pos2Z.inj_mul.
    replace (- (e + -46)) with (- e + 46) by lia.
    rewrite Z.pow_add_r by lia.
    change (Zpos 7036874417766400) with (100 * 2 ^ 46).
    assert (0 < 2 ^ 46) by reflexivity. nia. }
  (* so it has at most [7 - ex] digits, and the exponent stays negative *)
  assert (Hdig : Zdigits2 P + ex <= 7).
  { assert (Zdigits2 P <= 7 - ex); [|lia].
    apply Zdigits2_le; [unfold ex; lia|]. split; [assumption|].
    replace (7 - ex) with (7 + - ex) by lia. rewrite Z.pow_add_r by (unfold ex; lia).
    assert (0 < 2 ^ (- ex)) by (apply Z.pow_pos_nonneg; unfold ex; lia).
    change (2 ^ 7) with 128. lia. }
  set (e1 := ex + n) in *.
  assert (He1 : e1 <= -46).
  { unfold e1, n. rewrite fexp64. unfold ex. lia. }
  assert (Hpe1 : 0 < 2 ^ (- e1)) by (apply Z.pow_pos_nonneg; lia).
  assert (Hbig : 2 ^ 1 <= 2 ^ (- e1)) by (apply Z.pow_le_mono_r; lia).
  change (2 ^ 1) with 2 in Hbig.
  assert (Hsplit : 2 ^ (- ex) = 2 ^ n * 2 ^ (- e1)).
  { rewrite <- Z.pow_add_r by lia. f_equal. unfold e1. lia. }
  assert (Hq : P / 2 ^ n <= 100 * 2 ^ (- e1)).
  { apply Z.div_le_upper_bound; [assumption|]. rewrite Hsplit in HP. lia. }
  assert (Hm1' : m1 < 101 * 2 ^ (- e1)) by lia.
  assert (Hm1pos : 0 <= m1).
  { pose proof (Z.div_pos P (2 ^ n) HP0 Hpn). lia. }
  unfold float64.trunc. cbv zeta. rewrite Hm', He'. fold e1.
  destruct (Z.leb_spec 0 (e1 + n2)) as [Hpos|Hneg].
  - (* the exponent would be non-negative *)
    assert (Hn2split : 2 ^ n2 = 2 ^ (- e1) * 2 ^ (e1 + n2)).
    { rewrite <- Z.pow_add_r by lia. f_equal. lia. }
    assert (Hpe : 0 < 2 ^ (e1 + n2)) by (apply Z.pow_pos_nonneg; lia).
    pose proof (Z.mul_div_le m1 (2 ^ n2) Hpn2) as Hfl.
    rewrite Hn2split in Hfl at 1.
    assert (Hqpos : 0 <= m1 / 2 ^ n2) by (apply Z.div_pos; assumption).
    nia.
  - replace (- (e1 + n2)) with (- e1 - n2) by lia.
    rewrite Z.div_div by (try apply Z.pow_pos_nonneg; lia).
    rewrite <- Z.pow_add_r by lia.
    replace (n2 + (- e1 - n2)) with (- e1) by lia.
    assert (m1 / 2 ^ (- e1) < 101); [|lia].
    apply Z.div_lt_upper_bound; [assumption|]. lia.
Qed.

Lemma div_mantissa (x y : spec_float) (s : bool) (m : positive) (e : Z) :
  float64.div x y = S754_finite s m e -> Zpos m < 2 ^ 53.
Proof.
  unfold float64.div, SFdiv.
  destruct x as [sx|sx| |sx mx ex], y as [sy|sy| |sy my ey]; try discriminate.
  unfold SFdiv_core_binary.
  set (m' := match _ - _ with Z0 => Zpos mx | Zpos _ => _ | Zneg _ => 0 end).
  assert (Hm' : 0 <= m').
  { unfold m'. destruct (_ - _); [lia | | lia].
    rewrite Z.shiftl_mul_pow2 by lia.
    apply Z.mul_nonneg_nonneg; [lia|]. apply Z.pow_nonneg. lia. }
  pose proof (Z_div_mod m' (Zpos my) ltac:(lia)) as Hdm.
  destruct (Z.div_eucl m' (Zpos my)) as [q r].
  intros Hr. apply binary_round_aux_mantissa in Hr; [exact Hr|].
  destruct Hdm as [Hq Hrem]. nia.
Qed.


Lemma percent_of_zero (s : bool) :
  float64.toInt (float64.mul (S754_zero s) (float64.ofZ 100)) = 0.
Proof. rewrite ofZ_100. reflexivity. Qed.

Lemma percent_of_nan :
  float64.toInt (float64.mul S754_nan (float64.ofZ 100)) = float64.minInt.
Proof. reflexivity. Qed.

Lemma percent_of_atMostOne (m : positive) (e : Z) :
  atMostOne m e ->
  float64.toInt (float64.mul (S754_finite false m e) (float64.ofZ 100))
  = float64.minInt
  \/ 0 <= float64.toInt (float64.mul (S754_finite false m e) (float64.ofZ 100))
     <= 100.
Proof.
  intros Hle.
  destruct (float64.mul (S754_finite false m e) (float64.ofZ 100))
    as [s'|s'| |s' m' e'] eqn:Hmul.
  - right. change (float64.toInt (S754_zero s')) with 0. lia.
  - left. reflexivity.
  - left. reflexivity.
  - destruct (mul_100_trunc m e s' m' e' Hle Hmul) as [-> Hb].
    unfold float64.toInt. cbv zeta.
    destruct (_ && _); [right; exact Hb | left; reflexivity].
Qed.

Lemma one_atMostOne : atMostOne 4503599627370496 (-52).
Proof. split; [lia|]. change (2 ^ (- -52)) with 4503599627370496. lia. Qed.

Lemma ltb_zero_pos (m : positive) (e : Z) :
  float64.ltb (S754_finite false m e) float64.zero = false.
Proof. reflexivity. Qed.

Lemma ltb_zero_neg (m : positive) (e : Z) :
  float64.ltb (S754_finite true m e) float64.zero = true.
Proof. reflexivity. Qed.

(** The test [ratio > 1] on a finite positive float. *)
Lemma ltb_one_spec (m : positive) (e : Z) :
  Zpos m < 2 ^ 53 ->
  float64.ltb (float64.ofZ 1) (S754_finite false m e) = false ->
  atMostOne m e.
Proof.
  intros Hm. rewrite ofZ_1. unfold float64.ltb, SFltb, SFcompare.
  destruct (Z.compare_spec (-52) e) as [He|He|He]; try discriminate.
  - subst e. rewrite Pos.compare_cont_spec. cbn [Pos.switch_Eq].
    destruct (Pos.compare_spec 4503599627370496 m) as [Hc|Hc|Hc];
      try discriminate; intros _.
    + subst m. exact one_atMostOne.
    + apply Pos2Z.pos_lt_pos in Hc. clear Hm.
      split; [lia|]. change (2 ^ (- -52)) with 4503599627370496. lia.
  - intros _. split; [lia|].
    assert (2 ^ 53 <= 2 ^ (- e)) by (apply Z.pow_le_mono_r; lia). lia.
Qed.

(** [int(r * 100)] for a float [r] that went through the two clamps. *)
Lemma clamped_percent (r : spec_float) :
  (forall s m e, r = S754_finite s m e -> Zpos m < 2 ^ 53) ->
  let r1 := if float64.ltb r float64.zero then float64.zero else r in
  let r2 := if float64.ltb (float64.ofZ 1) r1 then float64.ofZ 1 else r1 in
  let p := float64.toInt (float64.mul r2 (float64.ofZ 100)) in
  p = float64.minInt \/ 0 <= p <= 100.
Proof.
  intros Hmant. cbv zeta.
  assert (Hz : forall s,
             (if float64.ltb (float64.ofZ 1) (S754_zero s)
              then float64.ofZ 1 else S754_zero s) = S754_zero s).
  { intros s. rewrite ofZ_1. reflexivity. }
  destruct r as [s|s| |s m e].
  - change (float64.ltb (S754_zero s) float64.zero) with false. cbv iota.
    rewrite Hz, percent_of_zero. right. lia.
  - destruct s.
    + change (float64.ltb (S754_infinity true) float64.zero) with true. cbv iota.
      unfold float64.zero. rewrite Hz, percent_of_zero. right. lia.
    + change (float64.ltb (S754_infinity false) float64.zero) with false. cbv iota.
      replace (float64.ltb (float64.ofZ 1) (S754_infinity false)) with true
        by (rewrite ofZ_1; reflexivity).
      rewrite ofZ_1. apply percent_of_atMostOne, one_atMostOne.
  - change (float64.ltb S754_nan float64.zero) with false. cbv iota.
    replace (float64.ltb (float64.ofZ 1) S754_nan) with false
      by (rewrite ofZ_1; reflexivity).
    left. reflexivity.
  - destruct s.
    + rewrite ltb_zero_neg. unfold float64.zero. rewrite Hz, percent_of_zero.
      right. lia.
    + rewrite ltb_zero_pos.
      destruct (float64.ltb (float64.ofZ 1) (S754_finite false m e)) eqn:Hone.
      * rewrite ofZ_1. apply percent_of_atMostOne, one_atMostOne.
      * apply percent_of_atMostOne. apply ltb_one_spec; [|exact Hone].
        exact (Hmant _ _ _ eq_refl).
Qed.

(** Whatever ffmpeg prints and whatever the probe measured, the percent
    of a marker is at most 100; it is the smallest [int] when the ratio is
    not a number, and non-negative otherwise. *)
Lemma ratioPercent_range (outMs duration : spec_float) :
  extractor.ratioPercent outMs duration = float64.minInt
  \/ 0 <= extractor.ratioPercent outMs duration <= 100.
Proof.
  unfold extractor.ratioPercent.
  apply (clamped_percent
           (float64.div (float64.div outMs (float64.ofZ 1000000)) duration)).
  intros s m e Hr. exact (div_mantissa _ _ _ _ _ Hr).
Qed.

End float_props.

(** ** Progress stays between 0 and 100 *)
Module progress_props.
Import models handlers engine.

Definition inRange (p : Z) : Prop := 0 <= p <= 100.

Definition jobInRange (j : ExtractionJob) : Prop :=
  inRange (Progress j) /\ inRange (TranscriptProgress j).

(** A step still to be taken keeps the range. *)
Definition todoInRange (t : Todo) : Prop :=
  match t with
  | doUpdate _ fn => forall now j, jobInRange j -> jobInRange (fn now j)
  | doBroadcast evt => inRange (EvProgress evt)
  | doGo _ => True
  end.

Definition threadInRange (th : Thread) : Prop :=
  match th with
  | fresh _ => True
  | running todo => Forall todoInRange todo
  end.

(** The invariant: the jobs stored, the events sent, and all that the
    threads still have to do. *)
Definition rangeInv (st : State) : Prop :=
  (forall id j, jobs (reg st) !! id = Some j -> jobInRange j)
  /\ Forall threadInRange (threads st)
  /\ Forall (fun evt => inRange (EvProgress evt)) (sent st).

(** The percent an adapter hands to its callback: at most 100. *)
Definition callBounded (c : extractor.Call) : Prop := extractor.percent c <= 100.

Section Range.
Context `{CaseTable} `{Strconv}.
Variable svc : extractor.Service.

Lemma scanLine_bounded (d : spec_float) (st : Z * list extractor.Call) (text : string) :
  Forall callBounded (snd st) ->
  Forall callBounded (snd (extractor.scanLine d st text)).
Proof.
  intros Hst. unfold extractor.scanLine.
  destruct (String.eqb (strings.TrimSpace text) ""); [exact Hst|].
  set (st1 := if strings.HasPrefix _ "out_time_ms=" then _ else st).
  assert (H1 : Forall callBounded (snd st1)).
  { unfold st1. destruct (strings.HasPrefix _ _); [|exact Hst].
    destruct (float64.ltb _ _); [|exact Hst].
    destruct (ParseFloat _) as [outMs|]; [|exact Hst].
    simpl. apply Forall_app. split; [exact Hst|].
    constructor; [|constructor]. unfold callBounded. simpl.
    destruct (float_props.ratioPercent_range outMs d) as [E|E].
    - rewrite E. unfold float64.minInt. lia.
    - lia. }
  destruct (strings.HasPrefix _ "progress=end"); [|exact H1].
  simpl. apply Forall_app. split; [exact H1|].
  constructor; [|constructor]. unfold callBounded. simpl. lia.
Qed.

Lemma scan_bounded (d : spec_float) (lines : list string)
  (st : Z * list extractor.Call) :
  Forall callBounded (snd st) ->
  Forall callBounded (snd (fold_left (extractor.scanLine d) lines st)).
Proof.
  revert st. induction lines as [|l lines IH]; intros st Hst; [exact Hst|].
  simpl. apply IH, scanLine_bounded, Hst.
Qed.

(** Every call [ExtractAudio] makes carries a percent of at most 100. *)
Lemma ExtractAudio_bounded (run : extractor.FfmpegRun) :
  Forall callBounded (fst (extractor.ExtractAudio run)).
Proof.
  unfold extractor.ExtractAudio.
  destruct (extractor.stdoutPipeErr run); [constructor|].
  destruct (extractor.stderrPipeErr run); [constructor|].
  assert (H0' : Forall callBounded
                  [{| extractor.percent := 0; extractor.status := "processing";
                      extractor.message := "iniciando extração" |}]).
  { constructor; [|constructor]. unfold callBounded. simpl. lia. }
  destruct (extractor.startErr run); [exact H0'|].
  pose proof (scan_bounded (fst (extractor.probeDuration run))
                (extractor.stdoutLines run) (0, _) H0') as Hscan.
  destruct (extractor.scanErr run); [exact Hscan|].
  destruct (extractor.waitErr run).
  - destruct (extractor.ctxAtWait run) as [[|]|]; try exact Hscan;
      destruct (negb _); exact Hscan.
  - simpl. apply Forall_app. split; [exact Hscan|].
    constructor; [|constructor]. unfold callBounded. simpl. lia.
Qed.

(** The ticker of the whisper adapter never reaches 100. *)
Lemma ticker_below_100 (n : nat) (p : Z) :
  p <= 96 -> Forall (fun c => extractor.percent c <= 96) (extractor.ticker n p).
Proof.
  revert p. induction n as [|n IH]; intros p Hp; [constructor|].
  simpl. destruct (Z.ltb_spec p 90) as [Hlt|Hge].
  - constructor; [simpl; lia|]. apply IH. lia.
  - constructor; [simpl; lia|]. apply IH. lia.
Qed.

Lemma TranscribeAudio_bounded (run : extractor.WhisperRun) :
  Forall callBounded (fst (extractor.TranscribeAudio svc run)).
Proof.
  unfold extractor.TranscribeAudio.
  destruct (String.eqb (extractor.whisperModel svc) ""); [constructor|].
  assert (H1 : Forall callBounded
                 [{| extractor.percent := 1; extractor.status := "processing";
                     extractor.message := "iniciando transcrição" |}]).
  { constructor; [|constructor]. unfold callBounded. simpl. lia. }
  destruct (extractor.whisperStartErr run); [exact H1|].
  assert (H2 : Forall callBounded
                 ([{| extractor.percent := 1; extractor.status := "processing";
                      extractor.message := "iniciando transcrição" |}]
                  ++ extractor.ticker (extractor.ticks run) 5)).
  { apply Forall_app. split; [exact H1|].
    eapply Forall_impl; [apply ticker_below_100; lia|].
    intros c Hc. unfold callBounded. simpl in Hc. lia. }
  destruct (extractor.whisperEnd run) as [cause|[err|] output].
  - exact H2.
  - destruct (negb _); exact H2.
  - cbn [fst]. apply Forall_app. split; [exact H2|].
    constructor; [|constructor]. unfold callBounded. simpl. lia.
Qed.

Lemma failJob_inRange (id : string) (err : error) :
  Forall todoInRange (map ofAction (failJob id err)).
Proof.
  unfold failJob. cbn [map ofAction].
  constructor; [|constructor; [|constructor]].
  - intros now j Hj. exact Hj.
  - unfold todoInRange, inRange. simpl. lia.
Qed.

Lemma failTranscription_inRange (id : string) (err : error) :
  Forall todoInRange (map ofAction (failTranscription id err)).
Proof.
  unfold failTranscription. cbn [map ofAction].
  constructor; [|constructor; [|constructor]].
  - intros now j [Hp _]. split; [exact Hp|]. simpl. unfold inRange. lia.
  - unfold todoInRange, inRange. simpl. lia.
Qed.

Lemma extractionCallbacks_inRange (id : string) (calls : list extractor.Call) :
  Forall callBounded calls ->
  Forall todoInRange (map ofAction (flat_map (extractionCallback id) calls)).
Proof.
  induction 1 as [|c calls Hc _ IH]; [constructor|].
  simpl. unfold callBounded in Hc.
  assert (Hp : inRange (if extractor.percent c <? 1 then 1 else extractor.percent c)).
  { unfold inRange. destruct (Z.ltb_spec (extractor.percent c) 1); lia. }
  constructor; [|constructor; [exact Hp | exact IH]].
  intros now j [_ Ht]. split; [exact Hp | exact Ht].
Qed.

Lemma transcriptionCallbacks_inRange (id : string) (calls : list extractor.Call) :
  Forall callBounded calls ->
  Forall todoInRange (map ofAction (flat_map (transcriptionCallback id) calls)).
Proof.
  induction 1 as [|c calls Hc _ IH]; [constructor|].
  simpl. unfold callBounded in Hc.
  assert (Hp : inRange (if extractor.percent c <? 1 then 1 else extractor.percent c)).
  { unfold inRange. destruct (Z.ltb_spec (extractor.percent c) 1); lia. }
  constructor; [|constructor; [exact Hp | exact IH]].
  intros now j [Hpr _]. split; [exact Hpr | exact Hp].
Qed.

Lemma runExtraction_inRange (a : App) (id : string) (run : ExtractionRun)
  (job : ExtractionJob) :
  Forall todoInRange (map ofAction (runExtraction a id run job)).
Proof.
  unfold runExtraction.
  destruct (mkdirOutputsErr run); [apply failJob_inRange|].
  cbn [map ofAction]. constructor.
  - intros now j Hj. exact Hj.
  - rewrite map_app. apply Forall_app. split.
    + apply extractionCallbacks_inRange, ExtractAudio_bounded.
    + destruct (snd (extractor.ExtractAudio (ffmpeg run))); [apply failJob_inRange|].
      cbn [map ofAction]. constructor; [|constructor; [|constructor]].
      * intros now j [_ Ht]. split; [unfold inRange; simpl; lia | exact Ht].
      * unfold todoInRange, inRange. simpl. lia.
Qed.

Lemma runTranscription_inRange (a : App) (id : string) (run : TranscriptionRun)
  (job : ExtractionJob) :
  Forall todoInRange (map ofAction (runTranscription a svc id run job)).
Proof.
  unfold runTranscription.
  destruct (String.eqb (OutputPath job) ""); [apply failTranscription_inRange|].
  cbn [map ofAction]. constructor.
  - intros now j [Hp _]. split; [exact Hp | unfold inRange; simpl; lia].
  - rewrite map_app. apply Forall_app. split.
    + apply transcriptionCallbacks_inRange, TranscribeAudio_bounded.
    + destruct (snd (extractor.TranscribeAudio svc (whisper run)));
        [apply failTranscription_inRange|].
      destruct (txtMissing run); [apply failTranscription_inRange|].
      destruct (srtMissing run); [apply failTranscription_inRange|].
      cbn [map ofAction]. constructor; [|constructor; [|constructor]].
      * intros now j [Hp _]. split; [exact Hp | unfold inRange; simpl; lia].
      * unfold todoInRange, inRange. simpl. lia.
Qed.

Lemma upload_jobs (a : App) (req : UploadRequest) (id : string) (now : Z)
  (id' : string) (j : ExtractionJob) :
  jobs (app (upload a req id now)) !! id' = Some j ->
  jobs a !! id' = Some j \/ (Progress j = 0 /\ TranscriptProgress j = 0).
Proof.
  unfold upload.
  repeat (match goal with
          | |- context [if ?b then _ else _] => destruct b
          end; simpl; [tauto|]).
  rewrite lookup_insert. case_decide.
  - intros Hj. injection Hj as <-. right. split; reflexivity.
  - tauto.
Qed.

Lemma startExtraction_jobs (a : App) (id : string) (now : Z)
  (id' : string) (j : ExtractionJob) :
  jobs (app (startExtraction a id now)) !! id' = Some j ->
  jobs a !! id' = Some j \/ (Progress j = 1 /\ TranscriptProgress j = 0).
Proof.
  unfold startExtraction. destruct (jobs a !! id) as [job|]; [|simpl; tauto].
  destruct (Status job); simpl; try tauto;
    (rewrite lookup_insert; case_decide; [|tauto];
     intros Hj; injection Hj as <-; right; split; reflexivity).
Qed.

Lemma startTranscription_jobs (a : App) (id : string) (now : Z)
  (id' : string) (j : ExtractionJob) :
  jobs (app (startTranscription a id now)) !! id' = Some j ->
  jobs a !! id' = Some j
  \/ (exists job, jobs a !! id = Some job /\ Progress j = Progress job
                  /\ TranscriptProgress j = 1).
Proof.
  unfold startTranscription. destruct (jobs a !! id) as [job|] eqn:Hjob; [|simpl; tauto].
  destruct (negb _); [simpl; tauto|].
  destruct (TranscriptStatus job); simpl; try tauto;
    (rewrite lookup_insert; case_decide; [|tauto];
     intros Hj; injection Hj as <-; right; exists job; repeat split; reflexivity).
Qed.

Lemma startExtraction_broadcasts (a : App) (id : string) (now : Z) :
  Forall (fun evt => inRange (EvProgress evt))
    (broadcasts (startExtraction a id now)).
Proof.
  unfold startExtraction. destruct (jobs a !! id) as [job|]; [|constructor].
  destruct (Status job); simpl; constructor;
    try constructor; unfold inRange; simpl; lia.
Qed.

Lemma startTranscription_broadcasts (a : App) (id : string) (now : Z) :
  Forall (fun evt => inRange (EvProgress evt))
    (broadcasts (startTranscription a id now)).
Proof.
  unfold startTranscription. destruct (jobs a !! id) as [job|]; [|constructor].
  destruct (negb _); [constructor|].
  destruct (TranscriptStatus job); simpl; constructor;
    try constructor; unfold inRange; simpl; lia.
Qed.

Lemma afterHandler_inRange (o : Outcome) :
  Forall (fun evt => inRange (EvProgress evt)) (broadcasts o) ->
  Forall threadInRange (afterHandler o).
Proof.
  intros Hb. unfold afterHandler.
  assert (Hth : forall t, threadInRange
            (running (map doBroadcast (broadcasts o)
                      ++ match t with Some t => [doGo t] | None => [] end))).
  { intros t. simpl. apply Forall_app. split.
    - rewrite Forall_map. exact Hb.
    - destruct t; repeat constructor. }
  destruct (broadcasts o) as [|evt evts] eqn:Hbs.
  - destruct (started o) as [t|]; [|constructor].
    constructor; [|constructor]. exact (Hth (Some t)).
  - constructor; [|constructor]. apply Hth.
Qed.

Lemma currentProgressEvent_inRange (job : ExtractionJob) :
  jobInRange job -> inRange (EvProgress (currentProgressEvent job)).
Proof.
  intros [Hp Ht]. unfold currentProgressEvent.
  destruct (_ || _); simpl; assumption.
Qed.

Lemma rangeInv_initial (uploads outputs : string) (maxUpload : Z) :
  rangeInv (initial uploads outputs maxUpload).
Proof.
  split; [|split]; simpl; [|constructor|constructor].
  intros id j Hj. rewrite lookup_empty in Hj. discriminate.
Qed.

(** Every step of the system keeps the invariant. *)
Lemma rangeInv_step (st st' : State) :
  rangeInv st -> step svc st st' -> rangeInv st'.
Proof.
  intros (Hjobs & Hthreads & Hsent) Hstep.
  assert (Hhead : forall i t todo,
             threads st !! i = Some (running (t :: todo)) ->
             todoInRange t /\ Forall todoInRange todo).
  { intros i t todo Hi.
    pose proof (proj1 (Forall_lookup _ _) Hthreads i _ Hi) as Hth.
    simpl in Hth. apply Forall_cons in Hth. exact Hth. }
  destruct Hstep as
    [st req id now Hfresh | st id now | st id now | st i id run Hi
    | st i id run Hi | st i id fn todo now Hi | st i evt todo Hi
    | st i t todo Hi | st id job Hjob | st ttl now Httl].
  - (* upload *)
    split; [|split; assumption]. simpl.
    intros id' j Hj. apply upload_jobs in Hj as [Hj | [Hp Ht]].
    + exact (Hjobs _ _ Hj).
    + split; unfold inRange; lia.
  - (* startExtraction *)
    split; [|split; [|assumption]]; simpl.
    + intros id' j Hj. apply startExtraction_jobs in Hj as [Hj | [Hp Ht]].
      * exact (Hjobs _ _ Hj).
      * split; unfold inRange; lia.
    + apply Forall_app. split; [assumption|].
      apply afterHandler_inRange, startExtraction_broadcasts.
  - (* startTranscription *)
    split; [|split; [|assumption]]; simpl.
    + intros id' j Hj.
      apply startTranscription_jobs in Hj as [Hj | (job & Hjob & Hp & Ht)].
      * exact (Hjobs _ _ Hj).
      * destruct (Hjobs _ _ Hjob) as [Hpj _].
        split; unfold inRange in *; lia.
    + apply Forall_app. split; [assumption|].
      apply afterHandler_inRange, startTranscription_broadcasts.
  - (* runExtraction reads its job *)
    split; [assumption|split; [|assumption]]. simpl.
    apply Forall_insert; [assumption|]. simpl.
    destruct (getJob (reg st) id); [apply runExtraction_inRange | constructor].
  - (* runTranscription reads its job *)
    split; [assumption|split; [|assumption]]. simpl.
    apply Forall_insert; [assumption|]. simpl.
    destruct (getJob (reg st) id); [apply runTranscription_inRange | constructor].
  - (* updateJob *)
    destruct (Hhead _ _ _ Hi) as [Hfn Htodo].
    split; [|split; [|assumption]]; simpl.
    + intros id' j. unfold updateJob.
      destruct (jobs (reg st) !! id) as [job|] eqn:Hjob; [|apply Hjobs].
      simpl. rewrite lookup_insert. case_decide; [|apply Hjobs].
      intros Hj. injection Hj as <-. apply Hfn. exact (Hjobs _ _ Hjob).
    + apply Forall_insert; assumption.
  - (* broadcast *)
    destruct (Hhead _ _ _ Hi) as [Hevt Htodo].
    split; [assumption|split]; simpl.
    + apply Forall_insert; assumption.
    + apply Forall_app. split; [assumption|].
      constructor; [exact Hevt | constructor].
  - (* go *)
    destruct (Hhead _ _ _ Hi) as [_ Htodo].
    split; [assumption|split; [|assumption]]. simpl.
    apply Forall_app. split; [|repeat constructor].
    apply Forall_insert; assumption.
  - (* jobWS *)
    split; [assumption|split; [assumption|]]. simpl.
    apply Forall_app. split; [assumption|].
    constructor; [|constructor].
    apply currentProgressEvent_inRange. exact (Hjobs _ _ Hjob).
  - (* cleanup *)
    split; [|split; assumption]. simpl.
    intros id j Hj. apply map_lookup_filter_Some in Hj as [Hj _].
    exact (Hjobs _ _ Hj).
Qed.

Lemma reachable_rangeInv (st : State) : reachable svc st -> rangeInv st.
Proof.
  induction 1 as [uploads outputs maxUpload | st st' _ IH Hstep].
  - apply rangeInv_initial.
  - exact (rangeInv_step st st' IH Hstep).
Qed.

Lemma last_two {A : Type} (l : list A) (x y : A) : last (l ++ [x; y]) = Some y.
Proof.
  change [x; y] with ([x] ++ [y]). rewrite app_assoc. apply last_snoc.
Qed.

(** The event that closes a successful extraction. *)
Definition extractionDone (id : string) : ProgressEvent :=
  {| EvID := id; EvStage := "extraction"; EvStatus := StatusCompleted;
     EvProgress := 100; EvMessage := "extração concluída";
     EvDownloadURL := "/download/" +:+ id; EvTranscriptTXTURL := "";
     EvTranscriptSRTURL := ""; EvError := "" |}.

(** The event that closes a successful transcription. *)
Definition transcriptionDone (id : string) : ProgressEvent :=
  {| EvID := id; EvStage := "transcription"; EvStatus := StatusCompleted;
     EvProgress := 100; EvMessage := "transcrição concluída";
     EvDownloadURL := "";
     EvTranscriptTXTURL := "/transcript/" +:+ id +:+ "?format=txt";
     EvTranscriptSRTURL := "/transcript/" +:+ id +:+ "?format=srt";
     EvError := "" |}.

Lemma runExtraction_final (a : App) (id : string) (run : ExtractionRun)
  (job : ExtractionJob) :
  mkdirOutputsErr run = None ->
  snd (extractor.ExtractAudio (ffmpeg run)) = None ->
  last (runExtraction a id run job) = Some (Broadcast (extractionDone id)).
Proof.
  intros Hmk Hok. unfold runExtraction. rewrite Hmk, Hok.
  rewrite app_comm_cons. apply last_two.
Qed.

Lemma runTranscription_final (a : App) (id : string) (run : TranscriptionRun)
  (job : ExtractionJob) :
  OutputPath job <> "" ->
  snd (extractor.TranscribeAudio svc (whisper run)) = None ->
  txtMissing run = false -> srtMissing run = false ->
  last (runTranscription a svc id run job) = Some (Broadcast (transcriptionDone id)).
Proof.
  intros Hout Hok Htxt Hsrt. unfold runTranscription.
  rewrite (args_props.eqb_false_of_ne _ _ Hout), Hok, Htxt, Hsrt.
  rewrite app_comm_cons. apply last_two.
Qed.

(** C4. In every state the system can reach, the progress of each stage
    of each stored job and the progress of each event sent are between 0
    and 100.  Behind it: every percent [ExtractAudio] hands over is at most
    100 (the ratio is clamped before the conversion), the ticker of
    [TranscribeAudio] stays below 100, and both callbacks of the workers
    raise a percent below 1 to 1.  A run of a stage that succeeds ends
    with the event of status completed and progress 100. *)
Theorem progress_within_0_100 (st : State) :
  reachable svc st ->
  (forall id j, jobs (reg st) !! id = Some j ->
                0 <= Progress j <= 100 /\ 0 <= TranscriptProgress j <= 100)
  /\ (forall evt, evt ∈ sent st -> 0 <= EvProgress evt <= 100)
  /\ (forall run c, c ∈ fst (extractor.ExtractAudio run) ->
                    extractor.percent c <= 100)
  /\ (forall run c, c ∈ fst (extractor.TranscribeAudio svc run) ->
                    extractor.percent c <= 100)
  /\ (forall n c, c ∈ extractor.ticker n 5 -> extractor.percent c < 100)
  /\ (forall a id run job,
         mkdirOutputsErr run = None ->
         snd (extractor.ExtractAudio (ffmpeg run)) = None ->
         last (runExtraction a id run job) = Some (Broadcast (extractionDone id)))
  /\ (forall a id run job,
         OutputPath job <> "" ->
         snd (extractor.TranscribeAudio svc (whisper run)) = None ->
         txtMissing run = false -> srtMissing run = false ->
         last (runTranscription a svc id run job)
         = Some (Broadcast (transcriptionDone id))).
Proof.
  intros Hreach. destruct (reachable_rangeInv st Hreach) as (Hjobs & _ & Hsent).
  split; [|split; [|split; [|split; [|split; [|split]]]]].
  - intros id j Hj. exact (Hjobs id j Hj).
  - intros evt Hin. exact (proj1 (Forall_forall _ _) Hsent evt Hin).
  - intros run c Hin.
    exact (proj1 (Forall_forall _ _) (ExtractAudio_bounded run) c Hin).
  - intros run c Hin.
    exact (proj1 (Forall_forall _ _) (TranscribeAudio_bounded run) c Hin).
  - intros n c Hin. assert (Hc : extractor.percent c <= 96); [|lia].
    exact (proj1 (Forall_forall _ _) (ticker_below_100 n 5 ltac:(lia)) c Hin).
  - intros a id run job. apply runExtraction_final.
  - intros a id run job. apply runTranscription_final.
Qed.

End Range.

(** A run of the system: an upload, the trigger of the extraction, and
    the broadcast of the event "queued". *)
Definition run0 : State := initial "uploads" "outputs" 0.

Definition run1 : State :=
  {| reg := app (@upload asciiCase (reg run0) handlers_props.demoRequest "ab12" 7);
     threads := threads run0; sent := sent run0;
     used := {["ab12"]} ∪ used run0 |}.

Definition run2 : State := handled run1 (startExtraction (reg run1) "ab12" 9).

Definition run3 : State :=
  {| reg := reg run2;
     threads := <[0%nat := running [doGo (goRunExtraction "ab12")]]> (threads run2);
     sent := sent run2 ++ [event "ab12" "extraction" StatusQueued 1 "job em fila"];
     used := used run2 |}.

Lemma run3_reachable :
  @reachable asciiCase decimalStrconv adapters_props.svcDemo run3.
Proof.
  apply reachable_step with run2.
  - apply reachable_step with run1.
    + apply reachable_step with run0; [apply reachable_initial|].
      apply (step_upload adapters_props.svcDemo run0). set_solver.
    + apply (step_startExtraction adapters_props.svcDemo run1).
  - apply (step_broadcast adapters_props.svcDemo run2 0
             (event "ab12" "extraction" StatusQueued 1 "job em fila")
             [doGo (goRunExtraction "ab12")]).
    vm_compute. reflexivity.
Qed.

Lemma progress_within_0_100_witness :
  (forall id j, jobs (reg run3) !! id = Some j ->
                0 <= Progress j <= 100 /\ 0 <= TranscriptProgress j <= 100)
  /\ (forall evt, evt ∈ sent run3 -> 0 <= EvProgress evt <= 100).
Proof.
  pose proof (@progress_within_0_100 asciiCase decimalStrconv
                adapters_props.svcDemo run3 run3_reachable) as (Hj & He & _).
  split; [exact Hj | exact He].
Defined.

End progress_props.

(** ** The triggers in the running system *)
Module engine_props.
Import models handlers engine.

Definition isBroadcast (t : Todo) : Prop :=
  match t with doBroadcast _ => True | _ => False end.

(** A transform of the extraction worker before its last one: the stage
    is processing. *)
Definition midE (fn : Z -> ExtractionJob -> ExtractionJob) : Prop :=
  forall now j,
    Status (fn now j) = StatusProcessing
    /\ TranscriptStatus (fn now j) = TranscriptStatus j
    /\ ID (fn now j) = ID j.

(** The last transform of the extraction worker: completed or failed. *)
Definition endE (fn : Z -> ExtractionJob -> ExtractionJob) : Prop :=
  forall now j,
    (Status (fn now j) = StatusCompleted \/ Status (fn now j) = StatusFailed)
    /\ TranscriptStatus (fn now j) = TranscriptStatus j
    /\ ID (fn now j) = ID j.

(** A transform of the transcription worker: the extraction stays. *)
Definition stepT (fn : Z -> ExtractionJob -> ExtractionJob) : Prop :=
  forall now j, Status (fn now j) = Status j /\ ID (fn now j) = ID j.

(** What an extraction thread for [id] that still writes has to do. *)
Inductive eTodo (id : string) : list Todo -> Prop :=
| eTodo_go : eTodo id [doGo (goRunExtraction id)]
| eTodo_end fn rest :
    endE fn -> Forall isBroadcast rest -> eTodo id (doUpdate id fn :: rest)
| eTodo_mid fn rest :
    midE fn -> eTodo id rest -> eTodo id (doUpdate id fn :: rest)
| eTodo_broadcast evt rest :
    eTodo id rest -> eTodo id (doBroadcast evt :: rest).

Definition restT (id : string) (todo : list Todo) : Prop :=
  Forall (fun t => match t with
                   | doUpdate id' fn => id' = id /\ stepT fn
                   | doBroadcast _ => True
                   | doGo _ => False
                   end) todo.

(** What a transcription thread for [id] that still writes has to do. *)
Inductive tTodo (id : string) : list Todo -> Prop :=
| tTodo_go : tTodo id [doGo (goRunTranscription id)]
| tTodo_update fn rest :
    stepT fn -> restT id rest -> tTodo id (doUpdate id fn :: rest)
| tTodo_broadcast evt rest :
    tTodo id rest -> tTodo id (doBroadcast evt :: rest).

Inductive writesE (id : string) : Thread -> Prop :=
| writesE_fresh : writesE id (fresh (goRunExtraction id))
| writesE_running todo : eTodo id todo -> writesE id (running todo).

Inductive writesT (id : string) : Thread -> Prop :=
| writesT_fresh : writesT id (fresh (goRunTranscription id))
| writesT_running todo : tTodo id todo -> writesT id (running todo).

(** A thread that only has events left to send. *)
Inductive settled : Thread -> Prop :=
| settled_running todo : Forall isBroadcast todo -> settled (running todo).

Definition wellFormed (th : Thread) : Prop :=
  (exists id, writesE id th) \/ (exists id, writesT id th) \/ settled th.

Definition active (s : JobStatus) : Prop :=
  s = StatusQueued \/ s = StatusProcessing.

Definition transcriptStarted (j : ExtractionJob) : Prop :=
  TranscriptStatus j = StatusQueued \/ TranscriptStatus j = StatusProcessing
  \/ TranscriptStatus j = StatusCompleted \/ TranscriptStatus j = StatusFailed.

(** The invariant of the state machine. *)
Record engineInv (st : State) : Prop :=
  { inv_threads : forall i th, threads st !! i = Some th -> wellFormed th;
    inv_extracting : forall i th id j,
        threads st !! i = Some th -> writesE id th ->
        jobs (reg st) !! id = Some j -> active (Status j);
    inv_one_extractor : forall i k th th' id,
        threads st !! i = Some th -> threads st !! k = Some th' ->
        writesE id th -> writesE id th' -> i = k;
    inv_transcribing : forall i th id j,
        threads st !! i = Some th -> writesT id th ->
        jobs (reg st) !! id = Some j -> Status j = StatusCompleted;
    inv_transcript : forall id j,
        jobs (reg st) !! id = Some j -> transcriptStarted j ->
        Status j = StatusCompleted;
    inv_used_jobs : forall id j, jobs (reg st) !! id = Some j -> id ∈ used st;
    inv_used_threads : forall i th id,
        threads st !! i = Some th -> writesE id th \/ writesT id th ->
        id ∈ used st;
    inv_id : forall id j, jobs (reg st) !! id = Some j -> ID j = id }.

(** *** The shapes exclude each other *)

Definition blankJob : ExtractionJob :=
  {| ID := ""; InputFileName := ""; InputPath := ""; OutputPath := "";
     OutputName := ""; Format := ""; Quality := "";
     Status := StatusNotStarted; Progress := 0; Error := "";
     TranscriptStatus := StatusNotStarted; TranscriptProgress := 0;
     TranscriptError := ""; TranscriptTXTPath := ""; TranscriptTXTName := "";
     TranscriptSRTPath := ""; TranscriptSRTName := "";
     CreatedAt := 0; UpdatedAt := 0 |}.

Lemma stepT_not_midE fn : stepT fn -> midE fn -> False.
Proof.
  intros Ht Hm. destruct (Ht 0 blankJob) as [H1 _].
  destruct (Hm 0 blankJob) as [H2 _]. rewrite H1 in H2. discriminate.
Qed.

Lemma stepT_not_endE fn : stepT fn -> endE fn -> False.
Proof.
  intros Ht He. destruct (Ht 0 blankJob) as [H1 _].
  destruct (He 0 blankJob) as [[H2|H2] _]; rewrite H1 in H2; discriminate.
Qed.

Lemma eTodo_not_quiet id todo : eTodo id todo -> Forall isBroadcast todo -> False.
Proof.
  induction 1 as [|fn rest _ _|fn rest _ _ _|evt rest _ IH]; intros Hq;
    apply Forall_cons in Hq as [Hh Hq]; simpl in Hh; auto.
Qed.

Lemma tTodo_not_quiet id todo : tTodo id todo -> Forall isBroadcast todo -> False.
Proof.
  induction 1 as [|fn rest _ _|evt rest _ IH]; intros Hq;
    apply Forall_cons in Hq as [Hh Hq]; simpl in Hh; auto.
Qed.

Lemma eTodo_not_restT id id' todo : eTodo id todo -> restT id' todo -> False.
Proof.
  induction 1 as [|fn rest He _|fn rest Hm _ _|evt rest _ IH]; intros Hr;
    apply Forall_cons in Hr as [Hh Hr]; simpl in Hh.
  - exact Hh.
  - destruct Hh as [_ Ht]. exact (stepT_not_endE fn Ht He).
  - destruct Hh as [_ Ht]. exact (stepT_not_midE fn Ht Hm).
  - exact (IH Hr).
Qed.

Lemma tTodo_restT id todo :
  tTodo id todo -> restT id todo \/ exists pre, todo = map doBroadcast pre ++ [doGo (goRunTranscription id)].
Proof.
  induction 1 as [|fn rest Ht Hr|evt rest _ IH].
  - right. exists []. reflexivity.
  - left. constructor; [split; [reflexivity | exact Ht] | exact Hr].
  - destruct IH as [IH | [pre ->]].
    + left. constructor; [exact I | exact IH].
    + right. exists (evt :: pre). reflexivity.
Qed.

Lemma eTodo_not_tTodo id id' todo : eTodo id todo -> tTodo id' todo -> False.
Proof.
  induction 1 as [|fn rest He _|fn rest Hm _ _|evt rest _ IH]; intros Ht;
    inversion Ht; subst; auto.
  - exact (stepT_not_endE fn H1 He).
  - exact (stepT_not_midE fn H1 Hm).
Qed.

Lemma eTodo_id id id' todo : eTodo id todo -> eTodo id' todo -> id = id'.
Proof.
  induction 1 as [|fn rest He _|fn rest Hm _ _|evt rest _ IH]; intros H';
    inversion H'; subst; auto.
Qed.

Lemma tTodo_id id id' todo : tTodo id todo -> tTodo id' todo -> id = id'.
Proof.
  induction 1 as [|fn rest Ht Hr|evt rest _ IH]; intros H';
    inversion H'; subst; auto.
Qed.

Lemma restT_split id todo : restT id todo -> tTodo id todo \/ Forall isBroadcast todo.
Proof.
  induction 1 as [|t rest Ht Hr IH]; [right; constructor|].
  destruct t as [id' fn|evt|t]; simpl in Ht.
  - destruct Ht as [-> Ht]. left. constructor; assumption.
  - destruct IH as [IH|IH]; [left; constructor; exact IH | right; constructor; [exact I|exact IH]].
  - contradiction.
Qed.

Lemma writesE_not_writesT id id' th : writesE id th -> writesT id' th -> False.
Proof.
  intros He Ht. destruct He as [|todo He]; inversion Ht; subst.
  exact (eTodo_not_tTodo _ _ _ He H0).
Qed.

Lemma settled_not_writesE id th : settled th -> writesE id th -> False.
Proof.
  intros [todo Hq] He. inversion He; subst. exact (eTodo_not_quiet _ _ H0 Hq).
Qed.

Lemma settled_not_writesT id th : settled th -> writesT id th -> False.
Proof.
  intros [todo Hq] He. inversion He; subst. exact (tTodo_not_quiet _ _ H0 Hq).
Qed.

Lemma writesE_id id id' th : writesE id th -> writesE id' th -> id = id'.
Proof.
  intros He He'. destruct He as [|todo He]; inversion He'; subst; auto.
  exact (eTodo_id _ _ _ He H0).
Qed.


(** *** The shapes of the workers *)

Lemma setFailed_endE msg : endE (setFailed msg).
Proof. intros now j. simpl. auto. Qed.

Lemma setCompleted_endE : endE setCompleted.
Proof. intros now j. simpl. auto. Qed.

Lemma setProcessing_midE name path : midE (setProcessing name path).
Proof. intros now j. simpl. auto. Qed.

Lemma setProgress_midE pct : midE (setProgress pct).
Proof. intros now j. simpl. auto. Qed.

Lemma failJob_eTodo id err : eTodo id (map ofAction (failJob id err)).
Proof.
  apply eTodo_end; [apply setFailed_endE|]. repeat constructor.
Qed.

Lemma extractionCallbacks_eTodo id calls tail :
  eTodo id tail ->
  eTodo id (map ofAction (flat_map (extractionCallback id) calls) ++ tail).
Proof.
  intros Htail. induction calls as [|c calls IH]; [exact Htail|].
  simpl. apply eTodo_mid; [apply setProgress_midE|].
  apply eTodo_broadcast. exact IH.
Qed.

Section Shapes.
Context `{CaseTable} `{Strconv}.
Variable svc : extractor.Service.

Lemma runExtraction_eTodo a id run job :
  eTodo id (map ofAction (runExtraction a id run job)).
Proof.
  unfold runExtraction.
  destruct (mkdirOutputsErr run); [apply failJob_eTodo|].
  cbn [map ofAction]. apply eTodo_mid; [apply setProcessing_midE|].
  rewrite map_app. apply extractionCallbacks_eTodo.
  destruct (snd (extractor.ExtractAudio (ffmpeg run))); [apply failJob_eTodo|].
  apply eTodo_end; [apply setCompleted_endE|]. repeat constructor.
Qed.

Lemma failTranscription_tTodo id err :
  tTodo id (map ofAction (failTranscription id err)).
Proof.
  apply tTodo_update; [intros now j; simpl; auto|]. repeat constructor.
Qed.

Lemma failTranscription_restT id err :
  restT id (map ofAction (failTranscription id err)).
Proof.
  constructor; [split; [reflexivity|intros now j; simpl; auto]|].
  repeat constructor.
Qed.

Lemma transcriptionCallbacks_restT id calls tail :
  restT id tail ->
  restT id (map ofAction (flat_map (transcriptionCallback id) calls) ++ tail).
Proof.
  intros Htail. induction calls as [|c calls IH]; [exact Htail|].
  simpl. constructor; [split; [reflexivity|intros now j; simpl; auto]|].
  constructor; [exact I | exact IH].
Qed.

Lemma runTranscription_tTodo a id run job :
  tTodo id (map ofAction (runTranscription a svc id run job)).
Proof.
  unfold runTranscription.
  destruct (String.eqb (OutputPath job) ""); [apply failTranscription_tTodo|].
  cbn [map ofAction]. apply tTodo_update; [intros now j; simpl; auto|].
  rewrite map_app. apply transcriptionCallbacks_restT.
  destruct (snd (extractor.TranscribeAudio svc (whisper run)));
    [apply failTranscription_restT|].
  destruct (txtMissing run); [apply failTranscription_restT|].
  destruct (srtMissing run); [apply failTranscription_restT|].
  constructor; [split; [reflexivity|intros now j; simpl; auto]|].
  repeat constructor.
Qed.

(** *** What the handlers do to the registry *)

Lemma startExtraction_cases (a : App) (id : string) (now : Z) :
  (exists r, startExtraction a id now = handlers_props.untouched a r)
  \/ (exists job job',
        jobs a !! id = Some job
        /\ app (startExtraction a id now) = withJobs a (<[id := job']> (jobs a))
        /\ afterHandler (startExtraction a id now)
           = [running [doBroadcast (event id "extraction" StatusQueued 1 "job em fila");
                       doGo (goRunExtraction id)]]
        /\ ~ active (Status job) /\ Status job <> StatusCompleted
        /\ Status job' = StatusQueued
        /\ TranscriptStatus job' = StatusNotStarted
        /\ ID job' = ID job).
Proof.
  unfold startExtraction. destruct (jobs a !! id) as [job|] eqn:Hjob;
    [|left; eexists; reflexivity].
  destruct (Status job) eqn:Hst;
    try solve [left; eexists; reflexivity];
    right; eexists job, _; (split; [reflexivity|]);
    (split; [reflexivity|]); (split; [reflexivity|]);
    unfold active; rewrite Hst;
    (split; [intros [?|?]; discriminate|]); (split; [discriminate|]);
    simpl; repeat split; reflexivity.
Qed.

Lemma startTranscription_cases (a : App) (id : string) (now : Z) :
  (exists r, startTranscription a id now = handlers_props.untouched a r)
  \/ (exists job job',
        jobs a !! id = Some job
        /\ app (startTranscription a id now) = withJobs a (<[id := job']> (jobs a))
        /\ afterHandler (startTranscription a id now)
           = [running [doBroadcast (event id "transcription" StatusQueued 1
                                      "transcrição em fila");
                       doGo (goRunTranscription id)]]
        /\ Status job = StatusCompleted
        /\ Status job' = StatusCompleted
        /\ ID job' = ID job).
Proof.
  unfold startTranscription. destruct (jobs a !! id) as [job|] eqn:Hjob;
    [|left; eexists; reflexivity].
  destruct (Status job) eqn:Hst; simpl;
    try solve [left; eexists; reflexivity].
  destruct (TranscriptStatus job) eqn:Ht;
    try solve [left; eexists; reflexivity];
    right; eexists job, _; (split; [reflexivity|]);
    (split; [reflexivity|]); (split; [reflexivity|]);
    (split; [exact Hst|]); simpl; (split; [first [exact Hst | reflexivity] | reflexivity]).
Qed.


(** *** The invariant is kept *)

Lemma lookup_insert_thread (l : list Thread) (i k : nat) (th' x : Thread) :
  <[i := th']> l !! k = Some x ->
  (k = i /\ x = th' /\ (i < length l)%nat) \/ (k <> i /\ l !! k = Some x).
Proof.
  intros Hk. apply list_lookup_insert_Some in Hk as [(-> & -> & Hlt) | [Hne Hk]].
  - left. auto.
  - right. auto.
Qed.

Lemma lookup_snoc_thread (l : list Thread) (y : Thread) (k : nat) (x : Thread) :
  (l ++ [y]) !! k = Some x ->
  ((k < length l)%nat /\ l !! k = Some x) \/ (k = length l /\ x = y).
Proof.
  intros Hk. apply lookup_snoc_Some in Hk as [[Hlt Hk] | [-> ->]]; auto.
Qed.

(** Threads lose roles and jobs disappear: the invariant stays. *)
Lemma engineInv_transfer (st st' : State) :
  engineInv st ->
  (forall k x, threads st' !! k = Some x -> wellFormed x) ->
  (forall k x, threads st' !! k = Some x ->
     exists y, threads st !! k = Some y
               /\ (forall id, writesE id x -> writesE id y)
               /\ (forall id, writesT id x -> writesT id y)) ->
  (forall id j, jobs (reg st') !! id = Some j -> jobs (reg st) !! id = Some j) ->
  used st ⊆ used st' ->
  engineInv st'.
Proof.
  intros Hinv Hwf Hpre Hjobs Hused. constructor.
  - exact Hwf.
  - intros i th id j Hi He Hj.
    destruct (Hpre _ _ Hi) as (y & Hy & HE & _).
    exact (inv_extracting st Hinv i y id j Hy (HE _ He) (Hjobs _ _ Hj)).
  - intros i k th th' id Hi Hk He He'.
    destruct (Hpre _ _ Hi) as (y & Hy & HE & _).
    destruct (Hpre _ _ Hk) as (y' & Hy' & HE' & _).
    exact (inv_one_extractor st Hinv i k y y' id Hy Hy' (HE _ He) (HE' _ He')).
  - intros i th id j Hi Ht Hj.
    destruct (Hpre _ _ Hi) as (y & Hy & _ & HT).
    exact (inv_transcribing st Hinv i y id j Hy (HT _ Ht) (Hjobs _ _ Hj)).
  - intros id j Hj. exact (inv_transcript st Hinv id j (Hjobs _ _ Hj)).
  - intros id j Hj. apply Hused. exact (inv_used_jobs st Hinv id j (Hjobs _ _ Hj)).
  - intros i th id Hi Hw.
    destruct (Hpre _ _ Hi) as (y & Hy & HE & HT).
    apply Hused. apply (inv_used_threads st Hinv i y id Hy).
    destruct Hw as [Hw|Hw]; [left; exact (HE _ Hw) | right; exact (HT _ Hw)].
  - intros id j Hj. exact (inv_id st Hinv id j (Hjobs _ _ Hj)).
Qed.

(** One thread moves on, the registry stays. *)
Lemma engineInv_replace (st : State) (i : nat) (th th' : Thread)
  (sent' : list ProgressEvent) :
  engineInv st ->
  threads st !! i = Some th ->
  wellFormed th' ->
  (forall id, writesE id th' -> writesE id th) ->
  (forall id, writesT id th' -> writesT id th) ->
  engineInv {| reg := reg st; threads := <[i := th']> (threads st);
               sent := sent'; used := used st |}.
Proof.
  intros Hinv Hi Hwf HE HT.
  apply (engineInv_transfer st); simpl; auto.
  - intros k x Hk. apply lookup_insert_thread in Hk as [(-> & -> & _) | [_ Hk]].
    + exact Hwf.
    + exact (inv_threads st Hinv k x Hk).
  - intros k x Hk. apply lookup_insert_thread in Hk as [(-> & -> & _) | [_ Hk]].
    + exists th. auto.
    + exists x. auto.
Qed.

(** Moving past a broadcast keeps the roles. *)
Lemma broadcast_roles evt todo :
  wellFormed (running (doBroadcast evt :: todo)) ->
  wellFormed (running todo)
  /\ (forall id, writesE id (running todo) ->
                 writesE id (running (doBroadcast evt :: todo)))
  /\ (forall id, writesT id (running todo) ->
                 writesT id (running (doBroadcast evt :: todo))).
Proof.
  intros Hwf. split; [|split].
  - destruct Hwf as [[id He] | [[id Ht] | Hs]].
    + left. exists id. inversion He as [|? He']; subst.
      inversion He'; subst. constructor. assumption.
    + right. left. exists id. inversion Ht as [|? Ht']; subst.
      inversion Ht'; subst. constructor. assumption.
    + right. right. inversion Hs as [? Hq]; subst.
      apply Forall_cons in Hq as [_ Hq]. constructor. exact Hq.
  - intros id He. inversion He; subst. constructor. apply eTodo_broadcast. assumption.
  - intros id Ht. inversion Ht; subst. constructor. apply tTodo_broadcast. assumption.
Qed.


Lemma restT_tTodo_id id id' todo : restT id todo -> tTodo id' todo -> id' = id.
Proof.
  intros Hr Ht. revert Hr.
  induction Ht as [|fn rest _ _|evt rest _ IH]; intros Hr;
    apply Forall_cons in Hr as [Hh Hr]; simpl in Hh.
  - contradiction.
  - destruct Hh as [-> _]. reflexivity.
  - exact (IH Hr).
Qed.

(** What is left after the transform at the head of a well-formed thread. *)
Lemma update_roles id fn todo :
  wellFormed (running (doUpdate id fn :: todo)) ->
  wellFormed (running todo)
  /\ (forall id', writesE id' (running todo) ->
                  writesE id' (running (doUpdate id fn :: todo)))
  /\ (forall id', writesT id' (running todo) ->
                  writesT id' (running (doUpdate id fn :: todo))).
Proof.
  intros [[id0 He] | [[id0 Ht] | Hs]].
  - inversion He as [|? He']; subst. inversion He' as [|? ? Hend Hq|? ? Hmid Hrest|]; subst.
    + (* the last transform of the extraction *)
      split; [right; right; constructor; exact Hq|]. split.
      * intros id' He2. inversion He2; subst.
        exfalso. eapply eTodo_not_quiet; eauto.
      * intros id' Ht2. inversion Ht2; subst.
        exfalso. eapply tTodo_not_quiet; eauto.
    + split; [left; exists id; constructor; exact Hrest|]. split.
      * intros id' He2. inversion He2 as [|? He3]; subst.
        rewrite <- (eTodo_id _ _ _ Hrest He3). exact He.
      * intros id' Ht2. inversion Ht2; subst.
        exfalso. eapply eTodo_not_tTodo; eauto.
  - inversion Ht as [|? Ht']; subst. inversion Ht' as [|? ? Hstep Hrest|]; subst.
    split; [|split].
    + destruct (restT_split _ _ Hrest) as [Hw|Hq].
      * right. left. exists id. constructor. exact Hw.
      * right. right. constructor. exact Hq.
    + intros id' He2. inversion He2; subst.
      exfalso. eapply eTodo_not_restT; eauto.
    + intros id' Ht2. inversion Ht2 as [|? Ht3]; subst.
      rewrite (restT_tTodo_id _ _ _ Hrest Ht3). exact Ht.
  - inversion Hs as [? Hq]; subst. apply Forall_cons in Hq as [Hh _]. contradiction.
Qed.

(** The transform at the head of a well-formed thread belongs to one of
    the two workers. *)
Lemma update_kind id fn todo :
  wellFormed (running (doUpdate id fn :: todo)) ->
  (writesE id (running (doUpdate id fn :: todo))
   /\ ((endE fn /\ Forall isBroadcast todo) \/ (midE fn /\ eTodo id todo)))
  \/ (writesT id (running (doUpdate id fn :: todo)) /\ stepT fn).
Proof.
  intros [[id0 He] | [[id0 Ht] | Hs]].
  - left. inversion He as [|? He']; subst. inversion He'; subst; split; auto.
  - right. inversion Ht as [|? Ht']; subst. inversion Ht'; subst; split; auto.
  - inversion Hs as [? Hq]; subst. apply Forall_cons in Hq as [Hh _]. contradiction.
Qed.

Lemma engineInv_update (st : State) (i : nat) (id : string)
  (fn : Z -> ExtractionJob -> ExtractionJob) (todo : list Todo) (now : Z) :
  engineInv st ->
  threads st !! i = Some (running (doUpdate id fn :: todo)) ->
  engineInv {| reg := updateJob (reg st) id fn now;
               threads := <[i := running todo]> (threads st);
               sent := sent st; used := used st |}.
Proof.
  intros Hinv Hi.
  pose proof (inv_threads st Hinv i _ Hi) as Hwf.
  destruct (update_roles id fn todo Hwf) as (Hwf' & HE & HT).
  unfold updateJob. destruct (jobs (reg st) !! id) as [job|] eqn:Hjob;
    [|apply (engineInv_replace st i _ _ (sent st) Hinv Hi Hwf' HE HT)].
  (* every thread after the step has its roles before the step *)
  assert (Hpre : forall k x, <[i := running todo]> (threads st) !! k = Some x ->
            exists y, threads st !! k = Some y
                      /\ (forall id, writesE id x -> writesE id y)
                      /\ (forall id, writesT id x -> writesT id y)).
  { intros k x Hk. apply lookup_insert_thread in Hk as [(-> & -> & _) | [_ Hk]].
    - eexists. split; [exact Hi|]. auto.
    - exists x. auto. }
  (* the job after the transform *)
  assert (Hid : ID (fn now job) = id).
  { rewrite <- (inv_id st Hinv id job Hjob).
    destruct (update_kind id fn todo Hwf) as [[_ [[He _]|[Hm _]]] | [_ Ht]].
    - apply (He now job).
    - apply (Hm now job).
    - apply (Ht now job). }
  constructor; simpl.
  - intros k x Hk. apply lookup_insert_thread in Hk as [(-> & -> & _) | [_ Hk]].
    + exact Hwf'.
    + exact (inv_threads st Hinv k x Hk).
  - (* extraction writers see an active stage *)
    intros k x id1 j Hk He1 Hj.
    destruct (Hpre _ _ Hk) as (y & Hy & HEy & _).
    rewrite lookup_insert in Hj. case_decide as Hid1.
    + subst id1. injection Hj as <-.
      pose proof (inv_extracting st Hinv k y id job Hy (HEy _ He1) Hjob) as Hact.
      destruct (update_kind id fn todo Hwf) as [[Hw Hkind] | [Hw Ht]].
      * assert (k = i) by exact (inv_one_extractor st Hinv k i _ _ id Hy Hi (HEy _ He1) Hw).
        subst k. rewrite list_lookup_insert_eq in Hk
          by (apply lookup_lt_Some in Hi; exact Hi).
        injection Hk as <-.
        destruct Hkind as [[_ Hq] | [Hm _]].
        -- exfalso. inversion He1; subst. eapply eTodo_not_quiet; eauto.
        -- right. apply (Hm now job).
      * exfalso.
        pose proof (inv_transcribing st Hinv i _ id job Hi Hw Hjob) as Hc.
        destruct Hact as [Ha|Ha]; rewrite Hc in Ha; discriminate.
    + exact (inv_extracting st Hinv k y id1 j Hy (HEy _ He1) Hj).
  - intros k k' x x' id1 Hk Hk' He1 He1'.
    destruct (Hpre _ _ Hk) as (y & Hy & HEy & _).
    destruct (Hpre _ _ Hk') as (y' & Hy' & HEy' & _).
    exact (inv_one_extractor st Hinv k k' y y' id1 Hy Hy' (HEy _ He1) (HEy' _ He1')).
  - (* transcription writers see a completed extraction *)
    intros k x id1 j Hk Ht1 Hj.
    destruct (Hpre _ _ Hk) as (y & Hy & _ & HTy).
    rewrite lookup_insert in Hj. case_decide as Hid1.
    + subst id1. injection Hj as <-.
      pose proof (inv_transcribing st Hinv k y id job Hy (HTy _ Ht1) Hjob) as Hc.
      destruct (update_kind id fn todo Hwf) as [[Hw _] | [_ Ht]].
      * exfalso.
        destruct (inv_extracting st Hinv i _ id job Hi Hw Hjob) as [Ha|Ha];
          rewrite Hc in Ha; discriminate.
      * rewrite (proj1 (Ht now job)). exact Hc.
    + exact (inv_transcribing st Hinv k y id1 j Hy (HTy _ Ht1) Hj).
  - intros id1 j Hj Hts.
    rewrite lookup_insert in Hj. case_decide as Hid1.
    + subst id1. injection Hj as <-.
      destruct (update_kind id fn todo Hwf) as [[Hw Hkind] | [Hw Ht]].
      * exfalso.
        assert (Hts' : transcriptStarted job).
        { unfold transcriptStarted in *.
          destruct Hkind as [[He _] | [Hm _]].
          - destruct (He now job) as (_ & Heq & _). rewrite Heq in Hts. exact Hts.
          - destruct (Hm now job) as (_ & Heq & _). rewrite Heq in Hts. exact Hts. }
        pose proof (inv_transcript st Hinv id job Hjob Hts') as Hc.
        destruct (inv_extracting st Hinv i _ id job Hi Hw Hjob) as [Ha|Ha];
          rewrite Hc in Ha; discriminate.
      * rewrite (proj1 (Ht now job)).
        exact (inv_transcribing st Hinv i _ id job Hi Hw Hjob).
    + exact (inv_transcript st Hinv id1 j Hj Hts).
  - intros id1 j Hj. rewrite lookup_insert in Hj. case_decide as Hid1.
    + subst id1. exact (inv_used_jobs st Hinv id job Hjob).
    + exact (inv_used_jobs st Hinv id1 j Hj).
  - intros k x id1 Hk Hw.
    destruct (Hpre _ _ Hk) as (y & Hy & HEy & HTy).
    apply (inv_used_threads st Hinv k y id1 Hy).
    destruct Hw as [Hw|Hw]; [left; exact (HEy _ Hw) | right; exact (HTy _ Hw)].
  - intros id1 j Hj. rewrite lookup_insert in Hj. case_decide as Hid1.
    + subst id1. injection Hj as <-. exact Hid.
    + exact (inv_id st Hinv id1 j Hj).
Qed.


Lemma not_writes_done : forall id, ~ writesE id (running []) /\ ~ writesT id (running []).
Proof.
  intros id. split; intros Hw; inversion Hw as [|? Hw']; subst; inversion Hw'.
Qed.

(** The thread that starts a worker has nothing else left. *)
Lemma go_kind t todo :
  wellFormed (running (doGo t :: todo)) ->
  todo = []
  /\ ((exists id, t = goRunExtraction id /\ writesE id (running (doGo t :: todo)))
      \/ (exists id, t = goRunTranscription id
                     /\ writesT id (running (doGo t :: todo)))).
Proof.
  intros [[id0 He] | [[id0 Ht] | Hs]].
  - inversion He as [|? He']; subst. inversion He'; subst.
    split; [reflexivity|]. left. exists id0. split; [reflexivity | exact He].
  - inversion Ht as [|? Ht']; subst. inversion Ht'; subst.
    split; [reflexivity|]. right. exists id0. split; [reflexivity | exact Ht].
  - inversion Hs as [? Hq]; subst. apply Forall_cons in Hq as [Hh _]. contradiction.
Qed.

Lemma go_lookup (l : list Thread) (i : nat) (t : Task) (k : nat) (x : Thread) :
  (<[i := running []]> l ++ [fresh t]) !! k = Some x ->
  (k = i /\ x = running [])
  \/ (k <> i /\ l !! k = Some x)
  \/ (k = length l /\ x = fresh t).
Proof.
  intros Hk. apply lookup_snoc_thread in Hk as [[Hlt Hk] | [-> ->]].
  - apply lookup_insert_thread in Hk as [(-> & -> & _) | [Hne Hk]]; auto.
  - right. right. rewrite length_insert. auto.
Qed.

Lemma engineInv_go (st : State) (i : nat) (t : Task) (todo : list Todo) :
  engineInv st ->
  threads st !! i = Some (running (doGo t :: todo)) ->
  engineInv {| reg := reg st;
               threads := <[i := running todo]> (threads st) ++ [fresh t];
               sent := sent st; used := used st |}.
Proof.
  intros Hinv Hi.
  pose proof (inv_threads st Hinv i _ Hi) as Hwf.
  destruct (go_kind t todo Hwf) as [-> Hkind].
  (* a role after the step is a role of some thread before the step: the
     same thread, or the starting thread for the worker it starts *)
  assert (Hpre : forall k x,
             (<[i := running []]> (threads st) ++ [fresh t]) !! k = Some x ->
             forall id, writesE id x \/ writesT id x ->
             exists k' y, threads st !! k' = Some y
                          /\ (writesE id x -> writesE id y)
                          /\ (writesT id x -> writesT id y)
                          /\ k <> i
                          /\ (k' = k \/ (k = length (threads st) /\ k' = i))).
  { intros k x Hk id Hw. apply go_lookup in Hk as [[-> ->] | [[Hne Hk] | [-> ->]]].
    - exfalso. destruct (not_writes_done id) as [H1 H2]. tauto.
    - exists k, x. repeat split; auto.
    - exists i, (running [doGo t]). split; [exact Hi|].
      assert (Hlen : length (threads st) <> i).
      { apply lookup_lt_Some in Hi. lia. }
      destruct Hkind as [(id0 & -> & Hw0) | (id0 & -> & Hw0)].
      + split; [|split; [|split; [exact Hlen | right; auto]]].
        * intros He. inversion He; subst. exact Hw0.
        * intros Ht. inversion Ht.
      + split; [|split; [|split; [exact Hlen | right; auto]]].
        * intros He. inversion He.
        * intros Ht. inversion Ht; subst. exact Hw0. }
  constructor; simpl.
  - intros k x Hk. apply go_lookup in Hk as [[-> ->] | [[Hne Hk] | [-> ->]]].
    + right. right. constructor. constructor.
    + exact (inv_threads st Hinv k x Hk).
    + destruct Hkind as [(id0 & -> & _) | (id0 & -> & _)].
      * left. exists id0. constructor.
      * right. left. exists id0. constructor.
  - intros k x id j Hk He Hj.
    destruct (Hpre k x Hk id (or_introl He)) as (k' & y & Hy & HEy & _).
    exact (inv_extracting st Hinv k' y id j Hy (HEy He) Hj).
  - intros k k2 x x2 id Hk Hk2 He He2.
    destruct (Hpre k x Hk id (or_introl He)) as (k' & y & Hy & HEy & _ & Hne & Hk').
    destruct (Hpre k2 x2 Hk2 id (or_introl He2)) as (k2' & y2 & Hy2 & HEy2 & _ & Hne2 & Hk2').
    pose proof (inv_one_extractor st Hinv k' k2' y y2 id Hy Hy2 (HEy He) (HEy2 He2)) as Heq.
    destruct Hk' as [-> | [-> ->]], Hk2' as [-> | [-> ->]]; congruence.
  - intros k x id j Hk Ht Hj.
    destruct (Hpre k x Hk id (or_intror Ht)) as (k' & y & Hy & _ & HTy & _).
    exact (inv_transcribing st Hinv k' y id j Hy (HTy Ht) Hj).
  - exact (inv_transcript st Hinv).
  - exact (inv_used_jobs st Hinv).
  - intros k x id Hk Hw.
    destruct (Hpre k x Hk id Hw) as (k' & y & Hy & HEy & HTy & _).
    apply (inv_used_threads st Hinv k' y id Hy). tauto.
  - exact (inv_id st Hinv).
Qed.


Lemma engineInv_handled_untouched (st : State) (r : Response) :
  engineInv st -> engineInv (handled st (handlers_props.untouched (reg st) r)).
Proof.
  intros Hinv. unfold handled, afterHandler. simpl. rewrite app_nil_r.
  apply (engineInv_transfer st); simpl; auto.
  - exact (inv_threads st Hinv).
  - intros k x Hk. exists x. auto.
Qed.

Lemma engineInv_startExtraction (st : State) (id : string) (now : Z) :
  engineInv st -> engineInv (handled st (startExtraction (reg st) id now)).
Proof.
  intros Hinv.
  destruct (startExtraction_cases (reg st) id now)
    as [[r ->] | (job & job' & Hjob & Happ & Hafter & Hact & Hnc & Hq & Hns & Hid)];
    [apply engineInv_handled_untouched; exact Hinv|].
  unfold handled. rewrite Happ, Hafter.
  set (new := running [doBroadcast (event id "extraction" StatusQueued 1 "job em fila");
                       doGo (goRunExtraction id)]).
  assert (Hnew : writesE id new) by (repeat constructor).
  assert (HnoE : forall k y, threads st !! k = Some y -> ~ writesE id y).
  { intros k y Hy He. exact (Hact (inv_extracting st Hinv k y id job Hy He Hjob)). }
  assert (HnoT : forall k y, threads st !! k = Some y -> ~ writesT id y).
  { intros k y Hy Ht. exact (Hnc (inv_transcribing st Hinv k y id job Hy Ht Hjob)). }
  constructor; simpl.
  - intros k x Hk. apply lookup_snoc_thread in Hk as [[_ Hk] | [_ ->]].
    + exact (inv_threads st Hinv k x Hk).
    + left. exists id. exact Hnew.
  - intros k x id1 j Hk He Hj. rewrite lookup_insert in Hj. case_decide as Hid1.
    + subst id1. injection Hj as <-. left. exact Hq.
    + apply lookup_snoc_thread in Hk as [[_ Hk] | [_ ->]].
      * exact (inv_extracting st Hinv k x id1 j Hk He Hj).
      * exfalso. apply Hid1. exact (writesE_id _ _ _ Hnew He).
  - intros k k2 x x2 id1 Hk Hk2 He He2.
    apply lookup_snoc_thread in Hk as [[Hlt Hk] | [-> ->]];
      apply lookup_snoc_thread in Hk2 as [[Hlt2 Hk2] | [-> ->]].
    + exact (inv_one_extractor st Hinv k k2 x x2 id1 Hk Hk2 He He2).
    + exfalso. rewrite <- (writesE_id _ _ _ Hnew He2) in He.
      exact (HnoE k x Hk He).
    + exfalso. rewrite <- (writesE_id _ _ _ Hnew He) in He2.
      exact (HnoE k2 x2 Hk2 He2).
    + reflexivity.
  - intros k x id1 j Hk Ht Hj.
    apply lookup_snoc_thread in Hk as [[_ Hk] | [_ ->]];
      [|exfalso; exact (writesE_not_writesT _ _ _ Hnew Ht)].
    rewrite lookup_insert in Hj. case_decide as Hid1.
    + subst id1. exfalso. exact (HnoT k x Hk Ht).
    + exact (inv_transcribing st Hinv k x id1 j Hk Ht Hj).
  - intros id1 j Hj Hts. rewrite lookup_insert in Hj. case_decide as Hid1.
    + subst id1. injection Hj as <-. exfalso. unfold transcriptStarted in Hts.
      rewrite Hns in Hts. destruct Hts as [?|[?|[?|?]]]; discriminate.
    + exact (inv_transcript st Hinv id1 j Hj Hts).
  - intros id1 j Hj. rewrite lookup_insert in Hj. case_decide as Hid1.
    + subst id1. exact (inv_used_jobs st Hinv id job Hjob).
    + exact (inv_used_jobs st Hinv id1 j Hj).
  - intros k x id1 Hk Hw. apply lookup_snoc_thread in Hk as [[_ Hk] | [_ ->]].
    + exact (inv_used_threads st Hinv k x id1 Hk Hw).
    + destruct Hw as [Hw|Hw].
      * rewrite <- (writesE_id _ _ _ Hnew Hw).
        exact (inv_used_jobs st Hinv id job Hjob).
      * exfalso. exact (writesE_not_writesT _ _ _ Hnew Hw).
  - intros id1 j Hj. rewrite lookup_insert in Hj. case_decide as Hid1.
    + subst id1. injection Hj as <-. rewrite Hid.
      exact (inv_id st Hinv id job Hjob).
    + exact (inv_id st Hinv id1 j Hj).
Qed.

Lemma writesT_id id id' th : writesT id th -> writesT id' th -> id = id'.
Proof.
  intros Ht Ht'. destruct Ht as [|todo Ht]; inversion Ht'; subst; auto.
  exact (tTodo_id _ _ _ Ht H2).
Qed.

Lemma engineInv_startTranscription (st : State) (id : string) (now : Z) :
  engineInv st -> engineInv (handled st (startTranscription (reg st) id now)).
Proof.
  intros Hinv.
  destruct (startTranscription_cases (reg st) id now)
    as [[r ->] | (job & job' & Hjob & Happ & Hafter & Hc & Hc' & Hid)];
    [apply engineInv_handled_untouched; exact Hinv|].
  unfold handled. rewrite Happ, Hafter.
  set (new := running [doBroadcast (event id "transcription" StatusQueued 1
                                      "transcrição em fila");
                       doGo (goRunTranscription id)]).
  assert (Hnew : writesT id new) by (repeat constructor).
  assert (HnoE : forall k y, threads st !! k = Some y -> ~ writesE id y).
  { intros k y Hy He.
    destruct (inv_extracting st Hinv k y id job Hy He Hjob) as [Ha|Ha];
      rewrite Hc in Ha; discriminate. }
  constructor; simpl.
  - intros k x Hk. apply lookup_snoc_thread in Hk as [[_ Hk] | [_ ->]].
    + exact (inv_threads st Hinv k x Hk).
    + right. left. exists id. exact Hnew.
  - intros k x id1 j Hk He Hj.
    apply lookup_snoc_thread in Hk as [[_ Hk] | [_ ->]];
      [|exfalso; exact (writesE_not_writesT _ _ _ He Hnew)].
    rewrite lookup_insert in Hj. case_decide as Hid1.
    + subst id1. exfalso. exact (HnoE k x Hk He).
    + exact (inv_extracting st Hinv k x id1 j Hk He Hj).
  - intros k k2 x x2 id1 Hk Hk2 He He2.
    apply lookup_snoc_thread in Hk as [[Hlt Hk] | [-> ->]];
      [|exfalso; exact (writesE_not_writesT _ _ _ He Hnew)].
    apply lookup_snoc_thread in Hk2 as [[Hlt2 Hk2] | [-> ->]];
      [|exfalso; exact (writesE_not_writesT _ _ _ He2 Hnew)].
    exact (inv_one_extractor st Hinv k k2 x x2 id1 Hk Hk2 He He2).
  - intros k x id1 j Hk Ht Hj. rewrite lookup_insert in Hj. case_decide as Hid1.
    + subst id1. injection Hj as <-. exact Hc'.
    + apply lookup_snoc_thread in Hk as [[_ Hk] | [_ ->]].
      * exact (inv_transcribing st Hinv k x id1 j Hk Ht Hj).
      * exfalso. apply Hid1. exact (writesT_id _ _ _ Hnew Ht).
  - intros id1 j Hj Hts. rewrite lookup_insert in Hj. case_decide as Hid1.
    + subst id1. injection Hj as <-. exact Hc'.
    + exact (inv_transcript st Hinv id1 j Hj Hts).
  - intros id1 j Hj. rewrite lookup_insert in Hj. case_decide as Hid1.
    + subst id1. exact (inv_used_jobs st Hinv id job Hjob).
    + exact (inv_used_jobs st Hinv id1 j Hj).
  - intros k x id1 Hk Hw. apply lookup_snoc_thread in Hk as [[_ Hk] | [_ ->]].
    + exact (inv_used_threads st Hinv k x id1 Hk Hw).
    + destruct Hw as [Hw|Hw].
      * exfalso. exact (writesE_not_writesT _ _ _ Hw Hnew).
      * rewrite <- (writesT_id _ _ _ Hnew Hw).
        exact (inv_used_jobs st Hinv id job Hjob).
  - intros id1 j Hj. rewrite lookup_insert in Hj. case_decide as Hid1.
    + subst id1. injection Hj as <-. rewrite Hid.
      exact (inv_id st Hinv id job Hjob).
    + exact (inv_id st Hinv id1 j Hj).
Qed.

Lemma upload_cases (a : App) (req : UploadRequest) (id : string) (now : Z) :
  app (upload a req id now) = a
  \/ (exists job,
        app (upload a req id now) = withJobs a (<[id := job]> (jobs a))
        /\ Status job = StatusUploaded
        /\ TranscriptStatus job = StatusNotStarted
        /\ ID job = id).
Proof.
  unfold upload.
  repeat (match goal with
          | |- context [if ?b then _ else _] => destruct b
          end; [left; reflexivity|]).
  right. eexists. split; [reflexivity|]. simpl. auto.
Qed.

Lemma engineInv_upload (st : State) (req : UploadRequest) (id : string) (now : Z) :
  engineInv st -> id ∉ used st ->
  engineInv {| reg := app (upload (reg st) req id now);
               threads := threads st; sent := sent st;
               used := {[id]} ∪ used st |}.
Proof.
  intros Hinv Hfresh.
  destruct (upload_cases (reg st) req id now)
    as [-> | (job & -> & Hst & Hts & Hid)].
  - apply (engineInv_transfer st); simpl; auto.
    + exact (inv_threads st Hinv).
    + intros k x Hk. exists x. auto.
    + set_solver.
  - assert (Hno : forall k y, threads st !! k = Some y ->
                ~ (writesE id y \/ writesT id y)).
    { intros k y Hy Hw. apply Hfresh.
      exact (inv_used_threads st Hinv k y id Hy Hw). }
    constructor; simpl.
    + exact (inv_threads st Hinv).
    + intros k x id1 j Hk He Hj. rewrite lookup_insert in Hj. case_decide as Hid1.
      * subst id1. exfalso. apply (Hno k x Hk). left. exact He.
      * exact (inv_extracting st Hinv k x id1 j Hk He Hj).
    + exact (inv_one_extractor st Hinv).
    + intros k x id1 j Hk Ht Hj. rewrite lookup_insert in Hj. case_decide as Hid1.
      * subst id1. exfalso. apply (Hno k x Hk). right. exact Ht.
      * exact (inv_transcribing st Hinv k x id1 j Hk Ht Hj).
    + intros id1 j Hj Hstart. rewrite lookup_insert in Hj. case_decide as Hid1.
      * subst id1. injection Hj as <-. exfalso. unfold transcriptStarted in Hstart.
        rewrite Hts in Hstart. destruct Hstart as [?|[?|[?|?]]]; discriminate.
      * exact (inv_transcript st Hinv id1 j Hj Hstart).
    + intros id1 j Hj. rewrite lookup_insert in Hj. case_decide as Hid1.
      * subst id1. set_solver.
      * pose proof (inv_used_jobs st Hinv id1 j Hj). set_solver.
    + intros k x id1 Hk Hw. apply elem_of_union_r.
      exact (inv_used_threads st Hinv k x id1 Hk Hw).
    + intros id1 j Hj. rewrite lookup_insert in Hj. case_decide as Hid1.
      * subst id1. injection Hj as <-. exact Hid.
      * exact (inv_id st Hinv id1 j Hj).
Qed.


Lemma engineInv_initial (uploads outputs : string) (maxUpload : Z) :
  engineInv (initial uploads outputs maxUpload).
Proof.
  constructor; simpl; intros; try (rewrite lookup_empty in *; discriminate);
    try (rewrite lookup_nil in *; discriminate).
Qed.

(** Every step of the system keeps the invariant. *)
Lemma engineInv_step (st st' : State) :
  engineInv st -> step svc st st' -> engineInv st'.
Proof.
  intros Hinv Hstep.
  destruct Hstep as
    [st req id now Hfresh | st id now | st id now | st i id run Hi
    | st i id run Hi | st i id fn todo now Hi | st i evt todo Hi
    | st i t todo Hi | st id job Hjob | st ttl now Httl].
  - apply engineInv_upload; assumption.
  - apply engineInv_startExtraction; assumption.
  - apply engineInv_startTranscription; assumption.
  - (* runExtraction reads its job *)
    apply (engineInv_replace st i (fresh (goRunExtraction id))); auto.
    + destruct (getJob (reg st) id) as [job|].
      * left. exists id. constructor. apply runExtraction_eTodo.
      * right. right. constructor. constructor.
    + intros id' He. destruct (getJob (reg st) id) as [job|].
      * inversion He as [|? He']; subst.
        rewrite (eTodo_id _ _ _ He' (runExtraction_eTodo (reg st) id run job)).
        constructor.
      * exfalso. exact (proj1 (not_writes_done id') He).
    + intros id' Ht. exfalso. destruct (getJob (reg st) id) as [job|].
      * inversion Ht as [|? Ht']; subst.
        exact (eTodo_not_tTodo _ _ _ (runExtraction_eTodo (reg st) id run job) Ht').
      * exact (proj2 (not_writes_done id') Ht).
  - (* runTranscription reads its job *)
    apply (engineInv_replace st i (fresh (goRunTranscription id))); auto.
    + destruct (getJob (reg st) id) as [job|].
      * right. left. exists id. constructor. apply runTranscription_tTodo.
      * right. right. constructor. constructor.
    + intros id' He. exfalso. destruct (getJob (reg st) id) as [job|].
      * inversion He as [|? He']; subst.
        exact (eTodo_not_tTodo _ _ _ He' (runTranscription_tTodo (reg st) id run job)).
      * exact (proj1 (not_writes_done id') He).
    + intros id' Ht. destruct (getJob (reg st) id) as [job|].
      * inversion Ht as [|? Ht']; subst.
        rewrite (tTodo_id _ _ _ Ht' (runTranscription_tTodo (reg st) id run job)).
        constructor.
      * exfalso. exact (proj2 (not_writes_done id') Ht).
  - apply engineInv_update; assumption.
  - destruct (broadcast_roles evt todo (inv_threads st Hinv i _ Hi)) as (Hwf & HE & HT).
    exact (engineInv_replace st i _ _ _ Hinv Hi Hwf HE HT).
  - apply engineInv_go; assumption.
  - apply (engineInv_transfer st); simpl; auto.
    + exact (inv_threads st Hinv).
    + intros k x Hk. exists x. auto.
  - apply (engineInv_transfer st); simpl; auto.
    + exact (inv_threads st Hinv).
    + intros k x Hk. exists x. auto.
    + intros id j Hj. apply map_lookup_filter_Some in Hj as [Hj _]. exact Hj.
Qed.

Lemma reachable_engineInv (st : State) : reachable svc st -> engineInv st.
Proof.
  induction 1 as [uploads outputs maxUpload | st st' _ IH Hstep].
  - apply engineInv_initial.
  - exact (engineInv_step st st' IH Hstep).
Qed.

(** C1. In every state the system can reach and for every job in the
    registry: a trigger of a stage that is queued or processing is
    answered "already processing", a trigger of a stage that is completed
    is answered with the result at hand (the download URL of the job; the
    two transcript URLs), and in each of these cases the registry is the
    one before, nothing is broadcast and no worker is started. Hence a
    second trigger from the state the first one leaves has the outcome of
    the first. *)
Theorem triggers_idempotent (st : State) (id : string) (job : ExtractionJob)
  (now now' : Z) :
  reachable svc st ->
  jobs (reg st) !! id = Some job ->
  (Status job = StatusQueued \/ Status job = StatusProcessing ->
   startExtraction (reg st) id now
   = handlers_props.untouched (reg st)
       (respondJSON StatusAccepted [("status", "already_processing")]))
  /\ (Status job = StatusCompleted ->
      startExtraction (reg st) id now
      = handlers_props.untouched (reg st)
          (respondJSON StatusOK
             [("status", "already_completed");
              ("download_url", "/download/" +:+ id)]))
  /\ (TranscriptStatus job = StatusQueued \/ TranscriptStatus job = StatusProcessing ->
      startTranscription (reg st) id now
      = handlers_props.untouched (reg st)
          (respondJSON StatusAccepted
             [("status", "transcription_already_processing")]))
  /\ (TranscriptStatus job = StatusCompleted ->
      startTranscription (reg st) id now
      = handlers_props.untouched (reg st)
          (respondJSON StatusOK
             [("status", "transcription_already_completed");
              ("transcript_txt_url", "/transcript/" +:+ id +:+ "?format=txt");
              ("transcript_srt_url", "/transcript/" +:+ id +:+ "?format=srt")]))
  /\ (Status job = StatusQueued \/ Status job = StatusProcessing
      \/ Status job = StatusCompleted ->
      startExtraction (app (startExtraction (reg st) id now)) id now'
      = startExtraction (reg st) id now)
  /\ (TranscriptStatus job = StatusQueued \/ TranscriptStatus job = StatusProcessing
      \/ TranscriptStatus job = StatusCompleted ->
      startTranscription (app (startTranscription (reg st) id now)) id now'
      = startTranscription (reg st) id now).
Proof.
  intros Hreach Hjob.
  pose proof (reachable_engineInv st Hreach) as Hinv.
  assert (Hid : ID job = id) by exact (inv_id st Hinv id job Hjob).
  assert (Hdone : transcriptStarted job -> Status job = StatusCompleted)
    by exact (inv_transcript st Hinv id job Hjob).
  assert (HE1 : forall t, Status job = StatusQueued \/ Status job = StatusProcessing ->
            startExtraction (reg st) id t
            = handlers_props.untouched (reg st)
                (respondJSON StatusAccepted [("status", "already_processing")])).
  { intros t Hst. exact (handlers_props.startExtraction_active _ _ t _ Hjob Hst). }
  assert (HE2 : forall t, Status job = StatusCompleted ->
            startExtraction (reg st) id t
            = handlers_props.untouched (reg st)
                (respondJSON StatusOK
                   [("status", "already_completed");
                    ("download_url", "/download/" +:+ id)])).
  { intros t Hst.
    rewrite (handlers_props.startExtraction_completed _ _ t _ Hjob Hst), Hid.
    reflexivity. }
  assert (HT1 : forall t,
            TranscriptStatus job = StatusQueued \/ TranscriptStatus job = StatusProcessing ->
            startTranscription (reg st) id t
            = handlers_props.untouched (reg st)
                (respondJSON StatusAccepted
                   [("status", "transcription_already_processing")])).
  { intros t Ht. apply (handlers_props.startTranscription_active _ _ t _ Hjob); [|exact Ht].
    apply Hdone. unfold transcriptStarted. tauto. }
  assert (HT2 : forall t, TranscriptStatus job = StatusCompleted ->
            startTranscription (reg st) id t
            = handlers_props.untouched (reg st)
                (respondJSON StatusOK
                   [("status", "transcription_already_completed");
                    ("transcript_txt_url", "/transcript/" +:+ id +:+ "?format=txt");
                    ("transcript_srt_url", "/transcript/" +:+ id +:+ "?format=srt")])).
  { intros t Ht. apply (handlers_props.startTranscription_completed _ _ t _ Hjob); [|exact Ht].
    apply Hdone. unfold transcriptStarted. tauto. }
  split; [exact (HE1 now)|]. split; [exact (HE2 now)|].
  split; [exact (HT1 now)|]. split; [exact (HT2 now)|]. split.
  - intros [Hq | [Hp | Hc]].
    + rewrite (HE1 now) by tauto. simpl. apply HE1. tauto.
    + rewrite (HE1 now) by tauto. simpl. apply HE1. tauto.
    + rewrite (HE2 now) by exact Hc. simpl. apply HE2. exact Hc.
  - intros [Hq | [Hp | Hc]].
    + rewrite (HT1 now) by tauto. simpl. apply HT1. tauto.
    + rewrite (HT1 now) by tauto. simpl. apply HT1. tauto.
    + rewrite (HT2 now) by exact Hc. simpl. apply HT2. exact Hc.
Qed.

End Shapes.

(** The job of the run above, queued by the first trigger. *)
Definition queuedJob : ExtractionJob :=
  {| ID := "ab12"; InputFileName := "clip_one.mp4";
     InputPath := "uploads/ab12_clip_one.mp4";
     OutputPath := ""; OutputName := ""; Format := "flac"; Quality := "medium";
     Status := StatusQueued; Progress := 1; Error := "";
     TranscriptStatus := StatusNotStarted; TranscriptProgress := 0;
     TranscriptError := ""; TranscriptTXTPath := ""; TranscriptTXTName := "";
     TranscriptSRTPath := ""; TranscriptSRTName := "";
     CreatedAt := 7; UpdatedAt := 9 |}.

Lemma run3_job : jobs (reg progress_props.run3) !! "ab12" = Some queuedJob.
Proof. vm_compute. reflexivity. Qed.

Lemma triggers_idempotent_witness :
  startExtraction (reg progress_props.run3) "ab12" 11
  = handlers_props.untouched (reg progress_props.run3)
      (respondJSON StatusAccepted [("status", "already_processing")])
  /\ startExtraction
       (app (startExtraction (reg progress_props.run3) "ab12" 11)) "ab12" 12
     = startExtraction (reg progress_props.run3) "ab12" 11.
Proof.
  pose proof (@triggers_idempotent asciiCase decimalStrconv adapters_props.svcDemo
                progress_props.run3 "ab12" queuedJob 11 12
                progress_props.run3_reachable run3_job)
    as (H1 & _ & _ & _ & H5 & _).
  split.
  - apply H1. left. reflexivity.
  - apply H5. left. reflexivity.
Defined.

End engine_props.

(** ** UTF-8: what ranging over a string yields *)
Module utf8_props.
Import utf8.

Lemma byteOf_byteVal (c : ascii) : byteOf (byteVal c) = c.
Proof. unfold byteOf, byteVal. rewrite N2Z.id. apply ascii_N_embedding. Qed.

Lemma append_cons (x : ascii) (a b : string) :
  String x a +:+ b = String x (a +:+ b).
Proof. reflexivity. Qed.

Lemma append_assoc (a b c : string) : (a +:+ b) +:+ c = a +:+ (b +:+ c).
Proof.
  induction a as [|x a IH]; [reflexivity|].
  rewrite !append_cons, IH. reflexivity.
Qed.

Lemma append_nil_r (a : string) : a +:+ "" = a.
Proof.
  induction a as [|x a IH]; [reflexivity|].
  rewrite append_cons, IH. reflexivity.
Qed.

(** A continuation byte: 10xxxxxx. *)
Definition isCont (c : ascii) : bool := between 0x80 0xBF c.

(** [s] does not start in the middle of a sequence. *)
Definition startsClean (s : string) : Prop :=
  match s with EmptyString => True | String c _ => isCont c = false end.

Lemma accept_clean (x0 : Z) (c : ascii) :
  isCont c = false -> between (acceptLo x0) (acceptHi x0) c = false.
Proof.
  unfold isCont, between, acceptLo, acceptHi.
  destruct (x0 =? 224), (x0 =? 240), (x0 =? 237), (x0 =? 244); lia.
Qed.

Ltac decode_cases c Hc :=
  repeat match goal with
  | |- ?a = ?a => reflexivity
  | |- context [between (acceptLo ?x) (acceptHi ?x) c] =>
      rewrite (accept_clean x c Hc); cbn [negb]
  | |- context [between 128 191 c] =>
      change (between 128 191 c) with (isCont c); rewrite Hc; cbn [negb]
  | |- context [if ?b then _ else _] => destruct b
  end.

(** Decoding the first rune of [x] does not look at what follows [x], when
    what follows starts a new sequence. *)
Lemma DecodeRuneInString_clean_tail (x y : string) :
  x <> EmptyString -> startsClean y ->
  DecodeRuneInString (x +:+ y) = DecodeRuneInString x.
Proof.
  intros Hne Hy. destruct x as [|c0 x]; [congruence|].
  destruct y as [|c y]; [rewrite append_nil_r; reflexivity|].
  simpl in Hy.
  destruct x as [|c1 [|c2 [|c3 x]]];
    rewrite ?append_cons; change ("" +:+ String c y) with (String c y);
    unfold DecodeRuneInString; decode_cases c Hy.
Qed.

Lemma takeBytes_app_le (n : nat) (x y : string) :
  (n <= String.length x)%nat -> takeBytes n (x +:+ y) = takeBytes n x.
Proof.
  revert n. induction x as [|c x IH]; intros [|n] Hn; simpl in Hn;
    try reflexivity; try lia.
  rewrite append_cons. cbn [takeBytes]. rewrite IH by lia. reflexivity.
Qed.

Lemma takeBytes_all (x : string) : takeBytes (String.length x) x = x.
Proof. induction x as [|c x IH]; simpl; [reflexivity|]. rewrite IH. reflexivity. Qed.

Lemma takeBytes_exact (n : nat) (s : string) :
  (n <= String.length s)%nat -> String.length (takeBytes n s) = n.
Proof.
  revert s. induction n as [|n IH]; intros [|c s] Hn; simpl in *;
    try reflexivity; try lia.
  rewrite IH by lia. reflexivity.
Qed.

Lemma take_drop (n : nat) (s : string) : takeBytes n s +:+ dropBytes n s = s.
Proof.
  revert s. induction n as [|n IH]; intros [|c s]; try reflexivity.
  cbn [takeBytes dropBytes]. rewrite append_cons, IH. reflexivity.
Qed.

Lemma dropBytes_app (x y : string) : dropBytes (String.length x) (x +:+ y) = y.
Proof. induction x as [|c x IH]; [destruct y; reflexivity|]. exact IH. Qed.

Ltac decode_split :=
  repeat (cbn [takeBytes snd fst String.length];
          match goal with
          | H : ?b = _ |- context [if ?b then _ else _] => rewrite H
          | |- context [if ?b then _ else _] => destruct b eqn:?
          end).

Lemma decode_width (s : string) :
  (snd (DecodeRuneInString s) <= String.length s)%nat.
Proof.
  destruct s as [|c0 [|c1 [|c2 [|c3 s]]]]; unfold DecodeRuneInString;
    decode_split; cbn [snd String.length]; lia.
Qed.

Lemma decode_width_pos (c : ascii) (s : string) :
  (1 <= snd (DecodeRuneInString (String c s)))%nat.
Proof.
  destruct s as [|c1 [|c2 [|c3 s]]]; unfold DecodeRuneInString;
    decode_split; cbn [snd]; lia.
Qed.

(** The bytes a rune was decoded from decode to that rune. *)
Lemma decode_taken (s : string) :
  DecodeRuneInString (takeBytes (snd (DecodeRuneInString s)) s)
  = DecodeRuneInString s.
Proof.
  destruct s as [|c0 [|c1 [|c2 [|c3 s]]]]; unfold DecodeRuneInString;
    decode_split; reflexivity.
Qed.

Lemma chunksFrom_drop (k : nat) (s : string) :
  chunksFrom k s = chunks (dropBytes k s).
Proof.
  revert k. induction s as [|c s IH]; intros [|k]; try reflexivity.
  cbn [chunksFrom dropBytes]. apply IH.
Qed.

(** One turn of the loop over a string. *)
Lemma chunks_cons (c : ascii) (s : string) :
  chunks (String c s)
  = (fst (DecodeRuneInString (String c s)),
     takeBytes (snd (DecodeRuneInString (String c s))) (String c s))
    :: chunks (dropBytes (snd (DecodeRuneInString (String c s))) (String c s)).
Proof.
  unfold chunks at 1. cbn [chunksFrom]. rewrite chunksFrom_drop.
  pose proof (decode_width_pos c s) as Hw.
  destruct (snd (DecodeRuneInString (String c s))) as [|w]; [lia|].
  reflexivity.
Qed.

Lemma bytes_app (l1 l2 : list (Z * string)) :
  bytes (l1 ++ l2) = bytes l1 +:+ bytes l2.
Proof.
  induction l1 as [|c l1 IH]; [reflexivity|].
  cbn [app]. unfold bytes in *. cbn [fold_right]. rewrite IH, append_assoc.
  reflexivity.
Qed.

Lemma bytes_cons (c : Z * string) (l : list (Z * string)) :
  bytes (c :: l) = snd c +:+ bytes l.
Proof. reflexivity. Qed.

Lemma dropBytes_pred (w : nat) (c : ascii) (s : string) :
  (1 <= w)%nat -> dropBytes (Nat.pred w) s = dropBytes w (String c s).
Proof. destruct w as [|w]; [lia | reflexivity]. Qed.

Lemma bytes_chunksFrom (k : nat) (s : string) :
  bytes (chunksFrom k s) = dropBytes k s.
Proof.
  revert k. induction s as [|c s IH]; intros [|k]; try reflexivity.
  - cbn [chunksFrom]. rewrite bytes_cons, IH. cbn [snd].
    rewrite (dropBytes_pred _ c) by apply decode_width_pos.
    apply take_drop.
  - cbn [chunksFrom dropBytes]. apply IH.
Qed.

(** The chunks of a string partition its bytes. *)
Lemma bytes_chunks (s : string) : bytes (chunks s) = s.
Proof. unfold chunks. rewrite bytes_chunksFrom. destruct s; reflexivity. Qed.

(** What ranging over a string yields: the bytes of a chunk are not empty
    and decode, on their own, to the rune of the chunk. *)
Definition wf (c : Z * string) : Prop :=
  snd c <> EmptyString
  /\ DecodeRuneInString (snd c) = (fst c, String.length (snd c)).

(** A chunk that is not the replacement of an ill-formed byte. *)
Definition valid (c : Z * string) : Prop := wf c /\ fst c <> RuneError.

Lemma chunksFrom_wf (k : nat) (s : string) : Forall wf (chunksFrom k s).
Proof.
  revert k. induction s as [|c s IH]; intros [|k]; try constructor.
  - pose proof (decode_width_pos c s) as Hpos.
    pose proof (decode_width (String c s)) as Hle.
    split; cbn [fst snd].
    + destruct (snd (DecodeRuneInString (String c s))) as [|w]; [lia|].
      discriminate.
    + rewrite decode_taken, takeBytes_exact by exact Hle.
      destruct (DecodeRuneInString (String c s)); reflexivity.
  - apply IH.
  - apply IH.
Qed.

Lemma chunks_wf (s : string) : Forall wf (chunks s).
Proof. apply chunksFrom_wf. Qed.

Ltac zdiv := Z.div_mod_to_equations; lia.

Lemma enc2 (x0 x1 : Z) :
  194 <= x0 < 224 -> acceptLo x0 <= x1 <= acceptHi x0 ->
  EncodeRune ((x0 mod 32) * 64 + x1 mod 64)
  = String (byteOf x0) (String (byteOf x1) EmptyString).
Proof.
  intros H0 H1.
  assert (H1' : 128 <= x1 < 192).
  { unfold acceptLo, acceptHi in H1.
    destruct (x0 =? 224) eqn:?, (x0 =? 240) eqn:?, (x0 =? 237) eqn:?,
      (x0 =? 244) eqn:?; lia. }
  clear H1.
  assert (E0 : x0 mod 32 = x0 - 192) by zdiv.
  assert (E1 : x1 mod 64 = x1 - 128) by zdiv.
  rewrite E0, E1. set (r := (x0 - 192) * 64 + (x1 - 128)).
  assert (Hr : 128 <= r < 2048) by (unfold r; lia).
  assert (Ed : r / 64 = x0 - 192) by (unfold r; zdiv).
  assert (Em : r mod 64 = x1 - 128) by (unfold r; zdiv).
  unfold EncodeRune.
  replace (r <? 0) with false by lia.
  replace (1114111 <? r) with false by lia.
  replace (55296 <=? r) with false by lia.
  replace (r <? 128) with false by lia.
  replace (r <? 2048) with true by lia.
  cbn [orb andb]. rewrite Ed, Em. repeat f_equal; lia.
Qed.

Lemma enc3 (x0 x1 x2 : Z) :
  224 <= x0 < 240 -> acceptLo x0 <= x1 <= acceptHi x0 -> 128 <= x2 < 192 ->
  EncodeRune ((x0 mod 16) * 4096 + (x1 mod 64) * 64 + x2 mod 64)
  = String (byteOf x0) (String (byteOf x1) (String (byteOf x2) EmptyString)).
Proof.
  intros H0 H1 H2.
  assert (H1' : 128 <= x1 < 192
                /\ (x0 = 224 -> 160 <= x1) /\ (x0 = 237 -> x1 <= 159)).
  { unfold acceptLo, acceptHi in H1.
    destruct (x0 =? 224) eqn:?, (x0 =? 240) eqn:?, (x0 =? 237) eqn:?,
      (x0 =? 244) eqn:?; lia. }
  clear H1. destruct H1' as (H1 & Hlo & Hhi).
  assert (E0 : x0 mod 16 = x0 - 224) by zdiv.
  assert (E1 : x1 mod 64 = x1 - 128) by zdiv.
  assert (E2 : x2 mod 64 = x2 - 128) by zdiv.
  rewrite E0, E1, E2.
  set (r := (x0 - 224) * 4096 + (x1 - 128) * 64 + (x2 - 128)).
  assert (Hr : 2048 <= r < 65536 /\ (r < 55296 \/ 57343 < r)) by (unfold r; lia).
  assert (Ed : r / 4096 = x0 - 224) by (unfold r; zdiv).
  assert (Ed1 : (r / 64) mod 64 = x1 - 128) by (unfold r; zdiv).
  assert (Em : r mod 64 = x2 - 128) by (unfold r; zdiv).
  unfold EncodeRune.
  replace (r <? 0) with false by lia.
  replace (1114111 <? r) with false by lia.
  replace ((55296 <=? r) && (r <=? 57343)) with false by lia.
  replace (r <? 128) with false by lia.
  replace (r <? 2048) with false by lia.
  replace (r <? 65536) with true by lia.
  cbn [orb]. rewrite Ed, Ed1, Em. repeat f_equal; lia.
Qed.

Lemma enc4 (x0 x1 x2 x3 : Z) :
  240 <= x0 <= 244 -> acceptLo x0 <= x1 <= acceptHi x0 ->
  128 <= x2 < 192 -> 128 <= x3 < 192 ->
  EncodeRune ((x0 mod 8) * 262144 + (x1 mod 64) * 4096 + (x2 mod 64) * 64
              + x3 mod 64)
  = String (byteOf x0)
      (String (byteOf x1) (String (byteOf x2) (String (byteOf x3) EmptyString))).
Proof.
  intros H0 H1 H2 H3.
  assert (H1' : 128 <= x1 < 192
                /\ (x0 = 240 -> 144 <= x1) /\ (x0 = 244 -> x1 <= 143)).
  { unfold acceptLo, acceptHi in H1.
    destruct (x0 =? 224) eqn:?, (x0 =? 240) eqn:?, (x0 =? 237) eqn:?,
      (x0 =? 244) eqn:?; lia. }
  clear H1. destruct H1' as (H1 & Hlo & Hhi).
  assert (E0 : x0 mod 8 = x0 - 240) by zdiv.
  assert (E1 : x1 mod 64 = x1 - 128) by zdiv.
  assert (E2 : x2 mod 64 = x2 - 128) by zdiv.
  assert (E3 : x3 mod 64 = x3 - 128) by zdiv.
  rewrite E0, E1, E2, E3.
  set (r := (x0 - 240) * 262144 + (x1 - 128) * 4096 + (x2 - 128) * 64
            + (x3 - 128)).
  assert (Hr : 65536 <= r <= 1114111) by (unfold r; lia).
  assert (Ed : r / 262144 = x0 - 240) by (unfold r; zdiv).
  assert (Ed1 : (r / 4096) mod 64 = x1 - 128) by (unfold r; zdiv).
  assert (Ed2 : (r / 64) mod 64 = x2 - 128) by (unfold r; zdiv).
  assert (Em : r mod 64 = x3 - 128) by (unfold r; zdiv).
  unfold EncodeRune.
  replace (r <? 0) with false by lia.
  replace (1114111 <? r) with false by lia.
  replace (r <=? 57343) with false by lia.
  rewrite andb_false_r.
  replace (r <? 128) with false by lia.
  replace (r <? 2048) with false by lia.
  replace (r <? 65536) with false by lia.
  cbn [orb andb]. rewrite Ed, Ed1, Ed2, Em. repeat f_equal; lia.
Qed.

Ltac decode_hyp Hd :=
  repeat (cbv beta iota zeta in Hd |- *;
          match goal with
          | H : ?b = _ |- context [if ?b then _ else _] => rewrite H
          | H : context [if ?b then _ else _] |- _ => destruct b eqn:?
          end).

(** A valid chunk decodes the same whatever follows it. *)
Lemma valid_context (r : Z) (b rest : string) :
  valid (r, b) -> DecodeRuneInString (b +:+ rest) = (r, String.length b).
Proof.
  intros [[Hne Hd] Hr]. cbn [fst snd] in *.
  destruct b as [|c0 [|c1 [|c2 [|c3 b]]]]; [congruence|..];
    rewrite ?append_cons; unfold DecodeRuneInString in Hd |- *;
    decode_hyp Hd; cbn [String.length] in *; try congruence.
Qed.

Lemma valid_first (r : Z) (c : ascii) (b : string) :
  valid (r, String c b) -> isCont c = false.
Proof.
  intros [[_ Hd] Hr]. cbn [fst snd] in *.
  unfold DecodeRuneInString in Hd. unfold isCont, between.
  destruct (byteVal c <? RuneSelf) eqn:E1; [unfold RuneSelf in E1; lia|].
  destruct ((byteVal c <? 194) || (244 <? byteVal c)) eqn:E2; [congruence|].
  lia.
Qed.

(** Decoding rejects the encodings that are not the shortest, so the bytes
    of a valid chunk are the encoding of its rune. *)
Lemma valid_encode (r : Z) (b : string) : valid (r, b) -> EncodeRune r = b.
Proof.
  intros [[Hne Hd] Hr]. cbn [fst snd] in *.
  destruct b as [|c0 [|c1 [|c2 [|c3 b]]]]; [congruence|..];
    unfold DecodeRuneInString in Hd; decode_hyp Hd;
    cbn [String.length] in Hd; try congruence;
    pose proof (f_equal snd Hd) as Hw; apply (f_equal fst) in Hd;
    cbn [fst snd] in Hd, Hw; subst r;
    try (destruct b; [|discriminate Hw]);
    pose proof (filename_props.byteVal_range c0);
    try pose proof (filename_props.byteVal_range c1);
    try pose proof (filename_props.byteVal_range c2);
    try pose proof (filename_props.byteVal_range c3);
    unfold between, RuneSelf in *;
    (etransitivity;
     [first [ apply enc4; lia | apply enc3; lia | apply enc2; lia
            | apply filename_props.EncodeRune_ascii; lia ]
     | rewrite !byteOf_byteVal; reflexivity]).
Qed.

Lemma chunks_valid_cons (r : Z) (b rest : string) :
  valid (r, b) -> chunks (b +:+ rest) = (r, b) :: chunks rest.
Proof.
  intros Hv. destruct b as [|c b]; [destruct Hv as [[Hne _] _]; contradiction|].
  rewrite append_cons, chunks_cons, <- append_cons, (valid_context _ _ rest Hv).
  cbn [fst snd].
  rewrite takeBytes_app_le, takeBytes_all, dropBytes_app by reflexivity.
  reflexivity.
Qed.

(** Valid chunks are found again in front of whatever follows them. *)
Lemma chunks_valid_app (l : list (Z * string)) (rest : string) :
  Forall valid l -> chunks (bytes l +:+ rest) = l ++ chunks rest.
Proof.
  induction 1 as [|[r b] l Hv _ IH]; [reflexivity|].
  rewrite bytes_cons, append_assoc. cbn [snd].
  rewrite (chunks_valid_cons r b _ Hv), IH. reflexivity.
Qed.

(** The chunks from some point on are the chunks of the bytes from there. *)
Lemma chunks_suffix (s : string) (l1 l2 : list (Z * string)) :
  chunks s = l1 ++ l2 -> chunks (bytes l2) = l2.
Proof.
  revert s. induction l1 as [|c l1 IH]; intros s Hs.
  - cbn [app] in Hs. rewrite <- Hs, bytes_chunks. reflexivity.
  - destruct s as [|c0 s]; [discriminate|].
    rewrite chunks_cons in Hs. injection Hs as _ Hs. exact (IH _ Hs).
Qed.

Lemma chunksFrom_clean_tail (x y : string) (k : nat) :
  startsClean y -> (k <= String.length x)%nat ->
  chunksFrom k (x +:+ y) = chunksFrom k x ++ chunks y.
Proof.
  intros Hy. revert k. induction x as [|c x IH]; intros k Hk.
  - cbn [String.length] in Hk. replace k with 0%nat by lia. reflexivity.
  - rewrite append_cons. destruct k as [|k].
    + cbn [chunksFrom]. rewrite <- append_cons.
      rewrite (DecodeRuneInString_clean_tail (String c x) y) by
        (discriminate || exact Hy).
      pose proof (decode_width (String c x)) as Hle.
      pose proof (decode_width_pos c x) as Hpos.
      rewrite takeBytes_app_le by exact Hle.
      rewrite IH by (cbn [String.length] in Hle; lia).
      reflexivity.
    + cbn [chunksFrom]. apply IH. cbn [String.length] in Hk. lia.
Qed.

(** Cutting a string where a sequence starts cuts its chunks there. *)
Lemma chunks_clean_tail (x y : string) :
  startsClean y -> chunks (x +:+ y) = chunks x ++ chunks y.
Proof. intros Hy. apply chunksFrom_clean_tail; [exact Hy | lia]. Qed.

Lemma valid_startsClean (l : list (Z * string)) :
  Forall valid l -> startsClean (bytes l).
Proof.
  destruct 1 as [|[r b] l Hv _]; [exact I|].
  rewrite bytes_cons. cbn [snd].
  destruct b as [|c b]; [destruct Hv as [[Hne _] _]; contradiction|].
  rewrite append_cons. exact (valid_first r c b Hv).
Qed.

(** A run of valid chunks at the end of a string can be cut off. *)
Lemma chunks_prefix (s : string) (l1 l2 : list (Z * string)) :
  chunks s = l1 ++ l2 -> Forall valid l2 -> chunks (bytes l1) = l1.
Proof.
  intros Hs Hv.
  pose proof (chunks_suffix s [] (l1 ++ l2) Hs) as Hall.
  rewrite bytes_app, chunks_clean_tail in Hall by (apply valid_startsClean, Hv).
  rewrite (chunks_suffix s l1 l2 Hs) in Hall.
  exact (app_inv_tail _ _ _ Hall).
Qed.

End utf8_props.

(** ** The sanitizers of the upload form *)
Module sanitize_props.
Import utf8 utf8_props models handlers.

(** What [strings.Map] writes for a sequence of chunks. *)
Definition written (mapping : Z -> Z) (l : list (Z * string)) : string :=
  fold_right
    (fun c acc =>
       let r := mapping (fst c) in
       if r <? 0 then acc else EncodeRune r +:+ acc)
    EmptyString l.

Definition isSp (c : Z * string) : Prop := unicode.IsSpace (fst c) = true.

(** The chunks [strings.TrimSpace] keeps. *)
Definition trim (l : list (Z * string)) : list (Z * string) :=
  rev (strings.dropSpaces (rev (strings.dropSpaces l))).

(** A word with no white space at either end, spelled in ASCII without
    capitals. *)
Definition plain `{CaseTable} (w : string) : Prop :=
  strings.isASCII w = true
  /\ (exists c l, chunks w = c :: l /\ unicode.IsSpace (fst c) = false)
  /\ (exists c l, rev (chunks w) = c :: l /\ unicode.IsSpace (fst c) = false)
  /\ strings.ToLower w = w.

Lemma written_cons (f : Z -> Z) (c : Z * string) (l : list (Z * string)) :
  written f (c :: l)
  = (if f (fst c) <? 0 then written f l
     else EncodeRune (f (fst c)) +:+ written f l).
Proof. reflexivity. Qed.

Lemma written_app (f : Z -> Z) (l1 l2 : list (Z * string)) :
  written f (l1 ++ l2) = written f l1 +:+ written f l2.
Proof.
  induction l1 as [|c l1 IH]; [reflexivity|].
  rewrite <- app_comm_cons, !written_cons.
  destruct (f (fst c) <? 0); [exact IH|].
  rewrite IH, append_assoc. reflexivity.
Qed.

Lemma dropSpaces_split (l : list (Z * string)) :
  exists l1, l = l1 ++ strings.dropSpaces l /\ Forall isSp l1.
Proof.
  induction l as [|c l (l1 & Hl & Hsp)]; [exists []; split; [reflexivity|constructor]|].
  cbn [strings.dropSpaces]. destruct (unicode.IsSpace (fst c)) eqn:Hc.
  - exists (c :: l1). split; [rewrite <- app_comm_cons; f_equal; exact Hl|].
    constructor; assumption.
  - exists []. split; [reflexivity | constructor].
Qed.

Lemma dropSpaces_spaces (l1 l : list (Z * string)) :
  Forall isSp l1 -> strings.dropSpaces (l1 ++ l) = strings.dropSpaces l.
Proof.
  induction 1 as [|c l1 Hc _ IH]; [reflexivity|].
  rewrite <- app_comm_cons. cbn [strings.dropSpaces]. rewrite Hc. exact IH.
Qed.

Lemma dropSpaces_head (c : Z * string) (l : list (Z * string)) :
  unicode.IsSpace (fst c) = false -> strings.dropSpaces (c :: l) = c :: l.
Proof. intros Hc. cbn [strings.dropSpaces]. rewrite Hc. reflexivity. Qed.

(** Trimming takes a run of spaces from each end. *)
Lemma trim_split (l : list (Z * string)) :
  exists l1 l2, l = l1 ++ trim l ++ l2 /\ Forall isSp l1 /\ Forall isSp l2.
Proof.
  destruct (dropSpaces_split l) as (l1 & Hl & H1).
  destruct (dropSpaces_split (rev (strings.dropSpaces l))) as (l2 & Hr & H2).
  exists l1, (rev l2). split; [|split; [exact H1 | apply Forall_rev, H2]].
  unfold trim. rewrite <- rev_app_distr, <- Hr, rev_involutive. exact Hl.
Qed.

(** Spaces around a word that has none at its ends are what trimming
    takes. *)
Lemma trim_word (l1 w l2 : list (Z * string)) :
  Forall isSp l1 -> Forall isSp l2 ->
  (exists c l, w = c :: l /\ unicode.IsSpace (fst c) = false) ->
  (exists c l, rev w = c :: l /\ unicode.IsSpace (fst c) = false) ->
  trim (l1 ++ w ++ l2) = w.
Proof.
  intros H1 H2 (c & l & Hw & Hc) (c' & l' & Hw' & Hc').
  unfold trim. rewrite dropSpaces_spaces by exact H1.
  rewrite Hw, <- app_comm_cons, dropSpaces_head by exact Hc.
  rewrite app_comm_cons, <- Hw.
  rewrite rev_app_distr, dropSpaces_spaces by (apply Forall_rev, H2).
  rewrite Hw', dropSpaces_head by exact Hc'.
  rewrite <- Hw'. apply rev_involutive.
Qed.

Lemma decode_ascii (c : ascii) (s : string) :
  byteVal c < RuneSelf -> DecodeRuneInString (String c s) = (byteVal c, 1%nat).
Proof.
  intros Hc. unfold DecodeRuneInString.
  replace (byteVal c <? RuneSelf) with true by lia. reflexivity.
Qed.

Lemma chunks_ascii (c : ascii) (s : string) :
  byteVal c < RuneSelf ->
  chunks (String c s) = (byteVal c, String c EmptyString) :: chunks s.
Proof.
  intros Hc. rewrite chunks_cons, decode_ascii by exact Hc.
  destruct s; reflexivity.
Qed.

Lemma ascii_valid (w : string) :
  strings.isASCII w = true -> Forall valid (chunks w).
Proof.
  induction w as [|c w IH]; [constructor|].
  cbn [strings.isASCII]. intros [Hc Hw]%andb_true_iff.
  assert (Hc' : byteVal c < RuneSelf) by lia.
  rewrite chunks_ascii by exact Hc'. constructor; [|exact (IH Hw)].
  split; [split; [discriminate|]|].
  - cbn [fst snd]. apply decode_ascii, Hc'.
  - cbn [fst]. unfold RuneSelf, RuneError in *. lia.
Qed.

Section Lower.
Context `{CaseTable}.

(** The fast path of [strings.ToLower] agrees with the general one. *)
Lemma ToLower_ascii (s : string) :
  strings.isASCII s = true ->
  strings.mapBytes strings.lowerByte s = strings.Map unicode.ToLower s.
Proof.
  induction s as [|c s IH]; [reflexivity|].
  cbn [strings.isASCII]. intros [Hc Hs]%andb_true_iff.
  assert (Hc' : byteVal c < RuneSelf) by lia.
  change (strings.Map unicode.ToLower) with
    (fun s => written unicode.ToLower (chunks s)) in *. cbv beta in *.
  rewrite chunks_ascii, written_cons by exact Hc'.
  cbn [strings.mapBytes fst]. rewrite <- (IH Hs).
  pose proof (filename_props.byteVal_range c) as Hr.
  unfold unicode.ToLower, strings.lowerByte, between, RuneSelf in *.
  replace (byteVal c <=? 127) with true by lia.
  destruct ((65 <=? byteVal c) && (byteVal c <=? 90)) eqn:Hup.
  - replace (byteVal c + 32 <? 0) with false by lia.
    rewrite filename_props.EncodeRune_ascii by lia. reflexivity.
  - replace (byteVal c <? 0) with false by lia.
    rewrite filename_props.EncodeRune_ascii, byteOf_byteVal by lia. reflexivity.
Qed.

Lemma ToLower_written (s : string) :
  strings.ToLower s = written unicode.ToLower (chunks s).
Proof.
  unfold strings.ToLower. destruct (strings.isASCII s) eqn:Hs; [|reflexivity].
  apply ToLower_ascii, Hs.
Qed.

Lemma IsSpace_range (r : Z) :
  unicode.IsSpace r = true -> 0 <= r /\ ~ 65 <= r <= 90 /\ r <> RuneError.
Proof.
  unfold unicode.IsSpace, RuneError.
  destruct ((0 <=? r) && (r <=? 255)) eqn:Hr; lia.
Qed.

(** The case tables of Unicode leave white space alone. *)
Hypothesis spaces_caseless :
  forall r, unicode.IsSpace r = true -> lowerTable r = r.

Lemma ToLower_space (r : Z) :
  unicode.IsSpace r = true -> unicode.ToLower r = r.
Proof.
  intros Hr. unfold unicode.ToLower.
  destruct (IsSpace_range r Hr) as (_ & Hup & _).
  destruct (r <=? 127); [|exact (spaces_caseless r Hr)].
  replace ((65 <=? r) && (r <=? 90)) with false by lia. reflexivity.
Qed.

Lemma written_spaces (l : list (Z * string)) :
  Forall wf l -> Forall isSp l -> written unicode.ToLower l = bytes l.
Proof.
  induction 1 as [|[r b] l Hwf _ IH]; [reflexivity|].
  intros Hsp. apply Forall_cons in Hsp as [Hr Hsp]. unfold isSp in Hr.
  cbn [fst] in Hr. rewrite written_cons. cbn [fst].
  rewrite (ToLower_space r Hr), (IH Hsp), bytes_cons. cbn [snd].
  destruct (IsSpace_range r Hr) as (H0 & _ & Herr).
  replace (r <? 0) with false by lia.
  rewrite (valid_encode r b) by (split; assumption). reflexivity.
Qed.

Lemma spaces_valid (l : list (Z * string)) :
  Forall wf l -> Forall isSp l -> Forall valid l.
Proof.
  induction 1 as [|c l Hwf _ IH]; [constructor|].
  intros Hsp. apply Forall_cons in Hsp as [Hr Hsp].
  constructor; [|exact (IH Hsp)].
  split; [exact Hwf|]. exact (proj2 (proj2 (IsSpace_range _ Hr))).
Qed.

(** Lowering a string whose trimmed, lowered form is a plain word leaves
    that form as it is: the spaces around the word stay spaces. *)
Lemma ToLower_keeps_form (v w : string) :
  plain w ->
  strings.ToLower (strings.TrimSpace v) = w ->
  strings.ToLower (strings.TrimSpace (strings.ToLower v)) = w.
Proof.
  intros (Hascii & Hhd & Hlast & Hlow) Hv.
  destruct (trim_split (chunks v)) as (l1 & l2 & Hl & H1 & H2).
  pose proof (chunks_wf v) as Hwf. rewrite Hl in Hwf.
  apply Forall_app in Hwf as [Hwf1 Hwf]. apply Forall_app in Hwf as [_ Hwf2].
  pose proof (spaces_valid l1 Hwf1 H1) as Hv1.
  pose proof (spaces_valid l2 Hwf2 H2) as Hv2.
  assert (Hmid : chunks (bytes (trim (chunks v))) = trim (chunks v)).
  { apply (chunks_prefix (bytes (trim (chunks v) ++ l2)) _ l2); [|exact Hv2].
    apply (chunks_suffix v l1). exact Hl. }
  unfold strings.TrimSpace in Hv. fold (trim (chunks v)) in Hv.
  rewrite ToLower_written, Hmid in Hv.
  assert (Hlv : strings.ToLower v = bytes l1 +:+ w +:+ bytes l2).
  { rewrite ToLower_written, Hl, !written_app, Hv.
    rewrite !written_spaces by assumption. reflexivity. }
  unfold strings.TrimSpace. fold (trim (chunks (strings.ToLower v))).
  rewrite Hlv, (chunks_valid_app l1) by exact Hv1.
  rewrite <- (bytes_chunks w) at 1.
  rewrite (chunks_valid_app (chunks w)) by (apply ascii_valid, Hascii).
  rewrite <- (append_nil_r (bytes l2)), (chunks_valid_app l2) by exact Hv2.
  change (chunks "") with (@nil (Z * string)). rewrite app_nil_r.
  rewrite trim_word by assumption.
  rewrite bytes_chunks. exact Hlow.
Qed.

End Lower.

(** The form in which [codecAndQualityArgs] reads a format or a quality. *)
Definition normal `{CaseTable} (s : string) : string :=
  strings.ToLower (strings.TrimSpace s).

(** A job the argument table has a codec for. *)
Definition supported `{CaseTable} (j : ExtractionJob) : Prop :=
  normal (Format j) ∈ args_props.supportedFormats
  /\ normal (Quality j) ∈ args_props.supportedQualities.

(** A step still to be taken leaves the format and the quality alone. *)
Definition todoKeeps (t : engine.Todo) : Prop :=
  match t with
  | engine.doUpdate _ fn =>
    forall now j, Format (fn now j) = Format j /\ Quality (fn now j) = Quality j
  | _ => True
  end.

Definition threadKeeps (th : engine.Thread) : Prop :=
  match th with
  | engine.fresh _ => True
  | engine.running todo => Forall todoKeeps todo
  end.

Definition formatInv `{CaseTable} (st : engine.State) : Prop :=
  (forall id j, jobs (engine.reg st) !! id = Some j -> supported j)
  /\ Forall threadKeeps (engine.threads st).

Ltac plain_word :=
  split; [reflexivity|];
  split; [eexists _, _; split; reflexivity|];
  split; [eexists _, _; split; reflexivity|];
  reflexivity.

Section Sanitizers.
Context `{CaseTable} `{Strconv}.
Variable svc : extractor.Service.

Hypothesis spaces_caseless :
  forall r, unicode.IsSpace r = true -> lowerTable r = r.

Lemma format_case (n : string) :
  String.eqb n "mp3" || String.eqb n "wav" || String.eqb n "aac"
  || String.eqb n "flac" || String.eqb n "ogg"
  = bool_decide (n ∈ args_props.supportedFormats).
Proof.
  unfold args_props.supportedFormats. case_bool_decide as Hn.
  - rewrite !elem_of_cons, elem_of_nil in Hn.
    destruct Hn as [->|[->|[->|[->|[->|[]]]]]]; reflexivity.
  - rewrite !not_elem_of_cons in Hn. destruct Hn as (H1 & H2 & H3 & H4 & H5 & _).
    rewrite !args_props.eqb_false_of_ne by assumption. reflexivity.
Qed.

Lemma quality_case (n : string) :
  String.eqb n "low" || String.eqb n "medium" || String.eqb n "high"
  || String.eqb n "original"
  = bool_decide (n ∈ args_props.supportedQualities).
Proof.
  unfold args_props.supportedQualities. case_bool_decide as Hn.
  - rewrite !elem_of_cons, elem_of_nil in Hn.
    destruct Hn as [->|[->|[->|[->|[]]]]]; reflexivity.
  - rewrite !not_elem_of_cons in Hn. destruct Hn as (H1 & H2 & H3 & H4 & _).
    rewrite !args_props.eqb_false_of_ne by assumption. reflexivity.
Qed.

Lemma formats_plain (w : string) : w ∈ args_props.supportedFormats -> plain w.
Proof.
  unfold args_props.supportedFormats. rewrite !elem_of_cons, elem_of_nil.
  intros [->|[->|[->|[->|[->|[]]]]]]; plain_word.
Qed.

Lemma qualities_plain (w : string) : w ∈ args_props.supportedQualities -> plain w.
Proof.
  unfold args_props.supportedQualities. rewrite !elem_of_cons, elem_of_nil.
  intros [->|[->|[->|[->|[]]]]]; plain_word.
Qed.

Lemma sanitizeFormat_normal (v : string) :
  normal (sanitizeFormat v) ∈ args_props.supportedFormats
  /\ (normal v ∉ args_props.supportedFormats -> sanitizeFormat v = "mp3").
Proof.
  unfold sanitizeFormat. fold (normal v). rewrite format_case.
  case_bool_decide as Hn.
  - split; [|contradiction]. unfold normal.
    rewrite (ToLower_keeps_form spaces_caseless v (normal v));
      [exact Hn | apply formats_plain, Hn | reflexivity].
  - split; [|reflexivity]. replace (normal "mp3") with "mp3" by reflexivity.
    unfold args_props.supportedFormats. rewrite !elem_of_cons. tauto.
Qed.

Lemma sanitizeQuality_normal (v : string) :
  normal (sanitizeQuality v) ∈ args_props.supportedQualities
  /\ (normal v ∉ args_props.supportedQualities -> sanitizeQuality v = "medium").
Proof.
  unfold sanitizeQuality. fold (normal v). rewrite quality_case.
  case_bool_decide as Hn.
  - split; [|contradiction]. unfold normal.
    rewrite (ToLower_keeps_form spaces_caseless v (normal v));
      [exact Hn | apply qualities_plain, Hn | reflexivity].
  - split; [|reflexivity]. replace (normal "medium") with "medium" by reflexivity.
    unfold args_props.supportedQualities. rewrite !elem_of_cons. tauto.
Qed.

(** With a supported format the table never answers with the stream
    copy. *)
Lemma supported_not_copied (f q : string) :
  normal f ∈ args_props.supportedFormats ->
  extractor.codecAndQualityArgs f q <> ["-codec:a"; "copy"].
Proof.
  unfold extractor.codecAndQualityArgs. fold (normal f). fold (normal q).
  unfold args_props.supportedFormats. rewrite !elem_of_cons, elem_of_nil.
  intros [->|[->|[->|[->|[->|[]]]]]]; cbn [String.eqb Ascii.eqb Bool.eqb];
    repeat match goal with
           | |- context [if ?b then _ else _] => destruct b
           end; discriminate.
Qed.

Lemma upload_supported (a : App) (req : UploadRequest) (id : string) (now : Z)
  (id' : string) (j : ExtractionJob) :
  jobs (app (upload a req id now)) !! id' = Some j ->
  jobs a !! id' = Some j \/ supported j.
Proof.
  unfold upload.
  repeat (match goal with
          | |- context [if ?b then _ else _] => destruct b
          end; simpl; [tauto|]).
  rewrite lookup_insert. case_decide; [|tauto].
  intros Hj. injection Hj as <-. right. split; cbn [Format Quality].
  - apply sanitizeFormat_normal.
  - apply sanitizeQuality_normal.
Qed.

Lemma startExtraction_supported (a : App) (id : string) (now : Z)
  (id' : string) (j : ExtractionJob) :
  jobs (app (startExtraction a id now)) !! id' = Some j ->
  exists j0, jobs a !! id' = Some j0 /\ Format j = Format j0
             /\ Quality j = Quality j0.
Proof.
  unfold startExtraction. destruct (jobs a !! id) as [job|] eqn:Hjob;
    [|simpl; eauto].
  destruct (Status job); simpl; eauto;
    (rewrite lookup_insert; case_decide as Hid; [|eauto];
     intros Hj; injection Hj as <-; subst id'; eauto).
Qed.

Lemma startTranscription_supported (a : App) (id : string) (now : Z)
  (id' : string) (j : ExtractionJob) :
  jobs (app (startTranscription a id now)) !! id' = Some j ->
  exists j0, jobs a !! id' = Some j0 /\ Format j = Format j0
             /\ Quality j = Quality j0.
Proof.
  unfold startTranscription. destruct (jobs a !! id) as [job|] eqn:Hjob;
    [|simpl; eauto].
  destruct (negb _); [simpl; eauto|].
  destruct (TranscriptStatus job); simpl; eauto;
    (rewrite lookup_insert; case_decide as Hid; [|eauto];
     intros Hj; injection Hj as <-; subst id'; eauto).
Qed.

Lemma failJob_keeps (id : string) (err : error) :
  Forall todoKeeps (map engine.ofAction (failJob id err)).
Proof.
  unfold failJob. cbn [map engine.ofAction].
  constructor; [|constructor; [|constructor]]; [|exact I].
  intros now j. split; reflexivity.
Qed.

Lemma failTranscription_keeps (id : string) (err : error) :
  Forall todoKeeps (map engine.ofAction (failTranscription id err)).
Proof.
  unfold failTranscription. cbn [map engine.ofAction].
  constructor; [|constructor; [|constructor]]; [|exact I].
  intros now j. split; reflexivity.
Qed.

Lemma extractionCallbacks_keep (id : string) (calls : list extractor.Call) :
  Forall todoKeeps
    (map engine.ofAction (flat_map (extractionCallback id) calls)).
Proof.
  induction calls as [|c calls IH]; [constructor|].
  simpl. constructor; [|constructor; [exact I | exact IH]].
  intros now j. split; reflexivity.
Qed.

Lemma transcriptionCallbacks_keep (id : string) (calls : list extractor.Call) :
  Forall todoKeeps
    (map engine.ofAction (flat_map (transcriptionCallback id) calls)).
Proof.
  induction calls as [|c calls IH]; [constructor|].
  simpl. constructor; [|constructor; [exact I | exact IH]].
  intros now j. split; reflexivity.
Qed.

Lemma runExtraction_keeps (a : App) (id : string) (run : ExtractionRun)
  (job : ExtractionJob) :
  Forall todoKeeps (map engine.ofAction (runExtraction a id run job)).
Proof.
  unfold runExtraction.
  destruct (mkdirOutputsErr run); [apply failJob_keeps|].
  cbn [map engine.ofAction]. constructor.
  - intros now j. split; reflexivity.
  - rewrite map_app. apply Forall_app. split.
    + apply extractionCallbacks_keep.
    + destruct (snd (extractor.ExtractAudio (ffmpeg run))); [apply failJob_keeps|].
      cbn [map engine.ofAction]. constructor; [|constructor; [|constructor]];
        [|exact I].
      intros now j. split; reflexivity.
Qed.

Lemma runTranscription_keeps (a : App) (id : string) (run : TranscriptionRun)
  (job : ExtractionJob) :
  Forall todoKeeps (map engine.ofAction (runTranscription a svc id run job)).
Proof.
  unfold runTranscription.
  destruct (String.eqb (OutputPath job) ""); [apply failTranscription_keeps|].
  cbn [map engine.ofAction]. constructor.
  - intros now j. split; reflexivity.
  - rewrite map_app. apply Forall_app. split.
    + apply transcriptionCallbacks_keep.
    + destruct (snd (extractor.TranscribeAudio svc (whisper run)));
        [apply failTranscription_keeps|].
      destruct (txtMissing run); [apply failTranscription_keeps|].
      destruct (srtMissing run); [apply failTranscription_keeps|].
      cbn [map engine.ofAction]. constructor; [|constructor; [|constructor]];
        [|exact I].
      intros now j. split; reflexivity.
Qed.

Lemma afterHandler_keeps (o : Outcome) :
  Forall threadKeeps (engine.afterHandler o).
Proof.
  unfold engine.afterHandler.
  assert (Hth : forall t, threadKeeps
            (engine.running
               (map engine.doBroadcast (broadcasts o)
                ++ match t with Some t => [engine.doGo t] | None => [] end))).
  { intros t. simpl. apply Forall_app. split.
    - rewrite Forall_map. apply Forall_true. intros evt. exact I.
    - destruct t; repeat constructor. }
  destruct (broadcasts o) as [|evt evts] eqn:Hbs.
  - destruct (started o) as [t|]; [|constructor].
    constructor; [|constructor]. exact (Hth (Some t)).
  - constructor; [|constructor]. apply Hth.
Qed.

Lemma supported_same (j j0 : ExtractionJob) :
  Format j = Format j0 -> Quality j = Quality j0 -> supported j0 -> supported j.
Proof. unfold supported. intros -> ->. tauto. Qed.

Lemma formatInv_initial (uploads outputs : string) (maxUpload : Z) :
  formatInv (engine.initial uploads outputs maxUpload).
Proof.
  split; simpl; [|constructor].
  intros id j Hj. rewrite lookup_empty in Hj. discriminate.
Qed.

(** No step of the system changes the format or the quality of a job. *)
Lemma formatInv_step (st st' : engine.State) :
  formatInv st -> engine.step svc st st' -> formatInv st'.
Proof.
  intros (Hjobs & Hthreads) Hstep.
  assert (Hhead : forall i t todo,
             engine.threads st !! i = Some (engine.running (t :: todo)) ->
             todoKeeps t /\ Forall todoKeeps todo).
  { intros i t todo Hi.
    pose proof (proj1 (Forall_lookup _ _) Hthreads i _ Hi) as Hth.
    simpl in Hth. apply Forall_cons in Hth. exact Hth. }
  destruct Hstep as
    [st req id now Hfresh | st id now | st id now | st i id run Hi
    | st i id run Hi | st i id fn todo now Hi | st i evt todo Hi
    | st i t todo Hi | st id job Hjob | st ttl now Httl].
  - split; [|assumption]. simpl.
    intros id' j Hj. apply upload_supported in Hj as [Hj | Hj]; [|exact Hj].
    exact (Hjobs _ _ Hj).
  - split; simpl.
    + intros id' j Hj.
      apply startExtraction_supported in Hj as (j0 & Hj0 & Hf & Hq).
      exact (supported_same j j0 Hf Hq (Hjobs _ _ Hj0)).
    + apply Forall_app. split; [assumption | apply afterHandler_keeps].
  - split; simpl.
    + intros id' j Hj.
      apply startTranscription_supported in Hj as (j0 & Hj0 & Hf & Hq).
      exact (supported_same j j0 Hf Hq (Hjobs _ _ Hj0)).
    + apply Forall_app. split; [assumption | apply afterHandler_keeps].
  - split; [assumption|]. simpl.
    apply Forall_insert; [assumption|]. simpl.
    destruct (getJob (engine.reg st) id); [apply runExtraction_keeps | constructor].
  - split; [assumption|]. simpl.
    apply Forall_insert; [assumption|]. simpl.
    destruct (getJob (engine.reg st) id); [apply runTranscription_keeps | constructor].
  - destruct (Hhead _ _ _ Hi) as [Hfn Htodo].
    split; simpl.
    + intros id' j. unfold updateJob.
      destruct (jobs (engine.reg st) !! id) as [job|] eqn:Hjob; [|apply Hjobs].
      simpl. rewrite lookup_insert. case_decide; [|apply Hjobs].
      intros Hj. injection Hj as <-. destruct (Hfn now job) as [Hf Hq].
      exact (supported_same _ job Hf Hq (Hjobs _ _ Hjob)).
    + apply Forall_insert; assumption.
  - destruct (Hhead _ _ _ Hi) as [_ Htodo].
    split; [assumption|]. simpl. apply Forall_insert; assumption.
  - destruct (Hhead _ _ _ Hi) as [_ Htodo].
    split; [assumption|]. simpl.
    apply Forall_app. split; [|repeat constructor].
    apply Forall_insert; assumption.
  - split; assumption.
  - split; [|assumption]. simpl.
    intros id j Hj. apply map_lookup_filter_Some in Hj as [Hj _].
    exact (Hjobs _ _ Hj).
Qed.

Lemma reachable_formatInv (st : engine.State) :
  engine.reachable svc st -> formatInv st.
Proof.
  induction 1 as [uploads outputs maxUpload | st st' _ IH Hstep].
  - apply formatInv_initial.
  - exact (formatInv_step st st' IH Hstep).
Qed.

(** C10. Whatever the form sends, the trimmed lowercase form of what
    [sanitizeFormat] answers is one of mp3, wav, aac, flac and ogg, and
    the answer is "mp3" when the input, trimmed and lowercased, is none of
    them; likewise [sanitizeQuality] with low, medium, high and original,
    and "medium".  So the job an upload creates has a supported format
    and a supported quality, every job stored in a state the system can
    reach has them, and for such a job [codecAndQualityArgs] never answers
    with the stream copy.  The case tables of Unicode are assumed to leave
    white space alone, as those of Go do. *)
Theorem sanitizers_keep_jobs_supported :
  (forall v, normal (sanitizeFormat v) ∈ args_props.supportedFormats
             /\ (normal v ∉ args_props.supportedFormats ->
                 sanitizeFormat v = "mp3"))
  /\ (forall v, normal (sanitizeQuality v) ∈ args_props.supportedQualities
                /\ (normal v ∉ args_props.supportedQualities ->
                    sanitizeQuality v = "medium"))
  /\ (forall a req id now j,
         jobs a !! id = None ->
         jobs (app (upload a req id now)) !! id = Some j ->
         supported j
         /\ extractor.codecAndQualityArgs (Format j) (Quality j)
            <> ["-codec:a"; "copy"])
  /\ (forall st id j,
         engine.reachable svc st ->
         getJob (engine.reg st) id = Some j ->
         supported j
         /\ extractor.codecAndQualityArgs (Format j) (Quality j)
            <> ["-codec:a"; "copy"]).
Proof.
  split; [exact sanitizeFormat_normal|].
  split; [exact sanitizeQuality_normal|].
  split.
  - intros a req id now j Hnew Hj.
    apply upload_supported in Hj as [Hj | Hj]; [congruence|].
    split; [exact Hj|]. apply supported_not_copied, Hj.
  - intros st id j Hreach Hj.
    destruct (reachable_formatInv st Hreach) as [Hjobs _].
    assert (Hs : supported j).
    { unfold getJob in Hj. apply (Hjobs id j).
      destruct (jobs (engine.reg st) !! id); [exact Hj | discriminate]. }
    split; [exact Hs|]. apply supported_not_copied, Hs.
Qed.

End Sanitizers.

(** A table to run the model with: the capitals of Latin-1. *)
Definition latin1Case : CaseTable :=
  {| lowerTable := fun r =>
       if (0xC0 <=? r) && (r <=? 0xDE) && negb (r =? 0xD7) then r + 32 else r |}.

Lemma latin1Case_spaces (r : Z) :
  unicode.IsSpace r = true -> @lowerTable latin1Case r = r.
Proof.
  intros Hr. cbn [lowerTable latin1Case].
  replace ((192 <=? r) && (r <=? 222)) with false; [reflexivity|].
  revert Hr. unfold unicode.IsSpace.
  destruct ((0 <=? r) && (r <=? 255)) eqn:E; lia.
Qed.

(** A format sent in capitals behind a no-break space (the bytes C2 A0). *)
Definition paddedFormat : string := String "194" (String "160" "FLAC").

Lemma sanitizers_keep_jobs_supported_witness :
  @sanitizeFormat latin1Case paddedFormat = String "194" (String "160" "flac")
  /\ @normal latin1Case (@sanitizeFormat latin1Case paddedFormat)
     ∈ args_props.supportedFormats
  /\ @sanitizeFormat latin1Case "opus" = "mp3"
  /\ @extractor.codecAndQualityArgs latin1Case "flac" "medium"
     <> ["-codec:a"; "copy"].
Proof.
  pose proof (@sanitizers_keep_jobs_supported latin1Case decimalStrconv
                adapters_props.svcDemo latin1Case_spaces)
    as (Hf & _ & Hu & _).
  split; [reflexivity|]. split; [apply (Hf paddedFormat)|].
  split.
  - apply (Hf "opus"). unfold args_props.supportedFormats.
    rewrite !not_elem_of_cons.
    repeat split; try (vm_compute; discriminate). apply not_elem_of_nil.
  - assert (Hnew : jobs (NewApp "uploads" "outputs" 0) !! "ab12" = None)
      by reflexivity.
    exact (proj2 (Hu (NewApp "uploads" "outputs" 0)
                    handlers_props.demoRequest "ab12" 7 _ Hnew eq_refl)).
Defined.

End sanitize_props.

Module schedule_props.
Import models handlers engine schedule.

Section Play.
Context `{CaseTable} `{Strconv}.
Variable svc : extractor.Service.

Lemma move_step (st st' : State) (m : Move) :
  move svc st m = Some st' -> step svc st st'.
Proof.
  destruct m as [req id now|id now|id now|i run|i run|i now|id|ttl now];
    cbn [move].
  - destruct (decide (id ∈ used st)); [discriminate|].
    intros [= <-]. apply step_upload. assumption.
  - intros [= <-]. apply step_startExtraction.
  - intros [= <-]. apply step_startTranscription.
  - destruct (threads st !! i) as [[[id|id]|todo]|] eqn:Hi; try discriminate.
    intros [= <-]. apply step_runExtraction. exact Hi.
  - destruct (threads st !! i) as [[[id|id]|todo]|] eqn:Hi; try discriminate.
    intros [= <-]. apply step_runTranscription. exact Hi.
  - destruct (threads st !! i) as [[t|[|[id fn|evt|t] todo]]|] eqn:Hi;
      try discriminate; intros [= <-].
    + apply step_update. exact Hi.
    + apply step_broadcast. exact Hi.
    + apply step_go. exact Hi.
  - destruct (getJob (reg st) id) as [job|] eqn:Hjob; [|discriminate].
    intros [= <-]. apply step_jobWS with id. exact Hjob.
  - destruct (decide (0 < ttl)); [|discriminate].
    intros [= <-]. apply step_cleanup. assumption.
Qed.

Lemma play_steps (st : State) (ms : list Move) : rtc (step svc) st (play svc st ms).
Proof.
  revert st. induction ms as [|m ms IH]; intros st; [constructor|].
  cbn [play]. destruct (move svc st m) as [st'|] eqn:Hm; cbn [default].
  - eapply rtc_l; [exact (move_step st st' m Hm) | apply IH].
  - apply IH.
Qed.

Lemma steps_reachable (st st' : State) :
  reachable svc st -> rtc (step svc) st st' -> reachable svc st'.
Proof.
  intros Hr Hs. induction Hs as [|st st1 st2 Hstep _ IH]; [exact Hr|].
  apply IH. exact (reachable_step svc st st1 Hr Hstep).
Qed.

Lemma play_reachable (st : State) (ms : list Move) :
  reachable svc st -> reachable svc (play svc st ms).
Proof. intros Hr. exact (steps_reachable _ _ Hr (play_steps st ms)). Qed.

End Play.
End schedule_props.

(** ** The life of a job in the running system *)
Module lifecycle_props.
Import models handlers engine engine_props schedule.

Section Life.
Context `{CaseTable} `{Strconv}.
Variable svc : extractor.Service.

Lemma updateJob_lookup (a : App) (id id' : string)
  (fn : Z -> ExtractionJob -> ExtractionJob) (now : Z) :
  jobs (updateJob a id fn now) !! id'
  = (if decide (id = id') then fn now <$> jobs a !! id' else jobs a !! id').
Proof.
  unfold updateJob. destruct (jobs a !! id) as [job|] eqn:Hjob.
  - cbn [jobs withJobs]. rewrite lookup_insert. case_decide as Hid.
    + subst id'. rewrite Hjob. reflexivity.
    + reflexivity.
  - case_decide as Hid; [subst id'; rewrite Hjob|]; reflexivity.
Qed.

Lemma used_grows (st st' : State) : step svc st st' -> used st ⊆ used st'.
Proof. destruct 1; cbn [used handled]; set_solver. Qed.

(** One step cannot put back a job whose identifier was handed out. *)
Lemma absent_step (st st' : State) (id : string) :
  step svc st st' -> id ∈ used st -> jobs (reg st) !! id = None ->
  jobs (reg st') !! id = None.
Proof.
  intros Hstep Hused Hnone.
  destruct Hstep as
    [st req id0 now Hfresh | st id0 now | st id0 now | st i id0 run Hi
    | st i id0 run Hi | st i id0 fn todo now Hi | st i evt todo Hi
    | st i t todo Hi | st id0 job Hjob | st ttl now Httl];
    cbn [reg handled]; try exact Hnone.
  - destruct (upload_cases (reg st) req id0 now) as [-> | (job & -> & _)];
      [exact Hnone|].
    cbn [jobs withJobs]. rewrite lookup_insert_ne; [exact Hnone|].
    intros ->. contradiction.
  - destruct (startExtraction_cases (reg st) id0 now)
      as [[r ->] | (job & job' & Hjob & -> & _)]; [exact Hnone|].
    cbn [jobs withJobs]. rewrite lookup_insert_ne; [exact Hnone|].
    intros ->. congruence.
  - destruct (startTranscription_cases (reg st) id0 now)
      as [[r ->] | (job & job' & Hjob & -> & _)]; [exact Hnone|].
    cbn [jobs withJobs]. rewrite lookup_insert_ne; [exact Hnone|].
    intros ->. congruence.
  - rewrite updateJob_lookup, Hnone. case_decide; reflexivity.
  - cbn [swept cleanup jobs withJobs].
    apply map_lookup_filter_None. left. exact Hnone.
Qed.

Lemma absent_steps (st st' : State) (id : string) :
  rtc (step svc) st st' ->
  id ∈ used st -> jobs (reg st) !! id = None ->
  id ∈ used st' /\ jobs (reg st') !! id = None.
Proof.
  induction 1 as [st|st st1 st2 Hstep _ IH]; intros Hused Hnone; [auto|].
  apply IH.
  - exact (used_grows st st1 Hstep id Hused).
  - exact (absent_step st st1 id Hstep Hused Hnone).
Qed.

(** X1. An identifier that was handed out and is not in the registry (its
    job was reaped) is in no later registry: the updates of a worker that
    outlives its job are dropped, a trigger answers 404, and an upload
    draws a new identifier. *)
Theorem reaped_job_never_returns (st st' : State) (id : string) :
  rtc (step svc) st st' ->
  id ∈ used st -> jobs (reg st) !! id = None ->
  id ∈ used st' /\ jobs (reg st') !! id = None
  /\ (forall now, response (startExtraction (reg st') id now)
                  = httpError "job não encontrado" StatusNotFound)
  /\ (forall fn now, updateJob (reg st') id fn now = reg st').
Proof.
  intros Hsteps Hused Hnone.
  destruct (absent_steps st st' id Hsteps Hused Hnone) as [Hu Hn].
  split; [exact Hu|]. split; [exact Hn|]. split.
  - intros now. unfold startExtraction. rewrite Hn. reflexivity.
  - intros fn now. unfold updateJob. rewrite Hn. reflexivity.
Qed.

(** One step leaves a completed extraction completed. *)
Lemma completed_step (st st' : State) (id : string) (j j' : ExtractionJob) :
  engineInv st -> step svc st st' ->
  jobs (reg st) !! id = Some j -> Status j = StatusCompleted ->
  jobs (reg st') !! id = Some j' -> Status j' = StatusCompleted.
Proof.
  intros Hinv Hstep Hj Hdone.
  destruct Hstep as
    [st req id0 now Hfresh | st id0 now | st id0 now | st i id0 run Hi
    | st i id0 run Hi | st i id0 fn todo now Hi | st i evt todo Hi
    | st i t todo Hi | st id0 job Hjob | st ttl now Httl];
    cbn [reg handled]; try (intros Hj'; congruence).
  - destruct (upload_cases (reg st) req id0 now) as [-> | (job & -> & _)];
      [intros Hj'; congruence|].
    cbn [jobs withJobs]. rewrite lookup_insert_ne; [intros Hj'; congruence|].
    intros ->. apply Hfresh. exact (inv_used_jobs st Hinv _ _ Hj).
  - destruct (startExtraction_cases (reg st) id0 now)
      as [[r ->] | (job & job' & Hjob & -> & _ & _ & Hnc & _)];
      [intros Hj'; cbn [app handlers_props.untouched] in Hj'; congruence|].
    cbn [jobs withJobs]. rewrite lookup_insert_ne; [intros Hj'; congruence|].
    intros ->. congruence.
  - destruct (startTranscription_cases (reg st) id0 now)
      as [[r ->] | (job & job' & Hjob & -> & _ & _ & Hc & _)];
      [intros Hj'; cbn [app handlers_props.untouched] in Hj'; congruence|].
    cbn [jobs withJobs]. rewrite lookup_insert. case_decide as Hid.
    + intros [= <-]. exact Hc.
    + intros Hj'. congruence.
  - rewrite updateJob_lookup. case_decide as Hid; [|intros Hj'; congruence].
    subst id0. rewrite Hj. cbn [fmap option_fmap option_map]. intros [= <-].
    pose proof (inv_threads st Hinv _ _ Hi) as Hwf.
    destruct (update_kind id fn todo Hwf) as [[He _] | [_ Ht]].
    + pose proof (inv_extracting st Hinv _ _ _ _ Hi He Hj) as [Ha|Ha];
        rewrite Hdone in Ha; discriminate.
    + destruct (Ht now j) as [-> _]. exact Hdone.
  - cbn [swept cleanup jobs withJobs].
    intros [Hj' _]%map_lookup_filter_Some. congruence.
Qed.

(** X2. Once the extraction of a job is completed it stays completed in
    every later state in which the job is stored: no trigger, worker or
    sweep takes the status back. *)
Theorem completed_extraction_is_final (st st' : State) (id : string)
  (j j' : ExtractionJob) :
  reachable svc st -> rtc (step svc) st st' ->
  jobs (reg st) !! id = Some j -> Status j = StatusCompleted ->
  jobs (reg st') !! id = Some j' -> Status j' = StatusCompleted.
Proof.
  intros Hreach Hsteps. revert j.
  induction Hsteps as [st|st st1 st2 Hstep Hsteps IH]; intros j Hj Hdone Hj'.
  - congruence.
  - pose proof (reachable_engineInv svc st Hreach) as Hinv.
    pose proof (reachable_step svc st st1 Hreach Hstep) as Hreach1.
    destruct (jobs (reg st1) !! id) as [j1|] eqn:Hj1.
    + apply (IH Hreach1 j1 eq_refl); [|exact Hj'].
      exact (completed_step st st1 id j j1 Hinv Hstep Hj Hdone Hj1).
    + pose proof (inv_used_jobs st Hinv _ _ Hj) as Hused.
      pose proof (used_grows st st1 Hstep id Hused) as Hused1.
      destruct (absent_steps st1 st2 id Hsteps Hused1 Hj1) as [_ Hnone].
      congruence.
Qed.

(** X3. The snapshot a new connection gets: as soon as the transcription
    of a job has been triggered, the event is of the transcription stage and
    still carries the download address of the audio. *)
Theorem snapshot_keeps_download_url (st : State) (id : string) (j : ExtractionJob) :
  reachable svc st ->
  jobs (reg st) !! id = Some j ->
  transcriptStarted j ->
  EvStage (currentProgressEvent j) = "transcription"
  /\ EvStatus (currentProgressEvent j) = TranscriptStatus j
  /\ EvProgress (currentProgressEvent j) = TranscriptProgress j
  /\ EvDownloadURL (currentProgressEvent j) = "/download/" +:+ id.
Proof.
  intros Hreach Hj Hstarted.
  pose proof (reachable_engineInv svc st Hreach) as Hinv.
  pose proof (inv_transcript st Hinv id j Hj Hstarted) as Hdone.
  pose proof (inv_id st Hinv id j Hj) as Hid.
  unfold currentProgressEvent, downloadURLForJob. rewrite Hdone, Hid.
  destruct Hstarted as [Ht|[Ht|[Ht|Ht]]]; rewrite Ht; cbn; auto.
Qed.

End Life.
End lifecycle_props.

(** ** Where the audio of a job is *)
Module output_props.
Import models handlers engine engine_props schedule serving.

Definition expectedName `{CaseTable} (j : ExtractionJob) : string :=
  extractor.OutputName (ID j) (Format j).

(** The output fields say what [runExtraction] computes for the job. *)
Definition placed `{CaseTable} (a : App) (j : ExtractionJob) : Prop :=
  OutputName j = expectedName j
  /\ OutputPath j = filepath.Join (outputsDir a) (expectedName j).

Definition raised (j : ExtractionJob) : Prop :=
  Status j = StatusProcessing \/ Status j = StatusCompleted.

(** A transform that leaves the output fields, the identifier and the
    format alone. *)
Definition keepsOutput (fn : Z -> ExtractionJob -> ExtractionJob) : Prop :=
  forall now j,
    OutputName (fn now j) = OutputName j /\ OutputPath (fn now j) = OutputPath j
    /\ ID (fn now j) = ID j /\ Format (fn now j) = Format j.

(** ... and that does not raise the status. *)
Definition quiet (fn : Z -> ExtractionJob -> ExtractionJob) : Prop :=
  keepsOutput fn
  /\ forall now j, Status (fn now j) = Status j \/ Status (fn now j) = StatusFailed.

(** A transform that writes the output fields. *)
Definition places (name path : string)
  (fn : Z -> ExtractionJob -> ExtractionJob) : Prop :=
  forall now j,
    OutputName (fn now j) = name /\ OutputPath (fn now j) = path
    /\ ID (fn now j) = ID j /\ Format (fn now j) = Format j.

Definition placedAt `{CaseTable} (st : State) (id : string) : Prop :=
  forall j, jobs (reg st) !! id = Some j -> placed (reg st) j.

Definition expectedAt `{CaseTable} (st : State) (id name path : string) : Prop :=
  forall j, jobs (reg st) !! id = Some j ->
            name = expectedName j
            /\ path = filepath.Join (outputsDir (reg st)) name.

Definition todoPlaced `{CaseTable} (st : State) (t : Todo) : Prop :=
  match t with
  | doUpdate id fn =>
    id ∈ used st /\ (quiet fn \/ (keepsOutput fn /\ placedAt st id))
  | _ => True
  end.

Definition todoAfter (id : string) (t : Todo) : Prop :=
  match t with
  | doUpdate id' fn => id' = id /\ keepsOutput fn
  | _ => True
  end.

Definition threadPlaced `{CaseTable} (st : State) (th : Thread) : Prop :=
  match th with
  | fresh _ => True
  | running todo =>
    Forall (todoPlaced st) todo
    \/ exists id fn rest name path,
         todo = doUpdate id fn :: rest /\ id ∈ used st
         /\ places name path fn /\ expectedAt st id name path
         /\ Forall (todoAfter id) rest
  end.

(** The invariant: a job that is being processed or is completed has its
    output fields set, and the threads will keep it so. *)
Definition outputInv `{CaseTable} (st : State) : Prop :=
  (forall id j, jobs (reg st) !! id = Some j -> raised j -> placed (reg st) j)
  /\ Forall (threadPlaced st) (threads st).

(** Every job of [st'] under an identifier handed out in [st] comes from
    the job of [st] there, with the same identity and the output fields in
    place if they were. *)
Definition descends `{CaseTable} (st st' : State) : Prop :=
  outputsDir (reg st') = outputsDir (reg st)
  /\ used st ⊆ used st'
  /\ forall id j', id ∈ used st -> jobs (reg st') !! id = Some j' ->
       exists j, jobs (reg st) !! id = Some j
                 /\ ID j' = ID j /\ Format j' = Format j
                 /\ (placed (reg st) j -> placed (reg st') j').

Section Output.
Context `{CaseTable} `{Strconv}.
Variable svc : extractor.Service.

Lemma placed_same (a a' : App) (j j' : ExtractionJob) :
  outputsDir a' = outputsDir a ->
  ID j' = ID j -> Format j' = Format j ->
  OutputName j' = OutputName j -> OutputPath j' = OutputPath j ->
  placed a j -> placed a' j'.
Proof.
  unfold placed, expectedName. intros -> -> -> -> ->. tauto.
Qed.

Lemma quiet_keeps fn : quiet fn -> keepsOutput fn.
Proof. intros [Hk _]. exact Hk. Qed.

Lemma descends_todo (st st' : State) (t : Todo) :
  descends st st' -> todoPlaced st t -> todoPlaced st' t.
Proof.
  intros (Hdir & Hused & Hd) Ht. destruct t as [id fn|evt|t]; try exact I.
  destruct Ht as [Hid Hfn]. split; [exact (Hused id Hid)|].
  destruct Hfn as [Hq | [Hk Hp]]; [left; exact Hq|].
  right. split; [exact Hk|]. intros j' Hj'.
  destruct (Hd id j' Hid Hj') as (j & Hj & _ & _ & Hpl).
  exact (Hpl (Hp j Hj)).
Qed.

Lemma descends_thread (st st' : State) (th : Thread) :
  descends st st' -> threadPlaced st th -> threadPlaced st' th.
Proof.
  intros Hdesc Hth. destruct th as [t|todo]; [exact I|].
  destruct Hth as [Hall | (id & fn & rest & name & path & -> & Hid & Hpl & Hex & Hrest)].
  - left. eapply Forall_impl; [exact Hall|].
    intros t. apply descends_todo. exact Hdesc.
  - right. exists id, fn, rest, name, path.
    destruct Hdesc as (Hdir & Hused & Hd).
    split; [reflexivity|]. split; [exact (Hused id Hid)|].
    split; [exact Hpl|]. split; [|exact Hrest].
    intros j' Hj'. destruct (Hd id j' Hid Hj') as (j & Hj & Hi & Hf & _).
    destruct (Hex j Hj) as [Hn Hp]. unfold expectedName in *.
    rewrite Hi, Hf, Hdir. split; assumption.
Qed.

Lemma descends_threads (st st' : State) (l : list Thread) :
  descends st st' -> Forall (threadPlaced st) l -> Forall (threadPlaced st') l.
Proof.
  intros Hdesc Hall. eapply Forall_impl; [exact Hall|].
  intros th. apply descends_thread. exact Hdesc.
Qed.

Lemma descends_fields (st st' : State) :
  outputsDir (reg st') = outputsDir (reg st) ->
  used st ⊆ used st' ->
  (forall id j', id ∈ used st -> jobs (reg st') !! id = Some j' ->
     exists j, jobs (reg st) !! id = Some j
               /\ ID j' = ID j /\ Format j' = Format j
               /\ OutputName j' = OutputName j /\ OutputPath j' = OutputPath j) ->
  descends st st'.
Proof.
  intros Hdir Hused Hd. split; [exact Hdir|]. split; [exact Hused|].
  intros id j' Hid Hj'. destruct (Hd id j' Hid Hj') as (j & Hj & Hi & Hf & Hn & Hp).
  exists j. split; [exact Hj|]. split; [exact Hi|]. split; [exact Hf|].
  apply placed_same; assumption.
Qed.

Lemma descends_same_reg (st st' : State) :
  reg st' = reg st -> used st' = used st -> descends st st'.
Proof.
  intros Hreg Hused. apply descends_fields.
  - rewrite Hreg. reflexivity.
  - rewrite Hused. reflexivity.
  - intros id j' _ Hj'. rewrite Hreg in Hj'. exists j'. auto.
Qed.

Lemma startExtraction_fields (a : App) (id : string) (now : Z)
  (id' : string) (j' : ExtractionJob) :
  jobs (app (startExtraction a id now)) !! id' = Some j' ->
  exists j, jobs a !! id' = Some j /\ ID j' = ID j /\ Format j' = Format j
            /\ OutputName j' = OutputName j /\ OutputPath j' = OutputPath j
            /\ (raised j' -> raised j).
Proof.
  unfold startExtraction. destruct (jobs a !! id) as [job|] eqn:Hjob;
    [|cbn [app]; intros Hj'; exists j'; repeat split; auto].
  destruct (Status job) eqn:Hst; cbn [app jobs withJobs];
    try (intros Hj'; exists j'; repeat split; auto; fail);
    (rewrite lookup_insert; case_decide as Hid;
     [|intros Hj'; exists j'; repeat split; auto];
     intros [= <-]; subst id'; exists job; repeat split; auto;
     intros [Hr|Hr]; discriminate Hr).
Qed.

Lemma startTranscription_fields (a : App) (id : string) (now : Z)
  (id' : string) (j' : ExtractionJob) :
  jobs (app (startTranscription a id now)) !! id' = Some j' ->
  exists j, jobs a !! id' = Some j /\ ID j' = ID j /\ Format j' = Format j
            /\ OutputName j' = OutputName j /\ OutputPath j' = OutputPath j
            /\ (raised j' -> raised j).
Proof.
  unfold startTranscription. destruct (jobs a !! id) as [job|] eqn:Hjob;
    [|cbn [app]; intros Hj'; exists j'; repeat split; auto].
  destruct (negb _); [cbn [app]; intros Hj'; exists j'; repeat split; auto|].
  destruct (TranscriptStatus job) eqn:Hst; cbn [app jobs withJobs];
    try (intros Hj'; exists j'; repeat split; auto; fail);
    (rewrite lookup_insert; case_decide as Hid;
     [|intros Hj'; exists j'; repeat split; auto];
     intros [= <-]; subst id'; exists job; repeat split; auto).
Qed.

Lemma outputsDir_startExtraction (a : App) (id : string) (now : Z) :
  outputsDir (app (startExtraction a id now)) = outputsDir a.
Proof.
  unfold startExtraction. destruct (jobs a !! id) as [job|]; [|reflexivity].
  destruct (Status job); reflexivity.
Qed.

Lemma outputsDir_startTranscription (a : App) (id : string) (now : Z) :
  outputsDir (app (startTranscription a id now)) = outputsDir a.
Proof.
  unfold startTranscription. destruct (jobs a !! id) as [job|]; [|reflexivity].
  destruct (negb _); [reflexivity|].
  destruct (TranscriptStatus job); reflexivity.
Qed.

Lemma outputsDir_updateJob (a : App) (id : string)
  (fn : Z -> ExtractionJob -> ExtractionJob) (now : Z) :
  outputsDir (updateJob a id fn now) = outputsDir a.
Proof. unfold updateJob. destruct (jobs a !! id); reflexivity. Qed.

Lemma handler_threads (st : State) (o : Outcome) :
  Forall (threadPlaced st) (afterHandler o).
Proof.
  unfold afterHandler.
  assert (Hth : forall t, threadPlaced st
            (running (map doBroadcast (broadcasts o)
                      ++ match t with Some t => [doGo t] | None => [] end))).
  { intros t. left. apply Forall_app. split.
    - rewrite Forall_map. apply Forall_true. intros evt. exact I.
    - destruct t; repeat constructor. }
  destruct (broadcasts o) as [|evt evts] eqn:Hbs.
  - destruct (started o) as [t|]; [|constructor].
    constructor; [|constructor]. exact (Hth (Some t)).
  - constructor; [|constructor]. apply Hth.
Qed.

Lemma setFailed_quiet msg : quiet (setFailed msg).
Proof. split; intros now j; cbn; auto. Qed.

Lemma setProgress_keeps pct : keepsOutput (setProgress pct).
Proof. intros now j. cbn. auto. Qed.

Lemma setCompleted_keeps : keepsOutput setCompleted.
Proof. intros now j. cbn. auto. Qed.

Lemma setProcessing_places name path : places name path (setProcessing name path).
Proof. intros now j. cbn. auto. Qed.

Lemma failJob_after id err :
  Forall (todoAfter id) (map ofAction (failJob id err)).
Proof.
  unfold failJob. cbn [map ofAction].
  constructor; [|constructor; [exact I|constructor]].
  split; [reflexivity | apply quiet_keeps, setFailed_quiet].
Qed.

Lemma extractionCallbacks_after id calls :
  Forall (todoAfter id) (map ofAction (flat_map (extractionCallback id) calls)).
Proof.
  induction calls as [|c calls IH]; [constructor|].
  cbn [flat_map extractionCallback app map ofAction].
  constructor; [|constructor; [exact I | exact IH]].
  split; [reflexivity | apply setProgress_keeps].
Qed.

Lemma runExtraction_placed (st : State) (id : string) (run : ExtractionRun)
  (job : ExtractionJob) :
  id ∈ used st -> jobs (reg st) !! id = Some job ->
  threadPlaced st (running (map ofAction (runExtraction (reg st) id run job))).
Proof.
  intros Hid Hjob. unfold runExtraction.
  destruct (mkdirOutputsErr run) as [err|].
  - left. unfold failJob. cbn [map ofAction].
    constructor; [|constructor; [exact I|constructor]].
    split; [exact Hid|]. left. apply setFailed_quiet.
  - right. cbn [map ofAction]. eexists id, _, _, _, _.
    split; [reflexivity|]. split; [exact Hid|].
    split; [apply setProcessing_places|]. split.
    + intros j Hj. assert (j = job) by congruence. subst j.
      split; reflexivity.
    + rewrite map_app. apply Forall_app. split.
      * apply extractionCallbacks_after.
      * destruct (snd (extractor.ExtractAudio (ffmpeg run)));
          [apply failJob_after|].
        cbn [map ofAction]. constructor; [|constructor; [exact I|constructor]].
        split; [reflexivity | apply setCompleted_keeps].
Qed.

Lemma transcript_quiet_list (st : State) (id : string) (acts : list Action) :
  id ∈ used st ->
  Forall (fun a => match a with
                   | Update id' fn => id' = id /\ quiet fn
                   | Broadcast _ => True
                   end) acts ->
  Forall (todoPlaced st) (map ofAction acts).
Proof.
  intros Hid. induction 1 as [|a acts Ha _ IH]; [constructor|].
  cbn [map]. constructor; [|exact IH].
  destruct a as [id' fn|evt]; [|exact I].
  destruct Ha as [-> Hq]. split; [exact Hid | left; exact Hq].
Qed.

Lemma setTranscriptFailed_quiet msg : quiet (setTranscriptFailed msg).
Proof. split; intros now j; cbn; auto. Qed.

Lemma setTranscribing_quiet txt srt : quiet (setTranscribing txt srt).
Proof. split; intros now j; cbn; auto. Qed.

Lemma setTranscriptProgress_quiet pct : quiet (setTranscriptProgress pct).
Proof. split; intros now j; cbn; auto. Qed.

Lemma setTranscriptCompleted_quiet : quiet setTranscriptCompleted.
Proof. split; intros now j; cbn; auto. Qed.

Lemma runTranscription_placed (st : State) (id : string)
  (run : TranscriptionRun) (job : ExtractionJob) :
  id ∈ used st ->
  threadPlaced st
    (running (map ofAction (runTranscription (reg st) svc id run job))).
Proof.
  intros Hid. left. apply (transcript_quiet_list st id); [exact Hid|].
  assert (Hfail : forall err,
            Forall (fun a => match a with
                             | Update id' fn => id' = id /\ quiet fn
                             | Broadcast _ => True
                             end) (failTranscription id err)).
  { intros err. unfold failTranscription.
    constructor; [|constructor; [exact I|constructor]].
    split; [reflexivity | apply setTranscriptFailed_quiet]. }
  unfold runTranscription.
  destruct (String.eqb (OutputPath job) ""); [apply Hfail|].
  constructor; [split; [reflexivity | apply setTranscribing_quiet]|].
  apply Forall_app. split.
  - induction (fst (extractor.TranscribeAudio svc (whisper run))) as [|c calls IH];
      [constructor|].
    cbn [flat_map transcriptionCallback app].
    constructor; [|constructor; [exact I | exact IH]].
    split; [reflexivity | apply setTranscriptProgress_quiet].
  - destruct (snd (extractor.TranscribeAudio svc (whisper run))); [apply Hfail|].
    destruct (txtMissing run); [apply Hfail|].
    destruct (srtMissing run); [apply Hfail|].
    constructor; [|constructor; [exact I|constructor]].
    split; [reflexivity | apply setTranscriptCompleted_quiet].
Qed.

Lemma outputInv_initial (uploads outputs : string) (maxUpload : Z) :
  outputInv (initial uploads outputs maxUpload).
Proof.
  split; cbn; [|constructor].
  intros id j Hj. rewrite lookup_empty in Hj. discriminate.
Qed.

Lemma outputInv_step (st st' : State) :
  engineInv st -> outputInv st -> step svc st st' -> outputInv st'.
Proof.
  intros Hinv (Hjobs & Hthreads) Hstep.
  assert (Hhead : forall i todo,
             threads st !! i = Some (running todo) ->
             threadPlaced st (running todo)).
  { intros i todo Hi. exact (proj1 (Forall_lookup _ _) Hthreads i _ Hi). }
  destruct Hstep as
    [st req id now Hfresh | st id now | st id now | st i id run Hi
    | st i id run Hi | st i id fn todo now Hi | st i evt todo Hi
    | st i t todo Hi | st id job Hjob | st ttl now Httl].
  - (* upload *)
    assert (Hdesc : descends st
              {| reg := app (upload (reg st) req id now); threads := threads st;
                 sent := sent st; used := {[id]} ∪ used st |}).
    { apply descends_fields; cbn [reg used].
      - destruct (upload_cases (reg st) req id now) as [-> | (job & -> & _)];
          reflexivity.
      - set_solver.
      - intros id' j' Hid' Hj'.
        destruct (upload_cases (reg st) req id now) as [Heq | (job & Heq & _)];
          rewrite Heq in Hj'.
        + exists j'. auto.
        + cbn [jobs withJobs] in Hj'. rewrite lookup_insert_ne in Hj'
            by (intros ->; contradiction).
          exists j'. auto. }
    split; [|exact (descends_threads _ _ _ Hdesc Hthreads)].
    cbn [reg]. intros id' j' Hj' Hr.
    destruct (upload_cases (reg st) req id now) as [Heq | (job & Heq & Hst & _)];
      rewrite Heq in Hj' |- *.
    + exact (Hjobs _ _ Hj' Hr).
    + cbn [jobs withJobs] in Hj'. rewrite lookup_insert in Hj'.
      case_decide as Hid.
      * injection Hj' as <-. destruct Hr as [Hr|Hr]; rewrite Hst in Hr; discriminate.
      * exact (placed_same _ _ j' j' eq_refl eq_refl eq_refl eq_refl eq_refl
                 (Hjobs _ _ Hj' Hr)).
  - (* startExtraction *)
    assert (Hdesc : descends st (handled st (startExtraction (reg st) id now))).
    { apply descends_fields; cbn [reg used handled].
      - apply outputsDir_startExtraction.
      - reflexivity.
      - intros id' j' _ Hj'.
        destruct (startExtraction_fields _ _ _ _ _ Hj')
          as (j & Hj & Hi & Hf & Hn & Hp & _).
        exists j. auto. }
    split.
    + cbn [reg handled]. intros id' j' Hj' Hr.
      destruct (startExtraction_fields _ _ _ _ _ Hj')
        as (j & Hj & Hi & Hf & Hn & Hp & Hrr).
      apply (placed_same (reg st) _ j j'); auto;
        [apply outputsDir_startExtraction | exact (Hjobs _ _ Hj (Hrr Hr))].
    + cbn [threads handled]. apply Forall_app. split.
      * exact (descends_threads _ _ _ Hdesc Hthreads).
      * apply handler_threads.
  - (* startTranscription *)
    assert (Hdesc : descends st (handled st (startTranscription (reg st) id now))).
    { apply descends_fields; cbn [reg used handled].
      - apply outputsDir_startTranscription.
      - reflexivity.
      - intros id' j' _ Hj'.
        destruct (startTranscription_fields _ _ _ _ _ Hj')
          as (j & Hj & Hi & Hf & Hn & Hp & _).
        exists j. auto. }
    split.
    + cbn [reg handled]. intros id' j' Hj' Hr.
      destruct (startTranscription_fields _ _ _ _ _ Hj')
        as (j & Hj & Hi & Hf & Hn & Hp & Hrr).
      apply (placed_same (reg st) _ j j'); auto;
        [apply outputsDir_startTranscription | exact (Hjobs _ _ Hj (Hrr Hr))].
    + cbn [threads handled]. apply Forall_app. split.
      * exact (descends_threads _ _ _ Hdesc Hthreads).
      * apply handler_threads.
  - (* runExtraction reads its job *)
    split; [exact Hjobs|]. cbn [threads].
    apply Forall_insert; [|].
    + apply (descends_threads st); [|exact Hthreads].
      apply descends_same_reg; reflexivity.
    + unfold getJob. destruct (jobs (reg st) !! id) as [job|] eqn:Hjob.
      * pose proof (runExtraction_placed st id run job
                      (inv_used_jobs st Hinv _ _ Hjob) Hjob) as Hth.
        exact (descends_thread st _ _
                 (descends_same_reg st _ eq_refl eq_refl) Hth).
      * left. constructor.
  - (* runTranscription reads its job *)
    split; [exact Hjobs|]. cbn [threads].
    apply Forall_insert; [|].
    + apply (descends_threads st); [|exact Hthreads].
      apply descends_same_reg; reflexivity.
    + unfold getJob. destruct (jobs (reg st) !! id) as [job|] eqn:Hjob.
      * pose proof (runTranscription_placed st id run job
                      (inv_used_jobs st Hinv _ _ Hjob)) as Hth.
        exact (descends_thread st _ _
                 (descends_same_reg st _ eq_refl eq_refl) Hth).
      * left. constructor.
  - (* updateJob *)
    set (st' := {| reg := updateJob (reg st) id fn now;
                   threads := <[i:=running todo]> (threads st);
                   sent := sent st; used := used st |}).
    pose proof (Hhead _ _ Hi) as Hth.
    assert (Hcase :
      (id ∈ used st /\ keepsOutput fn
       /\ (quiet fn \/ placedAt st id) /\ Forall (todoPlaced st) todo)
      \/ (exists name path, id ∈ used st /\ places name path fn
            /\ expectedAt st id name path /\ Forall (todoAfter id) todo)).
    { destruct Hth as [Hall | (id0 & fn0 & rest & name & path & Heq & Hid & Hpl & Hex & Hrest)].
      - left. apply Forall_cons in Hall as [[Hid Hfn] Hall].
        split; [exact Hid|]. split; [|split; [|exact Hall]].
        + destruct Hfn as [Hq|[Hk _]]; [apply quiet_keeps, Hq | exact Hk].
        + destruct Hfn as [Hq|[_ Hp]]; [left; exact Hq | right; exact Hp].
      - right. injection Heq as -> -> ->. exists name, path. auto. }
    assert (Hnew : forall j, jobs (reg st) !! id = Some j ->
              ID (fn now j) = ID j /\ Format (fn now j) = Format j
              /\ (placed (reg st) j -> placed (reg st') (fn now j))
              /\ (raised (fn now j) -> placed (reg st') (fn now j))).
    { intros j Hj.
      destruct Hcase as [(Hid & Hk & Hq & _) | (name & path & Hid & Hpl & Hex & _)].
      - destruct (Hk now j) as (Hn & Hp & Hij & Hf).
        assert (Hpres : placed (reg st) j -> placed (reg st') (fn now j)).
        { apply placed_same; auto. apply outputsDir_updateJob. }
        split; [exact Hij|]. split; [exact Hf|]. split; [exact Hpres|].
        intros Hr. apply Hpres. destruct Hq as [[_ Hq] | Hp'].
        + apply (Hjobs id j Hj). destruct (Hq now j) as [Hs|Hs].
          * unfold raised in *. rewrite Hs in Hr. exact Hr.
          * unfold raised in Hr. rewrite Hs in Hr.
            destruct Hr as [Hr|Hr]; discriminate.
        + exact (Hp' j Hj).
      - destruct (Hpl now j) as (Hn & Hp & Hij & Hf).
        destruct (Hex j Hj) as [Hen Hep].
        assert (Hnow : placed (reg st') (fn now j)).
        { unfold placed, expectedName. rewrite Hn, Hp, Hij, Hf.
          cbn [reg st']. rewrite outputsDir_updateJob.
          unfold expectedName in Hen. rewrite <- Hen. split; [reflexivity|exact Hep]. }
        split; [exact Hij|]. split; [exact Hf|]. split; intros _; exact Hnow. }
    assert (Hdesc : descends st st').
    { split; [apply outputsDir_updateJob|]. split; [reflexivity|].
      intros id' j' _. cbn [reg st']. rewrite lifecycle_props.updateJob_lookup.
      case_decide as Hid.
      - subst id'. destruct (jobs (reg st) !! id) as [j|] eqn:Hj; [|discriminate].
        cbn. intros [= <-]. exists j.
        destruct (Hnew j eq_refl) as (Hij & Hf & Hpl & _). auto.
      - intros Hj'. exists j'. split; [exact Hj'|].
        split; [reflexivity|]. split; [reflexivity|].
        apply placed_same; auto. apply outputsDir_updateJob. }
    split.
    + cbn [reg st']. intros id' j'. rewrite lifecycle_props.updateJob_lookup.
      case_decide as Hid.
      * subst id'. destruct (jobs (reg st) !! id) as [j|] eqn:Hj; [|discriminate].
        cbn. intros [= <-]. apply (Hnew j eq_refl).
      * intros Hj' Hr.
        apply (placed_same (reg st) _ j' j'); auto;
          [apply outputsDir_updateJob | exact (Hjobs _ _ Hj' Hr)].
    + cbn [threads st']. apply Forall_insert.
      * exact (descends_threads _ _ _ Hdesc Hthreads).
      * destruct Hcase as [(_ & _ & _ & Hall) | (name & path & Hid & Hpl & Hex & Hrest)].
        -- left. eapply Forall_impl; [exact Hall|].
           intros t. apply descends_todo. exact Hdesc.
        -- left. eapply Forall_impl; [exact Hrest|].
           intros [id' fn'|evt|t]; try (intros _; exact I).
           intros [-> Hk]. split; [exact Hid|]. right. split; [exact Hk|].
           intros j'. cbn [reg st']. rewrite lifecycle_props.updateJob_lookup.
           case_decide; [|congruence].
           destruct (jobs (reg st) !! id) as [j|] eqn:Hj; [|discriminate].
           cbn. intros [= <-].
           destruct (Hpl now j) as (Hn & Hp & Hij & Hf).
           destruct (Hex j Hj) as [Hen Hep].
           unfold placed, expectedName. rewrite Hn, Hp, Hij, Hf.
           rewrite outputsDir_updateJob.
           unfold expectedName in Hen. rewrite <- Hen.
           split; [reflexivity|exact Hep].
  - (* broadcast *)
    split; [exact Hjobs|]. cbn [threads].
    assert (Hdesc : descends st
              {| reg := reg st; threads := <[i:=running todo]> (threads st);
                 sent := sent st ++ [evt]; used := used st |})
      by (apply descends_same_reg; reflexivity).
    apply Forall_insert; [exact (descends_threads _ _ _ Hdesc Hthreads)|].
    apply (descends_thread st _ _ Hdesc).
    destruct (Hhead _ _ Hi) as [Hall | (id0 & fn0 & rest & name & path & Heq & _)];
      [|discriminate].
    left. apply Forall_cons in Hall as [_ Hall]. exact Hall.
  - (* go *)
    split; [exact Hjobs|]. cbn [threads].
    assert (Hdesc : descends st
              {| reg := reg st;
                 threads := <[i:=running todo]> (threads st) ++ [fresh t];
                 sent := sent st; used := used st |})
      by (apply descends_same_reg; reflexivity).
    apply Forall_app. split; [|constructor; [exact I|constructor]].
    apply Forall_insert; [exact (descends_threads _ _ _ Hdesc Hthreads)|].
    apply (descends_thread st _ _ Hdesc).
    destruct (Hhead _ _ Hi) as [Hall | (id0 & fn0 & rest & name & path & Heq & _)];
      [|discriminate].
    left. apply Forall_cons in Hall as [_ Hall]. exact Hall.
  - (* jobWS *)
    split; [exact Hjobs|]. cbn [threads].
    apply (descends_threads st); [|exact Hthreads].
    apply descends_same_reg; reflexivity.
  - (* cleanup *)
    assert (Hdesc : descends st
              {| reg := swept (cleanup (reg st) ttl now); threads := threads st;
                 sent := sent st; used := used st |}).
    { apply descends_fields; [reflexivity | reflexivity |].
      intros id j' _ Hj'. cbn [reg swept cleanup jobs withJobs] in Hj'.
      apply map_lookup_filter_Some in Hj' as [Hj' _].
      exists j'. auto. }
    split; [|exact (descends_threads _ _ _ Hdesc Hthreads)].
    cbn [reg swept cleanup jobs withJobs]. intros id j Hj Hr.
    apply map_lookup_filter_Some in Hj as [Hj _].
    exact (Hjobs id j Hj Hr).
Qed.

Lemma reachable_outputInv (st : State) : reachable svc st -> outputInv st.
Proof.
  induction 1 as [uploads outputs maxUpload | st st' Hreach IH Hstep].
  - apply outputInv_initial.
  - exact (outputInv_step st st' (reachable_engineInv svc st Hreach) IH Hstep).
Qed.

Lemma Clean_nonempty (path : string) : filepath.Clean path <> "".
Proof.
  unfold filepath.Clean. destruct (String.eqb path ""); [discriminate|].
  cbv zeta.
  match goal with
  | |- (if String.eqb ?out "" then _ else _) <> _ =>
    destruct (String.eqb_spec out ""); [discriminate | assumption]
  end.
Qed.

Lemma Join_nonempty (dir name : string) :
  name <> "" -> filepath.Join dir name <> "".
Proof.
  intros Hname. unfold filepath.Join.
  destruct (String.eqb dir ""); cbn [negb]; [|apply Clean_nonempty].
  rewrite (args_props.eqb_false_of_ne _ _ Hname). cbn [negb].
  apply Clean_nonempty.
Qed.

Lemma OutputName_nonempty (id format : string) :
  extractor.OutputName id format <> "".
Proof.
  unfold extractor.OutputName. cbv zeta.
  generalize (filepath.Base id) as b. intros b.
  destruct b; discriminate.
Qed.

(** X4. In every state the system can reach, a job whose extraction is
    completed has the output name [OutputName(id, format)] and the output
    path [outputsDir/name]; so [download] never answers that the file is
    not ready for it: it serves that path under that name, or 404 when the
    file is gone from the disk. *)
Theorem completed_job_is_served (st : State) (id : string) (j : ExtractionJob) :
  reachable svc st ->
  jobs (reg st) !! id = Some j -> Status j = StatusCompleted ->
  OutputName j = extractor.OutputName id (Format j)
  /\ OutputPath j = filepath.Join (outputsDir (reg st)) (OutputName j)
  /\ download (reg st) id false
     = serveFile (OutputPath j) (attachment (OutputName j))
  /\ download (reg st) id true
     = fileError "arquivo não encontrado" StatusNotFound.
Proof.
  intros Hreach Hj Hdone.
  destruct (reachable_outputInv st Hreach) as [Hjobs _].
  pose proof (reachable_engineInv svc st Hreach) as Hinv.
  destruct (Hjobs id j Hj (or_intror Hdone)) as [Hn Hp].
  unfold expectedName in *. rewrite (inv_id st Hinv id j Hj) in Hn, Hp.
  assert (Hne : String.eqb (OutputPath j) "" = false).
  { rewrite Hp. apply args_props.eqb_false_of_ne, Join_nonempty,
      OutputName_nonempty. }
  split; [exact Hn|]. split; [rewrite Hn; exact Hp|].
  unfold download, getJob. rewrite Hj, Hdone, Hne. split; reflexivity.
Qed.

(** X5. A transcription worker always finds the audio: when it starts, the
    job it reads has an output path, so [runTranscription] never fails
    with the message that the audio file was not found. *)
Theorem transcription_finds_audio (st : State) (i : nat) (id : string)
  (run : TranscriptionRun) (job : ExtractionJob) :
  reachable svc st ->
  threads st !! i = Some (fresh (goRunTranscription id)) ->
  getJob (reg st) id = Some job ->
  OutputPath job <> ""
  /\ exists rest,
       runTranscription (reg st) svc id run job
       = Update id (setTranscribing
                      (filepath.Join (outputsDir (reg st)) (id +:+ "_transcript")
                       +:+ ".txt")
                      (filepath.Join (outputsDir (reg st)) (id +:+ "_transcript")
                       +:+ ".srt"))
         :: rest.
Proof.
  intros Hreach Hi Hjob. unfold getJob in Hjob.
  destruct (reachable_outputInv st Hreach) as [Hjobs _].
  pose proof (reachable_engineInv svc st Hreach) as Hinv.
  pose proof (inv_transcribing st Hinv i _ id job Hi (writesT_fresh id) Hjob)
    as Hdone.
  destruct (Hjobs id job Hjob (or_intror Hdone)) as [_ Hp].
  assert (Hne : OutputPath job <> "")
    by (rewrite Hp; apply Join_nonempty, OutputName_nonempty).
  split; [exact Hne|].
  unfold runTranscription.
  rewrite (args_props.eqb_false_of_ne _ _ Hne), (inv_id st Hinv id job Hjob).
  eexists. reflexivity.
Qed.

End Output.
End output_props.

(** ** Where the transcripts of a job are *)
Module transcript_props.
Import models handlers engine engine_props schedule serving.

(** The four transcript fields. *)
Definition tfields (j : ExtractionJob) : string * string * string * string :=
  (TranscriptTXTPath j, TranscriptTXTName j,
   TranscriptSRTPath j, TranscriptSRTName j).

(** What [runTranscription] writes into them. *)
Definition twant (a : App) (j : ExtractionJob)
  : string * string * string * string :=
  let base := filepath.Join (outputsDir a) (ID j +:+ "_transcript") in
  (base +:+ ".txt", filepath.Base (base +:+ ".txt"),
   base +:+ ".srt", filepath.Base (base +:+ ".srt")).

Definition tplaced (a : App) (j : ExtractionJob) : Prop := tfields j = twant a j.

Definition traised (j : ExtractionJob) : Prop :=
  TranscriptStatus j = StatusProcessing \/ TranscriptStatus j = StatusCompleted.

Definition tkeeps (fn : Z -> ExtractionJob -> ExtractionJob) : Prop :=
  forall now j, tfields (fn now j) = tfields j /\ ID (fn now j) = ID j.

Definition tquiet (fn : Z -> ExtractionJob -> ExtractionJob) : Prop :=
  tkeeps fn
  /\ forall now j, TranscriptStatus (fn now j) = TranscriptStatus j
                   \/ TranscriptStatus (fn now j) = StatusFailed.

Definition tplaces (v : string * string * string * string)
  (fn : Z -> ExtractionJob -> ExtractionJob) : Prop :=
  forall now j, tfields (fn now j) = v /\ ID (fn now j) = ID j.

Definition tplacedAt (st : State) (id : string) : Prop :=
  forall j, jobs (reg st) !! id = Some j -> tplaced (reg st) j.

Definition texpectedAt (st : State) (id : string)
  (v : string * string * string * string) : Prop :=
  forall j, jobs (reg st) !! id = Some j -> v = twant (reg st) j.

Definition ttodoPlaced (st : State) (t : Todo) : Prop :=
  match t with
  | doUpdate id fn =>
    id ∈ used st /\ (tquiet fn \/ (tkeeps fn /\ tplacedAt st id))
  | _ => True
  end.

Definition ttodoAfter (id : string) (t : Todo) : Prop :=
  match t with
  | doUpdate id' fn => id' = id /\ tkeeps fn
  | _ => True
  end.

Definition tthreadPlaced (st : State) (th : Thread) : Prop :=
  match th with
  | fresh _ => True
  | running todo =>
    Forall (ttodoPlaced st) todo
    \/ exists id fn rest v,
         todo = doUpdate id fn :: rest /\ id ∈ used st
         /\ tplaces v fn /\ texpectedAt st id v
         /\ Forall (ttodoAfter id) rest
  end.

(** The invariant: a job that is being transcribed or whose transcription
    is completed has its transcript fields set. *)
Definition transcriptInv (st : State) : Prop :=
  (forall id j, jobs (reg st) !! id = Some j -> traised j -> tplaced (reg st) j)
  /\ Forall (tthreadPlaced st) (threads st).

(** The jobs of [st'] come from those of [st]; outside [but] the
    transcript fields stay in place. *)
Definition tdescends (but : option string) (st st' : State) : Prop :=
  outputsDir (reg st') = outputsDir (reg st)
  /\ used st ⊆ used st'
  /\ forall id j', id ∈ used st -> jobs (reg st') !! id = Some j' ->
       exists j, jobs (reg st) !! id = Some j /\ ID j' = ID j
                 /\ (but <> Some id -> tplaced (reg st) j -> tplaced (reg st') j').

Section Transcript.
Context `{CaseTable} `{Strconv}.
Variable svc : extractor.Service.

Lemma tplaced_same (a a' : App) (j j' : ExtractionJob) :
  outputsDir a' = outputsDir a -> ID j' = ID j -> tfields j' = tfields j ->
  tplaced a j -> tplaced a' j'.
Proof. unfold tplaced, twant. intros -> -> ->. tauto. Qed.

Lemma twant_same (a a' : App) (j j' : ExtractionJob) :
  outputsDir a' = outputsDir a -> ID j' = ID j -> twant a' j' = twant a j.
Proof. unfold twant. intros -> ->. reflexivity. Qed.

Lemma tquiet_keeps fn : tquiet fn -> tkeeps fn.
Proof. intros [Hk _]. exact Hk. Qed.

(** A transform of the head of an extraction thread leaves the transcript
    status alone. *)
Lemma eTodo_update_in (id id' : string) (fn : Z -> ExtractionJob -> ExtractionJob)
  (todo : list Todo) :
  eTodo id' todo -> doUpdate id fn ∈ todo ->
  forall now j, TranscriptStatus (fn now j) = TranscriptStatus j.
Proof.
  induction 1 as [|fn0 rest He Hq|fn0 rest Hm _ IH|evt rest _ IH]; intros Hin.
  - apply list_elem_of_singleton in Hin. discriminate.
  - apply elem_of_cons in Hin as [Heq|Hin].
    + injection Heq as -> ->. intros now j. apply (He now j).
    + exfalso. rewrite Forall_forall in Hq. exact (Hq _ Hin).
  - apply elem_of_cons in Hin as [Heq|Hin]; [|exact (IH Hin)].
    injection Heq as -> ->. intros now j. apply (Hm now j).
  - apply elem_of_cons in Hin as [Heq|Hin]; [discriminate | exact (IH Hin)].
Qed.

Lemma restT_update_in (id id' : string) (fn : Z -> ExtractionJob -> ExtractionJob)
  (todo : list Todo) :
  restT id' todo -> doUpdate id fn ∈ todo -> id = id'.
Proof.
  intros Hr Hin. unfold restT in Hr. rewrite Forall_forall in Hr.
  destruct (Hr _ Hin) as [-> _]. reflexivity.
Qed.

Lemma tTodo_update_in (id id' : string) (fn : Z -> ExtractionJob -> ExtractionJob)
  (todo : list Todo) :
  tTodo id' todo -> doUpdate id fn ∈ todo -> id = id'.
Proof.
  induction 1 as [|fn0 rest Hs Hr|evt rest _ IH]; intros Hin.
  - apply list_elem_of_singleton in Hin. discriminate.
  - apply elem_of_cons in Hin as [Heq|Hin].
    + injection Heq as -> ->. reflexivity.
    + exact (restT_update_in _ _ _ _ Hr Hin).
  - apply elem_of_cons in Hin as [Heq|Hin]; [discriminate | exact (IH Hin)].
Qed.

Lemma tdescends_todo (but : option string) (st st' : State) (t : Todo) :
  tdescends but st st' ->
  (forall id fn, t = doUpdate id fn -> but = Some id -> tquiet fn) ->
  ttodoPlaced st t -> ttodoPlaced st' t.
Proof.
  intros (Hdir & Hused & Hd) Hbut Ht. destruct t as [id fn|evt|t]; try exact I.
  destruct Ht as [Hid Hfn]. split; [exact (Hused id Hid)|].
  destruct Hfn as [Hq | [Hk Hp]]; [left; exact Hq|].
  destruct (decide (but = Some id)) as [Hb|Hb].
  - left. exact (Hbut id fn eq_refl Hb).
  - right. split; [exact Hk|]. intros j' Hj'.
    destruct (Hd id j' Hid Hj') as (j & Hj & _ & Hpl).
    exact (Hpl Hb (Hp j Hj)).
Qed.

Lemma tdescends_thread (but : option string) (st st' : State) (th : Thread) :
  tdescends but st st' ->
  (forall todo id fn, th = running todo -> doUpdate id fn ∈ todo ->
                      but = Some id -> tkeeps fn -> tquiet fn) ->
  tthreadPlaced st th -> tthreadPlaced st' th.
Proof.
  intros Hdesc Hbut Hth. destruct th as [t|todo]; [exact I|].
  destruct Hth as [Hall | (id & fn & rest & v & -> & Hid & Hpl & Hex & Hrest)].
  - left. rewrite Forall_forall in Hall |- *. intros t Hin.
    apply (tdescends_todo but st st'); [exact Hdesc| |exact (Hall t Hin)].
    intros id fn -> Hb. apply (Hbut todo id fn eq_refl Hin Hb).
    destruct (Hall _ Hin) as [_ [Hq|[Hk _]]]; [apply tquiet_keeps, Hq | exact Hk].
  - right. exists id, fn, rest, v.
    destruct Hdesc as (Hdir & Hused & Hd).
    split; [reflexivity|]. split; [exact (Hused id Hid)|].
    split; [exact Hpl|]. split; [|exact Hrest].
    intros j' Hj'. destruct (Hd id j' Hid Hj') as (j & Hj & Hi & _).
    rewrite (Hex j Hj). symmetry. apply twant_same; assumption.
Qed.

Lemma tdescends_threads (st st' : State) (l : list Thread) :
  tdescends None st st' ->
  Forall (tthreadPlaced st) l -> Forall (tthreadPlaced st') l.
Proof.
  intros Hdesc Hall. eapply Forall_impl; [exact Hall|].
  intros th. apply (tdescends_thread None); [exact Hdesc|].
  intros todo id fn _ _ Hb. discriminate.
Qed.

Lemma tdescends_fields (but : option string) (st st' : State) :
  outputsDir (reg st') = outputsDir (reg st) ->
  used st ⊆ used st' ->
  (forall id j', id ∈ used st -> jobs (reg st') !! id = Some j' ->
     exists j, jobs (reg st) !! id = Some j /\ ID j' = ID j
               /\ (but <> Some id -> tfields j' = tfields j)) ->
  tdescends but st st'.
Proof.
  intros Hdir Hused Hd. split; [exact Hdir|]. split; [exact Hused|].
  intros id j' Hid Hj'. destruct (Hd id j' Hid Hj') as (j & Hj & Hi & Hf).
  exists j. split; [exact Hj|]. split; [exact Hi|].
  intros Hb. apply tplaced_same; auto.
Qed.

Lemma tdescends_same_reg (st st' : State) :
  reg st' = reg st -> used st' = used st -> tdescends None st st'.
Proof.
  intros Hreg Hused. apply tdescends_fields.
  - rewrite Hreg. reflexivity.
  - rewrite Hused. reflexivity.
  - intros id j' _ Hj'. rewrite Hreg in Hj'. exists j'. auto.
Qed.

Lemma startExtraction_tfields (a : App) (id : string) (now : Z)
  (id' : string) (j' : ExtractionJob) :
  jobs (app (startExtraction a id now)) !! id' = Some j' ->
  exists j, jobs a !! id' = Some j /\ ID j' = ID j
            /\ ((tfields j' = tfields j /\ TranscriptStatus j' = TranscriptStatus j)
                \/ (id' = id /\ TranscriptStatus j' = StatusNotStarted
                    /\ Status j <> StatusCompleted)).
Proof.
  unfold startExtraction. destruct (jobs a !! id) as [job|] eqn:Hjob;
    [|cbn [app]; intros Hj'; exists j'; auto].
  destruct (Status job) eqn:Hst; cbn [app jobs withJobs];
    try (intros Hj'; exists j'; auto; fail);
    (rewrite lookup_insert; case_decide as Hid;
     [|intros Hj'; exists j'; auto];
     intros [= <-]; subst id'; exists job;
     split; [assumption|]; split; [reflexivity|]; right;
     rewrite Hst; repeat split; discriminate).
Qed.

Lemma startTranscription_tfields (a : App) (id : string) (now : Z)
  (id' : string) (j' : ExtractionJob) :
  jobs (app (startTranscription a id now)) !! id' = Some j' ->
  exists j, jobs a !! id' = Some j /\ ID j' = ID j /\ tfields j' = tfields j
            /\ (traised j' -> traised j).
Proof.
  unfold startTranscription. destruct (jobs a !! id) as [job|] eqn:Hjob;
    [|cbn [app]; intros Hj'; exists j'; auto].
  destruct (negb _); [cbn [app]; intros Hj'; exists j'; auto|].
  destruct (TranscriptStatus job) eqn:Hst; cbn [app jobs withJobs];
    try (intros Hj'; exists j'; auto; fail);
    (rewrite lookup_insert; case_decide as Hid;
     [|intros Hj'; exists j'; auto];
     intros [= <-]; subst id'; exists job;
     split; [assumption|]; split; [reflexivity|]; split; [reflexivity|];
     intros [Hr|Hr]; discriminate Hr).
Qed.

Lemma thandler_threads (st : State) (o : Outcome) :
  Forall (tthreadPlaced st) (afterHandler o).
Proof.
  unfold afterHandler.
  assert (Hth : forall t, tthreadPlaced st
            (running (map doBroadcast (broadcasts o)
                      ++ match t with Some t => [doGo t] | None => [] end))).
  { intros t. left. apply Forall_app. split.
    - rewrite Forall_map. apply Forall_true. intros evt. exact I.
    - destruct t; repeat constructor. }
  destruct (broadcasts o) as [|evt evts] eqn:Hbs.
  - destruct (started o) as [t|]; [|constructor].
    constructor; [|constructor]. exact (Hth (Some t)).
  - constructor; [|constructor]. apply Hth.
Qed.

Lemma setFailed_tquiet msg : tquiet (setFailed msg).
Proof. split; intros now j; cbn; auto. Qed.

Lemma setProcessing_tquiet name path : tquiet (setProcessing name path).
Proof. split; intros now j; cbn; auto. Qed.

Lemma setProgress_tquiet pct : tquiet (setProgress pct).
Proof. split; intros now j; cbn; auto. Qed.

Lemma setCompleted_tquiet : tquiet setCompleted.
Proof. split; intros now j; cbn; auto. Qed.

Lemma setTranscriptFailed_tquiet msg : tquiet (setTranscriptFailed msg).
Proof. split; intros now j; cbn; auto. Qed.

Lemma setTranscriptProgress_tkeeps pct : tkeeps (setTranscriptProgress pct).
Proof. intros now j. cbn. auto. Qed.

Lemma setTranscriptCompleted_tkeeps : tkeeps setTranscriptCompleted.
Proof. intros now j. cbn. auto. Qed.

Lemma setTranscribing_tplaces txt srt :
  tplaces (txt, filepath.Base txt, srt, filepath.Base srt) (setTranscribing txt srt).
Proof. intros now j. cbn. auto. Qed.

Lemma quiet_actions (st : State) (id : string) (acts : list Action) :
  id ∈ used st ->
  Forall (fun a => match a with
                   | Update id' fn => id' = id /\ tquiet fn
                   | Broadcast _ => True
                   end) acts ->
  Forall (ttodoPlaced st) (map ofAction acts).
Proof.
  intros Hid. induction 1 as [|a acts Ha _ IH]; [constructor|].
  cbn [map]. constructor; [|exact IH].
  destruct a as [id' fn|evt]; [|exact I].
  destruct Ha as [-> Hq]. split; [exact Hid | left; exact Hq].
Qed.

Lemma runExtraction_tplaced (st : State) (id : string) (run : ExtractionRun)
  (job : ExtractionJob) :
  id ∈ used st ->
  tthreadPlaced st (running (map ofAction (runExtraction (reg st) id run job))).
Proof.
  intros Hid. left. apply (quiet_actions st id); [exact Hid|].
  assert (Hfail : forall err,
            Forall (fun a => match a with
                             | Update id' fn => id' = id /\ tquiet fn
                             | Broadcast _ => True
                             end) (failJob id err)).
  { intros err. unfold failJob.
    constructor; [|constructor; [exact I|constructor]].
    split; [reflexivity | apply setFailed_tquiet]. }
  unfold runExtraction.
  destruct (mkdirOutputsErr run); [apply Hfail|].
  constructor; [split; [reflexivity | apply setProcessing_tquiet]|].
  apply Forall_app. split.
  - induction (fst (extractor.ExtractAudio (ffmpeg run))) as [|c calls IH];
      [constructor|].
    cbn [flat_map extractionCallback app].
    constructor; [|constructor; [exact I | exact IH]].
    split; [reflexivity | apply setProgress_tquiet].
  - destruct (snd (extractor.ExtractAudio (ffmpeg run))); [apply Hfail|].
    constructor; [|constructor; [exact I|constructor]].
    split; [reflexivity | apply setCompleted_tquiet].
Qed.

Lemma failTranscription_after id err :
  Forall (ttodoAfter id) (map ofAction (failTranscription id err)).
Proof.
  unfold failTranscription. cbn [map ofAction].
  constructor; [|constructor; [exact I|constructor]].
  split; [reflexivity | apply tquiet_keeps, setTranscriptFailed_tquiet].
Qed.

Lemma runTranscription_tplaced (st : State) (id : string)
  (run : TranscriptionRun) (job : ExtractionJob) :
  id ∈ used st -> jobs (reg st) !! id = Some job ->
  tthreadPlaced st
    (running (map ofAction (runTranscription (reg st) svc id run job))).
Proof.
  intros Hid Hjob. unfold runTranscription.
  destruct (String.eqb (OutputPath job) "").
  - left. unfold failTranscription. cbn [map ofAction].
    constructor; [|constructor; [exact I|constructor]].
    split; [exact Hid|]. left. apply setTranscriptFailed_tquiet.
  - right. cbn [map ofAction]. eexists id, _, _, _.
    split; [reflexivity|]. split; [exact Hid|].
    split; [apply setTranscribing_tplaces|]. split.
    + intros j Hj. assert (j = job) by congruence. subst j. reflexivity.
    + rewrite map_app. apply Forall_app. split.
      * induction (fst (extractor.TranscribeAudio svc (whisper run)))
          as [|c calls IH]; [constructor|].
        cbn [flat_map transcriptionCallback app map ofAction].
        constructor; [|constructor; [exact I | exact IH]].
        split; [reflexivity | apply setTranscriptProgress_tkeeps].
      * destruct (snd (extractor.TranscribeAudio svc (whisper run)));
          [apply failTranscription_after|].
        destruct (txtMissing run); [apply failTranscription_after|].
        destruct (srtMissing run); [apply failTranscription_after|].
        cbn [map ofAction]. constructor; [|constructor; [exact I|constructor]].
        split; [reflexivity | apply setTranscriptCompleted_tkeeps].
Qed.

Lemma transcriptInv_initial (uploads outputs : string) (maxUpload : Z) :
  transcriptInv (initial uploads outputs maxUpload).
Proof.
  split; cbn; [|constructor].
  intros id j Hj. rewrite lookup_empty in Hj. discriminate.
Qed.

Lemma transcriptInv_step (st st' : State) :
  engineInv st -> transcriptInv st -> step svc st st' -> transcriptInv st'.
Proof.
  intros Hinv (Hjobs & Hthreads) Hstep.
  assert (Hhead : forall i todo,
             threads st !! i = Some (running todo) ->
             tthreadPlaced st (running todo)).
  { intros i todo Hi. exact (proj1 (Forall_lookup _ _) Hthreads i _ Hi). }
  destruct Hstep as
    [st req id now Hfresh | st id now | st id now | st i id run Hi
    | st i id run Hi | st i id fn todo now Hi | st i evt todo Hi
    | st i t todo Hi | st id job Hjob | st ttl now Httl].
  - (* upload *)
    assert (Hdesc : tdescends None st
              {| reg := app (upload (reg st) req id now); threads := threads st;
                 sent := sent st; used := {[id]} ∪ used st |}).
    { apply tdescends_fields; cbn [reg used].
      - destruct (upload_cases (reg st) req id now) as [-> | (job & -> & _)];
          reflexivity.
      - set_solver.
      - intros id' j' Hid' Hj'.
        destruct (upload_cases (reg st) req id now) as [Heq | (job & Heq & _)];
          rewrite Heq in Hj'.
        + exists j'. auto.
        + cbn [jobs withJobs] in Hj'. rewrite lookup_insert_ne in Hj'
            by (intros ->; contradiction).
          exists j'. auto. }
    split; [|exact (tdescends_threads _ _ _ Hdesc Hthreads)].
    cbn [reg]. intros id' j' Hj' Hr.
    destruct (upload_cases (reg st) req id now)
      as [Heq | (job & Heq & _ & Hst & _)]; rewrite Heq in Hj' |- *.
    + exact (Hjobs _ _ Hj' Hr).
    + cbn [jobs withJobs] in Hj'. rewrite lookup_insert in Hj'.
      case_decide as Hid.
      * injection Hj' as <-. destruct Hr as [Hr|Hr]; rewrite Hst in Hr; discriminate.
      * exact (tplaced_same _ _ j' j' eq_refl eq_refl eq_refl (Hjobs _ _ Hj' Hr)).
  - (* startExtraction *)
    destruct (startExtraction_cases (reg st) id now)
      as [[r Hr] | (job & job' & Hjob & _ & _ & _ & Hnc & _)].
    + rewrite Hr.
      assert (Hdesc : tdescends None st
                (handled st (handlers_props.untouched (reg st) r)))
        by (apply tdescends_same_reg; reflexivity).
      split; [exact Hjobs|].
      cbn [threads handled]. apply Forall_app. split; [|apply thandler_threads].
      exact (tdescends_threads _ _ _ Hdesc Hthreads).
    + set (st' := handled st (startExtraction (reg st) id now)).
      assert (Hdir : outputsDir (reg st') = outputsDir (reg st))
        by apply output_props.outputsDir_startExtraction.
      assert (Hdesc : tdescends (Some id) st st').
      { apply tdescends_fields; [exact Hdir | reflexivity |].
        intros id' j' _ Hj'.
        destruct (startExtraction_tfields _ _ _ _ _ Hj')
          as (j & Hj & Hij & [[Hf _] | (-> & _ & _)]);
          exists j; (split; [exact Hj|]); (split; [exact Hij|]);
          [intros _; exact Hf | intros Hb; congruence]. }
      split.
      * cbn [reg st' handled]. intros id' j' Hj' Hr.
        destruct (startExtraction_tfields _ _ _ _ _ Hj')
          as (j & Hj & Hij & [[Hf Hs] | (_ & Hs & _)]).
        -- apply (tplaced_same (reg st) _ j j'); auto.
           apply (Hjobs _ _ Hj). unfold traised in *. rewrite <- Hs. exact Hr.
        -- destruct Hr as [Hr|Hr]; rewrite Hs in Hr; discriminate.
      * cbn [threads st' handled]. apply Forall_app.
        split; [|apply thandler_threads].
        rewrite Forall_lookup. intros k th Hk.
        apply (tdescends_thread (Some id) st st'); [exact Hdesc| |].
        -- intros todo id0 fn0 -> Hin Hb Hkeeps. injection Hb as <-.
           destruct (inv_threads st Hinv k _ Hk) as [[ide He] | [[idt Ht] | Hs]].
           ++ inversion He as [|? He']; subst.
              split; [exact Hkeeps|]. intros now0 j0. left.
              exact (eTodo_update_in _ _ _ _ He' Hin now0 j0).
           ++ exfalso. inversion Ht as [|? Ht']; subst.
              pose proof (tTodo_update_in _ _ _ _ Ht' Hin) as <-.
              apply Hnc.
              exact (inv_transcribing st Hinv k _ id job Hk Ht Hjob).
           ++ exfalso. inversion Hs as [? Hq]; subst.
              rewrite Forall_forall in Hq. exact (Hq _ Hin).
        -- exact (proj1 (Forall_lookup _ _) Hthreads k th Hk).
  - (* startTranscription *)
    set (st' := handled st (startTranscription (reg st) id now)).
    assert (Hdir : outputsDir (reg st') = outputsDir (reg st))
      by apply output_props.outputsDir_startTranscription.
    assert (Hdesc : tdescends None st st').
    { apply tdescends_fields; [exact Hdir | reflexivity |].
      intros id' j' _ Hj'.
      destruct (startTranscription_tfields _ _ _ _ _ Hj')
        as (j & Hj & Hij & Hf & _).
      exists j. auto. }
    split.
    + cbn [reg st' handled]. intros id' j' Hj' Hr.
      destruct (startTranscription_tfields _ _ _ _ _ Hj')
        as (j & Hj & Hij & Hf & Hrr).
      apply (tplaced_same (reg st) _ j j'); auto.
      exact (Hjobs _ _ Hj (Hrr Hr)).
    + cbn [threads st' handled]. apply Forall_app. split.
      * exact (tdescends_threads _ _ _ Hdesc Hthreads).
      * apply thandler_threads.
  - (* runExtraction reads its job *)
    split; [exact Hjobs|]. cbn [threads].
    apply Forall_insert; [|].
    + apply (tdescends_threads st); [|exact Hthreads].
      apply tdescends_same_reg; reflexivity.
    + unfold getJob. destruct (jobs (reg st) !! id) as [job|] eqn:Hjob.
      * pose proof (runExtraction_tplaced st id run job
                      (inv_used_jobs st Hinv _ _ Hjob)) as Hth.
        refine (tdescends_thread None st _ _
                  (tdescends_same_reg st _ eq_refl eq_refl) _ Hth).
        intros todo id0 fn0 _ _ Hb. discriminate.
      * left. constructor.
  - (* runTranscription reads its job *)
    split; [exact Hjobs|]. cbn [threads].
    apply Forall_insert; [|].
    + apply (tdescends_threads st); [|exact Hthreads].
      apply tdescends_same_reg; reflexivity.
    + unfold getJob. destruct (jobs (reg st) !! id) as [job|] eqn:Hjob.
      * pose proof (runTranscription_tplaced st id run job
                      (inv_used_jobs st Hinv _ _ Hjob) Hjob) as Hth.
        refine (tdescends_thread None st _ _
                  (tdescends_same_reg st _ eq_refl eq_refl) _ Hth).
        intros todo id0 fn0 _ _ Hb. discriminate.
      * left. constructor.
  - (* updateJob *)
    set (st' := {| reg := updateJob (reg st) id fn now;
                   threads := <[i:=running todo]> (threads st);
                   sent := sent st; used := used st |}).
    pose proof (Hhead _ _ Hi) as Hth.
    assert (Hcase :
      (id ∈ used st /\ tkeeps fn
       /\ (tquiet fn \/ tplacedAt st id) /\ Forall (ttodoPlaced st) todo)
      \/ (exists v, id ∈ used st /\ tplaces v fn
            /\ texpectedAt st id v /\ Forall (ttodoAfter id) todo)).
    { destruct Hth as [Hall | (id0 & fn0 & rest & v & Heq & Hid & Hpl & Hex & Hrest)].
      - left. apply Forall_cons in Hall as [[Hid Hfn] Hall].
        split; [exact Hid|]. split; [|split; [|exact Hall]].
        + destruct Hfn as [Hq|[Hk _]]; [apply tquiet_keeps, Hq | exact Hk].
        + destruct Hfn as [Hq|[_ Hp]]; [left; exact Hq | right; exact Hp].
      - right. injection Heq as -> -> ->. exists v. auto. }
    assert (Hdir : outputsDir (reg st') = outputsDir (reg st))
      by apply output_props.outputsDir_updateJob.
    assert (Hnew : forall j, jobs (reg st) !! id = Some j ->
              ID (fn now j) = ID j
              /\ (tplaced (reg st) j -> tplaced (reg st') (fn now j))
              /\ (traised (fn now j) -> tplaced (reg st') (fn now j))).
    { intros j Hj.
      destruct Hcase as [(Hid & Hk & Hq & _) | (v & Hid & Hpl & Hex & _)].
      - destruct (Hk now j) as (Hf & Hij).
        assert (Hpres : tplaced (reg st) j -> tplaced (reg st') (fn now j))
          by (apply tplaced_same; auto).
        split; [exact Hij|]. split; [exact Hpres|].
        intros Hr. apply Hpres. destruct Hq as [[_ Hq] | Hp'].
        + apply (Hjobs id j Hj). destruct (Hq now j) as [Hs|Hs].
          * unfold traised in *. rewrite Hs in Hr. exact Hr.
          * unfold traised in Hr. rewrite Hs in Hr.
            destruct Hr as [Hr|Hr]; discriminate.
        + exact (Hp' j Hj).
      - destruct (Hpl now j) as (Hf & Hij).
        assert (Hnow : tplaced (reg st') (fn now j)).
        { unfold tplaced. rewrite Hf, (Hex j Hj). symmetry.
          apply twant_same; assumption. }
        split; [exact Hij|]. split; intros _; exact Hnow. }
    assert (Hdesc : tdescends None st st').
    { split; [exact Hdir|]. split; [reflexivity|].
      intros id' j' _. cbn [reg st']. rewrite lifecycle_props.updateJob_lookup.
      case_decide as Hid.
      - subst id'. destruct (jobs (reg st) !! id) as [j|] eqn:Hj; [|discriminate].
        cbn. intros [= <-]. exists j.
        destruct (Hnew j eq_refl) as (Hij & Hpl & _). auto.
      - intros Hj'. exists j'. split; [exact Hj'|]. split; [reflexivity|].
        intros _. apply tplaced_same; auto. }
    split.
    + cbn [reg st']. intros id' j'. rewrite lifecycle_props.updateJob_lookup.
      case_decide as Hid.
      * subst id'. destruct (jobs (reg st) !! id) as [j|] eqn:Hj; [|discriminate].
        cbn. intros [= <-]. apply (Hnew j eq_refl).
      * intros Hj' Hr.
        apply (tplaced_same (reg st) _ j' j'); auto.
        exact (Hjobs _ _ Hj' Hr).
    + cbn [threads st']. apply Forall_insert.
      * exact (tdescends_threads _ _ _ Hdesc Hthreads).
      * destruct Hcase as [(_ & _ & _ & Hall) | (v & Hid & Hpl & Hex & Hrest)].
        -- left. eapply Forall_impl; [exact Hall|].
           intros t. apply (tdescends_todo None); [exact Hdesc|].
           intros id0 fn0 _ Hb. discriminate.
        -- left. eapply Forall_impl; [exact Hrest|].
           intros [id' fn'|evt|t]; try (intros _; exact I).
           intros [-> Hk]. split; [exact Hid|]. right. split; [exact Hk|].
           intros j'. cbn [reg st']. rewrite lifecycle_props.updateJob_lookup.
           case_decide; [|congruence].
           destruct (jobs (reg st) !! id) as [j|] eqn:Hj; [|discriminate].
           cbn. intros [= <-].
           destruct (Hpl now j) as (Hf & Hij).
           unfold tplaced. rewrite Hf, (Hex j Hj). symmetry.
           apply twant_same; [|exact Hij].
           apply output_props.outputsDir_updateJob.
  - (* broadcast *)
    split; [exact Hjobs|]. cbn [threads].
    assert (Hdesc : tdescends None st
              {| reg := reg st; threads := <[i:=running todo]> (threads st);
                 sent := sent st ++ [evt]; used := used st |})
      by (apply tdescends_same_reg; reflexivity).
    apply Forall_insert; [exact (tdescends_threads _ _ _ Hdesc Hthreads)|].
    destruct (Hhead _ _ Hi) as [Hall | (id0 & fn0 & rest & v & Heq & _)];
      [|discriminate].
    left. apply Forall_cons in Hall as [_ Hall].
    eapply Forall_impl; [exact Hall|].
    intros t0. apply (tdescends_todo None); [exact Hdesc|].
    intros id0 fn0 _ Hb. discriminate.
  - (* go *)
    split; [exact Hjobs|]. cbn [threads].
    assert (Hdesc : tdescends None st
              {| reg := reg st;
                 threads := <[i:=running todo]> (threads st) ++ [fresh t];
                 sent := sent st; used := used st |})
      by (apply tdescends_same_reg; reflexivity).
    apply Forall_app. split; [|constructor; [exact I|constructor]].
    apply Forall_insert; [exact (tdescends_threads _ _ _ Hdesc Hthreads)|].
    destruct (Hhead _ _ Hi) as [Hall | (id0 & fn0 & rest & v & Heq & _)];
      [|discriminate].
    left. apply Forall_cons in Hall as [_ Hall].
    eapply Forall_impl; [exact Hall|].
    intros t0. apply (tdescends_todo None); [exact Hdesc|].
    intros id0 fn0 _ Hb. discriminate.
  - (* jobWS *)
    split; [exact Hjobs|]. cbn [threads].
    apply (tdescends_threads st); [|exact Hthreads].
    apply tdescends_same_reg; reflexivity.
  - (* cleanup *)
    assert (Hdesc : tdescends None st
              {| reg := swept (cleanup (reg st) ttl now); threads := threads st;
                 sent := sent st; used := used st |}).
    { apply tdescends_fields; [reflexivity | reflexivity |].
      intros id j' _ Hj'. cbn [reg swept cleanup jobs withJobs] in Hj'.
      apply map_lookup_filter_Some in Hj' as [Hj' _].
      exists j'. auto. }
    split; [|exact (tdescends_threads _ _ _ Hdesc Hthreads)].
    cbn [reg swept cleanup jobs withJobs]. intros id j Hj Hr.
    apply map_lookup_filter_Some in Hj as [Hj _].
    exact (Hjobs id j Hj Hr).
Qed.

Lemma reachable_transcriptInv (st : State) : reachable svc st -> transcriptInv st.
Proof.
  induction 1 as [uploads outputs maxUpload | st st' Hreach IH Hstep].
  - apply transcriptInv_initial.
  - exact (transcriptInv_step st st' (reachable_engineInv svc st Hreach) IH Hstep).
Qed.

Lemma append_nonempty_r (s t : string) : t <> "" -> s +:+ t <> "".
Proof. intros Ht. destruct s; [exact Ht | discriminate]. Qed.

(** X6. In every state the system can reach, a job whose transcription is
    completed has both transcript paths set to
    [outputsDir/<id>_transcript.txt] and [.srt], with their base names; so
    [downloadTranscript] serves the SRT file when the parameter [format],
    trimmed and lowercased, is "srt" and the TXT file for any other value,
    and answers 404 only when the file is gone from the disk. *)
Theorem completed_transcript_is_served (st : State) (id : string)
  (j : ExtractionJob) :
  reachable svc st ->
  jobs (reg st) !! id = Some j -> TranscriptStatus j = StatusCompleted ->
  let base := filepath.Join (outputsDir (reg st)) (id +:+ "_transcript") in
  TranscriptTXTPath j = base +:+ ".txt"
  /\ TranscriptTXTName j = filepath.Base (base +:+ ".txt")
  /\ TranscriptSRTPath j = base +:+ ".srt"
  /\ TranscriptSRTName j = filepath.Base (base +:+ ".srt")
  /\ (forall query,
        downloadTranscript (reg st) id query false
        = (if String.eqb (strings.ToLower (strings.TrimSpace query)) "srt"
           then serveFile (TranscriptSRTPath j) (attachment (TranscriptSRTName j))
           else serveFile (TranscriptTXTPath j) (attachment (TranscriptTXTName j))))
  /\ (forall query,
        downloadTranscript (reg st) id query true
        = fileError "arquivo de transcrição não encontrado" StatusNotFound).
Proof.
  intros Hreach Hj Hdone base.
  destruct (reachable_transcriptInv st Hreach) as [Hjobs _].
  pose proof (reachable_engineInv svc st Hreach) as Hinv.
  pose proof (Hjobs id j Hj (or_intror Hdone)) as Hpl.
  unfold tplaced, tfields, twant in Hpl.
  rewrite (inv_id st Hinv id j Hj) in Hpl. fold base in Hpl.
  injection Hpl as Htxt Htn Hsrt Hsn.
  assert (Hne1 : String.eqb (TranscriptTXTPath j) "" = false).
  { rewrite Htxt. apply args_props.eqb_false_of_ne, append_nonempty_r. discriminate. }
  assert (Hne2 : String.eqb (TranscriptSRTPath j) "" = false).
  { rewrite Hsrt. apply args_props.eqb_false_of_ne, append_nonempty_r. discriminate. }
  split; [exact Htxt|]. split; [exact Htn|]. split; [exact Hsrt|].
  split; [exact Hsn|].
  split; intros query; unfold downloadTranscript, getJob; rewrite Hj, Hdone;
    cbn [JobStatus_eqb negb];
    destruct (String.eqb (strings.ToLower (strings.TrimSpace query)) "srt");
    rewrite ?Hne1, ?Hne2; reflexivity.
Qed.

End Transcript.
End transcript_props.

(** ** A run of the system to the end of both stages *)
Module demo_run.
Import models handlers engine schedule.

Definition ffmpegOK : extractor.FfmpegRun :=
  {| extractor.probeErr := None; extractor.probeOut := "10";
     extractor.stdoutPipeErr := None; extractor.stderrPipeErr := None;
     extractor.startErr := None;
     extractor.stdoutLines := ["out_time_ms=5000000"; "progress=end"];
     extractor.scanErr := None; extractor.stderrLines := [];
     extractor.waitErr := None; extractor.ctxAtWait := None |}.

Definition extractionOK : ExtractionRun :=
  {| mkdirOutputsErr := None; ffmpeg := ffmpegOK |}.

Definition transcriptionOK : TranscriptionRun :=
  {| whisper := {| extractor.whisperStartErr := None; extractor.ticks := 2;
                   extractor.whisperEnd := extractor.exited None "" |};
     txtMissing := false; srtMissing := false |}.

(** Upload, trigger, and the extraction worker to its last step. *)
Definition toExtracted : list Move :=
  [mvUpload handlers_props.demoRequest "ab12" 7; mvStartExtraction "ab12" 9;
   mvAdvance 0 10; mvAdvance 0 10; mvRunExtraction 1 extractionOK]
  ++ replicate 11 (mvAdvance 1 20).

(** The trigger of the transcription, up to the start of its worker. *)
Definition toTranscribing : list Move :=
  [mvStartTranscription "ab12" 30; mvAdvance 2 31; mvAdvance 2 31].

(** The transcription worker to its last step. *)
Definition toTranscribed : list Move :=
  mvRunTranscription 3 transcriptionOK :: replicate 11 (mvAdvance 3 40).

(** The directories are given the way an environment may spell them;
    [filepath.Join] cleans the paths built from them. *)
Definition start : State := initial "uploads/" "./outputs/" 0.

Definition extracted : State :=
  @play asciiCase decimalStrconv adapters_props.svcDemo start toExtracted.

Definition transcribing : State :=
  @play asciiCase decimalStrconv adapters_props.svcDemo extracted toTranscribing.

Definition transcribed : State :=
  @play asciiCase decimalStrconv adapters_props.svcDemo transcribing toTranscribed.

(** The same upload, then a sweep long after it. *)
Definition reaped : State :=
  @play asciiCase decimalStrconv adapters_props.svcDemo start
    [mvUpload handlers_props.demoRequest "ab12" 7; mvCleanup 5 100].

End demo_run.

Module demo_props.
Import models handlers engine schedule demo_run serving.

Definition playDemo : State -> list Move -> State :=
  @play asciiCase decimalStrconv adapters_props.svcDemo.

Definition reachableDemo : State -> Prop :=
  @reachable asciiCase decimalStrconv adapters_props.svcDemo.

Lemma start_reachable : reachableDemo start.
Proof. apply reachable_initial. Qed.

Lemma extracted_reachable : reachableDemo extracted.
Proof. apply schedule_props.play_reachable, start_reachable. Qed.

Lemma transcribing_reachable : reachableDemo transcribing.
Proof. apply schedule_props.play_reachable, extracted_reachable. Qed.

Lemma transcribed_reachable : reachableDemo transcribed.
Proof. apply schedule_props.play_reachable, transcribing_reachable. Qed.

Definition extractedJob : ExtractionJob :=
  {| ID := "ab12"; InputFileName := "clip_one.mp4";
     InputPath := "uploads/ab12_clip_one.mp4";
     OutputPath := "outputs/ab12.flac"; OutputName := "ab12.flac";
     Format := "flac"; Quality := "medium";
     Status := StatusCompleted; Progress := 100; Error := "";
     TranscriptStatus := StatusNotStarted; TranscriptProgress := 0;
     TranscriptError := ""; TranscriptTXTPath := ""; TranscriptTXTName := "";
     TranscriptSRTPath := ""; TranscriptSRTName := "";
     CreatedAt := 7; UpdatedAt := 20 |}.

Definition transcribedJob : ExtractionJob :=
  {| ID := "ab12"; InputFileName := "clip_one.mp4";
     InputPath := "uploads/ab12_clip_one.mp4";
     OutputPath := "outputs/ab12.flac"; OutputName := "ab12.flac";
     Format := "flac"; Quality := "medium";
     Status := StatusCompleted; Progress := 100; Error := "";
     TranscriptStatus := StatusCompleted; TranscriptProgress := 100;
     TranscriptError := "";
     TranscriptTXTPath := "outputs/ab12_transcript.txt";
     TranscriptTXTName := "ab12_transcript.txt";
     TranscriptSRTPath := "outputs/ab12_transcript.srt";
     TranscriptSRTName := "ab12_transcript.srt";
     CreatedAt := 7; UpdatedAt := 40 |}.

Lemma extracted_job : jobs (reg extracted) !! "ab12" = Some extractedJob.
Proof. vm_compute. reflexivity. Qed.

Lemma transcribed_job : jobs (reg transcribed) !! "ab12" = Some transcribedJob.
Proof. vm_compute. reflexivity. Qed.

Lemma reaped_job_never_returns_witness :
  jobs (reg (playDemo reaped
               [mvStartExtraction "ab12" 101;
                mvUpload handlers_props.demoRequest "cd34" 102])) !! "ab12"
  = None.
Proof.
  apply (@lifecycle_props.reaped_job_never_returns asciiCase decimalStrconv
           adapters_props.svcDemo reaped _ "ab12"
           (schedule_props.play_steps _ reaped _)).
  - apply (bool_decide_unpack _). vm_compute. exact I.
  - vm_compute. reflexivity.
Defined.

Lemma completed_extraction_is_final_witness :
  Status transcribedJob = StatusCompleted.
Proof.
  apply (@lifecycle_props.completed_extraction_is_final asciiCase decimalStrconv
           adapters_props.svcDemo extracted transcribed "ab12"
           extractedJob transcribedJob extracted_reachable).
  - transitivity transcribing; apply schedule_props.play_steps.
  - exact extracted_job.
  - reflexivity.
  - exact transcribed_job.
Defined.

Lemma snapshot_keeps_download_url_witness :
  EvStage (currentProgressEvent transcribedJob) = "transcription"
  /\ EvDownloadURL (currentProgressEvent transcribedJob) = "/download/ab12".
Proof.
  pose proof (@lifecycle_props.snapshot_keeps_download_url asciiCase
                decimalStrconv adapters_props.svcDemo transcribed "ab12"
                transcribedJob transcribed_reachable transcribed_job)
    as Hsnap.
  destruct Hsnap as (Hs & _ & _ & Hu).
  - unfold engine_props.transcriptStarted. cbn. tauto.
  - split; [exact Hs | exact Hu].
Defined.

Lemma completed_job_is_served_witness :
  download (reg extracted) "ab12" false
  = serveFile "outputs/ab12.flac" (attachment "ab12.flac").
Proof.
  exact (proj1 (proj2 (proj2
    (@output_props.completed_job_is_served asciiCase decimalStrconv
       adapters_props.svcDemo extracted "ab12" extractedJob
       extracted_reachable extracted_job eq_refl)))).
Defined.

Lemma transcription_finds_audio_witness :
  OutputPath (default extractedJob (getJob (reg transcribing) "ab12")) <> "".
Proof.
  refine (proj1 (@output_props.transcription_finds_audio asciiCase decimalStrconv
                   adapters_props.svcDemo transcribing 3 "ab12" transcriptionOK
                   _ transcribing_reachable _ _)).
  - vm_compute. reflexivity.
  - vm_compute. reflexivity.
Defined.

Lemma completed_transcript_is_served_witness :
  downloadTranscript (H := asciiCase) (reg transcribed) "ab12" " SRT " false
  = serveFile "outputs/ab12_transcript.srt" (attachment "ab12_transcript.srt")
  /\ downloadTranscript (H := asciiCase) (reg transcribed) "ab12" "" false
     = serveFile "outputs/ab12_transcript.txt" (attachment "ab12_transcript.txt").
Proof.
  pose proof (@transcript_props.completed_transcript_is_served asciiCase
                decimalStrconv adapters_props.svcDemo transcribed "ab12"
                transcribedJob transcribed_reachable transcribed_job eq_refl)
    as (_ & _ & _ & _ & Hserve & _).
  split; [exact (Hserve " SRT ") | exact (Hserve "")].
Defined.

End demo_props.

(** ** What the adapters report *)
Module calls_props.
Import extractor.

(** The call of the ticker at its [k]-th firing. *)
Definition tick (k : nat) : Call :=
  {| percent := Z.min (5 + 7 * Z.of_nat k) 96; status := "processing";
     message := "transcrevendo áudio" |}.

(** A percent of the coarse kind: the start or the end. *)
Definition coarse (c : Call) : Prop := percent c = 0 \/ percent c = 100.

Definition completedCall (msg : string) : Call :=
  {| percent := 100; status := "completed"; message := msg |}.

Lemma ticker_from (n k : nat) :
  ticker n (Z.min (5 + 7 * Z.of_nat k) 96) = tick <$> seq (S k) n.
Proof.
  revert k. induction n as [|n IH]; intros k; [reflexivity|].
  cbn [ticker seq fmap list_fmap].
  set (p := Z.min (5 + 7 * Z.of_nat k) 96).
  assert (Hnext : (if p <? 90 then p + 7 else p)
                  = Z.min (5 + 7 * Z.of_nat (S k)) 96).
  { unfold p. destruct (Z.ltb_spec (Z.min (5 + 7 * Z.of_nat k) 96) 90); lia. }
  rewrite Hnext, IH. reflexivity.
Qed.

(** X7. The whisper adapter has no progress of its own to report: the
    ticker counts 12, 19, ... in steps of 7 and stays at 96, so the [k]-th
    firing reports [min (5 + 7k) 96], whatever whisper does. *)
Theorem ticker_schedule (n : nat) :
  ticker n 5 = tick <$> seq 1 n.
Proof. exact (ticker_from n 0). Qed.

Section Calls.
Context `{CaseTable} `{Strconv}.

Lemma scanLine_coarse (d : spec_float) (st : Z * list Call) (text : string) :
  float64.ltb float64.zero d = false ->
  Forall coarse (snd st) -> Forall coarse (snd (scanLine d st text)).
Proof.
  intros Hd Hst. unfold scanLine. rewrite Hd.
  destruct (String.eqb (strings.TrimSpace text) ""); [exact Hst|].
  assert (H1 : Forall coarse
                 (snd (if strings.HasPrefix (strings.TrimSpace text) "out_time_ms="
                       then st else st)))
    by (destruct (strings.HasPrefix _ _); exact Hst).
  destruct (strings.HasPrefix (strings.TrimSpace text) "out_time_ms=");
    (destruct (strings.HasPrefix (strings.TrimSpace text) "progress=end");
     [|exact Hst]);
    cbn [snd]; apply Forall_app; (split; [exact Hst|]);
    constructor; [right; reflexivity | constructor | right; reflexivity | constructor].
Qed.

Lemma scan_coarse (d : spec_float) (lines : list string) (st : Z * list Call) :
  float64.ltb float64.zero d = false ->
  Forall coarse (snd st) ->
  Forall coarse (snd (fold_left (scanLine d) lines st)).
Proof.
  intros Hd. revert st. induction lines as [|l lines IH]; intros st Hst;
    [exact Hst|].
  cbn [fold_left]. apply IH, scanLine_coarse; assumption.
Qed.

Lemma probeDuration_failed (run : FfmpegRun) :
  snd (probeDuration run) <> None -> fst (probeDuration run) = float64.zero.
Proof.
  unfold probeDuration. destruct (probeErr run); [reflexivity|].
  destruct (String.eqb _ ""); [reflexivity|].
  destruct (ParseFloat _); [|reflexivity].
  cbn [snd]. congruence.
Qed.

(** X8. When ffprobe gives no duration (it fails, answers nothing, or
    answers what does not parse), every percent [ExtractAudio] reports is
    0 or 100: the markers [out_time_ms] are passed over. *)
Theorem ExtractAudio_coarse_without_duration (run : FfmpegRun) (c : Call) :
  snd (probeDuration run) <> None ->
  c ∈ fst (ExtractAudio run) ->
  percent c = 0 \/ percent c = 100.
Proof.
  intros Hprobe Hin.
  assert (Hd : float64.ltb float64.zero (fst (probeDuration run)) = false)
    by (rewrite (probeDuration_failed run Hprobe); reflexivity).
  assert (Hall : Forall coarse (fst (ExtractAudio run))).
  { unfold ExtractAudio.
    destruct (stdoutPipeErr run); [constructor|].
    destruct (stderrPipeErr run); [constructor|].
    assert (H0' : Forall coarse
                    [{| percent := 0; status := "processing";
                        message := "iniciando extração" |}])
      by (constructor; [left; reflexivity | constructor]).
    destruct (startErr run); [exact H0'|].
    pose proof (scan_coarse (fst (probeDuration run)) (stdoutLines run)
                  (0, _) Hd H0') as Hscan.
    destruct (scanErr run); [exact Hscan|].
    destruct (waitErr run).
    - destruct (ctxAtWait run) as [[|]|]; try exact Hscan;
        destruct (negb _); exact Hscan.
    - cbn [fst]. apply Forall_app. split; [exact Hscan|].
      constructor; [right; reflexivity | constructor]. }
  rewrite Forall_forall in Hall. exact (Hall c Hin).
Qed.

Lemma scanLine_processing (d : spec_float) (st : Z * list Call) (text : string) :
  Forall (fun c => status c = "processing") (snd st) ->
  Forall (fun c => status c = "processing") (snd (scanLine d st text)).
Proof.
  intros Hst. unfold scanLine.
  destruct (String.eqb (strings.TrimSpace text) ""); [exact Hst|].
  set (st1 := if strings.HasPrefix _ "out_time_ms=" then _ else st).
  assert (H1 : Forall (fun c => status c = "processing") (snd st1)).
  { unfold st1. destruct (strings.HasPrefix _ _); [|exact Hst].
    destruct (float64.ltb _ _); [|exact Hst].
    destruct (ParseFloat _) as [outMs|]; [|exact Hst].
    cbn [snd]. apply Forall_app. split; [exact Hst|].
    constructor; [reflexivity | constructor]. }
  destruct (strings.HasPrefix _ "progress=end"); [|exact H1].
  cbn [snd]. apply Forall_app. split; [exact H1|].
  constructor; [reflexivity | constructor].
Qed.

Lemma scan_processing (d : spec_float) (lines : list string) (st : Z * list Call) :
  Forall (fun c => status c = "processing") (snd st) ->
  Forall (fun c => status c = "processing") (snd (fold_left (scanLine d) lines st)).
Proof.
  revert st. induction lines as [|l lines IH]; intros st Hst; [exact Hst|].
  cbn [fold_left]. apply IH, scanLine_processing, Hst.
Qed.

(** X9. [ExtractAudio] returns nil exactly when the two pipes, the start,
    the scan and the wait all succeed (a failed probe is not fatal); then
    its last call is (100, "completed"), and when it returns an error no
    call says "completed". *)
Theorem ExtractAudio_completes_iff (run : FfmpegRun) :
  (snd (ExtractAudio run) = None
   <-> stdoutPipeErr run = None /\ stderrPipeErr run = None
       /\ startErr run = None /\ scanErr run = None /\ waitErr run = None)
  /\ (snd (ExtractAudio run) = None ->
      last (fst (ExtractAudio run)) = Some (completedCall "extração concluída"))
  /\ (snd (ExtractAudio run) <> None ->
      forall c, c ∈ fst (ExtractAudio run) -> status c = "processing").
Proof.
  assert (Hscan : Forall (fun c => status c = "processing")
            (snd (fold_left (scanLine (fst (probeDuration run)))
                    (stdoutLines run)
                    (0, [{| percent := 0; status := "processing";
                            message := "iniciando extração" |}])))).
  { apply scan_processing. constructor; [reflexivity | constructor]. }
  unfold ExtractAudio.
  destruct (stdoutPipeErr run) as [e1|].
  { split; [split; [discriminate | intros (H1 & _); discriminate]|].
    split; [discriminate|]. intros _ c Hc. inversion Hc. }
  destruct (stderrPipeErr run) as [e2|].
  { split; [split; [discriminate | intros (_ & H1 & _); discriminate]|].
    split; [discriminate|]. intros _ c Hc. inversion Hc. }
  destruct (startErr run) as [e3|].
  { split; [split; [discriminate | intros (_ & _ & H1 & _); discriminate]|].
    split; [discriminate|]. intros _ c Hc. cbn [fst] in Hc.
    apply list_elem_of_singleton in Hc as ->. reflexivity. }
  destruct (scanErr run) as [e4|].
  { split; [split; [discriminate | intros (_ & _ & _ & H1 & _); discriminate]|].
    split; [discriminate|]. intros _ c Hc. cbn [fst] in Hc.
    rewrite Forall_forall in Hscan. exact (Hscan c Hc). }
  destruct (waitErr run) as [e5|].
  { assert (Hshape :
      exists e, (match ctxAtWait run with
                 | Some causeCanceled =>
                   (snd (fold_left (scanLine (fst (probeDuration run)))
                           (stdoutLines run)
                           (0, [{| percent := 0; status := "processing";
                                   message := "iniciando extração" |}])),
                    Some Canceled)
                 | _ =>
                   if negb (String.eqb (lastErrLine (stderrLines run)) "")
                   then (snd (fold_left (scanLine (fst (probeDuration run)))
                                (stdoutLines run)
                                (0, [{| percent := 0; status := "processing";
                                        message := "iniciando extração" |}])),
                         Some (errorString
                                 ("ffmpeg failed: "
                                  +:+ lastErrLine (stderrLines run))))
                   else (snd (fold_left (scanLine (fst (probeDuration run)))
                                (stdoutLines run)
                                (0, [{| percent := 0; status := "processing";
                                        message := "iniciando extração" |}])),
                         Some (wrapError "ffmpeg failed: " e5))
                 end)
                = (snd (fold_left (scanLine (fst (probeDuration run)))
                          (stdoutLines run)
                          (0, [{| percent := 0; status := "processing";
                                  message := "iniciando extração" |}])),
                   Some e)).
    { destruct (ctxAtWait run) as [[|]|]; try (eexists; reflexivity);
        destruct (negb _); eexists; reflexivity. }
    destruct Hshape as [e ->]. cbn [fst snd].
    split; [split; [discriminate | intros (_ & _ & _ & _ & H1); discriminate]|].
    split; [discriminate|]. intros _ c Hc.
    rewrite Forall_forall in Hscan. exact (Hscan c Hc). }
  cbn [fst snd]. split; [split; [auto | reflexivity]|].
  split; [intros _; apply last_snoc | congruence].
Qed.

End Calls.

(** A run in which ffprobe fails and ffmpeg succeeds. *)
Definition unprobed : FfmpegRun :=
  {| probeErr := Some (foreign "exit status 1"); probeOut := "";
     stdoutPipeErr := None; stderrPipeErr := None; startErr := None;
     stdoutLines := ["out_time_ms=5000000"; "progress=end"];
     scanErr := None; stderrLines := []; waitErr := None; ctxAtWait := None |}.

Lemma ExtractAudio_coarse_without_duration_witness :
  percent (completedCall "extração concluída") = 0
  \/ percent (completedCall "extração concluída") = 100.
Proof.
  apply (@ExtractAudio_coarse_without_duration decimalStrconv unprobed).
  - discriminate.
  - vm_compute. repeat constructor.
Defined.

End calls_props.

Module worker_props.
Import models handlers worker.

(** What the transforms of a worker make of the job, one after the other. *)
Definition applied (acts : list Action) (now : Z) (j : ExtractionJob)
  : ExtractionJob :=
  fold_left (fun j act => match act with
                          | Update _ fn => fn now j
                          | Broadcast _ => j
                          end) acts j.

Definition events (acts : list Action) : list ProgressEvent :=
  omap (fun act => match act with
                   | Broadcast evt => Some evt
                   | Update _ _ => None
                   end) acts.

Definition targets (id : string) (act : Action) : Prop :=
  match act with Update id' _ => id' = id | Broadcast _ => True end.

(** The fields an extraction worker does not write. *)
Definition extractionOnly (j j' : ExtractionJob) : Prop :=
  ID j' = ID j /\ InputFileName j' = InputFileName j
  /\ InputPath j' = InputPath j /\ Format j' = Format j
  /\ Quality j' = Quality j /\ TranscriptStatus j' = TranscriptStatus j
  /\ TranscriptProgress j' = TranscriptProgress j
  /\ TranscriptError j' = TranscriptError j
  /\ TranscriptTXTPath j' = TranscriptTXTPath j
  /\ TranscriptTXTName j' = TranscriptTXTName j
  /\ TranscriptSRTPath j' = TranscriptSRTPath j
  /\ TranscriptSRTName j' = TranscriptSRTName j
  /\ CreatedAt j' = CreatedAt j.

(** The fields a transcription worker does not write. *)
Definition transcriptionOnly (j j' : ExtractionJob) : Prop :=
  ID j' = ID j /\ InputFileName j' = InputFileName j
  /\ InputPath j' = InputPath j /\ OutputPath j' = OutputPath j
  /\ OutputName j' = OutputName j /\ Format j' = Format j
  /\ Quality j' = Quality j /\ Status j' = Status j
  /\ Progress j' = Progress j /\ Error j' = Error j
  /\ CreatedAt j' = CreatedAt j.

(** Why a transcription fails after its start, in the order of the
    source: the error of whisper, then the missing TXT, then the missing
    SRT; [None] when it succeeds. *)
Definition transcriptionFailure (res : option error) (run : TranscriptionRun)
  : option string :=
  match res with
  | Some err => Some (errors.Error err)
  | None =>
    if txtMissing run then Some "transcrição TXT não foi gerada"
    else if srtMissing run then Some "transcrição SRT não foi gerada"
    else None
  end.

Definition failedEvent (id stage msg err : string) : ProgressEvent :=
  {| EvID := id; EvStage := stage; EvStatus := StatusFailed; EvProgress := 0;
     EvMessage := msg; EvDownloadURL := ""; EvTranscriptTXTURL := "";
     EvTranscriptSRTURL := ""; EvError := err |}.

Lemma perform_targets (a : App) (id : string) (acts : list Action) (now : Z)
  (job : ExtractionJob) :
  Forall (targets id) acts -> jobs a !! id = Some job ->
  jobs (fst (perform a acts now)) = <[id := applied acts now job]> (jobs a)
  /\ snd (perform a acts now) = events acts.
Proof.
  intros Hall. revert a job.
  induction Hall as [|act acts Hact _ IH]; intros a job Hjob.
  - cbn. split; [|reflexivity]. symmetry. apply insert_id. exact Hjob.
  - destruct act as [id' fn|evt]; cbn [perform applied fold_left events omap].
    + cbn in Hact. subst id'.
      assert (Hj1 : jobs (updateJob a id fn now) !! id = Some (fn now job)).
      { unfold updateJob. rewrite Hjob. cbn. apply lookup_insert_eq. }
      destruct (IH _ _ Hj1) as [Hreg Hev]. split; [|exact Hev].
      rewrite Hreg. fold (applied acts now (fn now job)).
      unfold updateJob. rewrite Hjob. cbn. apply insert_insert_eq.
    + destruct (IH a job Hjob) as [Hreg Hev]. cbn [fst snd].
      split; [exact Hreg|]. rewrite Hev. reflexivity.
Qed.

Lemma applied_update (id : string) (fn : Z -> ExtractionJob -> ExtractionJob)
  (rest : list Action) (now : Z) (j : ExtractionJob) :
  applied (Update id fn :: rest) now j = applied rest now (fn now j).
Proof. reflexivity. Qed.

Lemma applied_broadcast (evt : ProgressEvent) (rest : list Action) (now : Z)
  (j : ExtractionJob) :
  applied (Broadcast evt :: rest) now j = applied rest now j.
Proof. reflexivity. Qed.

Lemma events_update (id : string) (fn : Z -> ExtractionJob -> ExtractionJob)
  (rest : list Action) :
  events (Update id fn :: rest) = events rest.
Proof. reflexivity. Qed.

Lemma events_broadcast (evt : ProgressEvent) (rest : list Action) :
  events (Broadcast evt :: rest) = evt :: events rest.
Proof. reflexivity. Qed.

Lemma applied_nil (now : Z) (j : ExtractionJob) : applied [] now j = j.
Proof. reflexivity. Qed.

Lemma applied_app (l1 l2 : list Action) (now : Z) (j : ExtractionJob) :
  applied (l1 ++ l2) now j = applied l2 now (applied l1 now j).
Proof. unfold applied. apply fold_left_app. Qed.

Lemma events_app (l1 l2 : list Action) : events (l1 ++ l2) = events l1 ++ events l2.
Proof. unfold events. apply omap_app. Qed.

Lemma extractionOnly_refl j : extractionOnly j j.
Proof. repeat split. Qed.

Lemma extractionOnly_trans j1 j2 j3 :
  extractionOnly j1 j2 -> extractionOnly j2 j3 -> extractionOnly j1 j3.
Proof. unfold extractionOnly. intuition congruence. Qed.

Lemma transcriptionOnly_refl j : transcriptionOnly j j.
Proof. repeat split. Qed.

Lemma transcriptionOnly_trans j1 j2 j3 :
  transcriptionOnly j1 j2 -> transcriptionOnly j2 j3 -> transcriptionOnly j1 j3.
Proof. unfold transcriptionOnly. intuition congruence. Qed.

Lemma extractionCallback_cons (id : string) (c : extractor.Call)
  (calls : list extractor.Call) :
  flat_map (extractionCallback id) (c :: calls)
  = Update id (setProgress (if extractor.percent c <? 1 then 1
                            else extractor.percent c))
    :: Broadcast (event id "extraction" StatusProcessing
                    (if extractor.percent c <? 1 then 1 else extractor.percent c)
                    (extractor.message c))
    :: flat_map (extractionCallback id) calls.
Proof. reflexivity. Qed.

Lemma transcriptionCallback_cons (id : string) (c : extractor.Call)
  (calls : list extractor.Call) :
  flat_map (transcriptionCallback id) (c :: calls)
  = Update id (setTranscriptProgress (if extractor.percent c <? 1 then 1
                                      else extractor.percent c))
    :: Broadcast (event id "transcription" StatusProcessing
                    (if extractor.percent c <? 1 then 1 else extractor.percent c)
                    (extractor.message c))
    :: flat_map (transcriptionCallback id) calls.
Proof. reflexivity. Qed.

Lemma extractionCallbacks_applied (id : string) (calls : list extractor.Call)
  (now : Z) (j : ExtractionJob) :
  extractionOnly j (applied (flat_map (extractionCallback id) calls) now j)
  /\ OutputName (applied (flat_map (extractionCallback id) calls) now j)
     = OutputName j
  /\ OutputPath (applied (flat_map (extractionCallback id) calls) now j)
     = OutputPath j.
Proof.
  revert j. induction calls as [|c calls IH]; intros j.
  - cbn. split; [apply extractionOnly_refl | auto].
  - rewrite extractionCallback_cons, applied_update, applied_broadcast.
    destruct (IH (setProgress (if extractor.percent c <? 1 then 1
                               else extractor.percent c) now j))
      as (Ho & Hn & Hp).
    split; [|split; [rewrite Hn | rewrite Hp]; reflexivity].
    eapply extractionOnly_trans; [|exact Ho]. repeat split.
Qed.

Lemma transcriptionCallbacks_applied (id : string) (calls : list extractor.Call)
  (now : Z) (j : ExtractionJob) :
  transcriptionOnly j (applied (flat_map (transcriptionCallback id) calls) now j)
  /\ transcript_props.tfields
       (applied (flat_map (transcriptionCallback id) calls) now j)
     = transcript_props.tfields j.
Proof.
  revert j. induction calls as [|c calls IH]; intros j.
  - cbn. split; [apply transcriptionOnly_refl | auto].
  - rewrite transcriptionCallback_cons, applied_update, applied_broadcast.
    destruct (IH (setTranscriptProgress (if extractor.percent c <? 1 then 1
                                         else extractor.percent c) now j))
      as (Ho & Hf).
    split; [|rewrite Hf; reflexivity].
    eapply transcriptionOnly_trans; [|exact Ho]. repeat split.
Qed.

Lemma callbacks_target_e (id : string) (calls : list extractor.Call) :
  Forall (targets id) (flat_map (extractionCallback id) calls).
Proof.
  induction calls as [|c calls IH]; [constructor|].
  rewrite extractionCallback_cons.
  constructor; [reflexivity|]. constructor; [exact I | exact IH].
Qed.

Lemma callbacks_target_t (id : string) (calls : list extractor.Call) :
  Forall (targets id) (flat_map (transcriptionCallback id) calls).
Proof.
  induction calls as [|c calls IH]; [constructor|].
  rewrite transcriptionCallback_cons.
  constructor; [reflexivity|]. constructor; [exact I | exact IH].
Qed.

Section Workers.
Context `{CaseTable} `{Strconv}.
Variable svc : extractor.Service.

Lemma runExtraction_targets a id run job :
  Forall (targets id) (runExtraction a id run job).
Proof.
  unfold runExtraction.
  destruct (mkdirOutputsErr run); [repeat constructor|].
  constructor; [reflexivity|]. apply Forall_app. split.
  - apply callbacks_target_e.
  - destruct (snd _); repeat constructor.
Qed.

Lemma runTranscription_targets a id run job :
  Forall (targets id) (runTranscription a svc id run job).
Proof.
  unfold runTranscription.
  destruct (String.eqb _ ""); [repeat constructor|].
  constructor; [reflexivity|]. apply Forall_app. split.
  - apply callbacks_target_t.
  - destruct (snd _); [repeat constructor|].
    destruct (txtMissing run); [repeat constructor|].
    destruct (srtMissing run); repeat constructor.
Qed.

(** X10. An extraction worker that runs undisturbed on a stored job leaves
    every other job as it was and writes nothing but the extraction fields
    of its own; at the end the job is completed, at 100 with no error,
    exactly when the directory could be made and [ExtractAudio] returned
    nil, and otherwise it is failed with the text of the error; the last
    event broadcast says the same. *)
Theorem runExtraction_outcome (a : App) (id : string) (run : ExtractionRun)
  (job : ExtractionJob) (now : Z) :
  jobs a !! id = Some job ->
  exists j',
    jobs (fst (perform a (runExtraction a id run job) now))
    = <[id := j']> (jobs a)
    /\ extractionOnly job j' /\ UpdatedAt j' = now
    /\ match mkdirOutputsErr run, snd (extractor.ExtractAudio (ffmpeg run)) with
       | None, None =>
         Status j' = StatusCompleted /\ Progress j' = 100 /\ Error j' = ""
         /\ OutputName j' = extractor.OutputName (ID job) (Format job)
         /\ OutputPath j' = filepath.Join (outputsDir a) (OutputName j')
         /\ last (snd (perform a (runExtraction a id run job) now))
            = Some (progress_props.extractionDone id)
       | Some err, _ =>
         Status j' = StatusFailed
         /\ Error j' = "failed to create outputs dir: " +:+ errors.Error err
         /\ OutputPath j' = OutputPath job
         /\ snd (perform a (runExtraction a id run job) now)
            = [failedEvent id "extraction" "falha na extração" (Error j')]
       | None, Some err =>
         Status j' = StatusFailed /\ Error j' = errors.Error err
         /\ last (snd (perform a (runExtraction a id run job) now))
            = Some (failedEvent id "extraction" "falha na extração" (Error j'))
       end.
Proof.
  intros Hjob.
  destruct (perform_targets a id _ now job (runExtraction_targets a id run job) Hjob)
    as [Hreg Hev].
  exists (applied (runExtraction a id run job) now job).
  split; [exact Hreg|]. rewrite Hev. clear Hreg Hev.
  unfold runExtraction.
  destruct (mkdirOutputsErr run) as [err|].
  - cbn. repeat split.
  - set (calls := fst (extractor.ExtractAudio (ffmpeg run))).
    rewrite applied_update, events_update, applied_app, events_app.
    set (j0 := setProcessing (extractor.OutputName (ID job) (Format job))
                 (filepath.Join (outputsDir a)
                    (extractor.OutputName (ID job) (Format job))) now job).
    destruct (extractionCallbacks_applied id calls now j0) as (Ho & Hn & Hp).
    set (j1 := applied (flat_map (extractionCallback id) calls) now j0) in *.
    assert (Ho1 : extractionOnly job j1).
    { eapply extractionOnly_trans; [|exact Ho]. repeat split. }
    destruct (snd (extractor.ExtractAudio (ffmpeg run))) as [err|].
    + unfold failJob. rewrite applied_update, applied_broadcast.
      rewrite events_update, events_broadcast.
      split; [|split; [reflexivity|]].
      * eapply extractionOnly_trans; [exact Ho1|]. repeat split.
      * split; [reflexivity|]. split; [reflexivity|].
        apply last_snoc.
    + rewrite applied_update, applied_broadcast, applied_nil.
      rewrite events_update, events_broadcast.
      split; [|split; [reflexivity|]].
      * eapply extractionOnly_trans; [exact Ho1|]. repeat split.
      * split; [reflexivity|]. split; [reflexivity|]. split; [reflexivity|].
        change (OutputName (setCompleted now j1)) with (OutputName j1).
        change (OutputPath (setCompleted now j1)) with (OutputPath j1).
        rewrite Hn, Hp.
        split; [reflexivity|]. split; [reflexivity|].
        apply last_snoc.
Qed.

(** X11. A transcription worker that runs undisturbed on a stored job
    leaves every other job as it was and writes nothing but the
    transcription fields of its own.  Without an output path it fails at
    once; otherwise it sets the two transcript paths and their names, and at
    the end the transcription is completed, at 100 with no error, exactly
    when whisper returned nil and both files exist, and otherwise it is
    failed, at 0, with the text of the first thing that went wrong; the
    paths stay set either way, and the last event says the same. *)
Theorem runTranscription_outcome (a : App) (id : string)
  (run : TranscriptionRun) (job : ExtractionJob) (now : Z) :
  jobs a !! id = Some job ->
  exists j',
    jobs (fst (perform a (runTranscription a svc id run job) now))
    = <[id := j']> (jobs a)
    /\ transcriptionOnly job j' /\ UpdatedAt j' = now
    /\ if String.eqb (OutputPath job) "" then
         TranscriptStatus j' = StatusFailed /\ TranscriptProgress j' = 0
         /\ TranscriptError j'
            = "arquivo de áudio não encontrado para transcrição"
         /\ transcript_props.tfields j' = transcript_props.tfields job
         /\ snd (perform a (runTranscription a svc id run job) now)
            = [failedEvent id "transcription" "falha na transcrição"
                 (TranscriptError j')]
       else
         transcript_props.tfields j' = transcript_props.twant a job
         /\ match transcriptionFailure
                  (snd (extractor.TranscribeAudio svc (whisper run))) run with
            | None =>
              TranscriptStatus j' = StatusCompleted
              /\ TranscriptProgress j' = 100 /\ TranscriptError j' = ""
              /\ last (snd (perform a (runTranscription a svc id run job) now))
                 = Some (progress_props.transcriptionDone id)
            | Some msg =>
              TranscriptStatus j' = StatusFailed
              /\ TranscriptProgress j' = 0 /\ TranscriptError j' = msg
              /\ last (snd (perform a (runTranscription a svc id run job) now))
                 = Some (failedEvent id "transcription" "falha na transcrição"
                           msg)
            end.
Proof.
  intros Hjob.
  destruct (perform_targets a id _ now job
              (runTranscription_targets a id run job) Hjob) as [Hreg Hev].
  exists (applied (runTranscription a svc id run job) now job).
  split; [exact Hreg|]. rewrite Hev. clear Hreg Hev.
  unfold runTranscription.
  destruct (String.eqb (OutputPath job) "").
  { cbn. repeat split. }
  set (calls := fst (extractor.TranscribeAudio svc (whisper run))).
  rewrite applied_update, events_update, applied_app, events_app.
  set (base := filepath.Join (outputsDir a) (ID job +:+ "_transcript")).
  set (j0 := setTranscribing (base +:+ ".txt") (base +:+ ".srt") now job).
  destruct (transcriptionCallbacks_applied id calls now j0) as (Ho & Hf).
  set (j1 := applied (flat_map (transcriptionCallback id) calls) now j0) in *.
  assert (Ho1 : transcriptionOnly job j1).
  { eapply transcriptionOnly_trans; [|exact Ho]. repeat split. }
  assert (Hfail : forall err,
    let jf := applied (failTranscription id err) now j1 in
    transcriptionOnly job jf /\ UpdatedAt jf = now
    /\ transcript_props.tfields jf = transcript_props.twant a job
    /\ TranscriptStatus jf = StatusFailed /\ TranscriptProgress jf = 0
    /\ TranscriptError jf = errors.Error err
    /\ last (events (flat_map (transcriptionCallback id) calls)
             ++ events (failTranscription id err))
       = Some (failedEvent id "transcription" "falha na transcrição"
                 (errors.Error err))).
  { intros err jf. unfold jf, failTranscription.
    rewrite applied_update, applied_broadcast, applied_nil.
    rewrite events_update, events_broadcast.
    split; [eapply transcriptionOnly_trans; [exact Ho1|]; repeat split|].
    split; [reflexivity|]. split.
    { change (transcript_props.tfields (setTranscriptFailed (errors.Error err) now j1))
        with (transcript_props.tfields j1). rewrite Hf. reflexivity. }
    split; [reflexivity|]. split; [reflexivity|]. split; [reflexivity|].
    apply last_snoc. }
  unfold transcriptionFailure.
  destruct (snd (extractor.TranscribeAudio svc (whisper run))) as [err|].
  { destruct (Hfail err) as (F1 & F2 & F3 & F4 & F5 & F6 & F7). auto 10. }
  destruct (txtMissing run).
  { destruct (Hfail (errorString "transcrição TXT não foi gerada"))
      as (F1 & F2 & F3 & F4 & F5 & F6 & F7). auto 10. }
  destruct (srtMissing run).
  { destruct (Hfail (errorString "transcrição SRT não foi gerada"))
      as (F1 & F2 & F3 & F4 & F5 & F6 & F7). auto 10. }
  rewrite applied_update, applied_broadcast, applied_nil.
  rewrite events_update, events_broadcast.
  split; [eapply transcriptionOnly_trans; [exact Ho1|]; repeat split|].
  split; [reflexivity|]. split.
  { change (transcript_props.tfields (setTranscriptCompleted now j1))
      with (transcript_props.tfields j1). rewrite Hf. reflexivity. }
  split; [reflexivity|]. split; [reflexivity|]. split; [reflexivity|].
  apply last_snoc.
Qed.

End Workers.

Lemma runExtraction_outcome_witness :
  exists j',
    jobs (fst (perform handlers_props.demoApp
                 (@runExtraction asciiCase decimalStrconv handlers_props.demoApp
                    "ab12" demo_run.extractionOK handlers_props.demoJob) 20))
    = <["ab12" := j']> (jobs handlers_props.demoApp)
    /\ Status j' = StatusCompleted /\ OutputPath j' = "outputs/ab12.flac".
Proof.
  destruct (@runExtraction_outcome asciiCase decimalStrconv
              handlers_props.demoApp "ab12" demo_run.extractionOK
              handlers_props.demoJob 20 handlers_props.demoApp_job)
    as (j' & Hreg & _ & _ & Hcase).
  exists j'. split; [exact Hreg|].
  change (mkdirOutputsErr demo_run.extractionOK) with (@None error) in Hcase.
  replace (snd (@extractor.ExtractAudio decimalStrconv
                  (ffmpeg demo_run.extractionOK)))
    with (@None error) in Hcase by (vm_compute; reflexivity).
  destruct Hcase as (Hs & _ & _ & Hn & Hp & _).
  split; [exact Hs|]. rewrite Hp, Hn. reflexivity.
Defined.

Lemma runTranscription_outcome_witness :
  exists j',
    jobs (fst (perform (engine.reg demo_run.extracted)
                 (runTranscription (engine.reg demo_run.extracted)
                    adapters_props.svcDemo "ab12"
                    {| whisper := whisper demo_run.transcriptionOK;
                       txtMissing := false; srtMissing := true |}
                    demo_props.extractedJob) 40))
    = <["ab12" := j']> (jobs (engine.reg demo_run.extracted))
    /\ TranscriptStatus j' = StatusFailed
    /\ TranscriptError j' = "transcrição SRT não foi gerada"
    /\ TranscriptTXTPath j' = "outputs/ab12_transcript.txt".
Proof.
  destruct (runTranscription_outcome adapters_props.svcDemo
              (engine.reg demo_run.extracted) "ab12"
              {| whisper := whisper demo_run.transcriptionOK;
                 txtMissing := false; srtMissing := true |}
              demo_props.extractedJob 40 demo_props.extracted_job)
    as (j' & Hreg & _ & _ & Hcase).
  exists j'. split; [exact Hreg|].
  change (String.eqb (OutputPath demo_props.extractedJob) "") with false in Hcase.
  replace (transcriptionFailure _ _)
    with (Some "transcrição SRT não foi gerada") in Hcase
    by (vm_compute; reflexivity).
  destruct Hcase as (Hpaths & Hs & _ & He & _).
  split; [exact Hs|]. split; [exact He|].
  assert (Hw : fst (fst (fst (transcript_props.twant
                                (engine.reg demo_run.extracted)
                                demo_props.extractedJob)))
               = "outputs/ab12_transcript.txt") by (vm_compute; reflexivity).
  rewrite <- Hw. exact (f_equal (fun t => fst (fst (fst t))) Hpaths).
Defined.

End worker_props.

(** ** Names that the sanitizer leaves alone *)
Module names_props.
Import models handlers utf8 utf8_props sanitize_props filename_props.

Lemma safeByte_ascii (c : ascii) : safeByte c = true -> byteVal c < RuneSelf.
Proof. unfold safeByte, RuneSelf. lia. Qed.

Lemma safeByte_nospace (c : ascii) :
  safeByte c = true -> unicode.IsSpace (byteVal c) = false.
Proof.
  unfold safeByte, unicode.IsSpace. intros Hc.
  pose proof (byteVal_range c) as Hr.
  replace ((0 <=? byteVal c) && (byteVal c <=? 255)) with true by lia. lia.
Qed.

Lemma safeByte_kept (c : ascii) : safeByte c = true -> keepRune (byteVal c) = byteVal c.
Proof. unfold safeByte, keepRune. intros ->. reflexivity. Qed.

Lemma safe_chunks (s : string) :
  allBytes safeByte s = true ->
  Forall (fun c => unicode.IsSpace (fst c) = false) (chunks s).
Proof.
  induction s as [|c s IH]; [constructor|].
  cbn [allBytes]. intros [Hc Hs]%andb_true_iff.
  rewrite chunks_ascii by (apply safeByte_ascii, Hc).
  constructor; [apply safeByte_nospace, Hc | exact (IH Hs)].
Qed.

Lemma dropSpaces_none (l : list (Z * string)) :
  Forall (fun c => unicode.IsSpace (fst c) = false) l -> strings.dropSpaces l = l.
Proof. destruct 1 as [|c l Hc _]; [reflexivity|]. apply dropSpaces_head, Hc. Qed.

Lemma TrimSpace_safe (s : string) :
  allBytes safeByte s = true -> strings.TrimSpace s = s.
Proof.
  intros Hs. unfold strings.TrimSpace.
  pose proof (safe_chunks s Hs) as Hns.
  rewrite (dropSpaces_none _ Hns).
  rewrite (dropSpaces_none (rev (chunks s))) by (apply Forall_rev, Hns).
  rewrite rev_involutive. apply bytes_chunks.
Qed.

Lemma Map_keepRune_id (s : string) :
  allBytes safeByte s = true -> strings.Map keepRune s = s.
Proof.
  induction s as [|c s IH]; [reflexivity|].
  cbn [allBytes]. intros [Hc Hs]%andb_true_iff.
  change (strings.Map keepRune) with (fun s => written keepRune (chunks s)) in *.
  cbv beta in *.
  rewrite chunks_ascii by (apply safeByte_ascii, Hc).
  rewrite written_cons. cbn [fst]. rewrite (safeByte_kept c Hc), (IH Hs).
  pose proof (byteVal_range c) as Hr. pose proof (safeByte_ascii c Hc) as Ha.
  unfold RuneSelf in Ha.
  replace (byteVal c <? 0) with false by lia.
  rewrite EncodeRune_ascii, byteOf_byteVal by lia. reflexivity.
Qed.

Lemma safe_no_slash (c : ascii) : safeByte c = true -> Ascii.eqb c filepath.Separator = false.
Proof.
  intros Hc. destruct (Ascii.eqb_spec c filepath.Separator) as [->|]; [|reflexivity].
  discriminate Hc.
Qed.

Lemma safe_no_space (c : ascii) : safeByte c = true -> Ascii.eqb c " "%char = false.
Proof.
  intros Hc. destruct (Ascii.eqb_spec c " "%char) as [->|]; [|reflexivity].
  discriminate Hc.
Qed.

Lemma ReplaceAll_safe (s : string) :
  allBytes safeByte s = true -> strings.ReplaceAll s " "%char "_"%char = s.
Proof.
  unfold strings.ReplaceAll. induction s as [|c s IH]; [reflexivity|].
  cbn [allBytes strings.mapBytes]. intros [Hc Hs]%andb_true_iff.
  rewrite (safe_no_space c Hc), (IH Hs). reflexivity.
Qed.

Lemma stripTrailing_safe (s : string) :
  allBytes safeByte s = true -> filepath.stripTrailing s = s.
Proof.
  induction s as [|c s IH]; [reflexivity|].
  cbn [allBytes filepath.stripTrailing]. intros [Hc Hs]%andb_true_iff.
  rewrite (IH Hs), (safe_no_slash c Hc). destruct s; reflexivity.
Qed.

Lemma no_slash_safe (s : string) :
  allBytes safeByte s = true ->
  existsb (Ascii.eqb filepath.Separator) (list_ascii_of_string s) = false.
Proof.
  induction s as [|c s IH]; [reflexivity|].
  cbn [allBytes list_ascii_of_string existsb]. intros [Hc Hs]%andb_true_iff.
  rewrite (IH Hs), Ascii.eqb_sym, (safe_no_slash c Hc). reflexivity.
Qed.

Lemma lastElement_safe (s : string) :
  allBytes safeByte s = true -> filepath.lastElement s = s.
Proof.
  destruct s as [|c s]; [reflexivity|].
  cbn [allBytes filepath.lastElement]. intros [Hc Hs]%andb_true_iff.
  rewrite (no_slash_safe s Hs), (safe_no_slash c Hc). reflexivity.
Qed.

Lemma Base_safe (s : string) :
  s <> "" -> allBytes safeByte s = true -> filepath.Base s = s.
Proof.
  intros Hne Hs. unfold filepath.Base.
  rewrite (args_props.eqb_false_of_ne _ _ Hne).
  rewrite (stripTrailing_safe s Hs), (lastElement_safe s Hs).
  rewrite (args_props.eqb_false_of_ne _ _ Hne). reflexivity.
Qed.

Section Names.
Context `{CaseTable} `{Strconv}.

Lemma sanitizeFileName_fixed (s : string) :
  s <> "" -> allBytes safeByte s = true -> sanitizeFileName s = s.
Proof.
  intros Hne Hs. unfold sanitizeFileName.
  rewrite (TrimSpace_safe s Hs), (Base_safe s Hne Hs), (ReplaceAll_safe s Hs).
  rewrite (Map_keepRune_id s Hs), (args_props.eqb_false_of_ne _ _ Hne).
  reflexivity.
Qed.

(** X12. [sanitizeFileName] changes nothing in a name that is already safe
    (not empty, made of ASCII letters, digits, dots, underscores and
    hyphens), so cleaning a cleaned name gives the same name. *)
Theorem sanitizeFileName_idempotent (name : string) :
  sanitizeFileName (sanitizeFileName name) = sanitizeFileName name
  /\ (forall s, s <> "" -> allBytes safeByte s = true -> sanitizeFileName s = s).
Proof.
  split; [|exact sanitizeFileName_fixed].
  apply sanitizeFileName_fixed.
  - unfold sanitizeFileName. fold (cleaned name).
    destruct (String.eqb (cleaned name) ""); [discriminate|].
    apply cleaned_nonempty.
  - unfold sanitizeFileName. fold (cleaned name).
    destruct (String.eqb (cleaned name) ""); [reflexivity|].
    apply Map_keepRune_safe.
Qed.

End Names.
End names_props.

(** ** Uploads and sweeps, one call at a time *)
Module registry_props.
Import models handlers.

Section Registry.
Context `{CaseTable} `{Strconv}.

(** X13. An upload either registers exactly one job under the identifier
    drawn (over whatever was stored there) and redirects to its page, or
    changes nothing and answers 400 (a request that cannot be read, has no
    file, or is larger than the limit) or 500 (the disk); a file of more
    than [maxUploadBytes] bytes is never registered, one of exactly that
    size is accepted; no event is sent and no worker started. *)
Theorem upload_outcome (a : App) (req : UploadRequest) (id : string) (now : Z) :
  broadcasts (upload a req id now) = []
  /\ started (upload a req id now) = None
  /\ ((response (upload a req id now) = redirect ("/job/" +:+ id) StatusSeeOther
       /\ headerSize req <= maxUploadBytes a
       /\ exists job,
            jobs (app (upload a req id now)) = <[id := job]> (jobs a)
            /\ ID job = id /\ Status job = StatusUploaded /\ Progress job = 0
            /\ TranscriptStatus job = StatusNotStarted
            /\ InputFileName job = sanitizeFileName (headerFilename req)
            /\ InputPath job
               = filepath.Join (uploadsDir a) (id +:+ "_" +:+ InputFileName job)
            /\ OutputPath job = "" /\ CreatedAt job = now /\ UpdatedAt job = now)
      \/ (app (upload a req id now) = a
          /\ exists msg code,
               response (upload a req id now) = httpError msg code
               /\ (code = StatusBadRequest \/ code = StatusInternalServerError)))
  /\ (maxUploadBytes a < headerSize req -> app (upload a req id now) = a)
  /\ (parseFails req = false -> fileMissing req = false ->
      mkdirFails req = false -> createFails req = false ->
      readFails req = false -> headerSize req <= maxUploadBytes a ->
      response (upload a req id now) = redirect ("/job/" +:+ id) StatusSeeOther).
Proof.
  unfold upload.
  destruct (parseFails req) eqn:E1.
  { cbn. repeat split; try discriminate; eauto 10. }
  destruct (fileMissing req) eqn:E2.
  { cbn. repeat split; try discriminate; eauto 10. }
  destruct (Z.ltb_spec (maxUploadBytes a) (headerSize req)) as [Hbig|Hok].
  { cbn. repeat split; try discriminate; try lia; eauto 10. }
  destruct (mkdirFails req) eqn:E3.
  { cbn. repeat split; try discriminate; eauto 10. }
  destruct (createFails req) eqn:E4.
  { cbn. repeat split; try discriminate; eauto 10. }
  destruct (readFails req) eqn:E5.
  { cbn. repeat split; try discriminate; eauto 10. }
  cbn [broadcasts started response app jobs withJobs].
  split; [reflexivity|]. split; [reflexivity|]. split.
  - left. split; [reflexivity|]. split; [exact Hok|].
    eexists. split; [reflexivity|]. cbn. repeat split.
  - split; [lia | reflexivity].
Qed.

Lemma filter_old_kept (a : App) (cutoff : Z) :
  filter (isOld cutoff) (filter (fun e => ~ isOld cutoff e) (jobs a)) = ∅.
Proof.
  apply map_eq. intros id. rewrite lookup_empty.
  apply map_lookup_filter_None. right. intros j Hj Hold.
  apply map_lookup_filter_Some in Hj as [_ Hnot]. exact (Hnot Hold).
Qed.

(** X14. Sweeps compose: a second sweep at the same instant removes no job
    and no file, and a sweep at a later instant after an earlier one
    leaves the registry a single sweep at the later instant would
    leave. *)
Theorem cleanup_twice (a : App) (ttl now now' : Z) :
  cleanup (swept (cleanup a ttl now)) ttl now
  = {| swept := swept (cleanup a ttl now); oldJobs := []; removedFiles := [] |}
  /\ (now <= now' ->
      jobs (swept (cleanup (swept (cleanup a ttl now)) ttl now'))
      = jobs (swept (cleanup a ttl now'))).
Proof.
  split.
  - unfold cleanup. cbn [swept jobs withJobs].
    rewrite filter_old_kept, map_to_list_empty. cbn [fmap list_fmap flat_map].
    f_equal. unfold withJobs. cbn [uploadsDir outputsDir maxUploadBytes jobs].
    f_equal. apply map_eq. intros id. apply option_eq. intros j.
    rewrite !map_lookup_filter_Some. tauto.
  - intros Hle. unfold cleanup. cbn [swept jobs withJobs].
    apply map_eq. intros id. apply option_eq. intros j.
    rewrite !map_lookup_filter_Some. unfold isOld. cbn [snd]. 
    split; [tauto|]. intros [Hj Hn]. repeat split; try assumption; lia.
Qed.

End Registry.
End registry_props.

Module listing_props.
Import models handlers listing.

Definition newestFirst (l : list ExtractionJob) : Prop :=
  forall i k x y, l !! i = Some x -> l !! k = Some y -> (i < k)%nat ->
                  UpdatedAt y <= UpdatedAt x.

Lemma sortedBy_newest (l l' : list ExtractionJob) :
  sortedBy newer l l' -> newestFirst l'.
Proof.
  intros [_ Hs] i k x y Hi Hk Hik. specialize (Hs i k x y Hi Hk Hik).
  unfold newer in Hs. lia.
Qed.

Lemma newestFirst_cons (x : ExtractionJob) (l : list ExtractionJob) :
  newestFirst (x :: l)
  <-> (forall y, y ∈ l -> UpdatedAt y <= UpdatedAt x) /\ newestFirst l.
Proof.
  split.
  - intros Hs. split.
    + intros y [k Hk]%list_elem_of_lookup.
      apply (Hs 0%nat (S k) x y); [reflexivity | exact Hk | lia].
    + intros i k a b Hi Hk Hik. apply (Hs (S i) (S k) a b); [exact Hi | exact Hk | lia].
  - intros [Hx Hs] i k a b Hi Hk Hik.
    destruct i as [|i], k as [|k]; try lia; cbn in Hi, Hk.
    + injection Hi as <-. apply Hx. apply list_elem_of_lookup. eauto.
    + apply (Hs i k a b Hi Hk). lia.
Qed.

Lemma insertJob_perm (x : ExtractionJob) (l : list ExtractionJob) :
  insertJob x l ≡ₚ x :: l.
Proof.
  induction l as [|y l IH]; [reflexivity|].
  cbn [insertJob]. destruct (newer y x); [|reflexivity].
  rewrite IH. apply Permutation_swap.
Qed.

Lemma insertJob_newest (x : ExtractionJob) (l : list ExtractionJob) :
  newestFirst l -> newestFirst (insertJob x l).
Proof.
  induction l as [|y l IH]; intros Hs.
  - intros i k a b Hi Hk Hik. destruct i, k; cbn in *; try discriminate; lia.
  - cbn [insertJob]. destruct (newer y x) eqn:Hn.
    + apply newestFirst_cons in Hs as [Hy Hs].
      apply newestFirst_cons. split; [|exact (IH Hs)].
      intros z Hz. rewrite insertJob_perm in Hz.
      apply elem_of_cons in Hz as [->|Hz]; [|exact (Hy z Hz)].
      unfold newer in Hn. lia.
    + apply newestFirst_cons. split; [|exact Hs].
      intros z Hz. apply elem_of_cons in Hz as [->|Hz].
      * unfold newer in Hn. lia.
      * apply newestFirst_cons in Hs as [Hy _]. specialize (Hy z Hz).
        unfold newer in Hn. lia.
Qed.

Lemma sortJobs_sortedBy (l : list ExtractionJob) : sortedBy newer l (sortJobs l).
Proof.
  assert (Hp : sortJobs l ≡ₚ l).
  { induction l as [|x l IH]; [reflexivity|].
    cbn [sortJobs fold_right]. rewrite insertJob_perm. fold (sortJobs l).
    rewrite IH. reflexivity. }
  assert (Hs : newestFirst (sortJobs l)).
  { clear Hp. induction l as [|x l IH].
    - intros i k a b Hi. discriminate.
    - cbn [sortJobs fold_right]. apply insertJob_newest. exact IH. }
  split; [exact Hp|]. intros i k x y Hi Hk Hik.
  specialize (Hs i k x y Hi Hk Hik). unfold newer. lia.
Qed.

(** X15. Whatever order the map and the sort choose, [recentJobs(limit)]
    lists stored jobs, newest first, without leaving out a job that is
    newer than one it lists; with a positive limit it lists at most that
    many (the pages ask for 10), and with a limit of zero or less it lists
    all of them. *)
Theorem recentJobs_newest (a : App) (limit : Z) (r : list ExtractionJob) :
  recentJobs a limit r ->
  Z.of_nat (length r)
  = (if 0 <? limit then Z.min limit (Z.of_nat (size (jobs a)))
     else Z.of_nat (size (jobs a)))
  /\ (forall x, x ∈ r -> exists id, jobs a !! id = Some x)
  /\ newestFirst r
  /\ exists rest,
       r ++ rest ≡ₚ (map_to_list (jobs a)).*2
       /\ forall x y, x ∈ r -> y ∈ rest -> UpdatedAt y <= UpdatedAt x.
Proof.
  intros [sorted Hsorted].
  pose proof (sortedBy_newest _ _ Hsorted) as Hnew.
  destruct Hsorted as [Hperm _].
  assert (Hlen : length sorted = size (jobs a)).
  { rewrite Hperm, length_fmap. apply length_map_to_list. }
  assert (Hcut : exists n, cut limit sorted = take n sorted
                           /\ Z.of_nat (length (take n sorted))
                              = (if 0 <? limit
                                 then Z.min limit (Z.of_nat (length sorted))
                                 else Z.of_nat (length sorted))).
  { unfold cut. destruct (Z.ltb_spec 0 limit) as [Hpos|Hneg]; cbn [andb].
    - destruct (Z.ltb_spec limit (Z.of_nat (length sorted))) as [Hlt|Hge].
      + exists (Z.to_nat limit). split; [reflexivity|].
        rewrite length_take. lia.
      + exists (length sorted). rewrite firstn_all. split; [reflexivity | lia].
    - exists (length sorted). rewrite firstn_all. split; [reflexivity | lia]. }
  destruct Hcut as (n & -> & Hn). rewrite Hlen in Hn.
  split; [exact Hn|]. split; [|split].
  - intros x Hx. apply elem_of_take in Hx as (i & Hi & _).
    assert (Hin : x ∈ (map_to_list (jobs a)).*2).
    { rewrite <- Hperm. apply list_elem_of_lookup. eauto. }
    apply list_elem_of_fmap in Hin as ([id j] & -> & Hin).
    exists id. apply elem_of_map_to_list in Hin. exact Hin.
  - intros i k x y Hi Hk Hik.
    apply lookup_take_Some in Hi as [Hi _]. apply lookup_take_Some in Hk as [Hk _].
    exact (Hnew i k x y Hi Hk Hik).
  - exists (drop n sorted). split; [rewrite take_drop; exact Hperm|].
    intros x y Hx Hy. apply elem_of_take in Hx as (i & Hi & Hlt).
    apply list_elem_of_lookup in Hy as [k Hk]. rewrite lookup_drop in Hk.
    apply (Hnew i (n + k)%nat x y Hi Hk). lia.
Qed.

End listing_props.

Module hub_props.
Import hub.

Lemma subscribers_unsubscribe (subs : Subs) (id id' : string) (c c' : Conn) :
  c' ∈ subscribers (unsubscribe subs id c) id'
  <-> c' ∈ subscribers subs id' /\ ~ (id' = id /\ c' = c).
Proof.
  unfold unsubscribe, subscribers, Subs in *. destruct (subs !! id) as [s|] eqn:Hs.
  - destruct (decide (id' = id)) as [->|Hne].
    + rewrite lookup_insert_eq, Hs. cbn.
      rewrite elem_of_difference, elem_of_singleton. intuition congruence.
    + rewrite lookup_insert_ne by congruence. tauto.
  - destruct (decide (id' = id)) as [->|Hne]; [|tauto].
    rewrite Hs. cbn. rewrite elem_of_empty. tauto.
Qed.

Lemma entries_unsubscribe (subs : Subs) (id id' : string) (c : Conn) :
  is_Some (unsubscribe subs id c !! id') <-> is_Some (subs !! id').
Proof.
  unfold unsubscribe, Subs in *. destruct (subs !! id) as [s|] eqn:Hs; [|tauto].
  destruct (decide (id' = id)) as [->|Hne].
  - rewrite lookup_insert_eq, Hs. split; eauto.
  - rewrite lookup_insert_ne by congruence. tauto.
Qed.

Lemma subscribers_subscribe (subs : Subs) (id id' : string) (c c' : Conn) :
  c' ∈ subscribers (subscribe subs id c) id'
  <-> c' ∈ subscribers subs id' \/ (id' = id /\ c' = c).
Proof.
  unfold subscribe, subscribers, Subs in *. destruct (subs !! id) as [s|] eqn:Hs.
  - destruct (decide (id' = id)) as [->|Hne].
    + rewrite lookup_insert_eq, Hs. cbn.
      rewrite elem_of_union, elem_of_singleton. intuition congruence.
    + rewrite lookup_insert_ne by congruence. tauto.
  - destruct (decide (id' = id)) as [->|Hne].
    + rewrite lookup_insert_eq, Hs. cbn.
      rewrite elem_of_singleton, elem_of_empty. intuition congruence.
    + rewrite lookup_insert_ne by congruence. tauto.
Qed.

Lemma subscribers_deliver (id : string) (wf : Conn -> bool) (conns : list Conn) :
  forall (subs : Subs) (id' : string) (c : Conn),
    c ∈ subscribers (deliver subs id wf conns) id'
    <-> c ∈ subscribers subs id'
        /\ ~ (id' = id /\ c ∈ conns /\ wf c = true).
Proof.
  induction conns as [|x conns IH]; intros subs id' c.
  - cbn [deliver foldl]. rewrite elem_of_nil. tauto.
  - unfold deliver. cbn [foldl]. fold (deliver (if wf x then unsubscribe subs id x else subs) id wf conns).
    rewrite IH. destruct (wf x) eqn:Hx.
    + rewrite subscribers_unsubscribe, elem_of_cons. split.
      * intros [[Hc Hn] Hm]. split; [exact Hc|].
        intros (-> & [->|Hin] & Hw); [apply Hn; auto | apply Hm; auto].
      * intros [Hc Hn]. split; [split; [exact Hc|]|].
        -- intros [-> ->]. apply Hn. auto.
        -- intros (-> & Hin & Hw). apply Hn. auto.
    + rewrite elem_of_cons. split.
      * intros [Hc Hm]. split; [exact Hc|].
        intros (-> & [->|Hin] & Hw); [congruence | apply Hm; auto].
      * intros [Hc Hn]. split; [exact Hc|].
        intros (-> & Hin & Hw). apply Hn. auto.
Qed.

Lemma entries_deliver (id : string) (wf : Conn -> bool) (conns : list Conn) :
  forall (subs : Subs) (id' : string),
    is_Some (deliver subs id wf conns !! id') <-> is_Some (subs !! id').
Proof.
  induction conns as [|x conns IH]; intros subs id'; [reflexivity|].
  unfold deliver. cbn [foldl]. fold (deliver (if wf x then unsubscribe subs id x else subs) id wf conns).
  rewrite IH. destruct (wf x); [apply entries_unsubscribe | reflexivity].
Qed.

Lemma others_deliver (id : string) (wf : Conn -> bool) (conns : list Conn) :
  forall (subs : Subs) (id' : string),
    id' <> id -> deliver subs id wf conns !! id' = subs !! id'.
Proof.
  induction conns as [|x conns IH]; intros subs id' Hne; [reflexivity|].
  unfold deliver. cbn [foldl]. fold (deliver (if wf x then unsubscribe subs id x else subs) id wf conns).
  rewrite IH by exact Hne. destruct (wf x); [|reflexivity].
  unfold unsubscribe, Subs in *. destruct (subs !! id); [|reflexivity].
  apply lookup_insert_ne. congruence.
Qed.

(** X16. [broadcast] writes the event once to each connection that follows
    the job and to no other.  Afterwards the job is followed by exactly
    the connections whose write succeeded, so that the next broadcast for
    the job writes to those only; the followers of every other job are as
    before, and no entry of [a.subs] is added or removed. *)
Theorem broadcast_delivery (subs subs' : Subs) (id : string)
  (writeFails : Conn -> bool) (conns : list Conn) :
  broadcast subs id writeFails conns subs' ->
  NoDup conns
  /\ (forall c, c ∈ conns <-> c ∈ subscribers subs id)
  /\ (forall c, c ∈ subscribers subs' id
                <-> c ∈ subscribers subs id /\ writeFails c = false)
  /\ (forall id', id' <> id -> subs' !! id' = subs !! id')
  /\ (forall id', is_Some (subs' !! id') <-> is_Some (subs !! id'))
  /\ (forall writeFails' conns' subs'',
        broadcast subs' id writeFails' conns' subs'' ->
        forall c, c ∈ conns'
                  <-> c ∈ subscribers subs id /\ writeFails c = false).
Proof.
  intros [conns0 Hperm].
  assert (Hin : forall c, c ∈ conns0 <-> c ∈ subscribers subs id).
  { intros c. rewrite Hperm. apply elem_of_elements. }
  assert (Hafter : forall c, c ∈ subscribers (deliver subs id writeFails conns0) id
                             <-> c ∈ subscribers subs id /\ writeFails c = false).
  { intros c. rewrite subscribers_deliver, <- Hin.
    destruct (writeFails c); split.
    - intros [Hc Hn]. exfalso. apply Hn. auto.
    - intros [_ ?]. discriminate.
    - intros [Hc _]. auto.
    - intros [Hc _]. split; [exact Hc|]. intros (_ & _ & ?). discriminate. }
  split; [rewrite Hperm; apply NoDup_elements|].
  split; [exact Hin|]. split; [exact Hafter|].
  split; [intros id'; apply others_deliver|].
  split; [intros id'; apply entries_deliver|].
  intros wf' conns' subs'' [conns1 Hperm1] c.
  rewrite Hperm1, elem_of_elements. apply Hafter.
Qed.

(** X17. A connection that [jobWS] has registered for a job is written to by
    every broadcast for that job up to the first write to it that fails,
    whatever the other connections do; registering it changes nothing for
    the broadcasts of another job; and once [jobWS] has deleted it, a
    broadcast for the job does not write to it. *)
Theorem jobWS_follows_job (subs : Subs) (id : string) (c : Conn) :
  (forall wf conns subs',
      broadcast (subscribe subs id c) id wf conns subs' ->
      c ∈ conns
      /\ (wf c = false ->
          forall wf' conns' subs'',
            broadcast subs' id wf' conns' subs'' -> c ∈ conns'))
  /\ (forall id' wf conns subs',
        id' <> id ->
        broadcast (subscribe subs id c) id' wf conns subs' ->
        forall c', c' ∈ conns <-> c' ∈ subscribers subs id')
  /\ (forall wf conns subs',
        broadcast (unsubscribe (subscribe subs id c) id c) id wf conns subs' ->
        c ∉ conns).
Proof.
  split; [|split].
  - intros wf conns subs' [conns0 Hperm].
    assert (Hc : c ∈ conns0).
    { rewrite Hperm, elem_of_elements, subscribers_subscribe. auto. }
    split; [exact Hc|]. intros Hok wf' conns' subs'' [conns1 Hperm1].
    rewrite Hperm1, elem_of_elements, subscribers_deliver.
    split; [rewrite subscribers_subscribe; auto|].
    intros (_ & _ & Hf). congruence.
  - intros id' wf conns subs' Hne [conns0 Hperm] c'.
    rewrite Hperm, elem_of_elements, subscribers_subscribe. split; [|auto].
    intros [H|[? _]]; [exact H | contradiction].
  - intros wf conns subs' [conns0 Hperm].
    rewrite Hperm, elem_of_elements, subscribers_unsubscribe.
    intros [_ Hn]. apply Hn. auto.
Qed.

End hub_props.

Module strconv_props.
Import strconv.

Lemma decimalValue_acc (d : uint) :
  forall acc : positive,
    decimalValue (NilEmpty.string_of_uint d) (Z.pos acc)
    = Some (Z.pos (Pos.of_uint_acc d acc)).
Proof.
  induction d; intros acc; cbn [NilEmpty.string_of_uint decimalValue Pos.of_uint_acc];
    [reflexivity | ..];
    match goal with
    | |- context [utf8.byteVal ?c] =>
      let v := eval vm_compute in (utf8.byteVal c) in
      change (utf8.byteVal c) with v
    end;
    cbn [Z.leb Z.compare Pos.compare Pos.compare_cont andb Z.sub Z.opp Z.add Z.pos_sub Z.succ_double Z.pred_double Z.double Pos.pred_double];
    match goal with
    | |- decimalValue _ ?a = Some (Z.pos (Pos.of_uint_acc _ ?b)) =>
      replace a with (Z.pos b) by lia
    end; apply IHd.
Qed.

Lemma decimalValue_uint (d : uint) :
  decimalValue (NilEmpty.string_of_uint d) 0 = Some (Z.of_N (Pos.of_uint d)).
Proof.
  induction d; cbn [NilEmpty.string_of_uint decimalValue Pos.of_uint];
    [reflexivity | ..];
    match goal with
    | |- context [utf8.byteVal ?c] =>
      let v := eval vm_compute in (utf8.byteVal c) in
      change (utf8.byteVal c) with v
    end;
    cbn [Z.leb Z.compare Pos.compare Pos.compare_cont andb Z.sub Z.opp Z.add Z.mul Z.pos_sub Z.succ_double Z.pred_double Z.double Pos.pred_double];
    [exact IHd | apply decimalValue_acc ..].
Qed.

Lemma to_uint_digits (p : positive) :
  exists c s, NilZero.string_of_uint (Pos.to_uint p) = String c s
              /\ NilEmpty.string_of_uint (Pos.to_uint p) = String c s
              /\ Ascii.eqb c "+" = false /\ Ascii.eqb c "-" = false.
Proof.
  pose proof (Unsigned.to_uint_nonnil p) as Hne.
  destruct (Pos.to_uint p); [contradiction | ..];
    eexists; eexists; (split; [reflexivity|]); (split; [reflexivity|]);
    split; reflexivity.
Qed.

Lemma parseDigits_pos (p : positive) :
  parseDigits (NilZero.string_of_uint (Pos.to_uint p)) = Some (Z.pos p).
Proof.
  destruct (to_uint_digits p) as (c & s & Hz & He & _).
  unfold parseDigits. rewrite Hz. cbn [String.eqb]. rewrite <- He.
  rewrite decimalValue_uint, Unsigned.of_to. reflexivity.
Qed.

(** What [ParseInt] reads back from the decimal text of a number, before
    the test of the range. *)
Lemma signed_FormatInt (n : Z) :
  signed (FormatInt n) = Some (n <? 0, Z.abs n).
Proof.
  destruct n as [|p|p]; [reflexivity | ..]; unfold FormatInt; cbn [Z.to_int NilZero.string_of_int].
  - destruct (to_uint_digits p) as (c & s & Hz & _ & Hplus & Hminus).
    pose proof (parseDigits_pos p) as Hp. rewrite Hz in *.
    unfold signed. rewrite Hplus, Hminus, Hp. reflexivity.
  - unfold signed. change (Ascii.eqb "-" "+") with false.
    change (Ascii.eqb "-" "-") with true. cbn iota.
    rewrite parseDigits_pos. reflexivity.
Qed.

Lemma ParseInt_FormatInt (n : Z) :
  - 2 ^ 63 <= n < 2 ^ 63 -> ParseInt (FormatInt n) = Some n.
Proof.
  intros Hn. unfold ParseInt. rewrite signed_FormatInt. cbv zeta.
  destruct (Z.ltb_spec n 0) as [Hneg|Hpos]; cbn [negb andb].
  - destruct (Z.ltb_spec (2 ^ 63) (Z.abs n)); [lia|]. f_equal. lia.
  - destruct (Z.leb_spec (2 ^ 63) (Z.abs n)); [lia|]. f_equal. lia.
Qed.

Lemma FormatInt_inj (n m : Z) : FormatInt n = FormatInt m -> n = m.
Proof.
  intros H. pose proof (signed_FormatInt n) as Hn.
  rewrite H, signed_FormatInt in Hn. injection Hn as Hs Ha.
  destruct (Z.ltb_spec n 0), (Z.ltb_spec m 0); try discriminate; lia.
Qed.

Lemma decimalValue_bounds (s : string) :
  forall acc n, 0 <= acc -> decimalValue s acc = Some n -> 0 <= n.
Proof.
  induction s as [|c s IH]; intros acc n Hacc; cbn [decimalValue].
  - intros [= <-]. exact Hacc.
  - destruct ((48 <=? utf8.byteVal c) && (utf8.byteVal c <=? 57)) eqn:Hd; [|discriminate].
    apply IH. lia.
Qed.

Lemma ParseInt_range (s : string) (n : Z) :
  ParseInt s = Some n -> - 2 ^ 63 <= n < 2 ^ 63.
Proof.
  unfold ParseInt. destruct (signed s) as [[neg un]|] eqn:Hs; [|discriminate].
  assert (Hun : 0 <= un).
  { unfold signed in Hs. destruct s as [|c rest]; [discriminate|].
    assert (Hd : forall t, option_map (pair false) (parseDigits t) = Some (neg, un)
                           \/ option_map (pair true) (parseDigits t) = Some (neg, un)
                           -> 0 <= un).
    { intros t Ht. unfold parseDigits in Ht.
      destruct (String.eqb t ""); [destruct Ht; discriminate|].
      destruct (decimalValue t 0) as [v|] eqn:Hv; [|destruct Ht; discriminate].
      apply decimalValue_bounds in Hv; [|lia].
      destruct Ht as [Ht|Ht]; cbn in Ht; injection Ht as _ <-; exact Hv. }
    destruct (Ascii.eqb c "+"); [eapply Hd; left; exact Hs|].
    destruct (Ascii.eqb c "-"); [eapply Hd; right; exact Hs|].
    eapply Hd; left; exact Hs. }
  cbv zeta. destruct neg; cbn [negb andb].
  - destruct (Z.ltb_spec (2 ^ 63) un); [discriminate|]. intros [= <-]. lia.
  - destruct (Z.leb_spec (2 ^ 63) un); [discriminate|]. intros [= <-]. lia.
Qed.

End strconv_props.

Module cmd_props.
Import handlers strconv cmd.

Lemma envOrDefault_nonempty (env : Environ) (key fallback : string) :
  fallback <> "" -> envOrDefault env key fallback <> "".
Proof.
  intros Hf. unfold envOrDefault. cbv zeta.
  destruct (String.eqb_spec (Getenv env key) ""); cbn [negb]; assumption.
Qed.

Lemma limit_range (m : Z) :
  - 2 ^ 63 <= m < 2 ^ 63 ->
  0 < (if m <=? 0 then 524288000 else m) < 2 ^ 63.
Proof. intros Hm. destruct (Z.leb_spec m 0); lia. Qed.

(** X18. Whatever the environment holds, the application that [main] builds
    starts with no job, with directories that are not the empty string,
    and with an upload limit between 1 and the largest [int64]: the
    decimal text of a positive [int64] in [MAX_UPLOAD_BYTES] sets that
    limit, and a variable that is unset, empty, not an integer, out of
    range, zero or negative leaves the limit at 500 MiB. *)
Theorem configured_upload_limit (env : Environ) :
  let a := app env in
  0 < maxUploadBytes a < 2 ^ 63
  /\ jobs a = ∅
  /\ uploadsDir a <> "" /\ outputsDir a <> ""
  /\ (forall n, 0 < n < 2 ^ 63 ->
                env !! "MAX_UPLOAD_BYTES" = Some (FormatInt n) ->
                maxUploadBytes a = n)
  /\ (env !! "MAX_UPLOAD_BYTES" = None -> maxUploadBytes a = 524288000)
  /\ (forall v, env !! "MAX_UPLOAD_BYTES" = Some v ->
                (ParseInt v = None \/ exists n, ParseInt v = Some n /\ n <= 0) ->
                maxUploadBytes a = 524288000).
Proof.
  cbv zeta. unfold app, NewApp. cbn [maxUploadBytes jobs uploadsDir outputsDir].
  change (500 * 1024 * 1024) with 524288000.
  change defaultMaxUploadBytes with 524288000.
  split; [|split; [reflexivity|split; [|split; [|split; [|split]]]]].
  - unfold envInt64OrDefault. cbv zeta.
    destruct (String.eqb (Getenv env "MAX_UPLOAD_BYTES") "");
      [apply limit_range; lia|].
    destruct (ParseInt (Getenv env "MAX_UPLOAD_BYTES")) as [n|] eqn:Hp;
      [|apply limit_range; lia].
    apply limit_range. exact (strconv_props.ParseInt_range _ _ Hp).
  - apply envOrDefault_nonempty. discriminate.
  - apply envOrDefault_nonempty. discriminate.
  - intros n Hn Henv. unfold envInt64OrDefault, Getenv. cbv zeta. rewrite Henv.
    rewrite strconv_props.ParseInt_FormatInt by lia.
    destruct (String.eqb_spec (FormatInt n) "") as [He|_].
    + pose proof (strconv_props.signed_FormatInt n) as Hs.
      rewrite He in Hs. discriminate.
    + destruct (Z.leb_spec n 0); lia.
  - intros Henv. unfold envInt64OrDefault, Getenv. cbv zeta. rewrite Henv.
    reflexivity.
  - intros v Henv Hv. unfold envInt64OrDefault, Getenv. cbv zeta. rewrite Henv.
    destruct (String.eqb v ""); [reflexivity|].
    destruct Hv as [->|(n & -> & Hn)]; [reflexivity|].
    destruct (Z.leb_spec n 0); [reflexivity | lia].
Qed.

End cmd_props.

Module ident_props.
Import handlers filename_props strconv hex ident.

(** A digit of [hextable]. *)
Definition hexByte (c : ascii) : bool :=
  let x := utf8.byteVal c in
  ((48 <=? x) && (x <=? 57)) || ((97 <=? x) && (x <=? 102)).

(** A byte of an identifier: a lower-case letter, a digit or the hyphen. *)
Definition idByte (c : ascii) : bool :=
  let x := utf8.byteVal c in
  ((97 <=? x) && (x <=? 122)) || ((48 <=? x) && (x <=? 57)) || (x =? 45).

(** The value of a digit of [hextable]. *)
Definition digitOf (c : ascii) : Z :=
  let x := utf8.byteVal c in if x <=? 57 then x - 48 else x - 87.

Definition high (v : ascii) : ascii := index hextable (Z.shiftr (utf8.byteVal v) 4).
Definition low (v : ascii) : ascii := index hextable (Z.land (utf8.byteVal v) 15).

(** What [rand.Read] leaves: the eight bytes, or an error. *)
Definition filled (rnd : option string) : Prop :=
  forall b, rnd = Some b -> String.length b = 8%nat.

(** An identifier [newID] can draw. *)
Definition drawn (id : string) : Prop :=
  exists rnd nanos, filled rnd /\ id = newID rnd nanos.

Lemma hex_byte (v : ascii) :
  hexByte (high v) = true /\ hexByte (low v) = true
  /\ 16 * digitOf (high v) + digitOf (low v) = utf8.byteVal v.
Proof.
  destruct v as [[] [] [] [] [] [] [] []]; vm_compute; repeat split; reflexivity.
Qed.

Lemma hexByte_idByte (c : ascii) : hexByte c = true -> idByte c = true.
Proof.
  unfold hexByte, idByte. cbv zeta. generalize (utf8.byteVal c) as x. intros x Hx.
  destruct (Z.leb_spec 48 x), (Z.leb_spec x 57), (Z.leb_spec 97 x),
    (Z.leb_spec x 102), (Z.leb_spec x 122), (Z.eqb_spec x 45);
    cbn in *; try reflexivity; try discriminate; lia.
Qed.

Lemma idByte_safeByte (c : ascii) : idByte c = true -> safeByte c = true.
Proof.
  unfold idByte, safeByte. cbv zeta. generalize (utf8.byteVal c) as x. intros x Hx.
  destruct (Z.leb_spec 97 x), (Z.leb_spec x 122), (Z.leb_spec 48 x),
    (Z.leb_spec x 57), (Z.eqb_spec x 45), (Z.leb_spec 65 x), (Z.leb_spec x 90),
    (Z.eqb_spec x 46), (Z.eqb_spec x 95);
    cbn in *; try reflexivity; try discriminate; lia.
Qed.

Lemma allBytes_impl (p q : ascii -> bool) (s : string) :
  (forall c, p c = true -> q c = true) ->
  allBytes p s = true -> allBytes q s = true.
Proof.
  intros Hpq. induction s as [|c s IH]; [reflexivity|]. cbn [allBytes].
  intros [Hc Hs]%andb_true_iff. rewrite (Hpq c Hc), (IH Hs). reflexivity.
Qed.

Lemma byteVal_inj (v v' : ascii) : utf8.byteVal v = utf8.byteVal v' -> v = v'.
Proof.
  unfold utf8.byteVal. intros H%N2Z.inj.
  rewrite <- (ascii_N_embedding v), <- (ascii_N_embedding v'), H. reflexivity.
Qed.

Lemma EncodeToString_cons (v : ascii) (b : string) :
  EncodeToString (String v b) = String (high v) (String (low v) (EncodeToString b)).
Proof. reflexivity. Qed.

Lemma EncodeToString_inj (b : string) :
  forall b', EncodeToString b = EncodeToString b' -> b = b'.
Proof.
  induction b as [|v b IH]; intros [|v' b']; try discriminate; [reflexivity|].
  rewrite !EncodeToString_cons. intros [= Hh Hl Hr].
  f_equal; [|exact (IH _ Hr)].
  apply byteVal_inj.
  destruct (hex_byte v) as (_ & _ & <-), (hex_byte v') as (_ & _ & <-).
  rewrite Hh, Hl. reflexivity.
Qed.

Lemma EncodeToString_hex (b : string) : allBytes hexByte (EncodeToString b) = true.
Proof.
  induction b as [|v b IH]; [reflexivity|].
  rewrite EncodeToString_cons. cbn [allBytes].
  destruct (hex_byte v) as (-> & -> & _). exact IH.
Qed.

Lemma EncodeToString_length (b : string) :
  String.length (EncodeToString b) = (2 * String.length b)%nat.
Proof.
  induction b as [|v b IH]; [reflexivity|].
  rewrite EncodeToString_cons. cbn [String.length]. rewrite IH. lia.
Qed.

Lemma uint_id (d : uint) : allBytes idByte (NilEmpty.string_of_uint d) = true.
Proof.
  induction d; cbn [NilEmpty.string_of_uint allBytes]; [reflexivity | ..];
    rewrite IHd; reflexivity.
Qed.

Lemma FormatInt_id (n : Z) : allBytes idByte (FormatInt n) = true.
Proof.
  assert (Hu : forall d, allBytes idByte (NilZero.string_of_uint d) = true).
  { intros d. destruct d; try apply uint_id. reflexivity. }
  unfold FormatInt. destruct (Z.to_int n); cbn [NilZero.string_of_int allBytes];
    rewrite Hu; reflexivity.
Qed.

(** The alphabet of the identifiers. *)
Lemma newID_alphabet (rnd : option string) (nanos : Z) :
  filled rnd ->
  newID rnd nanos <> "" /\ allBytes idByte (newID rnd nanos) = true.
Proof.
  intros Hrnd. split.
  - destruct rnd as [b|]; [|discriminate]. cbn [newID].
    specialize (Hrnd b eq_refl). destruct b; [discriminate|].
    rewrite EncodeToString_cons. discriminate.
  - destruct rnd as [b|]; cbn [newID].
    + apply (allBytes_impl hexByte); [exact hexByte_idByte|].
      apply EncodeToString_hex.
    + change ("job-" +:+ FormatInt nanos)
        with (String "j" (String "o" (String "b" (String "-" (FormatInt nanos))))).
      cbn [allBytes]. rewrite FormatInt_id. reflexivity.
Qed.

Lemma drawn_alphabet (id : string) :
  drawn id -> id <> "" /\ allBytes idByte id = true.
Proof. intros (rnd & nanos & Hrnd & ->). exact (newID_alphabet rnd nanos Hrnd). Qed.

Section Ident.
Context `{CaseTable} `{Strconv}.

(** X19. An identifier that [newID] draws is never empty and holds only
    lower-case ASCII letters, digits and hyphens; when the random source
    answered it is sixteen digits of [0123456789abcdef].  So using it in a
    file name is safe: [sanitizeFileName] and [filepath.Base] leave it as
    it is, and the name of the output file is the identifier followed by a
    dot and the extension. *)
Theorem newID_safe (rnd : option string) (nanos : Z) :
  (forall b, rnd = Some b -> String.length b = 8%nat) ->
  let id := newID rnd nanos in
  id <> ""
  /\ allBytes idByte id = true
  /\ (rnd <> None ->
      String.length id = 16%nat /\ allBytes hexByte id = true)
  /\ sanitizeFileName id = id
  /\ filepath.Base id = id
  /\ forall format,
       extractor.OutputName id format
       = id +:+ "." +:+
         (let f := strings.TrimPrefix (strings.ToLower format) "." in
          if String.eqb f "" then "mp3" else f).
Proof.
  intros Hrnd. cbv zeta.
  destruct (newID_alphabet rnd nanos Hrnd) as [Hne Hid].
  assert (Hsafe : allBytes safeByte (newID rnd nanos) = true)
    by exact (allBytes_impl idByte safeByte _ idByte_safeByte Hid).
  pose proof (names_props.Base_safe _ Hne Hsafe) as Hbase.
  split; [exact Hne|]. split; [exact Hid|]. split; [|split; [|split]].
  - destruct rnd as [b|]; [|congruence]. intros _. cbn [newID]. split.
    + rewrite EncodeToString_length, (Hrnd b eq_refl). reflexivity.
    + apply EncodeToString_hex.
  - apply names_props.sanitizeFileName_fixed; assumption.
  - exact Hbase.
  - intros format. unfold extractor.OutputName. cbv zeta. rewrite Hbase.
    reflexivity.
Qed.

End Ident.

(** X20. Identifiers drawn from different random bytes differ, identifiers
    of the fallback drawn at different instants differ, and an identifier
    of the fallback is never one of the random ones. *)
Theorem newID_distinct :
  (forall b b' n n', newID (Some b) n = newID (Some b') n' -> b = b')
  /\ (forall n n', newID None n = newID None n' -> n = n')
  /\ (forall b n n', newID (Some b) n <> newID None n').
Proof.
  split; [|split].
  - intros b b' n n'. cbn [newID]. apply EncodeToString_inj.
  - intros n n'. cbn [newID].
    change ("job-" +:+ FormatInt n)
      with (String "j" (String "o" (String "b" (String "-" (FormatInt n))))).
    change ("job-" +:+ FormatInt n')
      with (String "j" (String "o" (String "b" (String "-" (FormatInt n'))))).
    intros [= Hf]. exact (strconv_props.FormatInt_inj _ _ Hf).
  - intros b n n'. cbn [newID].
    change ("job-" +:+ FormatInt n')
      with (String "j" (String "o" (String "b" (String "-" (FormatInt n'))))).
    destruct b as [|v b]; [discriminate|].
    rewrite EncodeToString_cons. intros [= Hj _].
    destruct (hex_byte v) as (Hh & _). rewrite Hj in Hh. discriminate.
Qed.

Lemma newID_safe_witness :
  filepath.Base (newID (Some "12345678") 0) = "3132333435363738".
Proof.
  apply (@newID_safe asciiCase (Some "12345678") 0).
  intros b [= <-]. reflexivity.
Defined.

End ident_props.

Module sweeper_props.
Import models handlers sweeper.

(** Some tick came more than [ttl] after the last update of the job. *)
Definition overdue (j : ExtractionJob) (ttl : Z) (ticks : list Z) : bool :=
  existsb (fun now => UpdatedAt j <? now + - ttl) ticks.

Lemma cleanup_lookup (a : App) (ttl now : Z) (id : string) :
  jobs (swept (cleanup a ttl now)) !! id
  = match jobs a !! id with
    | Some j => if UpdatedAt j <? now + - ttl then None else Some j
    | None => None
    end.
Proof.
  unfold cleanup. cbn [swept jobs withJobs].
  destruct (jobs a !! id) as [j|] eqn:Hj.
  - destruct (Z.ltb_spec (UpdatedAt j) (now + - ttl)) as [Hold|Hnew].
    + apply map_lookup_filter_None. right. intros j' Hj' Hn.
      rewrite Hj in Hj'. injection Hj' as <-. apply Hn. exact Hold.
    + apply map_lookup_filter_Some. split; [exact Hj|].
      unfold isOld. cbn [snd]. lia.
  - apply map_lookup_filter_None. left. exact Hj.
Qed.

Lemma cleanup_old (a : App) (ttl now : Z) (j : ExtractionJob) :
  j ∈ oldJobs (cleanup a ttl now) -> UpdatedAt j < now + - ttl.
Proof.
  unfold cleanup. cbn [oldJobs]. intros Hin.
  apply list_elem_of_fmap in Hin as ([id j'] & -> & Hin).
  apply elem_of_map_to_list in Hin.
  apply map_lookup_filter_Some in Hin as [_ Hold]. exact Hold.
Qed.

Lemma cleanup_removes (a : App) (ttl now : Z) (id : string) (j : ExtractionJob) :
  jobs a !! id = Some j -> UpdatedAt j < now + - ttl ->
  forall p, p ∈ jobFiles j -> p ∈ removedFiles (cleanup a ttl now).
Proof.
  intros Hj Hold p Hp. unfold cleanup. cbn [removedFiles].
  apply list_elem_of_In, in_flat_map. exists j. split; [|apply list_elem_of_In, Hp].
  apply list_elem_of_In, list_elem_of_fmap. exists (id, j). split; [reflexivity|].
  apply elem_of_map_to_list, map_lookup_filter_Some. split; [exact Hj | exact Hold].
Qed.

Lemma loop_cons (a : App) (ttl now : Z) (rest : list Z) :
  loop a ttl (now :: rest)
  = ((loop (swept (cleanup a ttl now)) ttl rest).1,
     cleanup a ttl now :: (loop (swept (cleanup a ttl now)) ttl rest).2).
Proof. reflexivity. Qed.

Lemma loop_absent (ttl : Z) (id : string) (ticks : list Z) :
  forall a, jobs a !! id = None -> jobs (loop a ttl ticks).1 !! id = None.
Proof.
  induction ticks as [|now rest IH]; intros a Ha; [exact Ha|].
  rewrite loop_cons. cbn [fst]. apply IH. rewrite cleanup_lookup, Ha. reflexivity.
Qed.

Lemma loop_lookup (ttl : Z) (id : string) (j : ExtractionJob) (ticks : list Z) :
  forall a, jobs a !! id = Some j ->
    jobs (loop a ttl ticks).1 !! id
    = (if overdue j ttl ticks then None else Some j).
Proof.
  induction ticks as [|now rest IH]; intros a Ha; [exact Ha|].
  rewrite loop_cons. cbn [fst]. unfold overdue. cbn [existsb]. fold (overdue j ttl rest).
  pose proof (cleanup_lookup a ttl now id) as Hc. rewrite Ha in Hc.
  destruct (UpdatedAt j <? now + - ttl); cbn [orb].
  - apply loop_absent, Hc.
  - apply IH, Hc.
Qed.

Lemma loop_removes (ttl : Z) (id : string) (j : ExtractionJob) (ticks : list Z) :
  forall a, jobs a !! id = Some j -> overdue j ttl ticks = true ->
    forall p, p ∈ jobFiles j ->
      exists s, s ∈ (loop a ttl ticks).2 /\ p ∈ removedFiles s.
Proof.
  induction ticks as [|now rest IH]; intros a Ha Hover p Hp; [discriminate|].
  rewrite loop_cons. cbn [snd]. unfold overdue in Hover. cbn [existsb] in Hover.
  fold (overdue j ttl rest) in Hover.
  pose proof (cleanup_lookup a ttl now id) as Hc. rewrite Ha in Hc.
  destruct (Z.ltb_spec (UpdatedAt j) (now + - ttl)) as [Hold|Hnew].
  - exists (cleanup a ttl now). split; [apply elem_of_cons; auto|].
    exact (cleanup_removes a ttl now id j Ha Hold p Hp).
  - cbn [orb] in Hover. destruct (IH _ Hc Hover p Hp) as (s & Hs & Hps).
    exists s. split; [apply elem_of_cons; auto | exact Hps].
Qed.

Lemma loop_keeps (ttl : Z) (j : ExtractionJob) (ticks : list Z) :
  forall a, overdue j ttl ticks = false ->
    forall s, s ∈ (loop a ttl ticks).2 -> j ∉ oldJobs s.
Proof.
  induction ticks as [|now rest IH]; intros a Hover s Hs.
  - cbn in Hs. apply elem_of_nil in Hs. contradiction.
  - rewrite loop_cons in Hs. cbn [snd] in Hs.
    unfold overdue in Hover. cbn [existsb] in Hover. fold (overdue j ttl rest) in Hover.
    apply orb_false_iff in Hover as [Hnow Hrest].
    apply elem_of_cons in Hs as [->|Hs].
    + intros Hin%cleanup_old. lia.
    + exact (IH _ Hrest s Hs).
Qed.

(** X21. The cleanup loop does nothing at all when its interval or its
    time-to-live is not positive.  Otherwise a job that is not updated
    meanwhile stays registered, with its files, through every tick that
    comes at most [ttl] after its last update, and is gone, its files
    handed to [os.Remove], once a tick has come later than that. *)
Theorem cleanup_loop_lifetime (a : App) (interval ttl : Z) (ticks : list Z)
  (id : string) (j : ExtractionJob) :
  jobs a !! id = Some j ->
  let run := StartCleanupLoop a interval ttl ticks in
  (interval <= 0 \/ ttl <= 0 -> run = (a, []))
  /\ (0 < interval -> 0 < ttl ->
      jobs run.1 !! id = (if overdue j ttl ticks then None else Some j)
      /\ (overdue j ttl ticks = true ->
          forall p, p ∈ jobFiles j ->
                    exists s, s ∈ run.2 /\ p ∈ removedFiles s)
      /\ (overdue j ttl ticks = false ->
          forall s, s ∈ run.2 -> j ∉ oldJobs s)).
Proof.
  intros Hj. cbv zeta. unfold StartCleanupLoop. split.
  - intros [Hi|Ht].
    + destruct (Z.leb_spec interval 0); [reflexivity | lia].
    + destruct (Z.leb_spec ttl 0); [|lia]. rewrite orb_true_r. reflexivity.
  - intros Hi Ht.
    destruct (Z.leb_spec interval 0); [lia|].
    destruct (Z.leb_spec ttl 0); [lia|]. cbn [orb].
    split; [exact (loop_lookup ttl id j ticks a Hj)|]. split.
    + intros Hover. exact (loop_removes ttl id j ticks a Hj Hover).
    + intros Hover. exact (loop_keeps ttl j ticks a Hover).
Qed.

End sweeper_props.

(** ** Instances of the listing, the hub and the loop *)
Module instances.
Import models handlers engine schedule demo_run listing hub sweeper.

(** Two uploads, the second one later. *)
Definition twoJobs : App :=
  reg (demo_props.playDemo start
         [mvUpload handlers_props.demoRequest "ab12" 7;
          mvUpload handlers_props.demoRequest "cd34" 9]).

(** Two connections on one job; writing to the second one fails. *)
Definition twoFollowers : Subs :=
  subscribe (subscribe ∅ "ab12" 1%positive) "ab12" 2%positive.

Definition secondFails (c : Conn) : bool := Pos.eqb c 2.

Lemma recentJobs_newest_witness :
  Z.of_nat (length (cut 1 (sortJobs ((map_to_list (jobs twoJobs)).*2)))) = 1.
Proof.
  apply (listing_props.recentJobs_newest twoJobs 1).
  constructor. apply listing_props.sortJobs_sortedBy.
Defined.

Lemma broadcast_delivery_witness :
  2%positive ∈ subscribers (deliver twoFollowers "ab12" secondFails
                              (elements (subscribers twoFollowers "ab12")))
                 "ab12"
  <-> 2%positive ∈ subscribers twoFollowers "ab12"
      /\ secondFails 2%positive = false.
Proof.
  destruct (hub_props.broadcast_delivery twoFollowers
              (deliver twoFollowers "ab12" secondFails
                 (elements (subscribers twoFollowers "ab12")))
              "ab12" secondFails
              (elements (subscribers twoFollowers "ab12")))
    as (_ & _ & Hafter & _); [constructor; reflexivity|].
  exact (Hafter 2%positive).
Defined.

Lemma cleanup_loop_lifetime_witness :
  jobs (StartCleanupLoop (reg demo_run.extracted) 30 100 [50; 80; 110]).1
    !! "ab12" = Some demo_props.extractedJob
  /\ jobs (StartCleanupLoop (reg demo_run.extracted) 30 100 [110; 140; 170]).1
       !! "ab12" = None.
Proof.
  split.
  - destruct (sweeper_props.cleanup_loop_lifetime (reg demo_run.extracted)
                30 100 [50; 80; 110] "ab12" demo_props.extractedJob
                demo_props.extracted_job) as [_ Hrun].
    destruct (Hrun ltac:(lia) ltac:(lia)) as [Hjob _]. exact Hjob.
  - destruct (sweeper_props.cleanup_loop_lifetime (reg demo_run.extracted)
                30 100 [110; 140; 170] "ab12" demo_props.extractedJob
                demo_props.extracted_job) as [_ Hrun].
    destruct (Hrun ltac:(lia) ltac:(lia)) as [Hjob _]. exact Hjob.
Defined.

End instances.

(** ** What the extraction trigger finds in the transcript fields *)
Module reset_props.
Import models handlers engine engine_props schedule.

(** The seven fields of the transcription. *)
Definition transcript (j : ExtractionJob)
  : JobStatus * Z * string * (string * string * string * string) :=
  (TranscriptStatus j, TranscriptProgress j, TranscriptError j,
   transcript_props.tfields j).

(** The fields as [upload] sets them and as [startExtraction] resets
    them. *)
Definition pristine (j : ExtractionJob) : Prop :=
  transcript j = (StatusNotStarted, 0, "", ("", "", "", "")).

(** The job an accepted trigger would store if it did not reset the
    transcript fields. *)
Definition requeued (now : Z) (j : ExtractionJob) : ExtractionJob :=
  {| ID := ID j; InputFileName := InputFileName j; InputPath := InputPath j;
     OutputPath := OutputPath j; OutputName := OutputName j;
     Format := Format j; Quality := Quality j;
     Status := StatusQueued; Progress := 1; Error := "";
     TranscriptStatus := TranscriptStatus j;
     TranscriptProgress := TranscriptProgress j;
     TranscriptError := TranscriptError j;
     TranscriptTXTPath := TranscriptTXTPath j;
     TranscriptTXTName := TranscriptTXTName j;
     TranscriptSRTPath := TranscriptSRTPath j;
     TranscriptSRTName := TranscriptSRTName j;
     CreatedAt := CreatedAt j; UpdatedAt := now |}.

Definition settledJob (j : ExtractionJob) : Prop :=
  transcriptStarted j \/ pristine j.

(** A transform either leaves the transcription alone or leaves it
    started. *)
Definition todoSettles (t : Todo) : Prop :=
  match t with
  | doUpdate _ fn =>
    (forall now j, transcript (fn now j) = transcript j)
    \/ (forall now j, transcriptStarted (fn now j))
  | _ => True
  end.

Definition threadSettles (th : Thread) : Prop :=
  match th with
  | fresh _ => True
  | running todo => Forall todoSettles todo
  end.

Definition resetInv (st : State) : Prop :=
  (forall id j, jobs (reg st) !! id = Some j -> settledJob j)
  /\ Forall threadSettles (threads st).

Section Reset.
Context `{CaseTable} `{Strconv}.
Variable svc : extractor.Service.

Lemma settledJob_same (j j' : ExtractionJob) :
  transcript j' = transcript j -> settledJob j -> settledJob j'.
Proof.
  intros Heq [Hs|Hp].
  - left. assert (Hst : TranscriptStatus j' = TranscriptStatus j)
      by (unfold transcript in Heq; congruence).
    unfold transcriptStarted. rewrite Hst. exact Hs.
  - right. unfold pristine. rewrite Heq. exact Hp.
Qed.

Lemma failJob_settles (id : string) (err : error) :
  Forall todoSettles (map ofAction (failJob id err)).
Proof.
  unfold failJob. cbn [map ofAction].
  constructor; [|constructor; [exact I | constructor]].
  left. intros now j. reflexivity.
Qed.

Lemma failTranscription_settles (id : string) (err : error) :
  Forall todoSettles (map ofAction (failTranscription id err)).
Proof.
  unfold failTranscription. cbn [map ofAction].
  constructor; [|constructor; [exact I | constructor]].
  right. intros now j. unfold transcriptStarted. cbn. tauto.
Qed.

Lemma extractionCallbacks_settle (id : string) (calls : list extractor.Call) :
  Forall todoSettles (map ofAction (flat_map (extractionCallback id) calls)).
Proof.
  induction calls as [|c calls IH]; [constructor|].
  simpl. constructor; [|constructor; [exact I | exact IH]].
  left. intros now j. reflexivity.
Qed.

Lemma transcriptionCallbacks_settle (id : string) (calls : list extractor.Call) :
  Forall todoSettles (map ofAction (flat_map (transcriptionCallback id) calls)).
Proof.
  induction calls as [|c calls IH]; [constructor|].
  simpl. constructor; [|constructor; [exact I | exact IH]].
  right. intros now j. unfold transcriptStarted. cbn. tauto.
Qed.

Lemma runExtraction_settles (a : App) (id : string) (run : ExtractionRun)
  (job : ExtractionJob) :
  Forall todoSettles (map ofAction (runExtraction a id run job)).
Proof.
  unfold runExtraction.
  destruct (mkdirOutputsErr run); [apply failJob_settles|].
  cbn [map ofAction]. constructor.
  - left. intros now j. reflexivity.
  - rewrite map_app. apply Forall_app. split.
    + apply extractionCallbacks_settle.
    + destruct (snd (extractor.ExtractAudio (ffmpeg run))); [apply failJob_settles|].
      cbn [map ofAction]. constructor; [|constructor; [exact I | constructor]].
      left. intros now j. reflexivity.
Qed.

Lemma runTranscription_settles (a : App) (id : string) (run : TranscriptionRun)
  (job : ExtractionJob) :
  Forall todoSettles (map ofAction (runTranscription a svc id run job)).
Proof.
  unfold runTranscription.
  destruct (String.eqb (OutputPath job) ""); [apply failTranscription_settles|].
  cbn [map ofAction]. constructor.
  - right. intros now j. unfold transcriptStarted. cbn. tauto.
  - rewrite map_app. apply Forall_app. split.
    + apply transcriptionCallbacks_settle.
    + destruct (snd (extractor.TranscribeAudio svc (whisper run)));
        [apply failTranscription_settles|].
      destruct (txtMissing run); [apply failTranscription_settles|].
      destruct (srtMissing run); [apply failTranscription_settles|].
      cbn [map ofAction]. constructor; [|constructor; [exact I | constructor]].
      right. intros now j. unfold transcriptStarted. cbn. tauto.
Qed.

Lemma afterHandler_settles (o : Outcome) :
  Forall threadSettles (afterHandler o).
Proof.
  unfold afterHandler.
  assert (Hth : forall t, threadSettles
            (running (map doBroadcast (broadcasts o)
                      ++ match t with Some t => [doGo t] | None => [] end))).
  { intros t. simpl. apply Forall_app. split.
    - rewrite Forall_map. apply Forall_true. intros evt. exact I.
    - destruct t; repeat constructor. }
  destruct (broadcasts o) as [|evt evts] eqn:Hbs.
  - destruct (started o) as [t|]; [|constructor].
    constructor; [|constructor]. exact (Hth (Some t)).
  - constructor; [|constructor]. apply Hth.
Qed.

Lemma upload_settled (a : App) (req : UploadRequest) (id : string) (now : Z)
  (id' : string) (j : ExtractionJob) :
  jobs (app (upload a req id now)) !! id' = Some j ->
  jobs a !! id' = Some j \/ pristine j.
Proof.
  unfold upload.
  repeat (match goal with
          | |- context [if ?b then _ else _] => destruct b
          end; [cbn [app]; auto|]).
  cbn [app jobs withJobs]. rewrite lookup_insert. case_decide; [|auto].
  intros [= <-]. right. reflexivity.
Qed.

Lemma startExtraction_settled (a : App) (id : string) (now : Z)
  (id' : string) (j : ExtractionJob) :
  jobs (app (startExtraction a id now)) !! id' = Some j ->
  jobs a !! id' = Some j \/ pristine j.
Proof.
  unfold startExtraction. destruct (jobs a !! id) as [job|] eqn:Hjob;
    [|cbn [app]; auto].
  destruct (Status job); cbn [app jobs withJobs]; auto;
    (rewrite lookup_insert; case_decide; [|auto];
     intros [= <-]; right; reflexivity).
Qed.

Lemma startTranscription_settled (a : App) (id : string) (now : Z)
  (id' : string) (j : ExtractionJob) :
  jobs (app (startTranscription a id now)) !! id' = Some j ->
  jobs a !! id' = Some j \/ transcriptStarted j.
Proof.
  unfold startTranscription. destruct (jobs a !! id) as [job|] eqn:Hjob;
    [|cbn [app]; auto].
  destruct (negb (JobStatus_eqb (Status job) StatusCompleted)); [cbn [app]; auto|].
  destruct (TranscriptStatus job); cbn [app jobs withJobs]; auto;
    (rewrite lookup_insert; case_decide; [|auto];
     intros [= <-]; right; unfold transcriptStarted; cbn; tauto).
Qed.

Lemma resetInv_initial (uploads outputs : string) (maxUpload : Z) :
  resetInv (initial uploads outputs maxUpload).
Proof.
  split; simpl; [|constructor].
  intros id j Hj. rewrite lookup_empty in Hj. discriminate.
Qed.

Lemma resetInv_step (st st' : State) :
  resetInv st -> step svc st st' -> resetInv st'.
Proof.
  intros (Hjobs & Hthreads) Hstep.
  assert (Hhead : forall i t todo,
             threads st !! i = Some (running (t :: todo)) ->
             todoSettles t /\ Forall todoSettles todo).
  { intros i t todo Hi.
    pose proof (proj1 (Forall_lookup _ _) Hthreads i _ Hi) as Hth.
    simpl in Hth. apply Forall_cons in Hth. exact Hth. }
  destruct Hstep as
    [st req id now Hfresh | st id now | st id now | st i id run Hi
    | st i id run Hi | st i id fn todo now Hi | st i evt todo Hi
    | st i t todo Hi | st id job Hjob | st ttl now Httl].
  - split; [|assumption]. simpl.
    intros id' j Hj. apply upload_settled in Hj as [Hj | Hj].
    + exact (Hjobs _ _ Hj).
    + right. exact Hj.
  - split; simpl.
    + intros id' j Hj. apply startExtraction_settled in Hj as [Hj | Hj].
      * exact (Hjobs _ _ Hj).
      * right. exact Hj.
    + apply Forall_app. split; [assumption | apply afterHandler_settles].
  - split; simpl.
    + intros id' j Hj. apply startTranscription_settled in Hj as [Hj | Hj].
      * exact (Hjobs _ _ Hj).
      * left. exact Hj.
    + apply Forall_app. split; [assumption | apply afterHandler_settles].
  - split; [assumption|]. simpl.
    apply Forall_insert; [assumption|]. simpl.
    destruct (getJob (reg st) id); [apply runExtraction_settles | constructor].
  - split; [assumption|]. simpl.
    apply Forall_insert; [assumption|]. simpl.
    destruct (getJob (reg st) id); [apply runTranscription_settles | constructor].
  - destruct (Hhead _ _ _ Hi) as [Hfn Htodo].
    split; simpl.
    + intros id' j. unfold updateJob.
      destruct (jobs (reg st) !! id) as [job|] eqn:Hjob; [|apply Hjobs].
      simpl. rewrite lookup_insert. case_decide; [|apply Hjobs].
      intros Hj. injection Hj as <-. destruct Hfn as [Hsame|Hstart].
      * exact (settledJob_same job _ (Hsame now job) (Hjobs _ _ Hjob)).
      * left. apply Hstart.
    + apply Forall_insert; assumption.
  - destruct (Hhead _ _ _ Hi) as [_ Htodo].
    split; [assumption|]. simpl. apply Forall_insert; assumption.
  - destruct (Hhead _ _ _ Hi) as [_ Htodo].
    split; [assumption|]. simpl.
    apply Forall_app. split; [|repeat constructor].
    apply Forall_insert; assumption.
  - split; assumption.
  - split; [|assumption]. simpl.
    intros id j Hj. apply map_lookup_filter_Some in Hj as [Hj _].
    exact (Hjobs _ _ Hj).
Qed.

Lemma reachable_resetInv (st : State) : reachable svc st -> resetInv st.
Proof.
  induction 1 as [uploads outputs maxUpload | st st' _ IH Hstep].
  - apply resetInv_initial.
  - exact (resetInv_step st st' IH Hstep).
Qed.

(** X22. In the running system the extraction trigger never has a
    transcription to reset.  In every state the system can reach, a job
    whose extraction is not completed (and so every job for which
    [startExtraction] accepts the trigger) has the transcript fields it was
    uploaded with: status not started, progress 0, no error, no paths.
    An accepted trigger therefore changes the status, the progress, the
    error and the time of the job and nothing else. *)
Theorem startExtraction_resets_nothing (st : State) (id : string)
  (j : ExtractionJob) (now : Z) :
  reachable svc st ->
  jobs (reg st) !! id = Some j ->
  Status j <> StatusCompleted ->
  pristine j
  /\ (~ active (Status j) ->
      app (startExtraction (reg st) id now)
      = withJobs (reg st) (<[id := requeued now j]> (jobs (reg st)))).
Proof.
  intros Hreach Hj Hnot.
  assert (Hp : pristine j).
  { destruct (reachable_resetInv st Hreach) as [Hjobs _].
    destruct (Hjobs id j Hj) as [Hstarted|Hp]; [|exact Hp].
    exfalso. apply Hnot.
    exact (inv_transcript st (reachable_engineInv svc st Hreach) id j Hj Hstarted). }
  split; [exact Hp|]. intros Hidle.
  unfold pristine, transcript, transcript_props.tfields in Hp.
  injection Hp as Hs Hg He H1 H2 H3 H4.
  unfold startExtraction. rewrite Hj. unfold requeued.
  rewrite Hs, Hg, He, H1, H2, H3, H4.
  destruct (Status j) eqn:Hst; try reflexivity.
  - exfalso. apply Hidle. left. reflexivity.
  - exfalso. apply Hidle. right. reflexivity.
  - congruence.
Qed.

End Reset.

(** An extraction that fails, so that the trigger is accepted again. *)
Definition failedOnce : State :=
  demo_props.playDemo demo_run.start
    ([mvUpload handlers_props.demoRequest "ab12" 7; mvStartExtraction "ab12" 9;
      mvAdvance 0 10; mvAdvance 0 10;
      mvRunExtraction 1
        {| mkdirOutputsErr := Some (foreign "read-only file system");
           ffmpeg := demo_run.ffmpegOK |}]
     ++ replicate 2 (mvAdvance 1 20)).

Definition failedJob : ExtractionJob :=
  {| ID := "ab12"; InputFileName := "clip_one.mp4";
     InputPath := "uploads/ab12_clip_one.mp4";
     OutputPath := ""; OutputName := "";
     Format := "flac"; Quality := "medium";
     Status := StatusFailed; Progress := 1;
     Error := "failed to create outputs dir: read-only file system";
     TranscriptStatus := StatusNotStarted; TranscriptProgress := 0;
     TranscriptError := ""; TranscriptTXTPath := ""; TranscriptTXTName := "";
     TranscriptSRTPath := ""; TranscriptSRTName := "";
     CreatedAt := 7; UpdatedAt := 20 |}.

Lemma startExtraction_resets_nothing_witness :
  pristine failedJob
  /\ app (startExtraction (reg failedOnce) "ab12" 30)
     = withJobs (reg failedOnce)
         (<["ab12" := requeued 30 failedJob]> (jobs (reg failedOnce))).
Proof.
  destruct (@startExtraction_resets_nothing asciiCase decimalStrconv
              adapters_props.svcDemo failedOnce "ab12" failedJob 30)
    as [Hp Hrun].
  - apply schedule_props.play_reachable, demo_props.start_reachable.
  - vm_compute. reflexivity.
  - cbn. discriminate.
  - split; [exact Hp|]. apply Hrun. cbn. intros [?|?]; discriminate.
Defined.

End reset_props.

(** ** The last element of a cleaned path *)
Module paths_props.
Import utf8_props filename_props.

Definition notSlash (c : ascii) : bool := negb (Ascii.eqb c filepath.Separator).

(** The path [p] ends with the element [leaf]. *)
Definition endsWith (p leaf : string) : Prop :=
  p = leaf \/ exists pre, p = pre +:+ String filepath.Separator leaf.

(** A name [Clean] takes for an element and writes as it is. *)
Definition element (leaf : string) : Prop :=
  leaf <> "" /\ allBytes notSlash leaf = true /\ leaf <> "." /\ leaf <> "..".

Lemma Split_element (leaf : string) :
  allBytes notSlash leaf = true -> strings.Split leaf filepath.Separator = [leaf].
Proof.
  induction leaf as [|c s IH]; [reflexivity|].
  cbn [allBytes]. intros [Hc Hs]%andb_true_iff. cbn [strings.Split].
  unfold notSlash in Hc. apply negb_true_iff in Hc. rewrite Hc, (IH Hs).
  reflexivity.
Qed.

Lemma Split_cons (s : string) :
  exists w ws, strings.Split s filepath.Separator = w :: ws.
Proof.
  destruct s as [|c s]; [eexists _, _; reflexivity|].
  cbn [strings.Split]. destruct (Ascii.eqb c filepath.Separator);
    [eexists _, _; reflexivity|].
  destruct (strings.Split s filepath.Separator); eexists _, _; reflexivity.
Qed.

Lemma Split_leaf (d leaf : string) :
  allBytes notSlash leaf = true ->
  strings.Split (d +:+ String filepath.Separator leaf) filepath.Separator
  = strings.Split d filepath.Separator ++ [leaf].
Proof.
  intros Hleaf. induction d as [|c d IH].
  - change ("" +:+ String filepath.Separator leaf)
      with (String filepath.Separator leaf).
    cbn [strings.Split]. rewrite Ascii.eqb_refl, (Split_element leaf Hleaf).
    reflexivity.
  - rewrite append_cons. cbn [strings.Split]. rewrite IH.
    destruct (Ascii.eqb c filepath.Separator); [reflexivity|].
    destruct (Split_cons d) as (w & ws & ->). reflexivity.
Qed.

Lemma cleanStep_element (rooted : bool) (st : nat * list string) (leaf : string) :
  element leaf -> filepath.cleanStep rooted st leaf = (fst st, leaf :: snd st).
Proof.
  intros (Hne & _ & Hdot & Hdots). unfold filepath.cleanStep.
  rewrite (args_props.eqb_false_of_ne _ _ Hne),
    (args_props.eqb_false_of_ne _ _ Hdot),
    (args_props.eqb_false_of_ne _ _ Hdots).
  reflexivity.
Qed.

Lemma concat_cons (sep x y : string) (l : list string) :
  String.concat sep (x :: y :: l) = x +:+ sep +:+ String.concat sep (y :: l).
Proof. reflexivity. Qed.

Lemma concat_ends (l : list string) (leaf : string) :
  endsWith (String.concat (String filepath.Separator "") (l ++ [leaf])) leaf.
Proof.
  induction l as [|x l IH]; [left; reflexivity|]. right.
  assert (Hcons : exists y l', l ++ [leaf] = y :: l')
    by (destruct l; eexists _, _; reflexivity).
  destruct Hcons as (y & l' & Hl). rewrite <- app_comm_cons, Hl, concat_cons, <- Hl.
  destruct IH as [-> | [pre ->]].
  - exists x. reflexivity.
  - exists (x +:+ String filepath.Separator pre).
    rewrite !append_assoc. reflexivity.
Qed.

Lemma endsWith_root (root p leaf : string) :
  root = "" \/ root = String filepath.Separator "" ->
  endsWith p leaf -> endsWith (root +:+ p) leaf.
Proof.
  intros Hroot [-> | [pre ->]].
  - destruct Hroot as [-> | ->]; [left; reflexivity|].
    right. exists "". reflexivity.
  - right. exists (root +:+ pre). rewrite append_assoc. reflexivity.
Qed.

Lemma endsWith_nonempty (p leaf : string) : leaf <> "" -> endsWith p leaf -> p <> "".
Proof.
  intros Hne [-> | [pre ->]]; [exact Hne|]. destruct pre; discriminate.
Qed.

(** The steps of [Clean] on a list of elements that ends with [leaf]. *)
Lemma Clean_elements (path : string) (l : list string) (leaf : string) :
  path <> "" -> element leaf ->
  strings.Split path filepath.Separator = l ++ [leaf] ->
  endsWith (filepath.Clean path) leaf.
Proof.
  intros Hpath Hleaf Hsplit. unfold filepath.Clean.
  rewrite (args_props.eqb_false_of_ne _ _ Hpath). cbv zeta.
  rewrite Hsplit, fold_left_app. cbn [fold_left].
  rewrite (cleanStep_element _ _ leaf Hleaf). cbn [fst snd rev].
  rewrite app_assoc.
  match goal with
  | |- endsWith (if String.eqb (?root +:+ String.concat ?sep (?l ++ [leaf])) ""
                 then _ else _) leaf =>
    assert (Hends : endsWith (root +:+ String.concat sep (l ++ [leaf])) leaf)
  end.
  { apply endsWith_root; [|apply concat_ends].
    destruct (strings.HasPrefix _ _); auto. }
  destruct Hleaf as (Hne & _).
  rewrite (args_props.eqb_false_of_ne _ _ (endsWith_nonempty _ _ Hne Hends)).
  exact Hends.
Qed.

(** [Join] keeps the name it is given as the last element of the path. *)
Lemma Join_ends (dir leaf : string) :
  element leaf -> endsWith (filepath.Join dir leaf) leaf.
Proof.
  intros Hleaf. pose proof Hleaf as (Hne & Hns & _). unfold filepath.Join.
  destruct (String.eqb dir ""); cbn [negb].
  - rewrite (args_props.eqb_false_of_ne _ _ Hne). cbn [negb].
    apply (Clean_elements leaf []); [exact Hne | exact Hleaf|].
    apply Split_element, Hns.
  - apply (Clean_elements _ (strings.Split dir filepath.Separator));
      [destruct dir; discriminate | exact Hleaf|].
    apply Split_leaf, Hns.
Qed.

(** Directories as they may be spelled. *)
Lemma Join_cleans :
  filepath.Join "uploads/" "ab12_clip.mp4" = "uploads/ab12_clip.mp4"
  /\ filepath.Join "" "ab12.flac" = "ab12.flac"
  /\ filepath.Join "./outputs//" "ab12.flac" = "outputs/ab12.flac"
  /\ filepath.Join "/srv/../data" "ab12.flac" = "/data/ab12.flac"
  /\ filepath.Join "../data/." "ab12.flac" = "../data/ab12.flac"
  /\ filepath.Join "" "" = "".
Proof. repeat split; reflexivity. Qed.

Lemma endsWith_app (p leaf t : string) :
  endsWith p leaf -> endsWith (p +:+ t) (leaf +:+ t).
Proof.
  intros [-> | [pre ->]]; [left; reflexivity|]. right. exists pre.
  rewrite append_assoc. reflexivity.
Qed.

Lemma no_separator (s : string) :
  allBytes notSlash s = true ->
  existsb (Ascii.eqb filepath.Separator) (list_ascii_of_string s) = false.
Proof.
  induction s as [|c s IH]; [reflexivity|]. cbn [allBytes list_ascii_of_string existsb].
  intros [Hc Hs]%andb_true_iff. rewrite (IH Hs), orb_false_r.
  unfold notSlash in Hc. apply negb_true_iff in Hc.
  rewrite Ascii.eqb_sym. exact Hc.
Qed.

Lemma has_separator (pre leaf : string) :
  existsb (Ascii.eqb filepath.Separator)
    (list_ascii_of_string (pre +:+ String filepath.Separator leaf)) = true.
Proof.
  induction pre as [|c pre IH].
  - cbn. reflexivity.
  - rewrite append_cons. cbn [list_ascii_of_string existsb]. rewrite IH.
    apply orb_true_r.
Qed.

Lemma lastElement_ends (p leaf : string) :
  allBytes notSlash leaf = true -> endsWith p leaf ->
  filepath.lastElement p = leaf.
Proof.
  intros Hleaf [-> | [pre ->]].
  - destruct leaf as [|c s]; [reflexivity|]. cbn [filepath.lastElement].
    cbn [allBytes] in Hleaf. apply andb_true_iff in Hleaf as [Hc Hs].
    rewrite (no_separator s Hs). unfold notSlash in Hc.
    apply negb_true_iff in Hc. rewrite Hc. reflexivity.
  - induction pre as [|c pre IH].
    + change ("" +:+ String filepath.Separator leaf)
        with (String filepath.Separator leaf).
      cbn [filepath.lastElement]. rewrite (no_separator leaf Hleaf), Ascii.eqb_refl.
      reflexivity.
    + rewrite append_cons. cbn [filepath.lastElement].
      rewrite has_separator. exact IH.
Qed.

(** A path ends with one element only. *)
Lemma endsWith_inj (p l1 l2 : string) :
  allBytes notSlash l1 = true -> allBytes notSlash l2 = true ->
  endsWith p l1 -> endsWith p l2 -> l1 = l2.
Proof.
  intros H1 H2 E1 E2.
  rewrite <- (lastElement_ends p l1 H1 E1). exact (lastElement_ends p l2 H2 E2).
Qed.

(** A name that opens with an identifier and a byte that is none of an
    identifier names its identifier. *)
Lemma prefix_inj (id1 id2 : string) (c1 c2 : ascii) (r1 r2 : string) :
  allBytes ident_props.idByte id1 = true ->
  allBytes ident_props.idByte id2 = true ->
  ident_props.idByte c1 = false -> ident_props.idByte c2 = false ->
  id1 +:+ String c1 r1 = id2 +:+ String c2 r2 -> id1 = id2.
Proof.
  revert id2. induction id1 as [|x id1 IH]; intros [|y id2] H1 H2 Hc1 Hc2 Heq.
  - reflexivity.
  - exfalso. rewrite append_cons in Heq.
    change ("" +:+ String c1 r1) with (String c1 r1) in Heq.
    injection Heq as -> _. cbn [allBytes] in H2.
    apply andb_true_iff in H2 as [Hy _]. congruence.
  - exfalso. rewrite append_cons in Heq.
    change ("" +:+ String c2 r2) with (String c2 r2) in Heq.
    injection Heq as -> _. cbn [allBytes] in H1.
    apply andb_true_iff in H1 as [Hx _]. congruence.
  - rewrite !append_cons in Heq. injection Heq as -> Heq.
    cbn [allBytes] in H1, H2.
    apply andb_true_iff in H1 as [_ H1]. apply andb_true_iff in H2 as [_ H2].
    f_equal. exact (IH id2 H1 H2 Hc1 Hc2 Heq).
Qed.

End paths_props.

(** ** The extension of the output file *)
Module extension_props.
Import utf8 utf8_props filename_props sanitize_props paths_props.

(** A byte that is neither the separator nor the dot. *)
Definition plainByte (c : ascii) : bool :=
  notSlash c && negb (Ascii.eqb c ".").

Definition spaceRunes : list Z :=
  [9; 10; 11; 12; 13; 32; 0x85; 0xA0; 0x1680;
   0x2000; 0x2001; 0x2002; 0x2003; 0x2004; 0x2005; 0x2006; 0x2007; 0x2008;
   0x2009; 0x200A; 0x2028; 0x2029; 0x202F; 0x205F; 0x3000].

Lemma IsSpace_runes (r : Z) : unicode.IsSpace r = true -> In r spaceRunes.
Proof.
  unfold unicode.IsSpace, spaceRunes. intros Hr.
  assert (Hcases :
            r = 9 \/ r = 10 \/ r = 11 \/ r = 12 \/ r = 13 \/ r = 32 \/ r = 0x85
            \/ r = 0xA0 \/ r = 0x1680 \/ 0x2000 <= r <= 0x200A \/ r = 0x2028
            \/ r = 0x2029 \/ r = 0x202F \/ r = 0x205F \/ r = 0x3000).
  { destruct ((0 <=? r) && (r <=? 255)).
    - repeat (apply orb_true_iff in Hr as [Hr|Hr]); lia.
    - repeat (apply orb_true_iff in Hr as [Hr|Hr]); lia. }
  cbn [In]. lia.
Qed.

Lemma space_bytes (r : Z) :
  unicode.IsSpace r = true -> allBytes plainByte (EncodeRune r) = true.
Proof.
  intros Hr%IsSpace_runes.
  assert (Hall : Forall (fun r => allBytes plainByte (EncodeRune r) = true)
                   spaceRunes)
    by (unfold spaceRunes; repeat constructor).
  rewrite Forall_forall in Hall. apply Hall, list_elem_of_In, Hr.
Qed.

Lemma spaces_plain (l : list (Z * string)) :
  Forall wf l -> Forall isSp l -> allBytes plainByte (bytes l) = true.
Proof.
  induction 1 as [|[r b] l Hwf _ IH]; [reflexivity|].
  intros Hsp. apply Forall_cons in Hsp as [Hr Hsp]. unfold isSp in Hr.
  cbn [fst] in Hr. rewrite bytes_cons, allBytes_app, (IH Hsp), andb_true_r.
  cbn [snd]. destruct (IsSpace_range r Hr) as (_ & _ & Herr).
  rewrite <- (valid_encode r b) by (split; assumption).
  exact (space_bytes r Hr).
Qed.

Lemma plainByte_notSlash (s : string) :
  allBytes plainByte s = true -> allBytes notSlash s = true.
Proof.
  induction s as [|c s IH]; [reflexivity|]. cbn [allBytes].
  intros [Hc Hs]%andb_true_iff. rewrite (IH Hs), andb_true_r.
  unfold plainByte in Hc. apply andb_true_iff in Hc as [Hc _]. exact Hc.
Qed.

Lemma formats_bytes (w : string) :
  w ∈ args_props.supportedFormats -> w <> "" /\ allBytes plainByte w = true.
Proof.
  unfold args_props.supportedFormats. rewrite !elem_of_cons, elem_of_nil.
  intros [->|[->|[->|[->|[->|[]]]]]]; split; (discriminate || reflexivity).
Qed.

Section Extension.
Context `{CaseTable}.

Hypothesis spaces_caseless :
  forall r, unicode.IsSpace r = true -> lowerTable r = r.

(** Lowering a string whose trimmed, lowered form is a plain word gives the
    word between the spaces that were around it. *)
Lemma ToLower_form (v w : string) :
  plain w ->
  strings.ToLower (strings.TrimSpace v) = w ->
  exists l1 l2,
    strings.ToLower v = bytes l1 +:+ w +:+ bytes l2
    /\ Forall wf l1 /\ Forall isSp l1 /\ Forall wf l2 /\ Forall isSp l2.
Proof.
  intros (Hascii & Hhd & Hlast & Hlow) Hv.
  destruct (trim_split (chunks v)) as (l1 & l2 & Hl & H1 & H2).
  pose proof (chunks_wf v) as Hwf. rewrite Hl in Hwf.
  apply Forall_app in Hwf as [Hwf1 Hwf]. apply Forall_app in Hwf as [_ Hwf2].
  pose proof (spaces_valid l2 Hwf2 H2) as Hv2.
  assert (Hmid : chunks (bytes (trim (chunks v))) = trim (chunks v)).
  { apply (chunks_prefix (bytes (trim (chunks v) ++ l2)) _ l2); [|exact Hv2].
    apply (chunks_suffix v l1). exact Hl. }
  unfold strings.TrimSpace in Hv. fold (trim (chunks v)) in Hv.
  rewrite ToLower_written, Hmid in Hv.
  exists l1, l2. split; [|auto].
  rewrite ToLower_written, Hl, !written_app, Hv.
  rewrite !(written_spaces spaces_caseless) by assumption. reflexivity.
Qed.

(** The name of the output file of a job with a supported format: the
    base name of the identifier, a dot, and an extension that holds no
    separator. *)
Lemma OutputName_extension (id f : string) :
  normal f ∈ args_props.supportedFormats ->
  exists e, extractor.OutputName id f = filepath.Base id +:+ String "." e
            /\ allBytes notSlash e = true.
Proof.
  intros Hf. destruct (formats_bytes _ Hf) as [Hne Hw].
  destruct (ToLower_form f (normal f) (formats_plain _ Hf) eq_refl)
    as (l1 & l2 & Hlow & Hwf1 & Hs1 & Hwf2 & Hs2).
  assert (Hplain : allBytes plainByte (strings.ToLower f) = true).
  { rewrite Hlow, !allBytes_app, Hw, (spaces_plain l1 Hwf1 Hs1),
      (spaces_plain l2 Hwf2 Hs2). reflexivity. }
  assert (Hnonempty : strings.ToLower f <> "").
  { rewrite Hlow. intros Hempty.
    destruct (bytes l1); [|discriminate].
    destruct (normal f); [congruence | discriminate]. }
  exists (strings.ToLower f). split; [|exact (plainByte_notSlash _ Hplain)].
  unfold extractor.OutputName. cbv zeta.
  assert (Hpre : strings.HasPrefix (strings.ToLower f) "." = false).
  { destruct (strings.ToLower f) as [|c s]; [congruence|].
    cbn [allBytes] in Hplain. apply andb_true_iff in Hplain as [Hc _].
    unfold plainByte in Hc. apply andb_true_iff in Hc as [_ Hc].
    apply negb_true_iff in Hc. cbn [strings.HasPrefix].
    rewrite Ascii.eqb_sym, Hc. reflexivity. }
  unfold strings.TrimPrefix. rewrite Hpre.
  rewrite (args_props.eqb_false_of_ne _ _ Hnonempty). reflexivity.
Qed.

End Extension.
End extension_props.

(** ** The files of the jobs *)
Module files_props.
Import utf8_props filename_props models handlers engine engine_props schedule.
Import output_props transcript_props paths_props ident_props.

(** The paths of a stored job are those the handlers build from its
    identifier, or still empty. *)
Record shelved `{CaseTable} (a : App) (id : string) (j : ExtractionJob) : Prop :=
  { sh_id : ID j = id;
    sh_name : InputFileName j <> "" /\ allBytes safeByte (InputFileName j) = true;
    sh_input :
      InputPath j
      = filepath.Join (uploadsDir a) (id +:+ "_" +:+ InputFileName j);
    sh_output :
      OutputPath j = ""
      \/ OutputPath j
         = filepath.Join (outputsDir a) (extractor.OutputName id (Format j));
    sh_txt :
      TranscriptTXTPath j = ""
      \/ TranscriptTXTPath j
         = filepath.Join (outputsDir a) (id +:+ "_transcript") +:+ ".txt";
    sh_srt :
      TranscriptSRTPath j = ""
      \/ TranscriptSRTPath j
         = filepath.Join (outputsDir a) (id +:+ "_transcript") +:+ ".srt" }.

(** A transform that leaves the input of the job alone. *)
Definition keepsInput (fn : Z -> ExtractionJob -> ExtractionJob) : Prop :=
  forall now j,
    InputPath (fn now j) = InputPath j
    /\ InputFileName (fn now j) = InputFileName j.

Definition todoKeepsInput (t : Todo) : Prop :=
  match t with
  | doUpdate _ fn => keepsInput fn
  | _ => True
  end.

Definition threadKeepsInput (th : Thread) : Prop :=
  match th with
  | fresh _ => True
  | running todo => Forall todoKeepsInput todo
  end.

Definition filesInv `{CaseTable} (st : State) : Prop :=
  (forall id j, jobs (reg st) !! id = Some j -> shelved (reg st) id j)
  /\ Forall threadKeepsInput (threads st).

Section Files.
Context `{CaseTable} `{Strconv}.
Variable svc : extractor.Service.

Lemma shelved_same (a a' : App) (id : string) (j j' : ExtractionJob) :
  uploadsDir a' = uploadsDir a -> outputsDir a' = outputsDir a ->
  ID j' = ID j -> Format j' = Format j ->
  InputFileName j' = InputFileName j -> InputPath j' = InputPath j ->
  OutputPath j' = OutputPath j ->
  (TranscriptTXTPath j' = TranscriptTXTPath j \/ TranscriptTXTPath j' = "") ->
  (TranscriptSRTPath j' = TranscriptSRTPath j \/ TranscriptSRTPath j' = "") ->
  shelved a id j -> shelved a' id j'.
Proof.
  intros Hu Ho Hid Hf Hn Hp Hout Htxt Hsrt [S1 S2 S3 S4 S5 S6].
  split; rewrite ?Hu, ?Ho, ?Hid, ?Hf, ?Hn, ?Hp, ?Hout; try assumption.
  - destruct Htxt as [-> | ->]; [exact S5 | left; reflexivity].
  - destruct Hsrt as [-> | ->]; [exact S6 | left; reflexivity].
Qed.

Lemma shelved_dirs (a a' : App) (id : string) (j : ExtractionJob) :
  uploadsDir a' = uploadsDir a -> outputsDir a' = outputsDir a ->
  shelved a id j -> shelved a' id j.
Proof.
  intros Hu Ho. apply shelved_same; auto.
Qed.

(** *** The handlers *)

Lemma sanitizeFileName_name (name : string) :
  sanitizeFileName name <> ""
  /\ allBytes safeByte (sanitizeFileName name) = true.
Proof.
  unfold sanitizeFileName. fold (cleaned name).
  destruct (String.eqb (cleaned name) ""); [split; [discriminate | reflexivity]|].
  split; [apply cleaned_nonempty | apply Map_keepRune_safe].
Qed.

Lemma upload_dirs (a : App) (req : UploadRequest) (id : string) (now : Z) :
  uploadsDir (app (upload a req id now)) = uploadsDir a
  /\ outputsDir (app (upload a req id now)) = outputsDir a.
Proof.
  unfold upload.
  repeat (match goal with
          | |- context [if ?b then _ else _] => destruct b
          end; [split; reflexivity|]).
  split; reflexivity.
Qed.

Lemma upload_shelved (a : App) (req : UploadRequest) (id : string) (now : Z)
  (id' : string) (j : ExtractionJob) :
  jobs (app (upload a req id now)) !! id' = Some j ->
  jobs a !! id' = Some j \/ shelved a id' j.
Proof.
  unfold upload.
  repeat (match goal with
          | |- context [if ?b then _ else _] => destruct b
          end; [cbn [app]; auto|]).
  cbn [app jobs withJobs]. rewrite lookup_insert. case_decide as Hid; [|auto].
  intros [= <-]. right. subst id'.
  split; cbn; try (left; reflexivity); try reflexivity.
  apply sanitizeFileName_name.
Qed.

Lemma startExtraction_dirs (a : App) (id : string) (now : Z) :
  uploadsDir (app (startExtraction a id now)) = uploadsDir a
  /\ outputsDir (app (startExtraction a id now)) = outputsDir a.
Proof.
  unfold startExtraction. destruct (jobs a !! id) as [job|]; [|split; reflexivity].
  destruct (Status job); split; reflexivity.
Qed.

Lemma startTranscription_dirs (a : App) (id : string) (now : Z) :
  uploadsDir (app (startTranscription a id now)) = uploadsDir a
  /\ outputsDir (app (startTranscription a id now)) = outputsDir a.
Proof.
  unfold startTranscription. destruct (jobs a !! id) as [job|]; [|split; reflexivity].
  destruct (negb _); [split; reflexivity|].
  destruct (TranscriptStatus job); split; reflexivity.
Qed.

Lemma updateJob_dirs (a : App) (id : string)
  (fn : Z -> ExtractionJob -> ExtractionJob) (now : Z) :
  uploadsDir (updateJob a id fn now) = uploadsDir a
  /\ outputsDir (updateJob a id fn now) = outputsDir a.
Proof. unfold updateJob. destruct (jobs a !! id); split; reflexivity. Qed.

Lemma startExtraction_shelved (a : App) (id : string) (now : Z)
  (id' : string) (j : ExtractionJob) :
  jobs (app (startExtraction a id now)) !! id' = Some j ->
  shelved a id' j
  \/ exists j0, jobs a !! id' = Some j0 /\ (shelved a id' j0 -> shelved a id' j).
Proof.
  unfold startExtraction. destruct (jobs a !! id) as [job|] eqn:Hjob;
    [|cbn [app]; intros Hj; right; exists j; auto].
  destruct (Status job); cbn [app jobs withJobs];
    try (intros Hj; right; exists j; auto; fail);
    (rewrite lookup_insert; case_decide as Hid;
     [|intros Hj; right; exists j; auto];
     intros [= <-]; subst id'; right; exists job; split; [exact Hjob|];
     apply shelved_same; cbn; auto).
Qed.

Lemma startTranscription_shelved (a : App) (id : string) (now : Z)
  (id' : string) (j : ExtractionJob) :
  jobs (app (startTranscription a id now)) !! id' = Some j ->
  shelved a id' j
  \/ exists j0, jobs a !! id' = Some j0 /\ (shelved a id' j0 -> shelved a id' j).
Proof.
  unfold startTranscription. destruct (jobs a !! id) as [job|] eqn:Hjob;
    [|cbn [app]; intros Hj; right; exists j; auto].
  destruct (negb _); [cbn [app]; intros Hj; right; exists j; auto|].
  destruct (TranscriptStatus job); cbn [app jobs withJobs];
    try (intros Hj; right; exists j; auto; fail);
    (rewrite lookup_insert; case_decide as Hid;
     [|intros Hj; right; exists j; auto];
     intros [= <-]; subst id'; right; exists job; split; [exact Hjob|];
     apply shelved_same; cbn; auto).
Qed.

(** *** The workers *)

Lemma failJob_input (id : string) (err : error) :
  Forall todoKeepsInput (map ofAction (failJob id err)).
Proof.
  unfold failJob. cbn [map ofAction].
  constructor; [|constructor; [exact I | constructor]].
  intros now j. split; reflexivity.
Qed.

Lemma failTranscription_input (id : string) (err : error) :
  Forall todoKeepsInput (map ofAction (failTranscription id err)).
Proof.
  unfold failTranscription. cbn [map ofAction].
  constructor; [|constructor; [exact I | constructor]].
  intros now j. split; reflexivity.
Qed.

Lemma extractionCallbacks_input (id : string) (calls : list extractor.Call) :
  Forall todoKeepsInput (map ofAction (flat_map (extractionCallback id) calls)).
Proof.
  induction calls as [|c calls IH]; [constructor|].
  simpl. constructor; [|constructor; [exact I | exact IH]].
  intros now j. split; reflexivity.
Qed.

Lemma transcriptionCallbacks_input (id : string) (calls : list extractor.Call) :
  Forall todoKeepsInput (map ofAction (flat_map (transcriptionCallback id) calls)).
Proof.
  induction calls as [|c calls IH]; [constructor|].
  simpl. constructor; [|constructor; [exact I | exact IH]].
  intros now j. split; reflexivity.
Qed.

Lemma runExtraction_input (a : App) (id : string) (run : ExtractionRun)
  (job : ExtractionJob) :
  Forall todoKeepsInput (map ofAction (runExtraction a id run job)).
Proof.
  unfold runExtraction.
  destruct (mkdirOutputsErr run); [apply failJob_input|].
  cbn [map ofAction]. constructor.
  - intros now j. split; reflexivity.
  - rewrite map_app. apply Forall_app. split.
    + apply extractionCallbacks_input.
    + destruct (snd (extractor.ExtractAudio (ffmpeg run))); [apply failJob_input|].
      cbn [map ofAction]. constructor; [|constructor; [exact I | constructor]].
      intros now j. split; reflexivity.
Qed.

Lemma runTranscription_input (a : App) (id : string) (run : TranscriptionRun)
  (job : ExtractionJob) :
  Forall todoKeepsInput (map ofAction (runTranscription a svc id run job)).
Proof.
  unfold runTranscription.
  destruct (String.eqb (OutputPath job) ""); [apply failTranscription_input|].
  cbn [map ofAction]. constructor.
  - intros now j. split; reflexivity.
  - rewrite map_app. apply Forall_app. split.
    + apply transcriptionCallbacks_input.
    + destruct (snd (extractor.TranscribeAudio svc (whisper run)));
        [apply failTranscription_input|].
      destruct (txtMissing run); [apply failTranscription_input|].
      destruct (srtMissing run); [apply failTranscription_input|].
      cbn [map ofAction]. constructor; [|constructor; [exact I | constructor]].
      intros now j. split; reflexivity.
Qed.

Lemma afterHandler_input (o : Outcome) :
  Forall threadKeepsInput (afterHandler o).
Proof.
  unfold afterHandler.
  assert (Hth : forall t, threadKeepsInput
            (running (map doBroadcast (broadcasts o)
                      ++ match t with Some t => [doGo t] | None => [] end))).
  { intros t. simpl. apply Forall_app. split.
    - rewrite Forall_map. apply Forall_true. intros evt. exact I.
    - destruct t; repeat constructor. }
  destruct (broadcasts o) as [|evt evts] eqn:Hbs.
  - destruct (started o) as [t|]; [|constructor].
    constructor; [|constructor]. exact (Hth (Some t)).
  - constructor; [|constructor]. apply Hth.
Qed.

(** What the head of a thread writes into the output fields of its job. *)
Lemma head_output (st : State) (i : nat) (id : string)
  (fn : Z -> ExtractionJob -> ExtractionJob) (todo : list Todo)
  (job : ExtractionJob) (now : Z) :
  engineInv st -> outputInv st ->
  threads st !! i = Some (running (doUpdate id fn :: todo)) ->
  jobs (reg st) !! id = Some job ->
  ID (fn now job) = ID job /\ Format (fn now job) = Format job
  /\ (OutputPath (fn now job) = OutputPath job
      \/ OutputPath (fn now job)
         = filepath.Join (outputsDir (reg st))
             (extractor.OutputName id (Format job))).
Proof.
  intros Hinv [_ Hthreads] Hi Hjob.
  pose proof (proj1 (Forall_lookup _ _) Hthreads i _ Hi) as Hth.
  cbn [threadPlaced] in Hth.
  destruct Hth as [Hall | (id0 & fn0 & rest & name & path & Heq & _ & Hpl & Hex & _)].
  - apply Forall_cons in Hall as [[_ Hfn] _].
    assert (Hk : keepsOutput fn) by (destruct Hfn as [[Hk _] | [Hk _]]; exact Hk).
    destruct (Hk now job) as (_ & Hp & Hid & Hf). auto.
  - injection Heq as <- <- _.
    destruct (Hpl now job) as (_ & Hp & Hid & Hf).
    destruct (Hex job Hjob) as [Hname Hpath].
    split; [exact Hid|]. split; [exact Hf|]. right.
    rewrite Hp, Hpath, Hname. unfold expectedName.
    rewrite (inv_id st Hinv id job Hjob). reflexivity.
Qed.

(** ... and into the transcript fields. *)
Lemma head_transcript (st : State) (i : nat) (id : string)
  (fn : Z -> ExtractionJob -> ExtractionJob) (todo : list Todo)
  (job : ExtractionJob) (now : Z) :
  engineInv st -> transcriptInv st ->
  threads st !! i = Some (running (doUpdate id fn :: todo)) ->
  jobs (reg st) !! id = Some job ->
  tfields (fn now job) = tfields job
  \/ tfields (fn now job) = twant (reg st) job.
Proof.
  intros Hinv [_ Hthreads] Hi Hjob.
  pose proof (proj1 (Forall_lookup _ _) Hthreads i _ Hi) as Hth.
  cbn [tthreadPlaced] in Hth.
  destruct Hth as [Hall | (id0 & fn0 & rest & v & Heq & _ & Hpl & Hex & _)].
  - apply Forall_cons in Hall as [[_ Hfn] _].
    assert (Hk : tkeeps fn) by (destruct Hfn as [[Hk _] | [Hk _]]; exact Hk).
    left. apply (Hk now job).
  - injection Heq as <- <- _. right.
    destruct (Hpl now job) as [Hv _]. rewrite Hv. exact (Hex job Hjob).
Qed.

Lemma filesInv_initial (uploads outputs : string) (maxUpload : Z) :
  filesInv (initial uploads outputs maxUpload).
Proof.
  split; simpl; [|constructor].
  intros id j Hj. rewrite lookup_empty in Hj. discriminate.
Qed.

Lemma filesInv_step (st st' : State) :
  engineInv st -> outputInv st -> transcriptInv st ->
  filesInv st -> step svc st st' -> filesInv st'.
Proof.
  intros Hinv Hout Htr (Hjobs & Hthreads) Hstep.
  assert (Hhead : forall i t todo,
             threads st !! i = Some (running (t :: todo)) ->
             todoKeepsInput t /\ Forall todoKeepsInput todo).
  { intros i t todo Hi.
    pose proof (proj1 (Forall_lookup _ _) Hthreads i _ Hi) as Hth.
    simpl in Hth. apply Forall_cons in Hth. exact Hth. }
  destruct Hstep as
    [st req id now Hfresh | st id now | st id now | st i id run Hi
    | st i id run Hi | st i id fn todo now Hi | st i evt todo Hi
    | st i t todo Hi | st id job Hjob | st ttl now Httl].
  - split; [|assumption]. simpl.
    destruct (upload_dirs (reg st) req id now) as [Hu Ho].
    intros id' j Hj. apply (shelved_dirs (reg st)); [exact Hu | exact Ho|].
    apply upload_shelved in Hj as [Hj | Hj]; [exact (Hjobs _ _ Hj) | exact Hj].
  - split; simpl.
    + destruct (startExtraction_dirs (reg st) id now) as [Hu Ho].
      intros id' j Hj. apply (shelved_dirs (reg st)); [exact Hu | exact Ho|].
      apply startExtraction_shelved in Hj as [Hj | (j0 & Hj0 & Hsh)];
        [exact Hj | exact (Hsh (Hjobs _ _ Hj0))].
    + apply Forall_app. split; [assumption | apply afterHandler_input].
  - split; simpl.
    + destruct (startTranscription_dirs (reg st) id now) as [Hu Ho].
      intros id' j Hj. apply (shelved_dirs (reg st)); [exact Hu | exact Ho|].
      apply startTranscription_shelved in Hj as [Hj | (j0 & Hj0 & Hsh)];
        [exact Hj | exact (Hsh (Hjobs _ _ Hj0))].
    + apply Forall_app. split; [assumption | apply afterHandler_input].
  - split; [assumption|]. simpl.
    apply Forall_insert; [assumption|]. simpl.
    destruct (getJob (reg st) id); [apply runExtraction_input | constructor].
  - split; [assumption|]. simpl.
    apply Forall_insert; [assumption|]. simpl.
    destruct (getJob (reg st) id); [apply runTranscription_input | constructor].
  - destruct (Hhead _ _ _ Hi) as [Hfn Htodo].
    split; simpl; [|apply Forall_insert; assumption].
    destruct (updateJob_dirs (reg st) id fn now) as [Hu Ho].
    intros id' j Hj. apply (shelved_dirs (reg st)); [exact Hu | exact Ho|].
    revert Hj. unfold updateJob.
    destruct (jobs (reg st) !! id) as [job|] eqn:Hjob; [|apply Hjobs].
    simpl. rewrite lookup_insert. case_decide as Hid; [|apply Hjobs].
    intros [= <-]. subst id'.
    destruct (head_output st i id fn todo job now Hinv Hout Hi Hjob)
      as (Hsame & Hfmt & Hpath).
    pose proof (head_transcript st i id fn todo job now Hinv Htr Hi Hjob) as Ht.
    destruct (Hfn now job) as [Hin Hname].
    destruct (Hjobs id job Hjob) as [S1 S2 S3 S4 S5 S6].
    split.
    + rewrite Hsame. exact S1.
    + rewrite Hname. exact S2.
    + rewrite Hin, Hname. exact S3.
    + rewrite Hfmt. destruct Hpath as [-> | ->]; [exact S4 | right; reflexivity].
    + destruct Ht as [Ht | Ht].
      * unfold tfields in Ht. injection Ht as -> _ _ _. exact S5.
      * unfold tfields, twant in Ht. cbv zeta in Ht. injection Ht as -> _ _ _.
        right. rewrite S1. reflexivity.
    + destruct Ht as [Ht | Ht].
      * unfold tfields in Ht. injection Ht as _ _ -> _. exact S6.
      * unfold tfields, twant in Ht. cbv zeta in Ht. injection Ht as _ _ -> _.
        right. rewrite S1. reflexivity.
  - destruct (Hhead _ _ _ Hi) as [_ Htodo].
    split; [assumption|]. simpl. apply Forall_insert; assumption.
  - destruct (Hhead _ _ _ Hi) as [_ Htodo].
    split; [assumption|]. simpl.
    apply Forall_app. split; [|repeat constructor].
    apply Forall_insert; assumption.
  - split; assumption.
  - split; [|assumption]. simpl.
    intros id j Hj. apply map_lookup_filter_Some in Hj as [Hj _].
    apply (shelved_dirs (reg st)); [reflexivity | reflexivity|].
    exact (Hjobs _ _ Hj).
Qed.

Lemma reachable_filesInv (st : State) : reachable svc st -> filesInv st.
Proof.
  induction 1 as [uploads outputs maxUpload | st st' Hreach IH Hstep].
  - apply filesInv_initial.
  - exact (filesInv_step st st' (reachable_engineInv svc st Hreach)
             (reachable_outputInv svc st Hreach)
             (reachable_transcriptInv svc st Hreach) IH Hstep).
Qed.

End Files.
End files_props.

(** ** The sweep and the files of the jobs it keeps *)
Module sweep_props.
Import utf8_props filename_props models handlers engine engine_props schedule.
Import paths_props ident_props files_props sanitize_props reaper_props.

(** The path ends with a name that opens with the identifier and a byte
    that is none of an identifier. *)
Definition owned (id p : string) : Prop :=
  exists c rest,
    idByte c = false
    /\ allBytes notSlash (id +:+ String c rest) = true
    /\ endsWith p (id +:+ String c rest).

Lemma idByte_notSlash (c : ascii) : idByte c = true -> notSlash c = true.
Proof.
  intros Hc%idByte_safeByte. unfold notSlash.
  rewrite (names_props.safe_no_slash c Hc). reflexivity.
Qed.

Lemma safeByte_notSlash (c : ascii) : safeByte c = true -> notSlash c = true.
Proof.
  intros Hc. unfold notSlash. rewrite (names_props.safe_no_slash c Hc). reflexivity.
Qed.

Lemma element_id (id t : string) :
  id <> "" -> allBytes idByte id = true -> allBytes notSlash t = true ->
  element (id +:+ t).
Proof.
  intros Hne Hid Ht. destruct id as [|x id]; [congruence|].
  cbn [allBytes] in Hid. apply andb_true_iff in Hid as [Hx Hid].
  rewrite append_cons.
  assert (Hdot : x <> "."%char) by (intros ->; discriminate Hx).
  split; [discriminate|]. split; [|split].
  - cbn [allBytes]. rewrite (idByte_notSlash x Hx), allBytes_app, Ht, andb_true_r.
    exact (ident_props.allBytes_impl idByte notSlash id idByte_notSlash Hid).
  - intros [= Hx' _]. exact (Hdot Hx').
  - intros [= Hx' _]. exact (Hdot Hx').
Qed.

Lemma owned_name (id dir : string) (c : ascii) (rest : string) :
  id <> "" -> allBytes idByte id = true ->
  idByte c = false -> allBytes notSlash (String c rest) = true ->
  owned id (filepath.Join dir (id +:+ String c rest)).
Proof.
  intros Hne Hid Hc Hrest.
  destruct (element_id id (String c rest) Hne Hid Hrest) as (E1 & E2 & E3 & E4).
  exists c, rest. split; [exact Hc|]. split; [exact E2|].
  apply Join_ends. repeat split; assumption.
Qed.

(** An identifier owns no path of another one. *)
Lemma owned_unique (id1 id2 p : string) :
  allBytes idByte id1 = true -> allBytes idByte id2 = true ->
  owned id1 p -> owned id2 p -> id1 = id2.
Proof.
  intros H1 H2 (c1 & r1 & Hc1 & Hs1 & E1) (c2 & r2 & Hc2 & Hs2 & E2).
  apply (prefix_inj id1 id2 c1 c2 r1 r2 H1 H2 Hc1 Hc2).
  exact (endsWith_inj p _ _ Hs1 Hs2 E1 E2).
Qed.

Section Sweep.
Context `{CaseTable} `{Strconv}.
Variable svc : extractor.Service.

Hypothesis spaces_caseless :
  forall r, unicode.IsSpace r = true -> lowerTable r = r.

(** Every file of a stored job is owned by its identifier. *)
Lemma shelved_owned (a : App) (id : string) (j : ExtractionJob) (p : string) :
  id <> "" -> allBytes idByte id = true ->
  shelved a id j -> normal (Format j) ∈ args_props.supportedFormats ->
  p <> "" -> p ∈ referenced j -> owned id p.
Proof.
  intros Hne Hid [S1 [S2 S2'] S3 S4 S5 S6] Hf Hp Hin.
  assert (Hbase : filepath.Base id = id).
  { apply names_props.Base_safe; [exact Hne|].
    exact (allBytes_impl idByte safeByte id idByte_safeByte Hid). }
  assert (Htr : owned id (filepath.Join (outputsDir a) (id +:+ "_transcript"))).
  { apply (owned_name id _ "_" "transcript"); auto. }
  assert (Hext : forall ext,
             owned id (filepath.Join (outputsDir a) (id +:+ "_transcript") +:+ ext)
             \/ allBytes notSlash ext = false).
  { intros ext. destruct (allBytes notSlash ext) eqn:Hext; [left | right; reflexivity].
    destruct Htr as (c & rest & Hc & Hs & He).
    exists c, (rest +:+ ext). split; [exact Hc|].
    replace (id +:+ String c (rest +:+ ext)) with ((id +:+ String c rest) +:+ ext)
      by (rewrite append_assoc; reflexivity).
    split; [rewrite allBytes_app, Hs, Hext; reflexivity|].
    apply endsWith_app, He. }
  unfold referenced in Hin.
  rewrite !elem_of_cons, elem_of_nil in Hin.
  destruct Hin as [-> | [-> | [-> | [-> | []]]]].
  - rewrite S3. apply (owned_name id _ "_" (InputFileName j)); auto.
    cbn [allBytes]. rewrite andb_true_l.
    exact (allBytes_impl safeByte notSlash _ safeByte_notSlash S2').
  - destruct S4 as [S4 | S4]; [congruence|]. rewrite S4.
    destruct (extension_props.OutputName_extension spaces_caseless id (Format j) Hf)
      as (e & -> & He).
    rewrite Hbase. apply (owned_name id _ "." e); auto.
  - destruct S5 as [S5 | S5]; [congruence|]. rewrite S5.
    destruct (Hext ".txt") as [Ho | Hno]; [exact Ho | discriminate Hno].
  - destruct S6 as [S6 | S6]; [congruence|]. rewrite S6.
    destruct (Hext ".srt") as [Ho | Hno]; [exact Ho | discriminate Hno].
Qed.

(** C3, amended. One sweep at [now] removes exactly the jobs idle for more
    than the TTL ([now - updated_at > TTL]: the comparison of the code is
    strict), removes exactly the non-empty paths (input, output, transcript
    TXT, transcript SRT) of the removed jobs, and leaves every job with
    [now - updated_at <= TTL] and its files untouched: the job is stored as
    it was, and, in a registry the system can reach with the identifiers
    [newID] draws, none of its paths is removed.  The case tables of
    Unicode are assumed to leave white space alone, as those of Go do. *)
Theorem cleanup_removes_older_than_ttl (a : App) (ttl now : Z) :
  let s := cleanup a ttl now in
  (forall id,
      jobs (swept s) !! id
      = match jobs a !! id with
        | Some job => if decide (ttl < now - UpdatedAt job) then None else Some job
        | None => None
        end)
  /\ (forall job,
         job ∈ oldJobs s
         <-> exists id, jobs a !! id = Some job /\ ttl < now - UpdatedAt job)
  /\ (forall p,
         p ∈ removedFiles s
         <-> exists job, job ∈ oldJobs s /\ p <> "" /\ p ∈ referenced job)
  /\ (forall id job,
         jobs a !! id = Some job -> now - UpdatedAt job <= ttl ->
         jobs (swept s) !! id = Some job)
  /\ (forall st,
         reachable svc st -> (forall id, id ∈ used st -> drawn id) ->
         reg st = a ->
         forall id job,
           jobs a !! id = Some job -> now - UpdatedAt job <= ttl ->
           forall p, p ∈ referenced job -> p ∉ removedFiles s).
Proof.
  intros s.
  destruct (cleanup_sweep a ttl now) as (Hkept & Hold & Hfiles).
  fold s in Hkept, Hold, Hfiles.
  split; [exact Hkept|]. split; [exact Hold|]. split; [exact Hfiles|]. split.
  - intros id job Hjob Hyoung.
    rewrite Hkept, Hjob. destruct (decide (ttl < now - UpdatedAt job)); [lia|].
    reflexivity.
  - intros st Hreach Hdrawn Hreg id job Hjob Hyoung p Hp Hrem.
    apply Hfiles in Hrem as (job1 & Hin1 & Hne & Hp1).
    apply Hold in Hin1 as (id1 & Hjob1 & Hold1).
    pose proof (reachable_engineInv svc st Hreach) as Hinv.
    destruct (reachable_filesInv svc st Hreach) as [Hsh _].
    destruct (reachable_formatInv svc spaces_caseless st Hreach) as [Hfmt _].
    rewrite Hreg in Hsh, Hfmt.
    assert (Hown : forall i j, jobs a !! i = Some j -> p ∈ referenced j ->
                     allBytes idByte i = true /\ owned i p).
    { intros i j Hj Hpj.
      assert (Hused : i ∈ used st)
        by (apply (inv_used_jobs st Hinv i j); rewrite Hreg; exact Hj).
      destruct (drawn_alphabet i (Hdrawn i Hused)) as [Hi Hbytes].
      split; [exact Hbytes|].
      exact (shelved_owned a i j p Hi Hbytes (Hsh i j Hj)
               (proj1 (Hfmt i j Hj)) Hne Hpj). }
    destruct (Hown id job Hjob Hp) as [Hb Ho].
    destruct (Hown id1 job1 Hjob1 Hp1) as [Hb1 Ho1].
    pose proof (owned_unique id id1 p Hb Hb1 Ho Ho1) as Heq. subst id1.
    rewrite Hjob in Hjob1. injection Hjob1 as <-. lia.
Qed.

End Sweep.

(** Two jobs under identifiers of the two kinds: the first one is
    extracted, the second one uploaded much later. *)
Definition randomID : string := ident.newID (Some "12345678") 0.
Definition fallbackID : string := ident.newID None 1700000000.

Definition twoDrawn : State :=
  demo_props.playDemo demo_run.start
    ([mvUpload handlers_props.demoRequest randomID 7;
      mvStartExtraction randomID 9;
      mvAdvance 0 10; mvAdvance 0 10;
      mvRunExtraction 1 demo_run.extractionOK]
     ++ replicate 11 (mvAdvance 1 20)
     ++ [mvUpload handlers_props.demoRequest fallbackID 90]).

Definition lateJob : ExtractionJob :=
  {| ID := "job-1700000000"; InputFileName := "clip_one.mp4";
     InputPath := "uploads/job-1700000000_clip_one.mp4";
     OutputPath := ""; OutputName := ""; Format := "flac"; Quality := "medium";
     Status := StatusUploaded; Progress := 0; Error := "";
     TranscriptStatus := StatusNotStarted; TranscriptProgress := 0;
     TranscriptError := ""; TranscriptTXTPath := ""; TranscriptTXTName := "";
     TranscriptSRTPath := ""; TranscriptSRTName := "";
     CreatedAt := 90; UpdatedAt := 90 |}.

Lemma twoDrawn_ids (id : string) : id ∈ used twoDrawn -> drawn id.
Proof.
  intros Hin. apply elem_of_elements in Hin.
  replace (elements (used twoDrawn)) with [randomID; fallbackID] in Hin
    by (vm_compute; reflexivity).
  rewrite !elem_of_cons, elem_of_nil in Hin.
  destruct Hin as [-> | [-> | []]].
  - exists (Some "12345678"), 0. split; [intros b [= <-]; reflexivity | reflexivity].
  - exists None, 1700000000. split; [intros b; discriminate | reflexivity].
Qed.

Lemma cleanup_removes_older_than_ttl_witness :
  jobs (swept (cleanup (reg twoDrawn) 30 100)) !! randomID = None
  /\ removedFiles (cleanup (reg twoDrawn) 30 100)
     = ["uploads/3132333435363738_clip_one.mp4"; "outputs/3132333435363738.flac"]
  /\ jobs (swept (cleanup (reg twoDrawn) 30 100)) !! fallbackID = Some lateJob
  /\ InputPath lateJob ∉ removedFiles (cleanup (reg twoDrawn) 30 100).
Proof.
  destruct (@cleanup_removes_older_than_ttl asciiCase decimalStrconv
              adapters_props.svcDemo (fun r _ => eq_refl) (reg twoDrawn) 30 100)
    as (_ & _ & _ & Hyoung & Hfiles).
  assert (Hlate : jobs (reg twoDrawn) !! fallbackID = Some lateJob)
    by (vm_compute; reflexivity).
  split; [vm_compute; reflexivity|]. split; [vm_compute; reflexivity|].
  split; [exact (Hyoung fallbackID lateJob Hlate ltac:(cbn; lia))|].
  apply (Hfiles twoDrawn
           (schedule_props.play_reachable _ _ _ demo_props.start_reachable)
           twoDrawn_ids eq_refl fallbackID lateJob Hlate ltac:(cbn; lia)).
  unfold referenced. apply elem_of_cons. left. reflexivity.
Defined.

End sweep_props.
